(** * Algorithm-Visualizer: trace engines, shallowly embedded

    The step-trace engines of the visualizer components (string matching,
    shortest paths, minimum spanning tree, Huffman coding), written as Rocq
    functions, followed by the properties established about them.

    Conventions of the embedding.
    - A JavaScript string is its sequence of UTF-16 code units ([list N]);
      [s !! i] is [s[i]], with [None] for [undefined].
    - JavaScript numbers are used by the engines as integers: they are
      modelled by [Z] (exact as long as every intermediate value stays
      below 2^53 in magnitude), [%] is the truncating remainder [Z.rem].
    - [steps.push({step: stepCounter++, ...})]: the counter starts at 1 and is
      incremented exactly at each push, so it is always [length steps + 1];
      [push] below supplies it to the record being appended.
    - Template-string descriptions are kept as constructors carrying the
      interpolated values. *)

From stdpp Require Import base list option numbers strings gmap sorting.
From Stdlib Require Import ZArith Lia.


(** ** Shared vocabulary *)

Abbreviation jsstring := (list N) (only parsing).

(** [steps.push({step: stepCounter++, ...})] *)
Definition push {S : Type} (steps : list S) (mk : nat → S) : list S :=
  steps ++ [mk (length steps + 1)].

(** [s.substring(a, b)] for [a <= b] (both are clamped to the length). *)
Definition substring (s : jsstring) (a b : nat) : jsstring :=
  take (b - a) (drop a s).

(** [a === b] on values that are a one-unit string or [undefined]. *)
Definition strict_eq (a b : option N) : bool := bool_decide (a = b).

(** Code units of an ASCII literal, for examples. *)
Fixpoint of_string (s : string) : jsstring :=
  match s with
  | EmptyString => []
  | String a r => Ascii.N_of_ascii a :: of_string r
  end.

(** ** Occurrences of a pattern *)

(** The start offsets at which [pattern] occurs in [text], ascending. *)
Definition occurrences (text pattern : jsstring) : list nat :=
  filter (λ i, take (length pattern) (drop i text) = pattern)
         (seq 0 (length text + 1 - length pattern)).

Lemma occurs_at_iff (text pattern : jsstring) (i : nat) :
  i + length pattern ≤ length text →
  take (length pattern) (drop i text) = pattern
  ↔ ∀ j, j < length pattern → text !! (i + j) = pattern !! j.
Proof.
  intros Hlen. split.
  - intros E j Hj.
    transitivity (take (length pattern) (drop i text) !! j); [|by rewrite E].
    by rewrite lookup_take_lt, lookup_drop by lia.
  - intros H. apply list_eq. intros j.
    destruct (decide (j < length pattern)) as [Hj|Hj].
    + rewrite lookup_take_lt, lookup_drop by lia. auto.
    + rewrite lookup_take_ge by lia. symmetry. apply lookup_ge_None. lia.
Qed.

Lemma seq_snoc (a c : nat) : seq a (c + 1) = seq a c ++ [a + c].
Proof. rewrite seq_app. done. Qed.

(** ** Naive search (NaiveVisualizer) *)

Module Naive.

Inductive Description :=
| Initialize
| StartingWindow (i : nat)
| CharMatch (t p : option N) (pos : nat)
| CompleteMatch (i : nat)
| CharMismatch (t p : option N) (pos : nat)
| ShiftPattern
| SearchComplete (found comparisons : nat).

Record NaiveStep := mkStep {
  step : nat;
  description : Description;
  textIndex : Z;
  patternIndex : Z;
  windowStart : Z;
  isMatch : bool;
  isCompleteMatch : bool;
  matches : list nat;
  comparisons : nat
}.

Section Search.
Variables text pattern : jsstring.
Let n := length text.
Let m := length pattern.

(** [while (j < m && text[i + j] === pattern[j]) { comparisons++; push; j++ }].
    The loop body runs at most [m] times, which is the fuel given by the
    caller; [j = m] when it is used up. *)
Fixpoint compare_loop (fuel i j : nat) (found : list nat) (cmps : nat)
    (steps : list NaiveStep) : nat * nat * list NaiveStep :=
  match fuel with
  | 0 => (j, cmps, steps)
  | S fuel' =>
      if bool_decide (j < m) && strict_eq (text !! (i + j)) (pattern !! j)
      then
        let cmps := cmps + 1 in
        let steps := push steps (λ c,
          mkStep c (CharMatch (text !! (i + j)) (pattern !! j) (i + j))
                 (Z.of_nat (i + j)) (Z.of_nat j) (Z.of_nat i)
                 true false found cmps) in
        compare_loop fuel' i (j + 1) found cmps steps
      else (j, cmps, steps)
  end.

(** One iteration of [for (let i = 0; i <= n - m; i++)]. *)
Definition window_body (i : nat) (st : list nat * nat * list NaiveStep)
    : list nat * nat * list NaiveStep :=
  let '(found, cmps, steps) := st in
  let steps := push steps (λ c,
    mkStep c (StartingWindow i) (Z.of_nat i) 0 (Z.of_nat i)
           false false found cmps) in
  let '(j, cmps, steps) := compare_loop m i 0 found cmps steps in
  let '(found, cmps, steps) :=
    if bool_decide (j = m) then
      let found := found ++ [i] in
      (found, cmps, push steps (λ c,
        mkStep c (CompleteMatch i)
               (Z.of_nat i + Z.of_nat j - 1) (Z.of_nat j - 1) (Z.of_nat i)
               true true found cmps))
    else if bool_decide (i + j < n) then
      let cmps := cmps + 1 in
      (found, cmps, push steps (λ c,
        mkStep c (CharMismatch (text !! (i + j)) (pattern !! j) (i + j))
               (Z.of_nat (i + j)) (Z.of_nat j) (Z.of_nat i)
               false false found cmps))
    else (found, cmps, steps) in
  let steps :=
    if bool_decide (Z.of_nat i < Z.of_nat n - Z.of_nat m)%Z then
      push steps (λ c,
        mkStep c ShiftPattern (Z.of_nat i + 1) 0 (Z.of_nat i + 1)
               false false found cmps)
    else steps in
  (found, cmps, steps).

(** The [for] loop, by the number of iterations left. *)
Fixpoint window_loop (count i : nat) (st : list nat * nat * list NaiveStep)
    : list nat * nat * list NaiveStep :=
  match count with
  | 0 => st
  | S count' => window_loop count' (i + 1) (window_body i st)
  end.

(** [naiveSearch]: the trace handed to [setSteps] and the offsets handed
    to [setMatches]. *)
Definition naiveSearch : list NaiveStep * list nat :=
  let steps := push [] (λ c,
    mkStep c Initialize 0 0 0 false false [] 0) in
  let '(found, cmps, steps) :=
    window_loop (Z.to_nat (Z.of_nat n - Z.of_nat m + 1)) 0 ([], 0, steps) in
  let steps := push steps (λ c,
    mkStep c (SearchComplete (length found) cmps)
           (Z.of_nat n - 1) 0 (Z.of_nat n - Z.of_nat m)
           false false found cmps) in
  (steps, found).
End Search.

Section NaiveFacts.
Variables text pattern : jsstring.
Let n := length text.
Let m := length pattern.

Lemma compare_loop_spec fuel : ∀ i j found cmps steps,
  j + fuel = m →
  (∀ k, k < j → text !! (i + k) = pattern !! k) →
  ∃ j' cmps' steps',
    compare_loop text pattern fuel i j found cmps steps = (j', cmps', steps')
    ∧ j' ≤ m
    ∧ (∀ k, k < j' → text !! (i + k) = pattern !! k)
    ∧ (j' < m → text !! (i + j') ≠ pattern !! j')
    ∧ steps `prefix_of` steps'.
Proof.
  induction fuel as [|fuel IH]; intros i j found cmps steps Hf Hpre; cbn [compare_loop].
  - exists j, cmps, steps. repeat split; [lia|done|lia|done].
  - unfold strict_eq.
    case_bool_decide as E1; cbn [andb]; [|unfold m in Hf; lia].
    case_bool_decide as E2.
    + match goal with
      | |- context [compare_loop _ _ _ _ ?j1 ?f ?c ?s] =>
          destruct (IH i j1 f c s) as (j' & c' & s' & -> & ? & ? & ? & Hp)
      end.
      * lia.
      * intros k Hk.
        destruct (decide (k = j)) as [->|]; [done|]. apply Hpre. lia.
      *  eexists _, _, _. split; [reflexivity|]. repeat split; [done..|].
        etrans; [|exact Hp]. by apply prefix_app_r.
    + exists j, cmps, steps. repeat split; [lia|done|done|done].
Qed.

Lemma window_body_found i found cmps steps :
  i + m ≤ n →
  ∃ cmps' steps',
    window_body text pattern i (found, cmps, steps)
    = (found ++ filter (λ i, take m (drop i text) = pattern) [i], cmps', steps')
    ∧ steps `prefix_of` steps'.
Proof.
  intros Hi. unfold window_body. fold n m.
  pose proof (occurs_at_iff text pattern i Hi) as Hocc. fold m in Hocc.
  set (steps1 := push steps _).
  assert (Hp1 : steps `prefix_of` steps1) by (by apply prefix_app_r).
  destruct (compare_loop_spec m i 0 found cmps steps1)
    as (j & c1 & s1 & -> & Hj & Hm & Hmis & Hp2); [lia | intros; lia |].
  assert (Hp3 : steps `prefix_of` s1) by (by etrans).
  assert (Hp4 : ∀ mk, steps `prefix_of` push s1 mk)
    by (intros; etrans; [exact Hp3 | by apply prefix_app_r]).
  assert (Hp5 : ∀ mk mk', steps `prefix_of` push (push s1 mk) mk')
    by (intros; etrans; [apply Hp4 | by apply prefix_app_r]).
  fold n m. rewrite filter_cons, filter_nil.
  case_bool_decide as E1.
  - subst j. rewrite decide_True by (by apply Hocc).
    case_bool_decide; eexists _, _; (split; [reflexivity|]); auto.
  - rewrite decide_False.
    2:{ intros E. apply Hmis; [lia|]. apply Hocc; [done|lia]. }
    rewrite app_nil_r.
    repeat case_bool_decide; eexists _, _; (split; [reflexivity|]); auto.
Qed.

Lemma window_loop_found count : ∀ i found cmps steps,
  (count ≠ 0 → i + count + m ≤ n + 1) →
  ∃ cmps' steps',
    window_loop text pattern count i (found, cmps, steps)
    = (found ++ filter (λ i, take m (drop i text) = pattern) (seq i count),
       cmps', steps')
    ∧ steps `prefix_of` steps'.
Proof.
  induction count as [|count IH]; intros i found cmps steps Hc; cbn [window_loop].
  - cbn. rewrite app_nil_r. eauto.
  - destruct (window_body_found i found cmps steps) as (c1 & s1 & -> & Hp1); [lia|].
    destruct (IH (i + 1) (found ++ filter (λ i, take m (drop i text) = pattern) [i]) c1 s1)
      as (c2 & s2 & -> & Hp2); [lia|].
    exists c2, s2. split; [|by etrans]. f_equal. f_equal.
    rewrite <- app_assoc, <- filter_app. do 2 f_equal.
    cbn [seq app]. do 2 f_equal. lia.
Qed.

(** [naiveSearch] reports exactly the occurrences, both to [setMatches] and
    in the [matches] field of the last step of the trace. *)
Lemma naiveSearch_found :
  ∃ rest s,
    naiveSearch text pattern
    = ((mkStep 1 Initialize 0 0 0 false false [] 0 :: rest) ++ [s],
       occurrences text pattern)
    ∧ matches s = occurrences text pattern.
Proof.
  unfold naiveSearch. fold n m.
  set (count := Z.to_nat (Z.of_nat n - Z.of_nat m + 1)).
  assert (Hc : count = n + 1 - m) by lia.
  set (steps0 := push [] _).
  destruct (window_loop_found count 0 [] 0 steps0) as (c1 & s1 & -> & [rest ->]); [lia|].
  rewrite app_nil_l, Hc. fold (occurrences text pattern).
  unfold push. eexists _, _. split; [reflexivity|]. done.
Qed.
End NaiveFacts.

End Naive.

(** ** Knuth-Morris-Pratt (KMPVisualizer) *)

Module KMP.

Inductive Description :=
| Initialize
| MatchFound (t : option N) (pos : nat)
| CompleteMatch (pos : nat)
| Mismatch (t p : option N) (pos : nat)
| UsingFailure (patternIndex : nat)
| SearchComplete (found : nat).

Record KMPStep := mkStep {
  step : nat;
  description : Description;
  textIndex : Z;
  patternIndex : Z;
  isMatch : bool;
  matches : list nat
}.

(** [lps[k]] at the places where the engines read it; the index is always
    inside the array there. *)
Definition lps_at (lps : list nat) (k : nat) : nat := default 0 (lps !! k).

Section Search.
Variable pattern : jsstring.
Let m := length pattern.

(** The [while (i < pattern.length)] loop of [buildFailureFunction];
    [None] when the fuel does not reach the exit of the loop. *)
Fixpoint failure_loop (fuel : nat) (lps : list nat) (len i : nat)
    : option (list nat) :=
  if bool_decide (i < m) then
    match fuel with
    | 0 => None
    | S fuel' =>
        if strict_eq (pattern !! i) (pattern !! len) then
          let len := len + 1 in
          failure_loop fuel' (<[i := len]> lps) len (i + 1)
        else if bool_decide (len ≠ 0) then
          failure_loop fuel' lps (lps_at lps (len - 1)) i
        else
          failure_loop fuel' (<[i := 0]> lps) len (i + 1)
    end
  else Some lps.

Definition buildFailureFunction : option (list nat) :=
  failure_loop (2 * m) (replicate m 0) 0 1.

Variable text : jsstring.
Let n := length text.

(** The [while (textIndex < text.length)] loop of [kmpSearch]. *)
Fixpoint search_loop (fuel : nat) (lps : list nat) (ti pi : nat)
    (found : list nat) (steps : list KMPStep)
    : option (list nat * list KMPStep) :=
  if bool_decide (ti < n) then
    match fuel with
    | 0 => None
    | S fuel' =>
        if strict_eq (text !! ti) (pattern !! pi) then
          let steps := push steps (λ c,
            mkStep c (MatchFound (text !! ti) ti)
                   (Z.of_nat ti) (Z.of_nat pi) true found) in
          let ti := ti + 1 in
          let pi := pi + 1 in
          if bool_decide (pi = m) then
            let found := found ++ [ti - pi] in
            let steps := push steps (λ c,
              mkStep c (CompleteMatch (ti - pi))
                     (Z.of_nat ti - 1) (Z.of_nat pi - 1) true found) in
            search_loop fuel' lps ti (lps_at lps (pi - 1)) found steps
          else search_loop fuel' lps ti pi found steps
        else
          let steps := push steps (λ c,
            mkStep c (Mismatch (text !! ti) (pattern !! pi) ti)
                   (Z.of_nat ti) (Z.of_nat pi) false found) in
          if bool_decide (pi ≠ 0) then
            let pi := lps_at lps (pi - 1) in
            let steps := push steps (λ c,
              mkStep c (UsingFailure pi)
                     (Z.of_nat ti) (Z.of_nat pi) false found) in
            search_loop fuel' lps ti pi found steps
          else search_loop fuel' lps (ti + 1) pi found steps
    end
  else Some (found, steps).

(** [kmpSearch]: the failure function, the trace and the offsets handed
    to the component state. *)
Definition kmpSearch : option (list nat * list KMPStep * list nat) :=
  lps ← buildFailureFunction;
  let steps := push [] (λ c, mkStep c Initialize 0 0 false []) in
  '(found, steps) ← search_loop (2 * n) lps 0 0 [] steps;
  let steps := push steps (λ c,
    mkStep c (SearchComplete (length found))
           (Z.of_nat n - 1) 0 false found) in
  Some (lps, steps, found).
End Search.

(** [pmatch A B k t]: the first [k] units of [A] are the [k] units of [B]
    that end just before position [t]. *)
Definition pmatch (A B : jsstring) (k t : nat) : Prop :=
  k ≤ t ∧ ∀ j, j < k → A !! j = B !! (t - k + j).

Lemma pmatch_0 A B t : pmatch A B 0 t.
Proof. split; [lia|]. intros j Hj. lia. Qed.

Lemma pmatch_S A B k t :
  pmatch A B (k + 1) (t + 1) ↔ pmatch A B k t ∧ A !! k = B !! t.
Proof.
  split.
  - intros [Hle H]. split; [split; [lia|]|].
    + intros j Hj. rewrite (H j) by lia. f_equal. lia.
    + rewrite (H k) by lia. f_equal. lia.
  - intros [[Hle H] E]. split; [lia|]. intros j Hj.
    destruct (decide (j = k)) as [->|].
    + rewrite E. f_equal. lia.
    + rewrite (H j) by lia. f_equal. lia.
Qed.

Lemma pmatch_pred A B k t :
  pmatch A B k t → 1 ≤ k → pmatch A B (k - 1) (t - 1) ∧ A !! (k - 1) = B !! (t - 1).
Proof.
  intros H Hk. apply pmatch_S.
  assert (k ≤ t) by apply H.
  replace (k - 1 + 1) with k by lia. replace (t - 1 + 1) with t by lia. done.
Qed.

Lemma pmatch_border A B k k' t :
  pmatch A B k t → pmatch A A k' k → pmatch A B k' t.
Proof.
  intros [Hle H] [Hle' H']. split; [lia|]. intros j Hj.
  rewrite (H' j), (H (k - k' + j)) by lia. f_equal. lia.
Qed.

Lemma pmatch_common A B k k' t :
  pmatch A B k t → pmatch A B k' t → k' ≤ k → pmatch A A k' k.
Proof.
  intros [Hle H] [Hle' H'] Hk. split; [lia|]. intros j Hj.
  rewrite (H' j), (H (k - k' + j)) by lia. f_equal. lia.
Qed.

Section KMPFacts.
Variable pattern : jsstring.
Let m := length pattern.

(** [k] is the length of the longest proper border of the prefix of length [q]. *)
Definition is_lpb (k q : nat) : Prop :=
  k < q ∧ pmatch pattern pattern k q
  ∧ ∀ k', k' < q → pmatch pattern pattern k' q → k' ≤ k.

Definition lps_ok (lps : list nat) (i : nat) : Prop :=
  ∀ j, j < i → is_lpb (lps_at lps j) (j + 1).

Lemma lps_at_insert lps i v : i < length lps → lps_at (<[i := v]> lps) i = v.
Proof. intros H. unfold lps_at. by rewrite list_lookup_insert_eq. Qed.

Lemma lps_at_insert_ne lps i j v : i ≠ j → lps_at (<[i := v]> lps) j = lps_at lps j.
Proof. intros H. unfold lps_at. by rewrite list_lookup_insert_ne. Qed.

Lemma lps_ok_insert lps i v :
  length lps = m → i < m → lps_ok lps i → is_lpb v (i + 1) →
  lps_ok (<[i := v]> lps) (i + 1).
Proof.
  intros Hl Hi Hok Hv j Hj. destruct (decide (j = i)) as [->|].
  - rewrite lps_at_insert by lia. done.
  - rewrite lps_at_insert_ne by done. apply Hok. lia.
Qed.

Lemma failure_loop_spec fuel : ∀ lps len i,
  length lps = m → 1 ≤ i ≤ m → len < i →
  pmatch pattern pattern len i →
  (∀ k, k < i → pmatch pattern pattern k i → pattern !! i = pattern !! k → k ≤ len) →
  lps_ok lps i →
  2 * (m - i) + len ≤ fuel →
  ∃ lps', failure_loop pattern fuel lps len i = Some lps'
          ∧ length lps' = m ∧ lps_ok lps' m.
Proof.
  induction fuel as [|fuel IH]; intros lps len i Hl Hi Hlen Hpm Hext Hok Hfuel.
  - assert (i = m) as -> by lia. cbn. fold m.
    rewrite bool_decide_eq_false_2 by lia. eauto.
  - cbn [failure_loop]. fold m. case_bool_decide as Him; [|assert (i = m) as -> by lia; eauto].
    unfold strict_eq. case_bool_decide as Heq.
    + (* extend the border *)
      assert (Hmax : ∀ k, k < i + 1 → pmatch pattern pattern k (i + 1) → k ≤ len + 1).
      { intros k Hk Hp. destruct (decide (k = 0)) as [->|]; [lia|].
        apply pmatch_pred in Hp as [Hp Hc]; [|lia].
        replace (i + 1 - 1) with i in * by lia.
        enough (k - 1 ≤ len) by lia. apply Hext; [lia|done|done]. }
      assert (Hb : pmatch pattern pattern (len + 1) (i + 1))
        by (apply pmatch_S; auto).
      apply IH; [by rewrite length_insert|lia|lia|done| |
                 apply lps_ok_insert; [done..|] | lia].
      * intros k Hk Hp _. by apply Hmax.
      * split; [lia|]. split; [done|]. done.
    + case_bool_decide as Hlen0.
      * (* fall back *)
        destruct (Hok (len - 1)) as (Hlt & Hb & Hbmax); [lia|].
        replace (len - 1 + 1) with len in * by lia.
        apply IH; [done|lia|lia| |  |done|lia].
        -- eapply pmatch_border; eauto.
        -- intros k Hk Hp Hc.
           assert (k ≤ len) by auto.
           assert (k ≠ len) by (intros ->; auto).
           apply Hbmax; [lia|].
           apply (pmatch_common pattern pattern len k i); [exact Hpm|exact Hp|lia].
      * assert (len = 0) as -> by (destruct (decide (len = 0)); [done|contradiction]).
        assert (Hmax : ∀ k, k < i + 1 → pmatch pattern pattern k (i + 1) → k ≤ 0).
        { intros k Hk Hp. destruct (decide (k = 0)) as [->|]; [lia|].
          apply pmatch_pred in Hp as [Hp Hc]; [|lia].
          replace (i + 1 - 1) with i in * by lia.
          assert (k - 1 ≤ 0) by (apply Hext; [lia|done|done]).
          assert (k = 1) as -> by lia. by destruct Heq. }
        apply IH; [by rewrite length_insert|lia|lia|apply pmatch_0| |
                   apply lps_ok_insert; [done..|] | lia].
        -- intros k Hk Hp _. by apply Hmax.
        -- split; [lia|]. split; [apply pmatch_0|done].
Qed.

Lemma buildFailureFunction_spec :
  1 ≤ m →
  ∃ lps, buildFailureFunction pattern = Some lps ∧ length lps = m ∧ lps_ok lps m.
Proof.
  intros Hm. unfold buildFailureFunction. fold m.
  apply failure_loop_spec; [by rewrite length_replicate|lia|lia|apply pmatch_0| | |lia].
  - intros k Hk. lia.
  - intros j Hj. assert (j = 0) as -> by lia.
    unfold lps_at. rewrite lookup_replicate_2 by lia. cbn.
    split; [lia|]. split; [apply pmatch_0|]. intros; lia.
Qed.


Variable text : jsstring.
Let n := length text.

Let occ (i : nat) : Prop := take m (drop i text) = pattern.

Lemma occ_pmatch i :
  i + m ≤ n → occ i ↔ pmatch pattern text m (i + m).
Proof.
  intros Hi. unfold occ, m. rewrite occurs_at_iff by done. fold m.
  split.
  - intros H. split; [lia|]. intros j Hj. rewrite <- H by done. f_equal. lia.
  - intros [_ H] j Hj. rewrite H by done. f_equal. lia.
Qed.

(** Occurrences that end at or before [ti]. *)
Let found_upto (ti : nat) : list nat := filter occ (seq 0 (ti + 1 - m)).

Lemma found_upto_hit ti :
  m ≤ ti + 1 → ti + 1 ≤ n → pmatch pattern text m (ti + 1) →
  found_upto (ti + 1) = found_upto ti ++ [ti + 1 - m].
Proof.
  intros H1 H2 Hp. unfold found_upto.
  replace (ti + 1 + 1 - m) with (ti + 1 - m + 1) by lia.
  rewrite seq_snoc, filter_app. f_equal.
  rewrite filter_cons, filter_nil, decide_True; [done|].
  apply occ_pmatch; [lia|]. by replace (0 + (ti + 1 - m) + m) with (ti + 1) by lia.
Qed.

Lemma found_upto_miss ti :
  ti + 1 ≤ n → ¬ pmatch pattern text m (ti + 1) →
  found_upto (ti + 1) = found_upto ti.
Proof.
  intros H2 Hp. unfold found_upto.
  destruct (decide (m ≤ ti + 1)) as [H1|H1].
  - replace (ti + 1 + 1 - m) with (ti + 1 - m + 1) by lia.
    rewrite seq_snoc, filter_app.
    rewrite filter_cons, filter_nil, decide_False; [by rewrite app_nil_r|].
    intros Ho. apply Hp. apply occ_pmatch in Ho; [|lia].
    by replace (0 + (ti + 1 - m) + m) with (ti + 1) in Ho by lia.
  - by replace (ti + 1 + 1 - m) with 0 by lia; replace (ti + 1 - m) with 0 by lia.
Qed.

Lemma search_loop_spec lps fuel : ∀ ti pi steps,
  lps_ok lps m → 1 ≤ m → ti ≤ n → pi < m →
  pmatch pattern text pi ti →
  (∀ k, k < m → pmatch pattern text k ti → text !! ti = pattern !! k → k ≤ pi) →
  2 * (n - ti) + pi ≤ fuel →
  ∃ steps',
    search_loop pattern text fuel lps ti pi (found_upto ti) steps
    = Some (occurrences text pattern, steps')
    ∧ steps `prefix_of` steps'.
Proof.
  intros ti pi steps Hok Hm. revert ti pi steps.
  assert (Hdone : found_upto n = occurrences text pattern) by done.
  induction fuel as [|fuel IH]; intros ti pi steps Hti Hpi Hpm Hext Hfuel.
  - assert (ti = n) as -> by lia. cbn. fold n.
    rewrite bool_decide_eq_false_2 by lia. rewrite Hdone. eauto.
  - cbn [search_loop]. fold n m.
    case_bool_decide as Htn;
      [|assert (ti = n) as -> by lia; rewrite Hdone; eauto].
    unfold strict_eq. case_bool_decide as Heq.
    + (* the characters agree *)
      assert (Hp1 : pmatch pattern text (pi + 1) (ti + 1)) by (apply pmatch_S; auto).
      assert (Hmax : ∀ k, k ≤ m → pmatch pattern text k (ti + 1) → k ≤ pi + 1).
      { intros k Hk Hp. destruct (decide (k = 0)) as [->|]; [lia|].
        apply pmatch_pred in Hp as [Hp Hc]; [|lia].
        replace (ti + 1 - 1) with ti in * by lia.
        enough (k - 1 ≤ pi) by lia. apply Hext; [lia|done|done]. }
      assert (Hle : pi ≤ ti) by apply Hpm.
      case_bool_decide as Hfull.
      * (* a complete match *)
        rewrite Hfull in Hp1.
        replace (ti + 1 - (pi + 1)) with (ti + 1 - m) by lia.
        rewrite <- found_upto_hit by (done || lia).
        destruct (Hok (m - 1)) as (Hlt & Hb & Hbmax); [lia|].
        replace (m - 1 + 1) with m in * by lia.
        replace (pi + 1 - 1) with (m - 1) by lia.
        edestruct (IH (ti + 1) (lps_at lps (m - 1))) as (s' & -> & Hpre);
          [lia|lia| | |lia|].
        -- eapply pmatch_border; eauto.
        -- intros k Hk Hp _. apply Hbmax; [done|].
           apply (pmatch_common pattern text m k (ti + 1)); [done|done|lia].
        -- eexists. split; [done|]. etrans; [|exact Hpre].
           unfold push. by repeat apply prefix_app_r.
      * rewrite <- (found_upto_miss ti); [|lia|].
        2:{ intros Hp. apply Hmax in Hp; lia. }
        edestruct (IH (ti + 1) (pi + 1)) as (s' & -> & Hpre); [lia|lia|done| |lia|].
        -- intros k Hk Hp _. apply Hmax; [lia|done].
        -- eexists. split; [done|]. etrans; [|exact Hpre].
           unfold push. by repeat apply prefix_app_r.
    + case_bool_decide as Hpi0.
      * (* fall back through the failure function *)
        destruct (Hok (pi - 1)) as (Hlt & Hb & Hbmax); [lia|].
        replace (pi - 1 + 1) with pi in * by lia.
        edestruct (IH ti (lps_at lps (pi - 1))) as (s' & -> & Hpre); [lia|lia| | |lia|].
        -- eapply pmatch_border; eauto.
        -- intros k Hk Hp Hc.
           assert (k ≤ pi) by auto.
           assert (k ≠ pi) by (intros ->; auto).
           apply Hbmax; [lia|].
           apply (pmatch_common pattern text pi k ti); [done|done|lia].
        -- eexists. split; [done|]. etrans; [|exact Hpre].
           unfold push. by repeat apply prefix_app_r.
      * assert (pi = 0) as -> by (destruct (decide (pi = 0)); [done|contradiction]).
        assert (Hmax : ∀ k, k ≤ m → pmatch pattern text k (ti + 1) → k ≤ 0).
        { intros k Hk Hp. destruct (decide (k = 0)) as [->|]; [lia|].
          apply pmatch_pred in Hp as [Hp Hc]; [|lia].
          replace (ti + 1 - 1) with ti in * by lia.
          assert (k - 1 ≤ 0) by (apply Hext; [lia|done|done]).
          assert (k = 1) as -> by lia. by destruct Heq. }
        rewrite <- (found_upto_miss ti); [|lia|].
        2:{ intros Hp. apply Hmax in Hp; lia. }
        edestruct (IH (ti + 1) 0) as (s' & -> & Hpre); [lia|lia|apply pmatch_0| |lia|].
        -- intros k Hk Hp _. apply Hmax; [lia|done].
        -- eexists. split; [done|]. etrans; [|exact Hpre].
           unfold push. by repeat apply prefix_app_r.
Qed.

(** [kmpSearch] succeeds on a non-empty pattern and reports exactly the
    occurrences, both to [setMatches] and in the last step of the trace. *)
Lemma kmpSearch_found :
  1 ≤ m →
  ∃ lps rest s,
    kmpSearch pattern text
    = Some (lps, (mkStep 1 Initialize 0 0 false [] :: rest) ++ [s],
            occurrences text pattern)
    ∧ description s = SearchComplete (length (occurrences text pattern))
    ∧ matches s = occurrences text pattern.
Proof.
  intros Hm. unfold kmpSearch.
  destruct (buildFailureFunction_spec Hm) as (lps & -> & Hl & Hok).
  cbn [mbind option_bind]. fold n.
  set (steps0 := push [] _).
  destruct (search_loop_spec lps (2 * n) 0 0 steps0) as (s' & E & [rest ->]);
    [done|done|lia|lia|apply pmatch_0| |lia|].
  { intros k Hk Hp. destruct Hp. lia. }
  assert (E0 : found_upto 0 = []).
  { unfold found_upto. by replace (0 + 1 - m) with 0 by lia. }
  rewrite E0 in E. rewrite E. cbn [mbind option_bind]. unfold push.
  eexists _, _, _. split; [reflexivity|]. done.
Qed.

End KMPFacts.

End KMP.

(** ** Rabin-Karp (RabinKarpVisualizer) *)

Module RabinKarp.

Inductive Description :=
| Initialize (patternHash windowHash : Z)
| ExactMatch (i : nat)
| HashCollision (i : nat)
| RollingHash (oldChar newChar : N) (windowHash : Z)
| SearchComplete (found : nat).

Record RabinKarpStep := mkStep {
  step : nat;
  description : Description;
  windowStart : nat;
  currentWindow : jsstring;
  windowHash : Z;
  patternHash : Z;
  isHashMatch : bool;
  isExactMatch : bool;
  matches : list nat
}.

(** What one run hands to the component state: [setSteps], [setMatches]
    and, when the search is made, [setHashTable]. *)
Record Outcome := mkOutcome {
  out_steps : list RabinKarpStep;
  out_matches : list nat;
  out_hashTable : option (gmap jsstring Z)
}.

(** A JS number is an IEEE 754 double. The numbers of this search are
    integers: [to_double x] is the double that an operation returns when its
    exact result is the integer [x]. That is [x] itself up to 2^53 in
    absolute value; beyond, it is the nearest multiple of the spacing of
    the doubles around [x], the one with the even significand when two are
    as near. (A result of 2^1024 or more is [Infinity], which is not
    modelled.) The remainder [%] of two doubles is exact. *)
Definition to_double (x : Z) : Z :=
  let a := Z.abs x in
  if (a <=? 2 ^ 53)%Z then x
  else
    let ulp := (2 ^ (Z.log2 a - 52))%Z in
    let q := (a / ulp)%Z in
    let r := (a mod ulp)%Z in
    let q' := if (2 * r <? ulp)%Z then q
              else if (ulp <? 2 * r)%Z then (q + 1)%Z
              else if Z.even q then q else (q + 1)%Z in
    (Z.sgn x * (q' * ulp))%Z.

(** The strings of JS are made of 16-bit code units. *)
Definition code_units (s : jsstring) : Prop := Forall (λ c, (c < 65536)%N) s.

(** [base] and [prime] for which no operation of the search rounds: every
    product and sum it forms stays within 2^53. *)
Definition exact_range (base prime : Z) : Prop :=
  (base * prime + 65535 <= 2 ^ 53)%Z ∧ (65535 * prime <= 2 ^ 53)%Z.

Section Search.
Variables base prime : Z.
Local Open Scope Z_scope.

Definition charToNum (char : N) : Z := Z.of_N char.

(** The [for (i = 0; i < length; i++)] loop of [calculateHash];
    [str[i]] being [undefined] makes [charCodeAt] throw ([None]). *)
Fixpoint hash_loop (count i : nat) (str : jsstring) (hash : Z) : option Z :=
  match count with
  | 0%nat => Some hash
  | S count' =>
      c ← str !! i;
      hash_loop count' (i + 1)%nat str
        (Z.rem (to_double (to_double (hash * base) + charToNum c)) prime)
  end.

Definition calculateHash (str : jsstring) (length : nat) : option Z :=
  hash_loop length 0%nat str 0.

Definition calculateRollingHash (oldHash : Z) (oldChar newChar : N) (pow : Z) : Z :=
  let newHash :=
    to_double (oldHash - Z.rem (to_double (charToNum oldChar * pow)) prime) in
  let newHash :=
    Z.rem (to_double (to_double (newHash * base) + charToNum newChar)) prime in
  if bool_decide (newHash < 0) then to_double (newHash + prime) else newHash.

(** [for (let i = 0; i < m - 1; i++) pow = (pow * base) % prime] *)
Fixpoint pow_loop (count : nat) (pow : Z) : Z :=
  match count with
  | 0%nat => pow
  | S count' => pow_loop count' (Z.rem (to_double (pow * base)) prime)
  end.

Variables text pattern : jsstring.
Let n := length text.
Let m := length pattern.

(** The state threaded through the rolling loop. *)
Record LoopState := mkLoop {
  ls_windowHash : Z;
  ls_found : list nat;
  ls_hashes : gmap jsstring Z;
  ls_steps : list RabinKarpStep
}.

(** One iteration of [for (let i = 1; i <= n - m; i++)]. *)
Definition roll_body (patternHash pow : Z) (i : nat) (st : LoopState)
    : option LoopState :=
  oldChar ← text !! (i - 1)%nat;
  newChar ← text !! (i + m - 1)%nat;
  let currentWindow := substring text i (i + m) in
  let windowHash := calculateRollingHash (ls_windowHash st) oldChar newChar pow in
  let hashes := <[currentWindow := windowHash]> (ls_hashes st) in
  let isHashMatch := bool_decide (windowHash = patternHash) in
  let found := ls_found st in
  let steps := push (ls_steps st) (λ c,
    mkStep c (RollingHash oldChar newChar windowHash) i currentWindow
           windowHash patternHash isHashMatch false found) in
  if isHashMatch then
    let isExact := bool_decide (currentWindow = pattern) in
    let found := if isExact then found ++ [i] else found in
    let steps := push steps (λ c,
      mkStep c (if isExact then ExactMatch i else HashCollision i)
             i currentWindow windowHash patternHash true isExact found) in
    Some (mkLoop windowHash found hashes steps)
  else Some (mkLoop windowHash found hashes steps).

Fixpoint roll_loop (patternHash pow : Z) (count i : nat) (st : LoopState)
    : option LoopState :=
  match count with
  | 0%nat => Some st
  | S count' =>
      st' ← roll_body patternHash pow i st;
      roll_loop patternHash pow count' (i + 1)%nat st'
  end.

(** [rabinKarpSearch]; [None] stands for an exception. *)
Definition rabinKarpSearch : option Outcome :=
  if bool_decide (n < m)%nat then Some (mkOutcome [] [] None)
  else
    patternHash ← calculateHash pattern m;
    let hashes : gmap jsstring Z := <[pattern := patternHash]> ∅ in
    let pow := pow_loop (m - 1) 1 in
    windowHash ← calculateHash text m;
    let firstWindow := substring text 0 m in
    let hashes := <[firstWindow := windowHash]> hashes in
    let steps := push [] (λ c,
      mkStep c (Initialize patternHash windowHash) 0 firstWindow
             windowHash patternHash (bool_decide (windowHash = patternHash))
             false []) in
    let '(found, steps) :=
      if bool_decide (windowHash = patternHash) then
        let isExact := bool_decide (firstWindow = pattern) in
        let found : list nat := if isExact then [0%nat] else [] in
        (found, push steps (λ c,
          mkStep c (if isExact then ExactMatch 0 else HashCollision 0)
                 0 firstWindow windowHash patternHash true isExact found))
      else (([] : list nat), steps) in
    st ← roll_loop patternHash pow (n - m) 1 (mkLoop windowHash found hashes steps);
    let steps := push (ls_steps st) (λ c,
      mkStep c (SearchComplete (length (ls_found st))) (n - m)
             (substring text (n - m) n) (ls_windowHash st) patternHash
             false false (ls_found st)) in
    Some (mkOutcome steps (ls_found st) (Some (ls_hashes st))).
End Search.

Local Open Scope Z_scope.

Lemma to_double_exact x : - 2 ^ 53 <= x <= 2 ^ 53 → to_double x = x.
Proof.
  intros Hx. unfold to_double.
  destruct (Z.leb_spec (Z.abs x) (2 ^ 53)); [done|lia].
Qed.

Lemma charToNum_range c : (c < 65536)%N → 0 <= charToNum c <= 65535.
Proof. unfold charToNum. lia. Qed.

Lemma code_units_lookup s i c :
  code_units s → s !! i = Some c → 0 <= charToNum c <= 65535.
Proof.
  intros Hs Hc. apply charToNum_range.
  unfold code_units in Hs. rewrite Forall_forall in Hs.
  apply Hs. by eapply list_elem_of_lookup_2.
Qed.

Lemma code_units_substring s a b : code_units s → code_units (substring s a b).
Proof.
  unfold code_units, substring. intros Hs. by apply Forall_take, Forall_drop.
Qed.

Section HashProperties.
Variables base prime : Z.
Hypothesis Hbase : 0 < base.
Hypothesis Hprime : 0 < prime.
Hypothesis Hexact : exact_range base prime.

(** Horner value of a window, without reduction. *)
Definition horner (w : jsstring) (h : Z) : Z :=
  fold_left (λ h c, h * base + charToNum c) w h.

Lemma horner_nonneg w h : 0 <= h → 0 <= horner w h.
Proof.
  revert h. induction w as [|c w IH]; intros h Hh; simpl; [done|].
  apply IH. unfold charToNum. nia.
Qed.

Lemma horner_app w1 w2 h : horner (w1 ++ w2) h = horner w2 (horner w1 h).
Proof. unfold horner. by rewrite fold_left_app. Qed.

Lemma horner_mod_congr w h1 h2 :
  h1 mod prime = h2 mod prime → horner w h1 mod prime = horner w h2 mod prime.
Proof.
  revert h1 h2. induction w as [|c w IH]; intros h1 h2 E; simpl; [done|].
  apply IH.
  rewrite (Z.add_mod (h1 * base)), (Z.add_mod (h2 * base)) by lia.
  rewrite (Z.mul_mod h1), (Z.mul_mod h2) by lia. by rewrite E.
Qed.

Lemma rem_mod_same a : Z.rem a prime mod prime = a mod prime.
Proof.
  rewrite Z.rem_eq by lia.
  replace (a - prime * (a ÷ prime)) with (a + (- (a ÷ prime)) * prime) by ring.
  apply Z_mod_plus_full.
Qed.

(** Within the exact range neither the product nor the sum of a step of
    [calculateHash] rounds. *)
Lemma hash_step_exact h c :
  0 <= h < prime → 0 <= c <= 65535 →
  to_double (to_double (h * base) + c) = h * base + c.
Proof.
  intros Hh Hc. destruct Hexact as [He1 He2].
  assert (0 <= h * base <= base * prime - base) by nia.
  rewrite (to_double_exact (h * base)) by lia.
  apply to_double_exact. lia.
Qed.

Lemma hash_loop_spec count : ∀ i str h,
  code_units str →
  (i + count ≤ length str)%nat → 0 <= h < prime →
  hash_loop base prime count i str h
  = Some (horner (take count (drop i str)) h mod prime).
Proof.
  induction count as [|count IH]; intros i str h Hstr Hlen Hh; cbn [hash_loop].
  - rewrite take_0. cbn. by rewrite Z.mod_small.
  - destruct (lookup_lt_is_Some_2 str i) as [c Hc]; [lia|].
    rewrite Hc. cbn [mbind option_bind].
    pose proof (code_units_lookup str i c Hstr Hc) as Hcr.
    rewrite hash_step_exact by done.
    rewrite IH; [|done|lia|].
    + f_equal. rewrite (drop_S _ _ _ Hc). simpl.
      replace (i + 1)%nat with (S i) by lia.
      apply horner_mod_congr. apply rem_mod_same.
    + assert (0 <= h * base + charToNum c) by nia.
      rewrite Z.rem_mod_nonneg by lia. apply Z.mod_pos_bound. lia.
Qed.

Lemma pow_step_exact pow :
  0 <= pow <= prime → to_double (pow * base) = pow * base.
Proof.
  intros Hp. destruct Hexact as [He1 He2]. apply to_double_exact. nia.
Qed.

Lemma pow_loop_range count : ∀ pow,
  0 <= pow <= prime → 0 <= pow_loop base prime count pow <= prime.
Proof.
  induction count as [|count IH]; intros pow Hp; cbn [pow_loop]; [done|].
  apply IH. rewrite pow_step_exact by done.
  assert (0 <= pow * base) by nia.
  rewrite Z.rem_mod_nonneg by lia.
  pose proof (Z.mod_pos_bound (pow * base) prime). lia.
Qed.

Lemma pow_loop_spec count : ∀ pow,
  0 <= pow <= prime →
  pow_loop base prime count pow mod prime = (pow * base ^ Z.of_nat count) mod prime.
Proof.
  induction count as [|count IH]; intros pow Hp.
  - simpl. by rewrite Z.mul_1_r.
  - cbn [pow_loop]. rewrite pow_step_exact by done. rewrite IH.
    + rewrite Nat2Z.inj_succ, Z.pow_succ_r by lia.
      rewrite Z.mul_mod, rem_mod_same, <- Z.mul_mod by lia.
      by rewrite Z.mul_assoc.
    + assert (0 <= pow * base) by nia.
      rewrite Z.rem_mod_nonneg by lia.
      pose proof (Z.mod_pos_bound (pow * base) prime). lia.
Qed.

Lemma horner_shift w : ∀ h,
  horner w h = h * base ^ Z.of_nat (length w) + horner w 0.
Proof.
  induction w as [|c w IH]; intros h.
  - cbn. lia.
  - cbn [horner fold_left length]. fold (horner w (h * base + charToNum c)).
    fold (horner w (0 * base + charToNum c)).
    rewrite (IH (h * base + _)), (IH (0 * base + _)).
    rewrite Nat2Z.inj_succ, Z.pow_succ_r by lia. ring.
Qed.

Lemma rolling_range oldHash oldChar newChar pow :
  0 <= calculateRollingHash base prime oldHash oldChar newChar pow < prime.
Proof.
  unfold calculateRollingHash.
  set (x := to_double (to_double (_ * base) + _)).
  pose proof (Z.rem_bound_abs x prime ltac:(lia)).
  destruct Hexact as [He1 He2].
  case_bool_decide; [|lia].
  rewrite to_double_exact by nia. lia.
Qed.

(** Within the exact range no operation of [calculateRollingHash] rounds. *)
Lemma rolling_exact oldHash oldChar newChar pow :
  0 <= oldHash < prime → 0 <= pow <= prime →
  (oldChar < 65536)%N → (newChar < 65536)%N →
  calculateRollingHash base prime oldHash oldChar newChar pow
  = let newHash := oldHash - Z.rem (charToNum oldChar * pow) prime in
    let newHash := Z.rem (newHash * base + charToNum newChar) prime in
    if bool_decide (newHash < 0) then newHash + prime else newHash.
Proof.
  intros Hh Hp Hoc Hnc. unfold calculateRollingHash. cbn zeta.
  apply charToNum_range in Hoc, Hnc. destruct Hexact as [He1 He2].
  assert (Hprod : 0 <= charToNum oldChar * pow <= 2 ^ 53) by nia.
  rewrite (to_double_exact (charToNum oldChar * pow)) by lia.
  rewrite (Z.rem_mod_nonneg (charToNum oldChar * pow)) by lia.
  pose proof (Z.mod_pos_bound (charToNum oldChar * pow) prime Hprime) as Hr.
  set (r := (charToNum oldChar * pow) mod prime) in *.
  rewrite (to_double_exact (oldHash - r)) by lia.
  assert (Ht : - (base * prime - base) <= (oldHash - r) * base
               <= base * prime - base) by nia.
  rewrite (to_double_exact ((oldHash - r) * base)) by lia.
  rewrite (to_double_exact ((oldHash - r) * base + charToNum newChar)) by lia.
  set (x := (oldHash - r) * base + charToNum newChar).
  pose proof (Z.rem_bound_abs x prime ltac:(lia)).
  case_bool_decide; [|done]. apply to_double_exact. nia.
Qed.

Lemma rolling_mod oldHash oldChar newChar pow :
  0 <= oldHash < prime → 0 <= pow <= prime →
  (oldChar < 65536)%N → (newChar < 65536)%N →
  calculateRollingHash base prime oldHash oldChar newChar pow mod prime
  = ((oldHash - charToNum oldChar * pow) * base + charToNum newChar) mod prime.
Proof.
  intros Hh Hp Hoc Hnc. rewrite rolling_exact by done. cbn zeta.
  set (t := oldHash - Z.rem (charToNum oldChar * pow) prime).
  assert (E : (t * base + charToNum newChar) mod prime
              = ((oldHash - charToNum oldChar * pow) * base + charToNum newChar) mod prime).
  { rewrite (Z.add_mod (t * base)), (Z.mul_mod t) by lia.
    rewrite (Z.add_mod (_ * base)), (Z.mul_mod (oldHash - _)) by lia.
    do 4 f_equal. unfold t.
    rewrite Zminus_mod, rem_mod_same, <- Zminus_mod. done. }
  case_bool_decide.
  - rewrite <- E, <- (rem_mod_same (t * base + _)).
    rewrite <- (Z_mod_plus_full (Z.rem _ _) 1 prime). f_equal. ring.
  - by rewrite rem_mod_same.
Qed.

Lemma mod_eq_ex a b : a mod prime = b mod prime → ∃ k, a = b + k * prime.
Proof.
  intros E. exists (a / prime - b / prime).
  pose proof (Z.div_mod a prime ltac:(lia)).
  pose proof (Z.div_mod b prime ltac:(lia)). nia.
Qed.

Lemma ex_mod_eq a b k : a = b + k * prime → a mod prime = b mod prime.
Proof. intros ->. apply Z_mod_plus_full. Qed.

Lemma window_hash text i m :
  code_units text →
  (i + m ≤ length text)%nat →
  calculateHash base prime (substring text i (i + m)) m
  = Some (horner (take m (drop i text)) 0 mod prime).
Proof.
  intros Htext Hlen. unfold calculateHash.
  rewrite hash_loop_spec;
    [|by apply code_units_substring
     |unfold substring; rewrite length_take, length_drop; lia|lia].
  unfold substring.
  replace (i + m - i)%nat with m by lia.
  by rewrite drop_0, take_take, Nat.min_id.
Qed.

(** C7 (as amended): for a text of 16-bit code units, a pattern of length
    [m >= 1], [m <= n], positive [base] and [prime] in the range where the
    arithmetic of the search is exact, and a window start [i >= 1] with
    [i + m <= n], the value [calculateRollingHash] computes from the hash of
    the previous window is the Horner hash of [text[i .. i+m)] reduced
    modulo [prime], and it lies in [[0, prime)]. *)
Theorem rolling_hash_is_window_hash (text pattern : jsstring) (i : nat)
    (oldHash : Z) (oldChar newChar : N) :
  let m := length pattern in
  code_units text →
  (1 ≤ m)%nat → (1 ≤ i)%nat → (i + m ≤ length text)%nat →
  calculateHash base prime (substring text (i - 1) (i - 1 + m)) m = Some oldHash →
  text !! (i - 1)%nat = Some oldChar →
  text !! (i + m - 1)%nat = Some newChar →
  let h := calculateRollingHash base prime oldHash oldChar newChar
             (pow_loop base prime (m - 1) 1) in
  calculateHash base prime (substring text i (i + m)) m = Some h
  ∧ h = horner (take m (drop i text)) 0 mod prime
  ∧ 0 <= h < prime.
Proof.
  intros m Htext Hm Hi Hlen Hold Hoc Hnc h.
  enough (h = horner (take m (drop i text)) 0 mod prime) as Hh.
  { split; [by rewrite window_hash, Hh by (done || lia)|].
    split; [done|apply rolling_range]. }
  rewrite window_hash in Hold by (done || lia).
  injection Hold as Hold.
  assert (Hor : 0 <= oldHash < prime).
  { rewrite <- Hold. apply Z.mod_pos_bound. lia. }
  assert (Hpr : 0 <= pow_loop base prime (m - 1) 1 <= prime)
    by (apply pow_loop_range; lia).
  assert (Hocr : (oldChar < 65536)%N).
  { unfold code_units in Htext. rewrite Forall_forall in Htext.
    apply Htext. by eapply list_elem_of_lookup_2. }
  assert (Hncr : (newChar < 65536)%N).
  { unfold code_units in Htext. rewrite Forall_forall in Htext.
    apply Htext. by eapply list_elem_of_lookup_2. }
  rewrite <- (Z.mod_small h prime) by apply rolling_range.
  unfold h. rewrite rolling_mod by done.
  set (u := take (m - 1) (drop i text)).
  assert (E1 : take m (drop (i - 1) text) = oldChar :: u).
  { rewrite (drop_S _ _ _ Hoc). replace m with (S (m - 1)) at 1 by lia.
    cbn [take]. unfold u. do 3 f_equal. lia. }
  assert (E2 : take m (drop i text) = u ++ [newChar]).
  { replace m with ((m - 1) + 1)%nat at 1 by lia.
    rewrite <- take_take_drop. fold u. f_equal. rewrite drop_drop.
    rewrite (drop_S _ newChar); [done|]. rewrite <- Hnc. f_equal. lia. }
  rewrite E1 in Hold. rewrite E2, horner_app.
  change (horner [newChar] (horner u 0))
    with (horner u 0 * base + charToNum newChar).
  assert (Hu : length u = (m - 1)%nat).
  { unfold u. rewrite length_take, length_drop. lia. }
  set (bm := base ^ Z.of_nat (m - 1)).
  assert (E3 : horner (oldChar :: u) 0 = charToNum oldChar * bm + horner u 0).
  { change (horner (oldChar :: u) 0) with (horner u (0 * base + charToNum oldChar)).
    rewrite horner_shift, Hu. fold bm. ring. }
  rewrite E3 in Hold.
  pose proof (pow_loop_spec (m - 1) 1 ltac:(lia)) as Hpow.
  rewrite Z.mul_1_l in Hpow.
  apply mod_eq_ex in Hpow as [k1 Hk1]. fold bm in Hk1.
  pose proof (Z.div_mod (charToNum oldChar * bm + horner u 0) prime
                ltac:(lia)) as Hd.
  rewrite Hold in Hd.
  set (q := (_ / prime)) in Hd.
  apply (ex_mod_eq _ _ (- base * (charToNum oldChar * k1 + q))).
  rewrite Hk1. nia.
Qed.
End HashProperties.

(** C7 witness: the second window of the default input. *)
Lemma rolling_hash_is_window_hash_witness :
  calculateHash 256 101 (substring (of_string "ABABCABABA") 1 (1 + 5)) 5
  = Some (calculateRollingHash 256 101 62 65 65 (pow_loop 256 101 (5 - 1) 1))
  ∧ calculateRollingHash 256 101 62 65 65 (pow_loop 256 101 (5 - 1) 1)
    = horner 256 (take 5 (drop 1 (of_string "ABABCABABA"))) 0 mod 101
  ∧ 0 <= calculateRollingHash 256 101 62 65 65 (pow_loop 256 101 (5 - 1) 1) < 101.
Proof.
  apply (rolling_hash_is_window_hash 256 101 ltac:(lia) ltac:(lia)
           ltac:(split; vm_compute; discriminate)
           (of_string "ABABCABABA") (of_string "ABABA") 1 62 65 65);
    [repeat constructor | cbn; lia | lia | cbn; lia
    | reflexivity | reflexivity | reflexivity].
Defined.

(** C7 as stated admits the empty pattern ([m = 0 <= n]); there the value
    rolled for the window starting at 1 of the text "A" is 90, while the
    Horner hash of the empty window is 0. *)
Lemma rolling_hash_empty_pattern_counterexample :
  let text := of_string "A" in
  let pattern : jsstring := [] in
  (length pattern ≤ length text)%nat
  ∧ calculateHash 256 101 (substring text (1 - 1) (1 - 1 + 0)) 0 = Some 0
  ∧ text !! (1 - 1)%nat = Some 65%N
  ∧ text !! (1 + length pattern - 1)%nat = Some 65%N
  ∧ calculateRollingHash 256 101 0 65 65 (pow_loop 256 101 (length pattern - 1) 1) = 90
  ∧ calculateHash 256 101 (substring text 1 (1 + length pattern)) (length pattern)
    = Some 0.
Proof. vm_compute. repeat split; lia. Qed.

(** Outside the exact range the doubles round. With base 256 and prime
    1000000000000037 on the text "THE QUICK BROWN FOX" and a pattern of
    length 8, the hash rolled for the window at 1 from the hash of the
    window at 0 is not the hash [calculateHash] gives for that window, and
    neither is the Horner hash of the window modulo [prime]. *)
Example rolling_hash_beyond_exact_range :
  let text := of_string "THE QUICK BROWN FOX" in
  let base := 256 in
  let prime := 1000000000000037 in
  ¬ exact_range base prime
  ∧ ∃ oldHash,
      calculateHash base prime (substring text 0 8) 8 = Some oldHash
      ∧ calculateRollingHash base prime oldHash 84 66 (pow_loop base prime 7 1)
        = 604077818892205
      ∧ calculateHash base prime (substring text 1 9) 8 = Some 604077818958781
      ∧ horner base (take 8 (drop 1 text)) 0 mod prime = 604077818958520.
Proof.
  cbn zeta. split; [intros [H _]; vm_compute in H; by apply H|].
  eexists. split; [vm_compute; reflexivity|].
  split; [vm_compute; reflexivity|]. split; vm_compute; reflexivity.
Qed.

(** With base 1000000007 and prime 1000000009 the search on the default
    input misses the occurrence of the pattern at 5: the pattern is there,
    and no match is reported. *)
Example missed_occurrence_beyond_exact_range :
  let text := of_string "ABABCABABA" in
  let pattern := of_string "ABABA" in
  ¬ exact_range 1000000007 1000000009
  ∧ occurrences text pattern = [5]%nat
  ∧ out_matches <$> rabinKarpSearch 1000000007 1000000009 text pattern
    = Some [].
Proof.
  cbn zeta. split; [intros [H _]; vm_compute in H; by apply H|].
  split; vm_compute; reflexivity.
Qed.

End RabinKarp.

(** ** The three engines compared *)

Module StringMatching.

(** Two offset lists hold the same set of offsets. *)
Definition same_offsets (a b : list nat) : Prop := ∀ i, i ∈ a ↔ i ∈ b.

(** C3 (as amended): for every text and every non-empty pattern, [kmpSearch]
    returns, and the offsets recorded in the last step of its trace are the
    offsets recorded in the last step of the trace of [naiveSearch] (as
    sets, and indeed as lists: both are the occurrences in ascending order). *)
Theorem kmp_naive_same_offsets (text pattern : jsstring) :
  pattern ≠ [] →
  ∃ lps ksteps kfound sK sN,
    KMP.kmpSearch pattern text = Some (lps, ksteps, kfound)
    ∧ last ksteps = Some sK
    ∧ last (Naive.naiveSearch text pattern).1 = Some sN
    ∧ same_offsets (KMP.matches sK) (Naive.matches sN)
    ∧ KMP.matches sK = occurrences text pattern
    ∧ Naive.matches sN = occurrences text pattern.
Proof.
  intros Hp.
  assert (Hm : 1 ≤ length pattern) by (destruct pattern; [done | cbn; lia]).
  destruct (KMP.kmpSearch_found pattern text Hm) as (lps & ks & sK & -> & _ & HK).
  destruct (Naive.naiveSearch_found text pattern) as (ns & sN & -> & HN).
  eexists lps, _, (occurrences text pattern), sK, sN. split; [reflexivity|].
  cbn [fst]. rewrite !last_snoc, HK, HN. done.
Qed.

(** C3 witness: the default input of the components. *)
Lemma kmp_naive_same_offsets_witness :
  ∃ lps ksteps kfound sK sN,
    KMP.kmpSearch (of_string "ABABA") (of_string "ABABCABABA") = Some (lps, ksteps, kfound)
    ∧ last ksteps = Some sK
    ∧ last (Naive.naiveSearch (of_string "ABABCABABA") (of_string "ABABA")).1 = Some sN
    ∧ same_offsets (KMP.matches sK) (Naive.matches sN)
    ∧ KMP.matches sK = occurrences (of_string "ABABCABABA") (of_string "ABABA")
    ∧ Naive.matches sN = occurrences (of_string "ABABCABABA") (of_string "ABABA").
Proof.
  apply (kmp_naive_same_offsets (of_string "ABABCABABA") (of_string "ABABA")).
  cbn. discriminate.
Defined.

(** C3 as stated fails on the empty pattern: on the text "A" the last step
    of the naive trace records the offsets 0 and 1, that of the KMP trace
    records none. *)
Lemma kmp_naive_empty_pattern_counterexample :
  ∃ lps ksteps kfound sK sN,
    KMP.kmpSearch [] (of_string "A") = Some (lps, ksteps, kfound)
    ∧ last ksteps = Some sK
    ∧ last (Naive.naiveSearch (of_string "A") []).1 = Some sN
    ∧ KMP.matches sK = []
    ∧ Naive.matches sN = [0; 1]
    ∧ ¬ same_offsets (KMP.matches sK) (Naive.matches sN).
Proof.
  eexists _, _, _, _, _.
  split; [vm_compute; reflexivity|].
  split; [reflexivity|]. split; [vm_compute; reflexivity|].
  cbn. split; [done|]. split; [done|].
  intros H. destruct (H 0) as [_ H0].
  apply elem_of_nil with (x := 0). apply H0. left.
Qed.

(** C4: what the three engines do when the pattern is strictly longer than
    the text. None throws. Rabin-Karp, which has the guard [if (m > n)],
    returns the empty trace, as the claim says of all three; the naive
    search and KMP have no such guard: the naive search returns the
    two-step trace made of its initial and final steps, and KMP returns a
    trace that begins with its initial step and ends with its final step;
    both report no match. *)
Theorem pattern_longer_than_text (base prime : Z) (text pattern : jsstring) :
  length text < length pattern →
  RabinKarp.rabinKarpSearch base prime text pattern
    = Some (RabinKarp.mkOutcome [] [] None)
  ∧ Naive.naiveSearch text pattern
    = ([Naive.mkStep 1 Naive.Initialize 0 0 0 false false [] 0;
        Naive.mkStep 2 (Naive.SearchComplete 0 0)
          (Z.of_nat (length text) - 1) 0
          (Z.of_nat (length text) - Z.of_nat (length pattern))
          false false [] 0], [])
  ∧ ∃ lps rest sK,
      KMP.kmpSearch pattern text
      = Some (lps, (KMP.mkStep 1 KMP.Initialize 0 0 false [] :: rest) ++ [sK], [])
      ∧ KMP.description sK = KMP.SearchComplete 0
      ∧ KMP.matches sK = [].
Proof.
  intros Hlen. split; [|split].
  - unfold RabinKarp.rabinKarpSearch. by rewrite bool_decide_eq_true_2.
  - unfold Naive.naiveSearch.
    replace (Z.to_nat _) with 0 by lia. done.
  - assert (Hm : 1 ≤ length pattern) by lia.
    assert (Hocc : occurrences text pattern = []).
    { unfold occurrences.
      by replace (length text + 1 - length pattern) with 0 by lia. }
    destruct (KMP.kmpSearch_found pattern text Hm) as (lps & ks & sK & E & Hd & HK).
    rewrite Hocc in *. by exists lps, ks, sK.
Qed.

(** C4 at the text "A" and the pattern "AB". *)
Lemma pattern_longer_than_text_witness :
  RabinKarp.rabinKarpSearch 256 101 (of_string "A") (of_string "AB")
    = Some (RabinKarp.mkOutcome [] [] None)
  ∧ Naive.naiveSearch (of_string "A") (of_string "AB")
    = ([Naive.mkStep 1 Naive.Initialize 0 0 0 false false [] 0;
        Naive.mkStep 2 (Naive.SearchComplete 0 0)
          (Z.of_nat (length (of_string "A")) - 1) 0
          (Z.of_nat (length (of_string "A")) - Z.of_nat (length (of_string "AB")))
          false false [] 0], [])
  ∧ ∃ lps rest sK,
      KMP.kmpSearch (of_string "AB") (of_string "A")
      = Some (lps, (KMP.mkStep 1 KMP.Initialize 0 0 false [] :: rest) ++ [sK], [])
      ∧ KMP.description sK = KMP.SearchComplete 0
      ∧ KMP.matches sK = [].
Proof.
  apply (pattern_longer_than_text 256 101 (of_string "A") (of_string "AB")).
  cbn. lia.
Defined.

(** C4 fails for the naive search and for KMP: on the text "A" and the
    pattern "AB" their traces have two and three steps, not none. *)
Lemma pattern_longer_than_text_counterexample :
  length (of_string "A") < length (of_string "AB")
  ∧ length (Naive.naiveSearch (of_string "A") (of_string "AB")).1 = 2
  ∧ (λ r, length r.1.2) <$> KMP.kmpSearch (of_string "AB") (of_string "A") = Some 3.
Proof. split; [cbn; lia|]. split; reflexivity. Qed.

End StringMatching.

(** ** Graphs and distances *)

(** [Edge] as declared by the graph components; vertices are array indices. *)
Record Edge := mkEdge {
  from : nat;
  to : nat;
  weight : Z;
  id : string
}.

(** The numbers stored in the [distances] arrays of Dijkstra and
    Bellman-Ford: an integer or [Infinity]. *)
Inductive num :=
| Fin (z : Z)
| Infinity.

(** [a < b] *)
Definition num_lt (a b : num) : bool :=
  match a, b with
  | Fin x, Fin y => bool_decide (x < y)%Z
  | Fin _, Infinity => true
  | Infinity, _ => false
  end.

(** [a + w] for an integer [w] *)
Definition num_add (a : num) (w : Z) : num :=
  match a with
  | Fin x => Fin (x + w)
  | Infinity => Infinity
  end.

(** The graphs the input layer hands to the engines: every endpoint is a
    vertex. *)
Definition valid_graph (vertices : nat) (edges : list Edge) : Prop :=
  Forall (λ e, from e < vertices ∧ to e < vertices) edges.

(** ** Bellman-Ford (BellmanFordVisualizer) *)

Module BellmanFord.

Inductive Description :=
| Initialize (source : nat)
| Iteration (i : nat)
| RelaxEdge (u v : nat) (d : num)
| NoEdgesRelaxed (i : nat)
| CheckNegativeCycles
| NegativeCycleDetected (u v : nat)
| NoNegativeCycle.

Record BellmanFordStep := mkStep {
  step : nat;
  description : Description;
  distances : list num;
  previous : list (option nat);
  currentEdge : option Edge;
  relaxationCount : nat;
  hasNegativeCycle : bool
}.

(** The mutable locals of [bellmanFordAlgorithm]. *)
Record State := mkState {
  st_distances : list num;
  st_previous : list (option nat);
  st_relaxationCount : nat;
  st_steps : list BellmanFordStep
}.

(** [distances[edge.from] !== Infinity &&
     distances[edge.from] + edge.weight < distances[edge.to]];
    a read outside the array gives [undefined] and makes the comparison
    false. *)
Definition relaxable (dist : list num) (edge : Edge) : bool :=
  match dist !! from edge, dist !! to edge with
  | Some (Fin a), Some b => num_lt (Fin (a + weight edge)) b
  | _, _ => false
  end.

(** The body of [for (const edge of edges)] in a relaxation pass; the
    boolean is the local [relaxed]. *)
Definition relax_edge (acc : State * bool) (edge : Edge) : State * bool :=
  let '(st, relaxed) := acc in
  if relaxable (st_distances st) edge then
    let d := num_add (default Infinity (st_distances st !! from edge)) (weight edge) in
    let distances := <[to edge := d]> (st_distances st) in
    let previous := <[to edge := Some (from edge)]> (st_previous st) in
    let relaxationCount := st_relaxationCount st + 1 in
    let steps := push (st_steps st) (λ c,
      mkStep c (RelaxEdge (from edge) (to edge) d) distances previous
             (Some edge) relaxationCount false) in
    (mkState distances previous relaxationCount steps, true)
  else (st, relaxed).

Section Algorithm.
Variable vertices : nat.
Variable edges : list Edge.
Variable startVertex : nat.

(** [for (let i = 0; i < vertices - 1; i++)], by the number of passes left. *)
Fixpoint pass_loop (count i : nat) (st : State) : State :=
  match count with
  | 0 => st
  | S count' =>
      let steps := push (st_steps st) (λ c,
        mkStep c (Iteration (i + 1)) (st_distances st) (st_previous st)
               None (st_relaxationCount st) false) in
      let st := mkState (st_distances st) (st_previous st)
                        (st_relaxationCount st) steps in
      let '(st, relaxed) := foldl relax_edge (st, false) edges in
      if relaxed then pass_loop count' (i + 1) st
      else
        mkState (st_distances st) (st_previous st) (st_relaxationCount st)
          (push (st_steps st) (λ c,
             mkStep c (NoEdgesRelaxed (i + 1)) (st_distances st) (st_previous st)
                    None (st_relaxationCount st) false))
  end.

(** The state after the relaxation passes. *)
Definition main_passes : State :=
  let distances := <[startVertex := Fin 0]> (replicate vertices Infinity) in
  let previous : list (option nat) := replicate vertices None in
  let steps := push [] (λ c,
    mkStep c (Initialize startVertex) distances previous None 0 false) in
  pass_loop (vertices - 1) 0 (mkState distances previous 0 steps).

(** [bellmanFordAlgorithm]: the trace handed to [setSteps]. *)
Definition bellmanFordAlgorithm : list BellmanFordStep :=
  let st := main_passes in
  let steps := push (st_steps st) (λ c,
    mkStep c CheckNegativeCycles (st_distances st) (st_previous st)
           None (st_relaxationCount st) false) in
  match find (relaxable (st_distances st)) edges with
  | Some edge =>
      push steps (λ c,
        mkStep c (NegativeCycleDetected (from edge) (to edge))
               (st_distances st) (st_previous st)
               (Some edge) (st_relaxationCount st) true)
  | None =>
      push steps (λ c,
        mkStep c NoNegativeCycle (st_distances st) (st_previous st)
               None (st_relaxationCount st) false)
  end.
End Algorithm.


(** The condition of the claim, as a proposition: [distances[from]] is not
    [Infinity] and [distances[from] + weight < distances[to]]. *)
Definition still_relaxable (dist : list num) (edge : Edge) : Prop :=
  ∃ a, dist !! from edge = Some (Fin a)
       ∧ (dist !! to edge = Some Infinity
          ∨ ∃ b, dist !! to edge = Some (Fin b) ∧ (a + weight edge < b)%Z).

Lemma relaxable_spec dist edge :
  relaxable dist edge = true ↔ still_relaxable dist edge.
Proof.
  unfold relaxable, still_relaxable. split.
  - destruct (dist !! from edge) as [[a|]|]; [|done..].
    destruct (dist !! to edge) as [[b|]|]; cbn; [|eauto|done].
    intros H. apply bool_decide_eq_true in H. eauto 10.
  - intros (a & -> & [-> | (b & -> & H)]); cbn; [done|].
    by apply bool_decide_eq_true.
Qed.

Lemma find_first {A} (f : A → bool) (l : list A) (x : A) :
  find f l = Some x →
  ∃ l1 l2, l = l1 ++ x :: l2 ∧ f x = true ∧ ∀ y, y ∈ l1 → f y = false.
Proof.
  induction l as [|a l IH]; cbn; [done|].
  destruct (f a) eqn:E.
  - intros [= ->]. exists [], l. split; [done|]. split; [done|].
    intros y Hy. by apply elem_of_nil in Hy.
  - intros H. destruct (IH H) as (l1 & l2 & -> & Hx & Hl1).
    exists (a :: l1), l2. split; [done|]. split; [done|].
    intros y [->|Hy]%elem_of_cons; auto.
Qed.

Lemma find_none_all {A} (f : A → bool) (l : list A) :
  find f l = None → ∀ y, y ∈ l → f y = false.
Proof.
  induction l as [|a l IH]; cbn; intros H y Hy.
  - by apply elem_of_nil in Hy.
  - destruct (f a) eqn:E; [done|].
    apply elem_of_cons in Hy as [->|Hy]; auto.
Qed.

Section Properties.
Variable vertices : nat.
Variable edges : list Edge.
Variable startVertex : nat.

Let final_state := main_passes vertices edges startVertex.

(** C5: the trace ends with the step pushed before the check and one more
    step; that last step is "negative cycle detected", with the flag set,
    exactly when some edge is still relaxable in the distances left by the
    relaxation passes, and it then names the first such edge of the input
    list; otherwise it is "no negative cycle", with the flag cleared. *)
Theorem negative_cycle_flag :
  startVertex < vertices →
  ∃ check final,
    bellmanFordAlgorithm vertices edges startVertex
    = st_steps final_state ++ [check; final]
    ∧ description check = CheckNegativeCycles
    ∧ distances check = st_distances final_state
    ∧ ((∃ e, e ∈ edges ∧ still_relaxable (st_distances final_state) e)
       ↔ hasNegativeCycle final = true)
    ∧ (hasNegativeCycle final = true →
       ∃ l1 e l2, edges = l1 ++ e :: l2
         ∧ (∀ e', e' ∈ l1 → ¬ still_relaxable (st_distances final_state) e')
         ∧ still_relaxable (st_distances final_state) e
         ∧ description final = NegativeCycleDetected (from e) (to e)
         ∧ currentEdge final = Some e)
    ∧ (hasNegativeCycle final = false → description final = NoNegativeCycle).
Proof.
  intros _. unfold bellmanFordAlgorithm. fold final_state.
  destruct (find _ edges) as [e|] eqn:E; unfold push; rewrite <- app_assoc;
    eexists _, _; (split; [reflexivity|]); cbn -[final_state];
    (split; [done|]); (split; [done|]).
  - apply find_first in E as (l1 & l2 & -> & He & Hl1).
    apply relaxable_spec in He.
    split; [split; [done|]|split; [|done]].
    + intros _. exists e. split; [|done]. apply elem_of_app. right. left.
    + intros _. exists l1, e, l2. repeat split; try done.
      intros e' He' Hr%relaxable_spec. by rewrite (Hl1 e' He') in Hr.
  - pose proof (find_none_all _ _ E) as Hall.
    split; [split; [|done]|split; [done|done]].
    intros (e & He & Hr%relaxable_spec). by rewrite (Hall e He) in Hr.
Qed.

(** C10: the check does not touch the state: the arrays recorded in the
    last step are those recorded in the "check for negative cycles" step
    that precedes it. *)
Theorem check_pass_preserves_state :
  startVertex < vertices →
  ∃ pre check final,
    bellmanFordAlgorithm vertices edges startVertex = pre ++ [check; final]
    ∧ description check = CheckNegativeCycles
    ∧ (description final = NoNegativeCycle
       ∨ ∃ u v, description final = NegativeCycleDetected u v)
    ∧ distances final = distances check
    ∧ previous final = previous check
    ∧ relaxationCount final = relaxationCount check.
Proof.
  intros _. unfold bellmanFordAlgorithm. fold final_state.
  destruct (find _ edges) as [e|] eqn:E; unfold push; rewrite <- app_assoc;
    eexists _, _, _; (split; [reflexivity|]); cbn -[final_state]; eauto 10.
Qed.

End Properties.

(** C5 witness: the default graph of the component, which has no negative
    cycle. *)
Lemma negative_cycle_flag_witness :
  let edges := [mkEdge 0 1 4 "0-1"; mkEdge 0 2 2 "0-2"; mkEdge 1 3 3 "1-3";
                mkEdge 2 1 (-2) "2-1"; mkEdge 2 3 4 "2-3"; mkEdge 3 4 1 "3-4";
                mkEdge 1 4 6 "1-4"] in
  ∃ check final,
    bellmanFordAlgorithm 5 edges 0
    = st_steps (main_passes 5 edges 0) ++ [check; final]
    ∧ description check = CheckNegativeCycles
    ∧ distances check = st_distances (main_passes 5 edges 0)
    ∧ ((∃ e, e ∈ edges ∧ still_relaxable (st_distances (main_passes 5 edges 0)) e)
       ↔ hasNegativeCycle final = true)
    ∧ (hasNegativeCycle final = true →
       ∃ l1 e l2, edges = l1 ++ e :: l2
         ∧ (∀ e', e' ∈ l1 → ¬ still_relaxable (st_distances (main_passes 5 edges 0)) e')
         ∧ still_relaxable (st_distances (main_passes 5 edges 0)) e
         ∧ description final = NegativeCycleDetected (from e) (to e)
         ∧ currentEdge final = Some e)
    ∧ (hasNegativeCycle final = false → description final = NoNegativeCycle).
Proof. intros edges. apply (negative_cycle_flag 5 edges 0). lia. Defined.

(** C10 witness: a graph with the negative cycle 0 -> 1 -> 0. *)
Lemma check_pass_preserves_state_witness :
  let edges := [mkEdge 0 1 1 "0-1"; mkEdge 1 0 (-2) "1-0"] in
  ∃ pre check final,
    bellmanFordAlgorithm 2 edges 0 = pre ++ [check; final]
    ∧ description check = CheckNegativeCycles
    ∧ (description final = NoNegativeCycle
       ∨ ∃ u v, description final = NegativeCycleDetected u v)
    ∧ distances final = distances check
    ∧ previous final = previous check
    ∧ relaxationCount final = relaxationCount check.
Proof. intros edges. apply (check_pass_preserves_state 2 edges 0). lia. Defined.

End BellmanFord.

(** ** Dijkstra (DijkstraVisualizer) *)

Module Dijkstra.

Inductive Description :=
| Initialize (source : nat)
| SelectVertex (v : nat) (d : option num)
| MarkVisited (v : nat)
| UpdateDistance (neighbor : nat) (d : num) (via : nat)
| Complete.

(** [DijkstraStep]; the [shortestPaths] field, a view that
    [getShortestPaths] derives from [distances] and [previous] at each
    push, is not carried by the embedding. *)
Record DijkstraStep := mkStep {
  step : nat;
  description : Description;
  distances : list num;
  visited : list bool;
  previous : list (option nat);
  currentVertex : option nat;
  minVertex : option nat
}.

(** The mutable locals of [dijkstraAlgorithm]. *)
Record State := mkState {
  st_distances : list num;
  st_visited : list bool;
  st_previous : list (option nat);
  st_steps : list DijkstraStep
}.

(** [{ ...edge, from: edge.to, to: edge.from }] *)
Definition reversed (edge : Edge) : Edge :=
  mkEdge (to edge) (from edge) (weight edge) (id edge).

(** [adjList[i].push(x)] *)
Definition adj_push (i : nat) (x : Edge) (adjList : list (list Edge)) :=
  alter (λ l, l ++ [x]) i adjList.

(** The adjacency list: one empty list per vertex, then each edge is pushed
    at its [from] and, reversed, at its [to]. *)
Definition build_adjList (vertices : nat) (edges : list Edge) : list (list Edge) :=
  foldl (λ adjList edge,
           adj_push (to edge) (reversed edge) (adj_push (from edge) edge adjList))
        (replicate vertices []) edges.

(** The body of the scan [for (let v = 0; v < vertices; v++)]: the pair is
    ([minDistance], [minVertex]), with [None] for [-1]. *)
Definition scan_vertex (dist : list num) (vis : list bool)
    (acc : num * option nat) (v : nat) : num * option nat :=
  match vis !! v, dist !! v with
  | Some false, Some d => if num_lt d acc.1 then (d, Some v) else acc
  | _, _ => acc
  end.

Definition find_min (vertices : nat) (dist : list num) (vis : list bool)
    : option nat :=
  (foldl (scan_vertex dist vis) (Infinity, None) (seq 0 vertices)).2.

(** The body of [adjList[minVertex].forEach(edge => ...)]. *)
Definition relax_neighbor (u : nat) (st : State) (edge : Edge) : State :=
  let neighbor := to edge in
  match st_visited st !! neighbor with
  | Some false =>
      let newDistance :=
        num_add (default Infinity (st_distances st !! u)) (weight edge) in
      if num_lt newDistance (default Infinity (st_distances st !! neighbor)) then
        let distances := <[neighbor := newDistance]> (st_distances st) in
        let previous := <[neighbor := Some u]> (st_previous st) in
        let steps := push (st_steps st) (λ c,
          mkStep c (UpdateDistance neighbor newDistance u)
                 distances (st_visited st) previous (Some u) None) in
        mkState distances (st_visited st) previous steps
      else st
  | _ => st
  end.

Section Algorithm.
Variable vertices : nat.
Variable edges : list Edge.
Variable startVertex : nat.

Let adjList := build_adjList vertices edges.

(** [for (let count = 0; count < vertices; count++)], by the number of
    iterations left; [break] when no vertex is selected. *)
Fixpoint main_loop (count : nat) (st : State) : State :=
  match count with
  | 0 => st
  | S count' =>
      match find_min vertices (st_distances st) (st_visited st) with
      | None => st
      | Some u =>
          let steps := push (st_steps st) (λ c,
            mkStep c (SelectVertex u (st_distances st !! u))
                   (st_distances st) (st_visited st) (st_previous st)
                   None (Some u)) in
          let visited := <[u := true]> (st_visited st) in
          let steps := push steps (λ c,
            mkStep c (MarkVisited u)
                   (st_distances st) visited (st_previous st)
                   (Some u) None) in
          let st := mkState (st_distances st) visited (st_previous st) steps in
          main_loop count' (foldl (relax_neighbor u) st (default [] (adjList !! u)))
      end
  end.

Definition initial_state : State :=
  let distances := <[startVertex := Fin 0]> (replicate vertices Infinity) in
  let visited := replicate vertices false in
  let previous : list (option nat) := replicate vertices None in
  let steps := push [] (λ c,
    mkStep c (Initialize startVertex) distances visited previous None None) in
  mkState distances visited previous steps.

(** [dijkstraAlgorithm]: the trace handed to [setSteps]. *)
Definition dijkstraAlgorithm : list DijkstraStep :=
  let st := main_loop vertices initial_state in
  push (st_steps st) (λ c,
    mkStep c Complete (st_distances st) (st_visited st) (st_previous st)
           None None).
End Algorithm.

(** The default graph of the component. *)
Definition default_edges : list Edge :=
  [mkEdge 0 1 4 "0-1"; mkEdge 0 2 2 "0-2"; mkEdge 1 2 1 "1-2";
   mkEdge 1 3 5 "1-3"; mkEdge 2 3 8 "2-3"; mkEdge 2 4 10 "2-4";
   mkEdge 3 4 2 "3-4"; mkEdge 3 5 6 "3-5"; mkEdge 4 5 3 "4-5"].


(** *** Visited vertices are frozen *)

(** The three arrays of a snapshot. *)
Definition arrays : Type := list num * list bool * list (option nat).

Definition arr_of_step (s : DijkstraStep) : arrays :=
  (distances s, visited s, previous s).

Definition arr_of_state (st : State) : arrays :=
  (st_distances st, st_visited st, st_previous st).

(** Every vertex visited in [a] is visited in [b], with the same distance
    and the same predecessor. *)
Definition frozen (a b : arrays) : Prop :=
  ∀ v, a.1.2 !! v = Some true →
       b.1.2 !! v = Some true ∧ b.1.1 !! v = a.1.1 !! v ∧ b.2 !! v = a.2 !! v.

Lemma frozen_refl a : frozen a a.
Proof. by intros v Hv. Qed.

Lemma frozen_trans a b c : frozen a b → frozen b c → frozen a c.
Proof.
  intros Hab Hbc v Hv.
  destruct (Hab v Hv) as (Hb & Hd & Hp).
  destruct (Hbc v Hb) as (Hc & Hd' & Hp').
  split; [done|]. split; congruence.
Qed.

(** The steps pushed so far form a chain for [frozen] that the current
    arrays [a] extend. *)
Definition chain (steps : list DijkstraStep) (a : arrays) : Prop :=
  ∀ i s, steps !! i = Some s →
    frozen (arr_of_step s) a
    ∧ ∀ j s', i ≤ j → steps !! j = Some s' → frozen (arr_of_step s) (arr_of_step s').

Lemma chain_update steps a b : chain steps a → frozen a b → chain steps b.
Proof.
  intros Hc Hab i s Hi. destruct (Hc i s Hi) as [Ha Hj].
  split; [by eapply frozen_trans|done].
Qed.

Lemma chain_push steps a (mk : nat → DijkstraStep) :
  chain steps a → (∀ c, arr_of_step (mk c) = a) → chain (push steps mk) a.
Proof.
  intros Hc Hmk i s Hi. unfold push in *.
  apply lookup_app_Some in Hi as [Hi|[Hlen Hi]].
  - destruct (Hc i s Hi) as [Ha Hj]. split; [done|].
    intros j s' Hij Hj'. apply lookup_app_Some in Hj' as [Hj'|[_ Hj']].
    + by eapply Hj.
    + apply list_lookup_singleton_Some in Hj' as [_ <-]. by rewrite Hmk.
  - apply list_lookup_singleton_Some in Hi as [Hi0 <-]. rewrite Hmk.
    split; [apply frozen_refl|].
    intros j s' Hij Hj'. apply lookup_app_Some in Hj' as [Hj'|[_ Hj']].
    + apply lookup_lt_Some in Hj'. lia.
    + apply list_lookup_singleton_Some in Hj' as [_ <-]. rewrite Hmk.
      apply frozen_refl.
Qed.

Definition chain_state (st : State) : Prop :=
  chain (st_steps st) (arr_of_state st).

Lemma relax_neighbor_chain u st edge :
  chain_state st → chain_state (relax_neighbor u st edge).
Proof.
  intros Hc. unfold relax_neighbor.
  destruct (st_visited st !! to edge) as [[|]|] eqn:Hv; [done| |done].
  case_match; [|done].
  unfold chain_state. cbn [st_steps arr_of_state st_distances st_visited st_previous].
  apply chain_push; [|done].
  eapply chain_update; [exact Hc|].
  intros v Hvis. cbn in *. split; [done|].
  assert (v ≠ to edge) by congruence.
  by rewrite !list_lookup_insert_ne.
Qed.

Lemma relax_all_chain u l : ∀ st,
  chain_state st → chain_state (foldl (relax_neighbor u) st l).
Proof.
  induction l as [|e l IH]; intros st Hc; cbn; [done|].
  apply IH. by apply relax_neighbor_chain.
Qed.

Lemma main_loop_chain vertices edges count : ∀ st,
  chain_state st → chain_state (main_loop vertices edges count st).
Proof.
  induction count as [|count IH]; intros st Hc; cbn [main_loop]; [done|].
  destruct (find_min _ _ _) as [u|]; [|done].
  apply IH. apply relax_all_chain.
  unfold chain_state. cbn [st_steps arr_of_state st_distances st_visited st_previous].
  apply chain_push; [|done].
  apply chain_update with (a := arr_of_state st).
  - apply chain_push; [exact Hc|done].
  - intros v Hv. cbn in *. split; [|done].
    destruct (decide (v = u)) as [->|].
    + rewrite list_lookup_insert_eq; [done|]. by apply lookup_lt_Some in Hv.
    + by rewrite list_lookup_insert_ne.
Qed.

(** C9: in the trace of a run on a graph, once a step records [v] as
    visited, every later step records the same [distances[v]] and
    [previous[v]] (and still records [v] as visited). *)
Theorem visited_vertices_are_frozen (vertices : nat) (edges : list Edge)
    (startVertex : nat) (i j v : nat) (si sj : DijkstraStep) :
  valid_graph vertices edges → startVertex < vertices →
  dijkstraAlgorithm vertices edges startVertex !! i = Some si →
  dijkstraAlgorithm vertices edges startVertex !! j = Some sj →
  i ≤ j →
  visited si !! v = Some true →
  visited sj !! v = Some true
  ∧ distances sj !! v = distances si !! v
  ∧ previous sj !! v = previous si !! v.
Proof.
  intros _ _ Hi Hj Hij Hv.
  assert (Hc : chain (dijkstraAlgorithm vertices edges startVertex)
                 (arr_of_state (main_loop vertices edges vertices
                                  (initial_state vertices startVertex)))).
  { unfold dijkstraAlgorithm. apply chain_push; [|done].
    apply main_loop_chain. unfold chain_state, initial_state.
    cbn [st_steps arr_of_state st_distances st_visited st_previous].
    apply chain_push; [|done]. intros k s Hk. by rewrite lookup_nil in Hk. }
  destruct (Hc i si Hi) as [_ H]. by apply (H j sj Hij Hj v).
Qed.


(** C9 witness: vertex 0 of the default graph, marked in the third step,
    compared with the last step. *)
Lemma visited_vertices_are_frozen_witness :
  ∃ si sj,
    dijkstraAlgorithm 6 default_edges 0 !! 2 = Some si
    ∧ dijkstraAlgorithm 6 default_edges 0 !! 22 = Some sj
    ∧ visited si !! 0 = Some true
    ∧ (visited sj !! 0 = Some true
       ∧ distances sj !! 0 = distances si !! 0
       ∧ previous sj !! 0 = previous si !! 0).
Proof.
  eexists _, _. split; [vm_compute; reflexivity|].
  split; [vm_compute; reflexivity|]. split; [reflexivity|].
  apply (visited_vertices_are_frozen 6 default_edges 0 2 22 0);
    [repeat constructor; cbn; lia | lia | reflexivity | reflexivity | lia
    | reflexivity].
Defined.

(** *** Shortest paths *)

(** Walks of the undirected graph: an edge can be taken in both
    directions. *)
Inductive walk (edges : list Edge) (s : nat) : nat → Z → Prop :=
| walk_nil : walk edges s s 0
| walk_step v x e W :
    walk edges s v W → e ∈ edges →
    (from e = v ∧ to e = x) ∨ (from e = x ∧ to e = v) →
    walk edges s x (W + weight e).

(** [d] is the shortest-path distance from [s] to [v]: the least weight of
    a walk, or [Infinity] when there is none. *)
Definition shortest (edges : list Edge) (s v : nat) (d : num) : Prop :=
  match d with
  | Fin d => walk edges s v d ∧ ∀ W, walk edges s v W → (d ≤ W)%Z
  | Infinity => ∀ W, ¬ walk edges s v W
  end.

(** What [adjList[u]] holds. *)
Definition adj_spec (edges : list Edge) (u : nat) : list Edge :=
  flat_map (λ e, (if decide (from e = u) then [e] else [])
                 ++ (if decide (to e = u) then [reversed e] else [])) edges.

Lemma adj_push_lookup i x adjList u :
  adj_push i x adjList !! u
  = (λ l, if decide (i = u) then l ++ [x] else l) <$> adjList !! u.
Proof.
  unfold adj_push. destruct (decide (i = u)) as [->|Hne].
  - rewrite list_lookup_alter_eq. by destruct (adjList !! u).
  - rewrite list_lookup_alter_ne by done. by destruct (adjList !! u).
Qed.

Lemma build_adjList_lookup vertices edges u :
  u < vertices → build_adjList vertices edges !! u = Some (adj_spec edges u).
Proof.
  intros Hu. unfold build_adjList, adj_spec.
  induction edges as [|e edges IH] using rev_ind.
  - cbn. by rewrite lookup_replicate_2.
  - rewrite foldl_snoc, !adj_push_lookup, IH. cbn.
    rewrite flat_map_app. cbn. rewrite app_nil_r.
    destruct (decide (to e = u)), (decide (from e = u)); cbn;
      by rewrite ?app_nil_r, <- ?app_assoc.
Qed.

Lemma adj_spec_sound edges u e' :
  e' ∈ adj_spec edges u →
  from e' = u
  ∧ ∃ e, e ∈ edges ∧ weight e' = weight e
         ∧ ((from e = u ∧ to e = to e') ∨ (from e = to e' ∧ to e = u)).
Proof.
  unfold adj_spec. rewrite list_elem_of_In, in_flat_map.
  intros (e & He%list_elem_of_In & Hin%list_elem_of_In).
  apply elem_of_app in Hin as [Hin|Hin]; case_decide; try by apply elem_of_nil in Hin.
  - apply list_elem_of_singleton in Hin as ->. split; [done|]. exists e. auto.
  - apply list_elem_of_singleton in Hin as ->. split; [done|]. exists e. cbn. auto.
Qed.

Lemma adj_spec_complete edges e :
  e ∈ edges →
  (∃ e', e' ∈ adj_spec edges (from e) ∧ to e' = to e ∧ weight e' = weight e)
  ∧ (∃ e', e' ∈ adj_spec edges (to e) ∧ to e' = from e ∧ weight e' = weight e).
Proof.
  intros He%list_elem_of_In. split.
  - exists e. split; [|done]. unfold adj_spec.
    rewrite list_elem_of_In, in_flat_map. exists e. split; [done|].
    apply list_elem_of_In, elem_of_app. left. rewrite decide_True by done. left.
  - exists (reversed e). split; [|done]. unfold adj_spec.
    rewrite list_elem_of_In, in_flat_map. exists e. split; [done|].
    apply list_elem_of_In, elem_of_app. right. rewrite decide_True by done. left.
Qed.



(** What the scan has established after the vertices below [k]. *)
Definition scan_inv (dist : list num) (vis : list bool) (k : nat)
    (acc : num * option nat) : Prop :=
  match acc with
  | (Fin du, Some u) =>
      u < k ∧ vis !! u = Some false ∧ dist !! u = Some (Fin du)
      ∧ ∀ y dy, y < k → vis !! y = Some false → dist !! y = Some (Fin dy) →
                (du ≤ dy)%Z
  | (Infinity, None) =>
      ∀ y dy, y < k → vis !! y = Some false → dist !! y ≠ Some (Fin dy)
  | _ => False
  end.

Lemma scan_vertex_inv dist vis k acc :
  scan_inv dist vis k acc → scan_inv dist vis (S k) (scan_vertex dist vis acc k).
Proof.
  assert (Hcase : ∀ y, y < S k → y = k ∨ y < k) by lia.
  destruct acc as [[du|] [u|]]; try done; unfold scan_vertex, scan_inv; cbn [fst].
  - intros (Hu & Hvu & Hdu & Hmin).
    destruct (vis !! k) as [[|]|] eqn:Hvk, (dist !! k) as [[dk|]|] eqn:Hdk; cbn;
      try case_bool_decide;
      (split; [lia|]); (split; [done|]); (split; [done|]);
      intros y dy [->|Hy]%Hcase Hvy Hdy; simplify_eq; try lia; eauto.
    all: etrans; [|eapply Hmin; eauto]; lia.
  - intros Hall.
    destruct (vis !! k) as [[|]|] eqn:Hvk, (dist !! k) as [[dk|]|] eqn:Hdk; cbn;
      try (repeat split; [lia|done|done|]);
      intros y dy [->|Hy]%Hcase Hvy; try congruence; eauto.
    + intros Hdy. simplify_eq. lia.
    + intros Hdy. by destruct (Hall y dy Hy Hvy).
Qed.

Lemma scan_all_inv dist vis k :
  scan_inv dist vis k (foldl (scan_vertex dist vis) (Infinity, None) (seq 0 k)).
Proof.
  induction k as [|k IH].
  - cbn. intros; lia.
  - rewrite seq_S, foldl_snoc. by apply scan_vertex_inv.
Qed.

(** [find_min] selects an unvisited vertex of least finite distance, and
    selects none exactly when every unvisited vertex is at [Infinity]. *)
Lemma find_min_spec vertices dist vis :
  match find_min vertices dist vis with
  | Some u =>
      u < vertices ∧ vis !! u = Some false
      ∧ ∃ du, dist !! u = Some (Fin du)
           ∧ ∀ y dy, y < vertices → vis !! y = Some false →
                     dist !! y = Some (Fin dy) → (du ≤ dy)%Z
  | None =>
      ∀ y dy, y < vertices → vis !! y = Some false → dist !! y ≠ Some (Fin dy)
  end.
Proof.
  unfold find_min. pose proof (scan_all_inv dist vis vertices) as H.
  destruct (foldl _ _ _) as [[du|] [u|]]; cbn in *; try done.
  destruct H as (? & ? & ? & ?). eauto 10.
Qed.


(** The number of vertices not yet visited. *)
Fixpoint unvisited (vis : list bool) : nat :=
  match vis with
  | [] => 0
  | b :: vis => (if b then 0 else 1) + unvisited vis
  end.

Lemma unvisited_mark vis : ∀ u,
  vis !! u = Some false → unvisited (<[u := true]> vis) + 1 = unvisited vis.
Proof.
  induction vis as [|b vis IH]; intros u Hu; [done|].
  destruct u as [|u].
  - cbn in *. simplify_eq. cbn. lia.
  - change (<[S u := true]> (b :: vis)) with (b :: <[u := true]> vis).
    cbn [unvisited]. specialize (IH u Hu). destruct b; lia.
Qed.

Lemma unvisited_zero vis : ∀ y, unvisited vis = 0 → vis !! y ≠ Some false.
Proof.
  induction vis as [|b vis IH]; intros y H Hy; [done|].
  destruct y as [|y]; cbn in *.
  - simplify_eq.
  - destruct b; [|lia]. by apply (IH y).
Qed.

Section Correctness.
Variable vertices : nat.
Variable edges : list Edge.
Variable startVertex : nat.
Hypothesis Hvalid : valid_graph vertices edges.
Hypothesis Hnonneg : Forall (λ e, (0 ≤ weight e)%Z) edges.
Hypothesis Hsrc : startVertex < vertices.

Local Open Scope Z_scope.

Lemma walk_nonneg v W : walk edges startVertex v W → 0 ≤ W.
Proof.
  induction 1 as [|v x e W Hw IH He _]; [done|].
  rewrite Forall_forall in Hnonneg. specialize (Hnonneg e He). lia.
Qed.

Lemma walk_in_range v W : walk edges startVertex v W → (v < vertices)%nat.
Proof.
  induction 1 as [|v x e W Hw IH He Hc]; [done|].
  unfold valid_graph in Hvalid. rewrite Forall_forall in Hvalid.
  destruct (Hvalid e He). destruct Hc as [[_ <-]|[<- _]]; done.
Qed.

Record inv (dist : list num) (vis : list bool) : Prop := mkInv {
  inv_len_d : length dist = vertices;
  inv_len_v : length vis = vertices;
  inv_src : dist !! startVertex = Some (Fin 0);
  inv_walk : ∀ v d, dist !! v = Some (Fin d) → walk edges startVertex v d;
  inv_opt : ∀ v, vis !! v = Some true →
            ∃ d, dist !! v = Some (Fin d)
                 ∧ ∀ W, walk edges startVertex v W → d ≤ W
}.

(** The edge [e'] out of [u] cannot improve its target any more. *)
Definition relaxed (dist : list num) (u : nat) (e' : Edge) : Prop :=
  ∃ du dx, dist !! u = Some (Fin du) ∧ dist !! to e' = Some (Fin dx)
           ∧ dx ≤ du + weight e'.

Definition closedR (R : nat → Edge → Prop) (dist : list num) (vis : list bool) : Prop :=
  ∀ u e', R u e' → vis !! u = Some true → relaxed dist u e'.

Definition all_adj (u : nat) (e' : Edge) : Prop := e' ∈ adj_spec edges u.

(** A walk ends at a visited vertex whose distance it does not beat, or
    some unvisited vertex has a finite distance that it does not beat. *)
Lemma frontier dist vis v W :
  inv dist vis → closedR all_adj dist vis →
  walk edges startVertex v W →
  (vis !! v = Some true ∧ ∃ d, dist !! v = Some (Fin d) ∧ d ≤ W)
  ∨ (∃ y dy, vis !! y = Some false ∧ dist !! y = Some (Fin dy) ∧ dy ≤ W).
Proof.
  intros Hinv Hcl Hw.
  assert (Hvis : ∀ x, (x < vertices)%nat → ∃ b, vis !! x = Some b).
  { intros x Hx. apply lookup_lt_is_Some_2. by rewrite (inv_len_v _ _ Hinv). }
  induction Hw as [|v x e W Hw IH He Hc].
  - destruct (Hvis startVertex Hsrc) as [[|] Hb].
    + left. split; [done|]. exists 0. split; [apply Hinv|done].
    + right. exists startVertex, 0. split; [done|]. split; [apply Hinv|done].
  - assert (Hwe : 0 ≤ weight e).
    { rewrite Forall_forall in Hnonneg. by apply Hnonneg. }
    destruct IH as [[Hv (d & Hd & HdW)]|(y & dy & Hy & Hdy & HyW)].
    + assert (He' : ∃ e', e' ∈ adj_spec edges v ∧ to e' = x ∧ weight e' = weight e).
      { destruct (adj_spec_complete edges e He) as [(e1 & H1 & H1t & H1w) (e2 & H2 & H2t & H2w)].
        destruct Hc as [[<- <-]|[<- <-]]; eauto. }
      destruct He' as (e' & He' & <- & <-).
      destruct (Hcl v e' He' Hv) as (du & dx & Hdu & Hdx & Hle).
      simplify_eq.
      assert (Hx : (to e' < vertices)%nat).
      { eapply walk_in_range. eapply walk_step; eauto. }
      destruct (Hvis _ Hx) as [[|] Hb].
      * left. split; [done|]. exists dx. split; [done|lia].
      * right. exists (to e'), dx. split; [done|]. split; [done|lia].
    + right. exists y, dy. split; [done|]. split; [done|lia].
Qed.


Lemma relax_neighbor_spec (R : nat → Edge → Prop) u du st e' :
  inv (st_distances st) (st_visited st) →
  st_visited st !! u = Some true →
  st_distances st !! u = Some (Fin du) →
  e' ∈ adj_spec edges u →
  closedR R (st_distances st) (st_visited st) →
  let st' := relax_neighbor u st e' in
  st_visited st' = st_visited st
  ∧ inv (st_distances st') (st_visited st)
  ∧ st_distances st' !! u = Some (Fin du)
  ∧ closedR (λ a b, R a b ∨ (a = u ∧ b = e')) (st_distances st') (st_visited st).
Proof.
  intros Hinv Hu Hdu He' Hcl.
  destruct (adj_spec_sound _ _ _ He') as (Hfrom & e & He & Hw & Hends).
  assert (Hwu : walk edges startVertex u du) by (by apply (inv_walk _ _ Hinv)).
  assert (Hwx : walk edges startVertex (to e') (du + weight e')).
  { rewrite Hw. eapply walk_step; [exact Hwu|exact He|].
    destruct Hends as [[? ?]|[? ?]]; [left|right]; done. }
  assert (Hx : (to e' < vertices)%nat) by (by eapply walk_in_range).
  unfold relax_neighbor. cbn zeta. rewrite Hdu.
  cbn [default from_option Datatypes.id].
  destruct (st_visited st !! to e') as [[|]|] eqn:Hvx.
  - (* the neighbour is visited: its distance is already optimal *)
    split; [done|]. split; [done|]. split; [done|].
    intros a b [HR|[-> ->]] Ha; [by apply Hcl|].
    destruct (inv_opt _ _ Hinv _ Hvx) as (dx & Hdx & Hmin).
    exists du, dx. split; [done|]. split; [done|]. by apply Hmin.
  - destruct (lookup_lt_is_Some_2 (st_distances st) (to e')) as [dx Hdx].
    { by rewrite (inv_len_d _ _ Hinv). }
    rewrite Hdx. cbn [default from_option Datatypes.id num_add].
    destruct (num_lt (Fin (du + weight e')) dx) eqn:Hlt.
    + (* the distance of the neighbour improves *)
      cbn [st_visited st_distances].
      assert (Hxu : to e' ≠ u) by congruence.
      assert (Hxs : to e' ≠ startVertex).
      { intros Heq. rewrite Heq, (inv_src _ _ Hinv) in Hdx. simplify_eq.
        cbn in Hlt. apply bool_decide_eq_true in Hlt.
        pose proof (walk_nonneg _ _ Hwx). lia. }
      assert (Hlen : (to e' < length (st_distances st))%nat)
        by (by rewrite (inv_len_d _ _ Hinv)).
      split; [done|]. split; [|split].
      * constructor.
        -- by rewrite length_insert; apply Hinv.
        -- apply Hinv.
        -- rewrite list_lookup_insert_ne by done. apply Hinv.
        -- intros v d Hv. destruct (decide (v = to e')) as [->|Hne].
           ++ rewrite list_lookup_insert_eq in Hv by done. by simplify_eq.
           ++ rewrite list_lookup_insert_ne in Hv by done. by apply (inv_walk _ _ Hinv).
        -- intros v Hv. assert (v ≠ to e') by congruence.
           rewrite list_lookup_insert_ne by done. by apply (inv_opt _ _ Hinv).
      * by rewrite list_lookup_insert_ne.
      * intros a b [HR|[-> ->]] Ha.
        -- destruct (Hcl a b HR Ha) as (da & db & Hda & Hdb & Hle).
           assert (a ≠ to e') by congruence.
           destruct (decide (to b = to e')) as [Heq|Hne].
           ++ exists da, (du + weight e'). rewrite list_lookup_insert_ne by done.
              rewrite Heq, list_lookup_insert_eq by done.
              split; [done|]. split; [done|].
              rewrite Heq, Hdx in Hdb. simplify_eq.
              cbn in Hlt. apply bool_decide_eq_true in Hlt. lia.
           ++ exists da, db. by rewrite !list_lookup_insert_ne.
        -- exists du, (du + weight e').
           rewrite list_lookup_insert_ne, list_lookup_insert_eq by done.
           split; [done|]. split; [done|]. lia.
    + split; [done|]. split; [done|]. split; [done|].
      intros a b [HR|[-> ->]] Ha; [by apply Hcl|].
      destruct dx as [dx|]; [|done].
      cbn in Hlt. apply bool_decide_eq_false in Hlt.
      exists du, dx. split; [done|]. split; [done|]. lia.
  - apply lookup_ge_None in Hvx. rewrite (inv_len_v _ _ Hinv) in Hvx. lia.
Qed.

Lemma relax_all_spec u du l : ∀ (R : nat → Edge → Prop) st,
  inv (st_distances st) (st_visited st) →
  st_visited st !! u = Some true →
  st_distances st !! u = Some (Fin du) →
  (∀ e', e' ∈ l → e' ∈ adj_spec edges u) →
  closedR R (st_distances st) (st_visited st) →
  let st' := foldl (relax_neighbor u) st l in
  st_visited st' = st_visited st
  ∧ inv (st_distances st') (st_visited st)
  ∧ closedR (λ a b, R a b ∨ (a = u ∧ b ∈ l)) (st_distances st') (st_visited st).
Proof.
  induction l as [|e' l IH]; intros R st Hinv Hu Hdu Hl Hcl; cbn zeta.
  - cbn. split; [done|]. split; [done|].
    intros a b [HR|[_ Hb]] Ha; [by apply Hcl|by apply elem_of_nil in Hb].
  - cbn [foldl].
    destruct (relax_neighbor_spec R u du st e' Hinv Hu Hdu) as (Hv1 & Hinv1 & Hdu1 & Hcl1);
      [apply Hl; left|done|].
    rewrite <- Hv1 in Hinv1, Hcl1, Hu.
    destruct (IH (λ a b, R a b ∨ (a = u ∧ b = e')) (relax_neighbor u st e')
                Hinv1 Hu Hdu1) as (Hv2 & Hinv2 & Hcl2); [|exact Hcl1|].
    { intros b Hb. apply Hl. by right. }
    rewrite Hv1 in Hv2, Hinv2, Hcl2.
    split; [done|]. split; [done|].
    intros a b Hab Ha. apply Hcl2; [|done].
    destruct Hab as [HR|[-> Hb]]; [auto|].
    apply elem_of_cons in Hb as [->|Hb]; auto.
Qed.

Lemma main_loop_spec count : ∀ st,
  inv (st_distances st) (st_visited st) →
  closedR all_adj (st_distances st) (st_visited st) →
  (unvisited (st_visited st) ≤ count)%nat →
  let st' := main_loop vertices edges count st in
  inv (st_distances st') (st_visited st')
  ∧ closedR all_adj (st_distances st') (st_visited st')
  ∧ ∀ y dy, (y < vertices)%nat → st_visited st' !! y = Some false →
            st_distances st' !! y ≠ Some (Fin dy).
Proof.
  induction count as [|count IH]; intros st Hinv Hcl Hcount; cbn zeta.
  - cbn [main_loop]. split; [done|]. split; [done|].
    intros y dy _ Hy. exfalso. eapply unvisited_zero; [|exact Hy]. lia.
  - cbn [main_loop].
    pose proof (find_min_spec vertices (st_distances st) (st_visited st)) as Hmin.
    destruct (find_min _ _ _) as [u|]; [|done].
    destruct Hmin as (Hu & Hvu & du & Hdu & Hmin).
    rewrite build_adjList_lookup by done. cbn [default from_option Datatypes.id].
    set (vis1 := <[u := true]> (st_visited st)).
    set (st1 := mkState _ vis1 _ _).
    assert (Hvis1 : ∀ v, vis1 !! v = Some true → v = u ∨ st_visited st !! v = Some true).
    { intros v Hv. destruct (decide (v = u)) as [|Hne]; [by left|right].
      unfold vis1 in Hv. by rewrite list_lookup_insert_ne in Hv. }
    assert (Hulen : (u < length (st_visited st))%nat) by (by eapply lookup_lt_Some).
    assert (Hinv1 : inv (st_distances st1) (st_visited st1)).
    { constructor; cbn [st1 st_distances st_visited]; try apply Hinv.
      - unfold vis1. rewrite length_insert. apply Hinv.
      - intros v [->|Hv]%Hvis1; [|by apply (inv_opt _ _ Hinv)].
        exists du. split; [done|]. intros W HW.
        destruct (frontier _ _ _ _ Hinv Hcl HW)
          as [[Hv _]|(y & dy & Hy & Hdy & HyW)]; [congruence|].
        etrans; [|exact HyW]. eapply Hmin; [|done|done].
        by eapply lookup_lt_Some in Hy; rewrite (inv_len_v _ _ Hinv) in Hy. }
    assert (Hcl1 : closedR (λ a b, a ≠ u ∧ all_adj a b) (st_distances st1) (st_visited st1)).
    { intros a b [Hne Hab] Ha. cbn [st1 st_distances st_visited] in *.
      apply Hcl; [done|]. unfold vis1 in Ha. by rewrite list_lookup_insert_ne in Ha. }
    destruct (relax_all_spec u du (adj_spec edges u)
                (λ a b, a ≠ u ∧ all_adj a b) st1 Hinv1)
      as (Hv2 & Hinv2 & Hcl2); [|done|done|exact Hcl1|].
    { cbn [st1 st_visited]. unfold vis1. by rewrite list_lookup_insert_eq. }
    rewrite <- Hv2 in Hinv2, Hcl2.
    apply IH; [done| |].
    + intros a b Hab Ha. apply Hcl2; [|done].
      destruct (decide (a = u)) as [->|]; [right|left]; done.
    + rewrite Hv2. cbn [st1 st_visited]. unfold vis1.
      pose proof (unvisited_mark _ _ Hvu). lia.
Qed.

End Correctness.

(** C1: on a graph with non-negative weights, read as undirected, the
    last step of the trace is the "complete" step and its [distances]
    array gives, for every vertex, the shortest-path distance from the
    source: the least weight of a walk, [Infinity] when there is none.  On
    the default graph from source 0 the array is exactly
    [0, 3, 2, 8, 10, 13]. *)
Theorem dijkstra_final_distances :
  (∀ (vertices : nat) (edges : list Edge) (startVertex : nat),
     valid_graph vertices edges →
     Forall (λ e, (0 ≤ weight e)%Z) edges →
     startVertex < vertices →
     ∃ final,
       last (dijkstraAlgorithm vertices edges startVertex) = Some final
       ∧ description final = Complete
       ∧ length (distances final) = vertices
       ∧ ∀ v, v < vertices →
           ∃ d, distances final !! v = Some d ∧ shortest edges startVertex v d)
  ∧ (distances <$> last (dijkstraAlgorithm 6 default_edges 0)
     = Some [Fin 0; Fin 3; Fin 2; Fin 8; Fin 10; Fin 13]).
Proof.
  split; [|reflexivity].
  intros vertices edges startVertex Hvalid Hnonneg Hsrc.
  unfold dijkstraAlgorithm, push. rewrite last_snoc.
  eexists. split; [reflexivity|]. cbn [description distances].
  set (st0 := initial_state vertices startVertex).
  assert (Hinv0 : inv vertices edges startVertex (st_distances st0) (st_visited st0)).
  { constructor; cbn [st0 initial_state st_distances st_visited].
    - by rewrite length_insert, length_replicate.
    - by rewrite length_replicate.
    - rewrite list_lookup_insert_eq; [done|]. by rewrite length_replicate.
    - intros v d Hv. destruct (decide (v = startVertex)) as [->|Hne].
      + rewrite list_lookup_insert_eq in Hv by (by rewrite length_replicate).
        simplify_eq. constructor.
      + rewrite list_lookup_insert_ne in Hv by done.
        apply lookup_replicate in Hv as [? _]. done.
    - intros v Hv. apply lookup_replicate in Hv as [? _]. done. }
  assert (Hcl0 : closedR (all_adj edges) (st_distances st0) (st_visited st0)).
  { intros a b _ Ha. cbn [st0 initial_state st_visited] in Ha.
    apply lookup_replicate in Ha as [? _]. done. }
  destruct (main_loop_spec vertices edges startVertex Hvalid Hnonneg Hsrc
              vertices st0 Hinv0 Hcl0) as (Hinv & Hcl & Hinf).
  { cbn [st0 initial_state st_visited]. clear.
    induction vertices as [|k IH]; cbn; lia. }
  set (st := main_loop vertices edges vertices st0) in *.
  split; [done|]. split; [apply Hinv|].
  intros v Hv.
  destruct (lookup_lt_is_Some_2 (st_distances st) v) as [d Hd];
    [by rewrite (inv_len_d _ _ _ _ _ Hinv)|].
  destruct (lookup_lt_is_Some_2 (st_visited st) v) as [b Hb];
    [by rewrite (inv_len_v _ _ _ _ _ Hinv)|].
  exists d. split; [done|]. destruct b.
  - destruct (inv_opt _ _ _ _ _ Hinv v Hb) as (d' & Hd' & Hmin).
    simplify_eq. split; [by apply (inv_walk _ _ _ _ _ Hinv)|done].
  - destruct d as [d|]; [by destruct (Hinf v d Hv Hb)|].
    intros W HW.
    destruct (frontier vertices edges startVertex Hvalid Hnonneg Hsrc _ _ _ _ Hinv Hcl HW)
      as [[Hv' _]|(y & dy & Hy & Hdy & _)]; [congruence|].
    eapply Hinf; [|exact Hy|exact Hdy].
    apply lookup_lt_Some in Hy. by rewrite (inv_len_v _ _ _ _ _ Hinv) in Hy.
Qed.

(** C1 witness: the default graph, from source 0. *)
Lemma dijkstra_final_distances_witness :
  ∃ final,
    last (dijkstraAlgorithm 6 default_edges 0) = Some final
    ∧ description final = Complete
    ∧ length (distances final) = 6
    ∧ ∀ v, v < 6 →
        ∃ d, distances final !! v = Some d ∧ shortest default_edges 0 v d.
Proof.
  apply (proj1 dijkstra_final_distances 6 default_edges 0);
    [repeat constructor; cbn; lia | repeat constructor; cbn; lia | lia].
Defined.

End Dijkstra.

(** ** Kruskal (KruskalVisualizer) *)

Module Kruskal.

Inductive Description :=
| SortedEdges
| Examining (edge : Edge)
| Accepted (edge : Edge)
| Rejected (edge : Edge)
| Complete (totalWeight : Z).

Record KruskalStep := mkStep {
  step : nat;
  description : Description;
  sortedEdges : list Edge;
  currentEdge : option Edge;
  mstEdges : list Edge;
  parent : list nat;
  isValidEdge : bool;
  totalWeight : Z
}.

(** [[...edges].sort((a, b) => a.weight - b.weight)]: the sort of the
    language is stable, so its result is the one list that is ascending in
    weight and keeps edges of equal weight in their input order; insertion
    from the right computes it. *)
Fixpoint insert_by_weight (x : Edge) (l : list Edge) : list Edge :=
  match l with
  | [] => [x]
  | y :: r =>
      if bool_decide (weight x ≤ weight y)%Z then x :: y :: r
      else y :: insert_by_weight x r
  end.

Definition sort_by_weight (edges : list Edge) : list Edge :=
  foldr insert_by_weight [] edges.

(** [find(parent, i)], with path compression; the array is returned with
    the root.  [None]: the recursion is deeper than the fuel, or an index
    is outside the array. *)
Fixpoint find (fuel : nat) (parent : list nat) (i : nat) : option (list nat * nat) :=
  match fuel with
  | 0 => None
  | S fuel' =>
      p ← parent !! i;
      if bool_decide (p ≠ i) then
        '(parent, r) ← find fuel' parent p;
        Some (<[i := r]> parent, r)
      else Some (parent, p)
  end.

(** [union(parent, rank, x, y)] *)
Definition union (fuel : nat) (parent rank : list nat) (x y : nat)
    : option (list nat * list nat) :=
  '(parent, xroot) ← find fuel parent x;
  '(parent, yroot) ← find fuel parent y;
  rx ← rank !! xroot;
  ry ← rank !! yroot;
  if bool_decide (rx < ry) then Some (<[xroot := yroot]> parent, rank)
  else if bool_decide (ry < rx) then Some (<[yroot := xroot]> parent, rank)
  else Some (<[yroot := xroot]> parent, <[xroot := rx + 1]> rank).

(** The mutable locals of [kruskalMST]. *)
Record State := mkState {
  st_parent : list nat;
  st_rank : list nat;
  st_mstEdges : list Edge;
  st_totalWeight : Z;
  st_steps : list KruskalStep
}.

Section Algorithm.
Variable vertices : nat.
Variable edges : list Edge.

Let sorted := sort_by_weight edges.

(** Enough fuel for every call of [find] in a run. *)
Let fuel := length edges + 1.

(** One iteration of [for (const edge of sortedEdges)]; the boolean tells
    whether the loop goes on. *)
Definition examine (edge : Edge) (st : State) : option (State * bool) :=
  '(parent, rootX) ← find fuel (st_parent st) (from edge);
  '(parent, rootY) ← find fuel parent (to edge);
  let steps := push (st_steps st) (λ c,
    mkStep c (Examining edge) sorted (Some edge) (st_mstEdges st) parent
           false (st_totalWeight st)) in
  st ←
    (if bool_decide (rootX ≠ rootY) then
       '(parent, rank) ← union fuel parent (st_rank st) rootX rootY;
       let mstEdges := st_mstEdges st ++ [edge] in
       let totalWeight := (st_totalWeight st + weight edge)%Z in
       Some (mkState parent rank mstEdges totalWeight
               (push steps (λ c,
                  mkStep c (Accepted edge) sorted (Some edge) mstEdges parent
                         true totalWeight)))
     else
       Some (mkState parent (st_rank st) (st_mstEdges st) (st_totalWeight st)
               (push steps (λ c,
                  mkStep c (Rejected edge) sorted (Some edge) (st_mstEdges st)
                         parent false (st_totalWeight st)))));
  Some (st, bool_decide (Z.of_nat (length (st_mstEdges st)) ≠ Z.of_nat vertices - 1)%Z).

Fixpoint edge_loop (l : list Edge) (st : State) : option State :=
  match l with
  | [] => Some st
  | edge :: l' =>
      '(st, continue) ← examine edge st;
      if continue : bool then edge_loop l' st else Some st
  end.

(** [kruskalMST]: the trace handed to [setSteps]. *)
Definition kruskalMST : option (list KruskalStep) :=
  let parent := seq 0 vertices in
  let rank := replicate vertices 0 in
  let steps := push [] (λ c,
    mkStep c SortedEdges sorted None [] parent false 0) in
  st ← edge_loop sorted (mkState parent rank [] 0 steps);
  Some (push (st_steps st) (λ c,
    mkStep c (Complete (st_totalWeight st)) sorted None (st_mstEdges st)
           (st_parent st) false (st_totalWeight st))).
End Algorithm.


(** *** The sort *)

Definition by_weight (a b : Edge) : Prop := (weight a ≤ weight b)%Z.

Lemma insert_by_weight_perm x l : insert_by_weight x l ≡ₚ x :: l.
Proof.
  induction l as [|y r IH]; cbn; [done|].
  case_bool_decide; [done|]. rewrite IH. apply Permutation_swap.
Qed.

Lemma insert_by_weight_sorted x l :
  StronglySorted by_weight l → StronglySorted by_weight (insert_by_weight x l).
Proof.
  induction 1 as [|y r Hr IH Hy]; cbn.
  - repeat constructor.
  - case_bool_decide as Hxy.
    + constructor; [by constructor|]. constructor; [done|].
      eapply Forall_impl; [exact Hy|]. intros z Hz. unfold by_weight in *. lia.
    + constructor; [done|]. rewrite insert_by_weight_perm.
      constructor; [|done]. unfold by_weight. lia.
Qed.

Lemma insert_by_weight_filter (w : Z) x l :
  filter (λ e, weight e = w) (insert_by_weight x l)
  = filter (λ e, weight e = w) (x :: l).
Proof.
  induction l as [|y r IH]; cbn [insert_by_weight]; [done|].
  case_bool_decide as Hxy; [done|].
  rewrite filter_cons, IH, !filter_cons.
  destruct (decide (weight y = w)), (decide (weight x = w)); try done. lia.
Qed.

Lemma sort_by_weight_perm edges : sort_by_weight edges ≡ₚ edges.
Proof.
  induction edges as [|x l IH]; cbn; [done|].
  by rewrite insert_by_weight_perm, IH.
Qed.

Lemma sort_by_weight_sorted edges : StronglySorted by_weight (sort_by_weight edges).
Proof.
  induction edges as [|x l IH]; cbn; [constructor|].
  by apply insert_by_weight_sorted.
Qed.

(** Stability: the edges of any one weight keep their input order. *)
Lemma sort_by_weight_stable (w : Z) edges :
  filter (λ e, weight e = w) (sort_by_weight edges)
  = filter (λ e, weight e = w) edges.
Proof.
  induction edges as [|x l IH]; cbn [sort_by_weight foldr]; [done|].
  fold (sort_by_weight l). by rewrite insert_by_weight_filter, !filter_cons, IH.
Qed.


(** *** The union-find forest *)

(** [r] is the root reached from [x] by following [parent]. *)
Inductive root_of (parent : list nat) : nat → nat → Prop :=
| root_self x : parent !! x = Some x → root_of parent x x
| root_up x p r :
    parent !! x = Some p → p ≠ x → root_of parent p r → root_of parent x r.

Lemma root_of_is_root parent x r : root_of parent x r → parent !! r = Some r.
Proof. by induction 1. Qed.

Lemma root_of_fun parent x r r' :
  root_of parent x r → root_of parent x r' → r = r'.
Proof.
  intros H. revert r'. induction H as [x Hx|x p r Hx Hp Hr IH]; intros r' H'.
  - inversion H'; simplify_eq; done.
  - inversion H' as [? Hx'|? p' ? Hx' Hp' Hr']; simplify_eq. by apply IH.
Qed.

(** Path compression at [x] keeps every root. *)
Lemma compress_root parent x r :
  root_of parent x r → x < length parent →
  ∀ y ry, root_of parent y ry → root_of (<[x := r]> parent) y ry.
Proof.
  intros Hx Hlen y ry Hy.
  induction Hy as [y Hy|y p ry Hy Hp Hr IH].
  - destruct (decide (y = x)) as [->|Hne].
    + assert (x = r) as <- by (eapply root_of_fun; [by apply root_self|done]).
      apply root_self. by rewrite list_lookup_insert_eq.
    + apply root_self. by rewrite list_lookup_insert_ne.
  - destruct (decide (y = x)) as [->|Hne].
    + assert (ry = r) as ->.
      { eapply root_of_fun; [|exact Hx]. by eapply root_up. }
      assert (r ≠ x).
      { intros ->. apply root_of_is_root in Hx. congruence. }
      eapply root_up; [by rewrite list_lookup_insert_eq|done|].
      apply root_self. rewrite list_lookup_insert_ne by done.
      by eapply root_of_is_root.
    + eapply root_up; [by rewrite list_lookup_insert_ne|done|done].
Qed.

(** The forest over [n] vertices: parents are vertices, ranks grow strictly
    towards the roots and are bounded by [M]. *)
Record uf_inv (n : nat) (parent rank : list nat) (M : nat) : Prop := mkUf {
  uf_len_p : length parent = n;
  uf_len_r : length rank = n;
  uf_parent : ∀ x p, parent !! x = Some p →
    p < n ∧ (p ≠ x → ∃ rx rp, rank !! x = Some rx ∧ rank !! p = Some rp ∧ rx < rp);
  uf_bound : ∀ x rx, rank !! x = Some rx → rx ≤ M
}.

Lemma root_of_rank n parent rank M x r rx rr :
  uf_inv n parent rank M → root_of parent x r →
  rank !! x = Some rx → rank !! r = Some rr → rx ≤ rr.
Proof.
  intros Hinv H. revert rx. induction H as [x Hx|x p r Hx Hp Hr IH]; intros rx Hrx Hrr.
  - simplify_eq. lia.
  - destruct (uf_parent _ _ _ _ Hinv x p Hx) as [_ Hlt].
    destruct (Hlt Hp) as (rx' & rp & ? & Hrp & ?). simplify_eq.
    specialize (IH rp Hrp Hrr). lia.
Qed.

Lemma find_spec n rank M fuel : ∀ parent x rx,
  uf_inv n parent rank M → x < n → rank !! x = Some rx → M - rx < fuel →
  ∃ parent' r,
    find fuel parent x = Some (parent', r)
    ∧ root_of parent x r
    ∧ r < n
    ∧ uf_inv n parent' rank M
    ∧ ∀ y ry, root_of parent y ry → root_of parent' y ry.
Proof.
  induction fuel as [|fuel IH]; intros parent x rx Hinv Hx Hrx Hfuel; [lia|].
  cbn [find].
  destruct (lookup_lt_is_Some_2 parent x) as [p Hp]; [by rewrite (uf_len_p _ _ _ _ Hinv)|].
  rewrite Hp. cbn [mbind option_bind].
  destruct (uf_parent _ _ _ _ Hinv x p Hp) as [Hpn Hlt].
  case_bool_decide as Hne.
  - destruct (Hlt Hne) as (rx' & rp & ? & Hrp & Hlt'). simplify_eq.
    pose proof (uf_bound _ _ _ _ Hinv p rp Hrp).
    destruct (IH parent p rp Hinv Hpn Hrp) as (parent1 & r & -> & Hroot & Hr & Hinv1 & Hkeep);
      [lia|].
    cbn [mbind option_bind].
    assert (Hxr : root_of parent x r) by (by eapply root_up).
    assert (Hlen1 : x < length parent1) by (by rewrite (uf_len_p _ _ _ _ Hinv1)).
    exists (<[x := r]> parent1), r. split; [done|]. split; [done|]. split; [done|].
    split.
    + constructor.
      * rewrite length_insert. apply Hinv1.
      * apply Hinv1.
      * intros y q Hy. destruct (decide (y = x)) as [->|Hyx].
        -- rewrite list_lookup_insert_eq in Hy by done. simplify_eq.
           split; [done|]. intros _.
           destruct (lookup_lt_is_Some_2 rank q) as [rq Hrq];
             [by rewrite (uf_len_r _ _ _ _ Hinv)|].
           exists rx, rq. split; [done|]. split; [done|].
           pose proof (root_of_rank _ _ _ _ _ _ _ _ Hinv Hroot Hrp Hrq). lia.
        -- rewrite list_lookup_insert_ne in Hy by done.
           by apply (uf_parent _ _ _ _ Hinv1).
      * apply Hinv1.
    + intros y ry Hy. apply compress_root; [by apply Hkeep|done|by apply Hkeep].
  - assert (p = x) as -> by (destruct (decide (p = x)); [done|contradiction]).
    exists parent, x. split; [done|]. split; [by apply root_self|]. done.
Qed.


Lemma union_spec n parent rank M fuel x y :
  uf_inv n parent rank M → x < n → y < n →
  parent !! x = Some x → parent !! y = Some y → x ≠ y → M < fuel →
  ∃ parent' rank',
    union fuel parent rank x y = Some (parent', rank')
    ∧ uf_inv n parent' rank' (M + 1).
Proof.
  intros Hinv Hx Hy Hpx Hpy Hxy Hfuel. unfold union.
  destruct (lookup_lt_is_Some_2 rank x) as [rx Hrx]; [by rewrite (uf_len_r _ _ _ _ Hinv)|].
  destruct (lookup_lt_is_Some_2 rank y) as [ry Hry]; [by rewrite (uf_len_r _ _ _ _ Hinv)|].
  destruct (find_spec n rank M fuel parent x rx Hinv Hx Hrx)
    as (parent1 & r1 & -> & Hr1 & _ & Hinv1 & Hkeep1); [lia|].
  assert (r1 = x) as -> by (eapply root_of_fun; [exact Hr1|by apply root_self]).
  cbn [mbind option_bind].
  destruct (find_spec n rank M fuel parent1 y ry Hinv1 Hy Hry)
    as (parent2 & r2 & -> & Hr2 & _ & Hinv2 & Hkeep2); [lia|].
  assert (r2 = y) as ->.
  { eapply root_of_fun; [exact Hr2|]. apply Hkeep1. by apply root_self. }
  cbn [mbind option_bind]. rewrite Hrx, Hry. cbn [mbind option_bind].
  assert (Hx2 : parent2 !! x = Some x).
  { eapply root_of_is_root, Hkeep2, Hkeep1. by apply root_self. }
  assert (Hy2 : parent2 !! y = Some y).
  { eapply root_of_is_root, Hkeep2, Hkeep1. by apply root_self. }
  assert (Hlx : x < length parent2) by (by rewrite (uf_len_p _ _ _ _ Hinv2)).
  assert (Hly : y < length parent2) by (by rewrite (uf_len_p _ _ _ _ Hinv2)).
  assert (Hlrx : x < length rank) by (by rewrite (uf_len_r _ _ _ _ Hinv2)).
  assert (Hb : ∀ z rz, rank !! z = Some rz → rz ≤ M + 1).
  { intros z rz Hz. pose proof (uf_bound _ _ _ _ Hinv z rz Hz). lia. }
  repeat case_bool_decide; eexists _, _; (split; [reflexivity|]).
  - (* rank[x] < rank[y]: x goes under y *)
    constructor; [by rewrite length_insert; apply Hinv2|apply Hinv2| |done].
    intros z p Hz. destruct (decide (z = x)) as [->|Hzx].
    + rewrite list_lookup_insert_eq in Hz by done. simplify_eq.
      split; [done|]. intros _. eauto.
    + rewrite list_lookup_insert_ne in Hz by done.
      by apply (uf_parent _ _ _ _ Hinv2).
  - (* rank[y] < rank[x]: y goes under x *)
    constructor; [by rewrite length_insert; apply Hinv2|apply Hinv2| |done].
    intros z p Hz. destruct (decide (z = y)) as [->|Hzy].
    + rewrite list_lookup_insert_eq in Hz by done. simplify_eq.
      split; [done|]. intros _. eauto.
    + rewrite list_lookup_insert_ne in Hz by done.
      by apply (uf_parent _ _ _ _ Hinv2).
  - (* equal ranks: y goes under x, whose rank grows *)
    assert (rx = ry) as <- by lia.
    constructor.
    + rewrite length_insert. apply Hinv2.
    + rewrite length_insert. apply Hinv2.
    + intros z p Hz. destruct (decide (z = y)) as [->|Hzy].
      * rewrite list_lookup_insert_eq in Hz by done. simplify_eq.
        split; [done|]. intros _. exists rx, (rx + 1).
        rewrite list_lookup_insert_ne by done.
        rewrite list_lookup_insert_eq by done. split; [done|]. split; [done|lia].
      * rewrite list_lookup_insert_ne in Hz by done.
        destruct (uf_parent _ _ _ _ Hinv2 z p Hz) as [Hp Hlt].
        split; [done|]. intros Hpz.
        destruct (Hlt Hpz) as (rz & rp & Hrz & Hrp & Hlt').
        assert (z ≠ x) by (intros ->; congruence).
        rewrite list_lookup_insert_ne by done.
        destruct (decide (p = x)) as [->|Hpx0].
        -- rewrite list_lookup_insert_eq by done. simplify_eq.
           exists rz, (rx + 1). split; [done|]. split; [done|lia].
        -- rewrite list_lookup_insert_ne by done. eauto.
    + intros z rz Hz. destruct (decide (z = x)) as [->|Hzx].
      * rewrite list_lookup_insert_eq in Hz by done. simplify_eq.
        pose proof (uf_bound _ _ _ _ Hinv x rx Hrx). lia.
      * rewrite list_lookup_insert_ne in Hz by done. by eapply Hb.
Qed.

(** *** The trace *)

(** The two steps pushed for an examined edge: the "examining" step, then
    "accepted" when the endpoints have different roots in the forest
    recorded by the examining step, "rejected" when they have the same
    root. *)
Definition block_ok (edge : Edge) (b : list KruskalStep) : Prop :=
  ∃ s1 s2 rx ry,
    b = [s1; s2]
    ∧ description s1 = Examining edge ∧ currentEdge s1 = Some edge
    ∧ root_of (parent s1) (from edge) rx ∧ root_of (parent s1) (to edge) ry
    ∧ ((rx ≠ ry ∧ description s2 = Accepted edge ∧ isValidEdge s2 = true
        ∧ mstEdges s2 = mstEdges s1 ++ [edge]
        ∧ totalWeight s2 = (totalWeight s1 + weight edge)%Z)
       ∨ (rx = ry ∧ description s2 = Rejected edge ∧ isValidEdge s2 = false
          ∧ mstEdges s2 = mstEdges s1
          ∧ totalWeight s2 = totalWeight s1)).

(** The block leaves [vertices - 1] accepted edges. *)
Definition block_full (vertices : nat) (b : list KruskalStep) : Prop :=
  ∃ s1 s2, b = [s1; s2]
    ∧ (Z.of_nat (length (mstEdges s2)) = Z.of_nat vertices - 1)%Z.

Section Trace.
Variable vertices : nat.
Variable edges : list Edge.

Definition state_inv (st : State) : Prop :=
  uf_inv vertices (st_parent st) (st_rank st) (length (st_mstEdges st)).

Lemma examine_spec edge st :
  state_inv st → from edge < vertices → to edge < vertices →
  length (st_mstEdges st) < length edges + 1 →
  ∃ st' s1 s2,
    examine vertices edges edge st
    = Some (st', bool_decide (Z.of_nat (length (st_mstEdges st')) ≠ Z.of_nat vertices - 1)%Z)
    ∧ st_steps st' = st_steps st ++ [s1; s2]
    ∧ block_ok edge [s1; s2]
    ∧ mstEdges s1 = st_mstEdges st
    ∧ mstEdges s2 = st_mstEdges st'
    ∧ state_inv st'
    ∧ length (st_mstEdges st') ≤ length (st_mstEdges st) + 1.
Proof.
  intros Hinv Hf Ht Hfuel. unfold examine, state_inv in *.
  set (fuel := length edges + 1) in *.
  destruct (lookup_lt_is_Some_2 (st_rank st) (from edge)) as [rf Hrf];
    [by rewrite (uf_len_r _ _ _ _ Hinv)|].
  destruct (lookup_lt_is_Some_2 (st_rank st) (to edge)) as [rt Hrt];
    [by rewrite (uf_len_r _ _ _ _ Hinv)|].
  destruct (find_spec _ _ _ fuel _ _ _ Hinv Hf Hrf)
    as (parent1 & rootX & -> & HrX & HXn & Hinv1 & Hkeep1); [lia|].
  cbn [mbind option_bind].
  destruct (find_spec _ _ _ fuel _ _ _ Hinv1 Ht Hrt)
    as (parent2 & rootY & -> & HrY & HYn & Hinv2 & Hkeep2); [lia|].
  cbn [mbind option_bind]. apply Hkeep1, Hkeep2 in HrX.
  assert (HrY2 : root_of parent2 (to edge) rootY) by (by apply Hkeep2).
  case_bool_decide as Hne.
  - destruct (union_spec _ _ _ _ fuel rootX rootY Hinv2)
      as (parent3 & rank3 & -> & Hinv3); [done|done| | |done|lia|].
    { by eapply root_of_is_root. }
    { by eapply root_of_is_root. }
    cbn [mbind option_bind]. unfold push. rewrite <- !app_assoc. cbn [app].
    eexists _, _, _. split; [reflexivity|].
    cbn [st_steps st_mstEdges st_parent st_rank mstEdges].
    split; [done|]. split; [|split; [done|split; [done|split]]].
    + eexists _, _, rootX, rootY. split; [reflexivity|]. cbn. eauto 10.
    + by rewrite length_app, Nat.add_1_r in *.
    + rewrite length_app. cbn. lia.
  - assert (rootX = rootY) as <-
      by (destruct (decide (rootX = rootY)); [done|contradiction]).
    cbn [mbind option_bind]. unfold push. rewrite <- !app_assoc. cbn [app].
    eexists _, _, _. split; [reflexivity|].
    cbn [st_steps st_mstEdges st_parent st_rank mstEdges].
    split; [done|]. split; [|split; [done|split; [done|split; [done|lia]]]].
    eexists _, _, rootX, rootX. split; [reflexivity|]. cbn. eauto 10.
Qed.

Lemma edge_loop_spec l : ∀ st,
  state_inv st → Forall (λ e, from e < vertices ∧ to e < vertices) l →
  length (st_mstEdges st) + length l ≤ length edges →
  ∃ st' k blocks,
    edge_loop vertices edges l st = Some st'
    ∧ st_steps st' = st_steps st ++ concat blocks
    ∧ k ≤ length l
    ∧ Forall2 block_ok (take k l) blocks
    ∧ (∀ i b, blocks !! i = Some b → block_full vertices b → i + 1 = k)
    ∧ (k < length l → ∃ b, last blocks = Some b ∧ block_full vertices b).
Proof.
  induction l as [|e l IH]; intros st Hinv Hl Hlen.
  - exists st, 0, []. cbn. rewrite app_nil_r.
    repeat split; [done|constructor| |lia].
    intros i b Hb. by rewrite lookup_nil in Hb.
  - apply Forall_cons in Hl as [[Hf Ht] Hl]. cbn [length] in Hlen.
    destruct (examine_spec e st Hinv Hf Ht)
      as (st1 & s1 & s2 & Hex & Hsteps & Hblock & Hm1 & Hm2 & Hinv1 & Hlen1); [lia|].
    cbn [edge_loop]. rewrite Hex. cbn [mbind option_bind].
    case_bool_decide as Hfull.
    + destruct (IH st1 Hinv1 Hl) as (st' & k & blocks & -> & Hst & Hk & HF & Hstop & Hlast);
        [lia|].
      exists st', (S k), ([s1; s2] :: blocks).
      split; [done|]. split; [by rewrite Hst, Hsteps, <- app_assoc|].
      split; [cbn; lia|]. split; [by constructor|]. split.
      * intros [|i] b Hb Hbf; cbn in Hb.
        -- simplify_eq. destruct Hbf as (? & ? & ? & Hbf). simplify_eq. congruence.
        -- pose proof (Hstop i b Hb Hbf). lia.
      * intros Hk'. cbn in Hk'. destruct Hlast as (b & Hb & Hbf); [lia|].
        exists b. split; [|done]. destruct blocks; [done|]. done.
    + exists st1, 1, [[s1; s2]].
      split; [done|]. split; [by rewrite Hsteps|].
      split; [cbn; lia|]. split; [by repeat constructor|]. split.
      * intros [|[|i]] b Hb; cbn in Hb; done.
      * intros _. exists [s1; s2]. split; [done|]. exists s1, s2. split; [done|].
        rewrite Hm2.
        destruct (decide (Z.of_nat (length (st_mstEdges st1)) = Z.of_nat vertices - 1)%Z);
          [done|contradiction].
Qed.

End Trace.


(** C8: the edges are examined in the order of the stable ascending sort of
    the input list: the sorted list is a permutation of the input,
    ascending in weight, and keeps the input order among edges of equal
    weight; the trace is the initial step, one block of two steps for each
    of the first [k] sorted edges, and the final step.  In a block the edge
    is accepted into [mstEdges] exactly when its endpoints have different
    roots in the forest at that moment, and rejected otherwise.  A block
    that leaves [vertices - 1] accepted edges is the last one, and the
    examination stops before the end of the list only for that reason. *)
Theorem kruskal_examines_in_weight_order (vertices : nat) (edges : list Edge) :
  valid_graph vertices edges →
  let sorted := sort_by_weight edges in
  sorted ≡ₚ edges
  ∧ StronglySorted by_weight sorted
  ∧ (∀ w : Z, filter (λ e, weight e = w) sorted = filter (λ e, weight e = w) edges)
  ∧ ∃ trace init blocks final k,
      kruskalMST vertices edges = Some trace
      ∧ trace = init :: concat blocks ++ [final]
      ∧ description init = SortedEdges
      ∧ sortedEdges init = sorted
      ∧ (∃ total, description final = Complete total)
      ∧ k ≤ length sorted
      ∧ Forall2 block_ok (take k sorted) blocks
      ∧ (∀ i b, blocks !! i = Some b → block_full vertices b → i + 1 = k)
      ∧ (k < length sorted → ∃ b, last blocks = Some b ∧ block_full vertices b).
Proof.
  intros Hvalid sorted.
  split; [apply sort_by_weight_perm|]. split; [apply sort_by_weight_sorted|].
  split; [intros w; apply sort_by_weight_stable|].
  unfold kruskalMST. fold sorted.
  set (st0 := mkState _ _ _ _ _).
  destruct (edge_loop_spec vertices edges sorted st0)
    as (st' & k & blocks & Hloop & Hsteps & Hk & HF & Hstop & Hlast).
  - constructor; cbn [st0 st_parent st_rank st_mstEdges].
    + by rewrite length_seq.
    + by rewrite length_replicate.
    + intros x p Hx. apply lookup_seq in Hx as [-> Hx]. split; [done|]. done.
    + intros x rx Hx. apply lookup_replicate in Hx as [-> _]. done.
  - unfold valid_graph in Hvalid. unfold sorted.
    by rewrite (sort_by_weight_perm edges).
  - cbn [st0 st_mstEdges length]. unfold sorted.
    by rewrite (sort_by_weight_perm edges).
  - fold sorted in Hloop. rewrite Hloop. cbn [mbind option_bind].
    rewrite Hsteps. cbn [st0 st_steps]. unfold push. cbn [app length].
    eexists _, _, blocks, _, k. split; [reflexivity|].
    split; [reflexivity|]. cbn. eauto 10.
Qed.

(** The default graph of the component (the same as Dijkstra's). *)
Definition default_edges : list Edge := Dijkstra.default_edges.

(** C8 witness: the default graph of the component. *)
Lemma kruskal_examines_in_weight_order_witness :
  let sorted := sort_by_weight default_edges in
  sorted ≡ₚ default_edges
  ∧ StronglySorted by_weight sorted
  ∧ (∀ w : Z, filter (λ e, weight e = w) sorted
              = filter (λ e, weight e = w) default_edges)
  ∧ ∃ trace init blocks final k,
      kruskalMST 6 default_edges = Some trace
      ∧ trace = init :: concat blocks ++ [final]
      ∧ description init = SortedEdges
      ∧ sortedEdges init = sorted
      ∧ (∃ total, description final = Complete total)
      ∧ k ≤ length sorted
      ∧ Forall2 block_ok (take k sorted) blocks
      ∧ (∀ i b, blocks !! i = Some b → block_full 6 b → i + 1 = k)
      ∧ (k < length sorted → ∃ b, last blocks = Some b ∧ block_full 6 b).
Proof.
  apply (kruskal_examines_in_weight_order 6 default_edges).
  repeat constructor; cbn; lia.
Defined.

End Kruskal.

(** ** Floyd-Warshall (FloydWarshallVisualizer) *)

Module FloydWarshall.

Inductive Description :=
| Initialize
| Iteration (k : nat)
| UpdatePath (i j k : nat) (oldDistance newDistance : Z)
| Complete.

Record FloydWarshallStep := mkStep {
  step : nat;
  description : Description;
  distances : list (list Z);
  next : list (list (option nat));
  k : Z;
  i : option nat;
  j : option nat;
  improvement : option bool
}.

(** [const INF = 999] *)
Definition INF : Z := 999.

(** [m[i][j]] and [m[i][j] = v] on a matrix stored as an array of rows. *)
Definition mget {A} (m : list (list A)) (i j : nat) : option A :=
  row ← m !! i; row !! j.

Definition mset {A} (i j : nat) (v : A) (m : list (list A)) : list (list A) :=
  alter (λ row, <[j := v]> row) i m.

(** The mutable locals of [floydWarshallAlgorithm]. *)
Record State := mkState {
  st_distances : list (list Z);
  st_next : list (list (option nat));
  st_steps : list FloydWarshallStep
}.

(** The matrices before the main loop: [INF] everywhere, 0 on the
    diagonal, then every edge of the list written in turn. *)
Definition initial_distances (vertices : nat) (edges : list Edge) : list (list Z) :=
  foldl (λ m edge, mset (from edge) (to edge) (weight edge) m)
        (foldl (λ m i, mset i i 0%Z m)
               (replicate vertices (replicate vertices INF))
               (seq 0 vertices))
        edges.

Definition initial_next (vertices : nat) (edges : list Edge)
    : list (list (option nat)) :=
  foldl (λ m edge, mset (from edge) (to edge) (Some (to edge)) m)
        (replicate vertices (replicate vertices None))
        edges.

(** The body of the innermost loop, for the cell [(i, j)] and the
    intermediate vertex [k]. *)
Definition relax_cell (k i : nat) (st : State) (j : nat) : State :=
  match mget (st_distances st) i k, mget (st_distances st) k j,
        mget (st_distances st) i j with
  | Some dik, Some dkj, Some dij =>
      if bool_decide (i ≠ j) && bool_decide (dik + dkj < dij)%Z then
        let distances := mset i j (dik + dkj)%Z (st_distances st) in
        let next := mset i j (default None (mget (st_next st) i k)) (st_next st) in
        let steps := push (st_steps st) (λ c,
          mkStep c (UpdatePath i j k dij (dik + dkj)) distances next
                 (Z.of_nat k) (Some i) (Some j) (Some true)) in
        mkState distances next steps
      else st
  | _, _, _ => st
  end.

Section Algorithm.
Variable vertices : nat.
Variable edges : list Edge.

(** One iteration of [for (let k = 0; k < vertices; k++)]. *)
Definition iteration (st : State) (k : nat) : State :=
  let steps := push (st_steps st) (λ c,
    mkStep c (Iteration k) (st_distances st) (st_next st)
           (Z.of_nat k) None None None) in
  let st := mkState (st_distances st) (st_next st) steps in
  foldl (λ st i, foldl (relax_cell k i) st (seq 0 vertices)) st (seq 0 vertices).

Definition initial_state : State :=
  let distances := initial_distances vertices edges in
  let next := initial_next vertices edges in
  mkState distances next
    (push [] (λ c, mkStep c Initialize distances next (-1) None None None)).

Definition final_state : State :=
  foldl iteration initial_state (seq 0 vertices).

(** [floydWarshallAlgorithm]: the trace handed to [setSteps]. *)
Definition floydWarshallAlgorithm : list FloydWarshallStep :=
  let st := final_state in
  push (st_steps st) (λ c,
    mkStep c Complete (st_distances st) (st_next st)
           (Z.of_nat vertices) None None None).
End Algorithm.

(** The default graph of the component. *)
Definition default_edges : list Edge :=
  [mkEdge 0 1 3 "0-1"; mkEdge 0 3 7 "0-3"; mkEdge 1 0 8 "1-0";
   mkEdge 1 2 2 "1-2"; mkEdge 2 0 5 "2-0"; mkEdge 2 3 1 "2-3";
   mkEdge 3 0 2 "3-0"].

End FloydWarshall.


(** ** Bellman-Ford and Floyd-Warshall on the same graph *)

Module Agreement.

(** Directed walks of the edge list, with their weight. *)
Inductive dwalk (edges : list Edge) (s : nat) : nat → Z → Prop :=
| dwalk_nil : dwalk edges s s 0
| dwalk_step v e W :
    dwalk edges s v W → e ∈ edges → from e = v →
    dwalk edges s (to e) (W + weight e).

Definition reachable (edges : list Edge) (s v : nat) : Prop :=
  ∃ W, dwalk edges s v W.

Definition no_negative_cycle (edges : list Edge) : Prop :=
  ∀ v W, dwalk edges v v W → (0 ≤ W)%Z.

(** The sum of the absolute values of the weights. *)
Definition total_abs_weight (edges : list Edge) : Z :=
  foldr (λ e acc, Z.abs (weight e) + acc)%Z 0%Z edges.

(** The graphs of the input layer of these two components: endpoints are
    vertices, no edge from a vertex to itself, at most one edge for an
    ordered pair. *)
Record simple_digraph (vertices : nat) (edges : list Edge) : Prop := mkSimple {
  sd_valid : valid_graph vertices edges;
  sd_no_loop : Forall (λ e, from e ≠ to e) edges;
  sd_no_dup : NoDup (map (λ e, (from e, to e)) edges)
}.

(** *** Matrices *)

Import FloydWarshall.

Lemma mget_mset {A} (m : list (list A)) i j (v : A) a b :
  mget (mset i j v m) a b
  = if decide (a = i ∧ b = j ∧ is_Some (mget m i j)) then Some v else mget m a b.
Proof.
  unfold mget, mset. destruct (decide (a = i)) as [->|Hai].
  - rewrite list_lookup_alter_eq. destruct (m !! i) as [row|] eqn:Hrow; cbn.
    + destruct (decide (b = j)) as [->|Hbj].
      * destruct (row !! j) as [x|] eqn:Hx.
        -- rewrite decide_True by (split; [done|split; [done|by eexists]]).
           apply list_lookup_insert_eq. by eapply lookup_lt_Some.
        -- rewrite decide_False by (intros (_ & _ & [? ?]); done).
           apply lookup_ge_None. rewrite length_insert. by apply lookup_ge_None.
      * rewrite decide_False by (intros (_ & ? & _); done).
        by rewrite list_lookup_insert_ne.
    + rewrite decide_False; [done|]. intros (_ & _ & [? ?]); done.
  - rewrite list_lookup_alter_ne by done.
    rewrite decide_False; [done|]. intros (? & _); done.
Qed.

(** An [n] by [n] matrix. *)
Definition square {A} (n : nat) (m : list (list A)) : Prop :=
  ∀ a b, a < n → b < n → is_Some (mget m a b).

Lemma square_mset {A} n (m : list (list A)) i j v :
  square n m → square n (mset i j v m).
Proof.
  intros H a b Ha Hb. rewrite mget_mset. case_decide; [by eexists|by apply H].
Qed.

Lemma square_replicate {A} n (x : A) : square n (replicate n (replicate n x)).
Proof.
  intros a b Ha Hb. unfold mget. rewrite lookup_replicate_2 by done. cbn.
  rewrite lookup_replicate_2 by done. by eexists.
Qed.


(** The matrix is [n] rows of [n] entries. *)
Definition shape {A} (n : nat) (m : list (list A)) : Prop :=
  length m = n ∧ Forall (λ row, length row = n) m.

Lemma shape_mset {A} n (m : list (list A)) i j v :
  shape n m → shape n (mset i j v m).
Proof.
  intros [Hl Hr]. unfold mset. split; [by rewrite length_alter|].
  apply Forall_alter; [done|]. intros row _ Hrow. by rewrite length_insert.
Qed.

Lemma shape_replicate {A} n (x : A) : shape n (replicate n (replicate n x)).
Proof.
  split; [by rewrite length_replicate|].
  apply Forall_replicate. by rewrite length_replicate.
Qed.

Lemma foldl_preserves {A B} (P : A → Prop) (f : A → B → A) (l : list B) :
  (∀ a b, P a → P (f a b)) → ∀ a, P a → P (foldl f a l).
Proof. intros Hf. induction l as [|b l IH]; intros a Ha; cbn; auto. Qed.

Lemma relax_cell_shape n k i j st :
  shape n (st_distances st) → shape n (st_distances (relax_cell k i st j)).
Proof.
  intros Hs. unfold relax_cell.
  destruct (mget _ i k); [|done]. destruct (mget _ k j); [|done].
  destruct (mget _ i j); [|done].
  destruct (_ && _); [|done]. cbn. by apply shape_mset.
Qed.

Lemma final_shape n edges : shape n (st_distances (final_state n edges)).
Proof.
  unfold final_state.
  apply (foldl_preserves (λ st, shape n (st_distances st))).
  - intros st k Hs. unfold iteration.
    apply (foldl_preserves (λ st, shape n (st_distances st))); [|done].
    intros st1 i Hs1.
    apply (foldl_preserves (λ st, shape n (st_distances st))); [|done].
    intros st2 j. apply relax_cell_shape.
  - cbn. unfold initial_distances.
    apply (foldl_preserves (shape n)); [intros; by apply shape_mset|].
    apply (foldl_preserves (shape n)); [intros; by apply shape_mset|].
    apply shape_replicate.
Qed.

(** Walks and potentials: a potential that no edge violates rules out
    negative cycles. *)
Lemma dwalk_potential edges (p : nat → Z) s v W :
  Forall (λ e, p (to e) ≤ p (from e) + weight e)%Z edges →
  dwalk edges s v W → (p v ≤ p s + W)%Z.
Proof.
  intros Hp. induction 1 as [|v e W Hw IH He Hf]; [lia|].
  rewrite Forall_forall in Hp. specialize (Hp e He). rewrite Hf in Hp. lia.
Qed.

Lemma potential_no_negative_cycle edges (p : nat → Z) :
  Forall (λ e, p (to e) ≤ p (from e) + weight e)%Z edges →
  no_negative_cycle edges.
Proof.
  intros Hp v W Hw. pose proof (dwalk_potential edges p v v W Hp Hw). lia.
Qed.

(** *** The cost of a step *)

Section Costs.
Variable vertices : nat.
Variable edges : list Edge.
Hypothesis Hsimple : simple_digraph vertices edges.

(** There is an edge from [u] to [v]. *)
Definition real (u v : nat) : Prop :=
  ∃ e, e ∈ edges ∧ from e = u ∧ to e = v.

(** The cost Floyd-Warshall starts from: the entry of its initial matrix. *)
Definition cost (u v : nat) : Z :=
  default 0%Z (mget (initial_distances vertices edges) u v).

Lemma diagonal_fill k : ∀ a b, a < vertices → b < vertices →
  mget (foldl (λ m i, mset i i 0%Z m)
          (replicate vertices (replicate vertices INF)) (seq 0 k)) a b
  = Some (if decide (a = b ∧ a < k) then 0%Z else INF).
Proof.
  induction k as [|k IH]; intros a b Ha Hb.
  - cbn. unfold mget. rewrite lookup_replicate_2 by done. cbn.
    rewrite lookup_replicate_2 by done. rewrite decide_False by lia. done.
  - rewrite seq_S, foldl_snoc. cbn [plus]. rewrite mget_mset, (IH a b) by done.
    destruct (decide (a = k ∧ b = k ∧ _)) as [(-> & -> & _)|Hn].
    + by rewrite decide_True by lia.
    + destruct (decide (a = b ∧ a < k)) as [[-> ?]|?].
      * by rewrite decide_True by lia.
      * rewrite decide_False; [done|]. intros [-> Hlt].
        destruct (decide (b = k)) as [->|]; [|lia].
        apply Hn. split; [done|]. split; [done|].
        destruct (decide (k < vertices)); [|lia].
        by rewrite IH.
Qed.

Lemma edges_fill (es : list Edge) (m0 : list (list Z)) :
  square vertices m0 →
  Forall (λ e, from e < vertices ∧ to e < vertices) es →
  NoDup (map (λ e, (from e, to e)) es) →
  ∀ a b, a < vertices → b < vertices →
    (∀ e, e ∈ es → from e = a → to e = b →
       mget (foldl (λ m edge, mset (from edge) (to edge) (weight edge) m) m0 es) a b
       = Some (weight e))
    ∧ ((∀ e, e ∈ es → ¬ (from e = a ∧ to e = b)) →
       mget (foldl (λ m edge, mset (from edge) (to edge) (weight edge) m) m0 es) a b
       = mget m0 a b)
    ∧ square vertices
        (foldl (λ m edge, mset (from edge) (to edge) (weight edge) m) m0 es).
Proof.
  intros Hsq. induction es as [|x es IH] using rev_ind; intros Hval Hnd a b Ha Hb.
  - cbn. split; [|done]. intros e He. by apply elem_of_nil in He.
  - rewrite foldl_snoc.
    apply Forall_app in Hval as [Hval [Hx _]%Forall_cons].
    rewrite map_app in Hnd. apply NoDup_app in Hnd as (Hnd & Hdis & _).
    destruct (IH Hval Hnd (from x) (to x)) as (_ & _ & Hsq'); [apply Hx..|].
    destruct (IH Hval Hnd a b Ha Hb) as (IH1 & IH2 & _).
    split; [|split; [|by apply square_mset]].
    + intros e He Hea Heb. rewrite mget_mset.
      apply elem_of_app in He as [He|He];
        [|apply list_elem_of_singleton in He as ->].
      * rewrite decide_False; [by apply IH1|].
        intros (-> & -> & _). apply (Hdis (from x, to x)).
        -- apply list_elem_of_fmap. exists e. by rewrite Hea, Heb.
        -- cbn. left.
      * rewrite decide_True; [done|]. split; [done|]. split; [done|].
        apply Hsq'; apply Hx.
    + intros Hnone. rewrite mget_mset. rewrite decide_False.
      * apply IH2. intros e He. apply Hnone. apply elem_of_app. by left.
      * intros (-> & -> & _). apply (Hnone x); [|done].
        apply elem_of_app. right. left.
Qed.

Lemma initial_square : square vertices (initial_distances vertices edges).
Proof.
  destruct Hsimple as [Hv _ Hnd]. unfold initial_distances.
  destruct vertices as [|n0] eqn:En; [intros a b Ha; lia|]. rewrite <- En in *.
  assert (Hbase : square vertices
            (foldl (λ m i, mset i i 0%Z m)
               (replicate vertices (replicate vertices INF)) (seq 0 vertices))).
  { intros a b Ha Hb. rewrite diagonal_fill by done. by eexists. }
  apply (edges_fill edges _ Hbase Hv Hnd 0 0); lia.
Qed.

Lemma cost_edge e : e ∈ edges → cost (from e) (to e) = weight e.
Proof.
  intros He. destruct Hsimple as [Hv _ Hnd]. unfold cost, initial_distances.
  pose proof Hv as Hv'. unfold valid_graph in Hv'. rewrite Forall_forall in Hv'.
  destruct (Hv' e He) as [Hf Ht].
  assert (Hbase : square vertices
            (foldl (λ m i, mset i i 0%Z m)
               (replicate vertices (replicate vertices INF)) (seq 0 vertices))).
  { intros a b Ha Hb. rewrite diagonal_fill by done. by eexists. }
  destruct (edges_fill edges _ Hbase Hv Hnd _ _ Hf Ht) as (H1 & _ & _).
  by rewrite (H1 e He).
Qed.

Lemma cost_not_real u v :
  u < vertices → v < vertices → ¬ real u v →
  cost u v = if decide (u = v) then 0%Z else INF.
Proof.
  intros Hu Hv' Hnr. destruct Hsimple as [Hv _ Hnd]. unfold cost, initial_distances.
  assert (Hbase : square vertices
            (foldl (λ m i, mset i i 0%Z m)
               (replicate vertices (replicate vertices INF)) (seq 0 vertices))).
  { intros a b Ha Hb. rewrite diagonal_fill by done. by eexists. }
  destruct (edges_fill edges _ Hbase Hv Hnd _ _ Hu Hv') as (_ & H2 & _).
  rewrite H2.
  - rewrite diagonal_fill by done. cbn.
    destruct (decide (u = v)) as [->|]; [by rewrite decide_True|].
    rewrite decide_False; [done|]. by intros [? _].
  - intros e He [Hf Ht]. apply Hnr. by exists e.
Qed.

Lemma cost_diag u : u < vertices → cost u u = 0%Z.
Proof.
  intros Hu. rewrite cost_not_real; [by rewrite decide_True|done|done|].
  intros (e & He & Hf & Ht). destruct Hsimple as [_ Hl _].
  rewrite Forall_forall in Hl. apply (Hl e He). congruence.
Qed.

Lemma initial_entry u v :
  u < vertices → v < vertices →
  mget (initial_distances vertices edges) u v = Some (cost u v).
Proof.
  intros Hu Hv. unfold cost. by destruct (initial_square u v Hu Hv) as [x ->].
Qed.


(** *** Walks as vertex lists *)

(** The walk that starts at [u] and then visits the vertices [vs]. *)
Fixpoint steps_of (u : nat) (vs : list nat) : list (nat * nat) :=
  match vs with
  | [] => []
  | v :: r => (u, v) :: steps_of v r
  end.

Fixpoint cost_of (u : nat) (vs : list nat) : Z :=
  match vs with
  | [] => 0
  | v :: r => cost u v + cost_of v r
  end%Z.

(** The vertex where the walk ends. *)
Fixpoint end_of (u : nat) (vs : list nat) : nat :=
  match vs with
  | [] => u
  | v :: r => end_of v r
  end.

(** Every step of the walk is an edge. *)
Definition real_walk (u : nat) (vs : list nat) : Prop :=
  Forall (λ p, real p.1 p.2) (steps_of u vs).

Definition in_range (l : list nat) : Prop := Forall (λ x, x < vertices) l.

Lemma end_of_cons u v r : end_of u (v :: r) = end_of v r.
Proof. done. Qed.

Lemma end_of_app u a b : end_of u (a ++ b) = end_of (end_of u a) b.
Proof.
  revert u. induction a as [|v a IH]; intros u; [done|].
  cbn [app]. rewrite !end_of_cons. apply IH.
Qed.

Lemma steps_of_app u a b :
  steps_of u (a ++ b) = steps_of u a ++ steps_of (end_of u a) b.
Proof.
  revert u. induction a as [|v a IH]; intros u; [done|].
  cbn [app steps_of]. rewrite end_of_cons, IH. done.
Qed.

Lemma cost_of_app u a b :
  cost_of u (a ++ b) = (cost_of u a + cost_of (end_of u a) b)%Z.
Proof.
  revert u. induction a as [|v a IH]; intros u; [done|].
  cbn [app cost_of]. rewrite end_of_cons, IH. lia.
Qed.

Lemma real_walk_app u a b :
  real_walk u (a ++ b) ↔ real_walk u a ∧ real_walk (end_of u a) b.
Proof. unfold real_walk. rewrite steps_of_app. apply Forall_app. Qed.

Lemma end_of_in_range u vs : in_range (u :: vs) → end_of u vs < vertices.
Proof.
  revert u. induction vs as [|v r IH]; intros u H.
  - by apply Forall_cons in H as [? _].
  - rewrite end_of_cons. apply IH. by apply Forall_cons in H as [_ ?].
Qed.

Lemma real_walk_in_range u vs :
  u < vertices → real_walk u vs → in_range (u :: vs).
Proof.
  revert u. induction vs as [|v r IH]; intros u Hu H.
  - by constructor.
  - apply Forall_cons in H as [(e & He & Hf & Ht) H]. cbn in *.
    constructor; [done|]. apply IH; [|done].
    destruct Hsimple as [Hv _ _]. unfold valid_graph in Hv.
    rewrite Forall_forall in Hv. destruct (Hv e He). by subst.
Qed.

(** The walks of the edge list are the real walks. *)
Lemma dwalk_real_walk s v W :
  dwalk edges s v W ↔
  ∃ vs, real_walk s vs ∧ end_of s vs = v ∧ cost_of s vs = W.
Proof.
  split.
  - induction 1 as [|v e W Hw (vs & Hr & He & Hc) Hin Hf].
    + exists []. split; [constructor|done].
    + exists (vs ++ [to e]). split; [|split].
      * apply real_walk_app. split; [done|]. constructor; [|constructor].
        exists e. cbn. by rewrite He.
      * by rewrite end_of_app.
      * rewrite cost_of_app. cbn. rewrite He, <- Hf, cost_edge by done. lia.
  - intros (vs & Hr & He & Hc). revert v W He Hc.
    induction vs as [|x vs IH] using rev_ind; intros v W He Hc.
    + cbn in *. subst. constructor.
    + apply real_walk_app in Hr as [Hr Hx].
      apply Forall_cons in Hx as [(e & Hin & Hf & Ht) _]. cbn in *.
      rewrite end_of_app in He. rewrite cost_of_app in Hc. cbn in *. subst.
      rewrite <- Hf, cost_edge, Z.add_0_r by done.
      eapply dwalk_step; [|done|done]. by apply IH.
Qed.


(** *** Bounds for walks without a repeated source *)

Definition pos_weight (es : list Edge) : Z :=
  foldr (λ e acc, Z.max (weight e) 0 + acc)%Z 0%Z es.

Definition neg_weight (es : list Edge) : Z :=
  foldr (λ e acc, Z.max (- weight e) 0 + acc)%Z 0%Z es.

Definition sum_weight (es : list Edge) : Z :=
  foldr (λ e acc, weight e + acc)%Z 0%Z es.

Lemma total_abs_split es : total_abs_weight es = (pos_weight es + neg_weight es)%Z.
Proof.
  unfold total_abs_weight, pos_weight, neg_weight.
  induction es as [|e es IH]; [done|]. cbn [foldr]. lia.
Qed.

Lemma pos_weight_nonneg es : (0 ≤ pos_weight es)%Z.
Proof. unfold pos_weight. induction es as [|e es IH]; cbn [foldr]; lia. Qed.

Lemma neg_weight_nonneg es : (0 ≤ neg_weight es)%Z.
Proof. unfold neg_weight. induction es as [|e es IH]; cbn [foldr]; lia. Qed.

Lemma weight_submseteq (l k : list Edge) :
  l ⊆+ k →
  (pos_weight l ≤ pos_weight k)%Z ∧ (neg_weight l ≤ neg_weight k)%Z.
Proof.
  unfold pos_weight, neg_weight.
  induction 1 as [|x l k _ IH|x y l|x l k _ IH|l k m _ IH1 _ IH2];
    cbn [foldr]; lia.
Qed.

Lemma sum_weight_bounds l :
  (- neg_weight l ≤ sum_weight l ≤ pos_weight l)%Z.
Proof.
  unfold pos_weight, neg_weight, sum_weight.
  induction l as [|e l IH]; cbn [foldr]; lia.
Qed.

(** The edge of an ordered pair, if there is one. *)
Definition edge_of (u v : nat) : option Edge :=
  find (λ e, bool_decide (from e = u ∧ to e = v)) edges.

Lemma edge_of_Some u v e :
  edge_of u v = Some e → e ∈ edges ∧ from e = u ∧ to e = v.
Proof.
  intros H. apply BellmanFord.find_first in H as (l1 & l2 & -> & Hb & _).
  apply bool_decide_eq_true in Hb. split; [|done].
  apply elem_of_app. right. left.
Qed.

Lemma edge_of_None u v : edge_of u v = None → ¬ real u v.
Proof.
  intros H (e & He & Hf & Ht).
  pose proof (BellmanFord.find_none_all _ _ H e He) as Hb.
  apply bool_decide_eq_false in Hb. by apply Hb.
Qed.

(** The edges a walk takes, and the number of its steps that are not
    edges. *)
Definition used (u : nat) (vs : list nat) : list Edge :=
  omap (λ p, edge_of p.1 p.2) (steps_of u vs).

Definition fakes (u : nat) (vs : list nat) : nat :=
  length (filter (λ p, edge_of p.1 p.2 = None) (steps_of u vs)).

Lemma used_cons u v r :
  used u (v :: r)
  = match edge_of u v with Some e => e :: used v r | None => used v r end.
Proof. done. Qed.

Lemma fakes_cons u v r :
  fakes u (v :: r)
  = match edge_of u v with Some _ => fakes v r | None => S (fakes v r) end.
Proof.
  unfold fakes. cbn [steps_of]. rewrite filter_cons. cbn [fst snd].
  destruct (edge_of u v); [by rewrite decide_False|by rewrite decide_True].
Qed.

Lemma used_NoDup (ps : list (nat * nat)) :
  NoDup (map fst ps) → NoDup (omap (λ p, edge_of p.1 p.2) ps).
Proof.
  intros Hnd. apply (NoDup_fmap_1 from).
  induction ps as [|[a b] ps IH]; cbn; [constructor|].
  apply NoDup_cons in Hnd as [Hnotin Hnd]. cbn in *.
  destruct (edge_of a b) as [e|] eqn:He; cbn; [|by apply IH].
  apply edge_of_Some in He as (_ & Hf & _).
  constructor; [|by apply IH].
  rewrite Hf. intros Hin. apply Hnotin.
  apply list_elem_of_fmap in Hin as (e' & -> & Hin).
  apply list_elem_of_omap in Hin as ([a' b'] & Hin & He').
  apply edge_of_Some in He' as (_ & He' & _). cbn in He'. rewrite He'.
  apply list_elem_of_fmap. by exists (a', b').
Qed.

Lemma used_incl u vs e : e ∈ used u vs → e ∈ edges.
Proof.
  intros Hin. apply list_elem_of_omap in Hin as ([a b] & _ & He).
  by apply edge_of_Some in He as (? & _).
Qed.

Lemma fakes_zero u vs : fakes u vs = 0 → real_walk u vs.
Proof.
  unfold real_walk. revert u. induction vs as [|v r IH]; intros u H.
  - constructor.
  - rewrite fakes_cons in H. cbn [steps_of].
    destruct (edge_of u v) as [e|] eqn:He; [|done].
    constructor; [|by apply IH].
    apply edge_of_Some in He as (? & ? & ?). by exists e.
Qed.

Lemma cost_of_used u vs :
  in_range (u :: vs) → Forall (λ p, p.1 ≠ p.2) (steps_of u vs) →
  cost_of u vs = (sum_weight (used u vs) + INF * Z.of_nat (fakes u vs))%Z.
Proof.
  revert u. induction vs as [|v r IH]; intros u Hr Hd.
  - cbn. lia.
  - cbn [steps_of cost_of] in *. rewrite used_cons, fakes_cons.
    apply Forall_cons in Hr as [Hu Hr]. apply Forall_cons in Hd as [Huv Hd].
    cbn in Huv. rewrite (IH v Hr Hd).
    assert (Hv : v < vertices) by (by apply Forall_cons in Hr as [? _]).
    destruct (edge_of u v) as [e|] eqn:He.
    + apply edge_of_Some in He as (Hin & <- & <-).
      rewrite cost_edge by done. unfold sum_weight. cbn [foldr]. lia.
    + apply edge_of_None in He.
      rewrite cost_not_real, decide_False by done. lia.
Qed.

Lemma real_walk_fakes u vs : real_walk u vs → fakes u vs = 0.
Proof.
  unfold real_walk. revert u. induction vs as [|v r IH]; intros u H; [done|].
  cbn [steps_of] in H. apply Forall_cons in H as [Hr H]. rewrite fakes_cons.
  destruct (edge_of u v) eqn:He; [by apply IH|].
  by apply edge_of_None in He.
Qed.

Lemma walk_bounds u vs :
  in_range (u :: vs) →
  NoDup (map fst (steps_of u vs)) →
  Forall (λ p, p.1 ≠ p.2) (steps_of u vs) →
  (real_walk u vs → - neg_weight edges ≤ cost_of u vs ≤ pos_weight edges)%Z
  ∧ (¬ real_walk u vs → INF - neg_weight edges ≤ cost_of u vs)%Z.
Proof.
  intros Hr Hnd Hd. rewrite cost_of_used by done.
  assert (Hsub : used u vs ⊆+ edges).
  { apply NoDup_submseteq; [by apply used_NoDup|]. intros e. apply used_incl. }
  destruct (weight_submseteq _ _ Hsub) as [Hp Hn].
  pose proof (sum_weight_bounds (used u vs)).
  split.
  - intros Hreal. rewrite (real_walk_fakes _ _ Hreal). lia.
  - intros Hnr. destruct (fakes u vs) as [|k] eqn:Hk.
    + destruct Hnr. by apply fakes_zero.
    + unfold INF. lia.
Qed.

(** *** Removing cycles *)

Hypothesis Hnoneg : no_negative_cycle edges.
Hypothesis Hbound : (total_abs_weight edges ≤ INF)%Z.

Lemma sources_snoc u vs x : map fst (steps_of u (vs ++ [x])) = u :: vs.
Proof.
  revert u. induction vs as [|v r IH]; intros u; [done|].
  cbn [app steps_of map fst]. by rewrite IH.
Qed.

Lemma end_of_elem u vs : vs ≠ [] → end_of u vs ∈ vs.
Proof.
  revert u. induction vs as [|v r IH]; intros u H; [done|].
  cbn [end_of]. destruct r as [|w r]; [left|]. right. by apply IH.
Qed.

Lemma NoDup_no_diagonal u vs :
  NoDup (u :: vs) → Forall (λ p, p.1 ≠ p.2) (steps_of u vs).
Proof.
  revert u. induction vs as [|v r IH]; intros u H; [constructor|].
  cbn [steps_of]. apply NoDup_cons in H as [Hu Hr].
  constructor; [|by apply IH]. cbn. intros ->. apply Hu. left.
Qed.

Lemma in_range_app a b : in_range (a ++ b) ↔ in_range a ∧ in_range b.
Proof. apply Forall_app. Qed.

Lemma simple_cycle_nonneg l b :
  in_range (l :: b) → NoDup (l :: b) → (0 ≤ cost_of l (b ++ [l]))%Z.
Proof.
  intros Hr Hnd.
  assert (Hl : l < vertices) by (by apply Forall_cons in Hr as [? _]).
  destruct (decide (b = [])) as [->|Hb].
  - cbn. rewrite cost_diag by done. lia.
  - destruct (walk_bounds l (b ++ [l])) as [Hreal Hfake].
    + change (l :: b ++ [l]) with ((l :: b) ++ [l]).
      apply in_range_app. split; [done|]. by repeat constructor.
    + by rewrite sources_snoc.
    + rewrite steps_of_app. apply Forall_app. split; [by apply NoDup_no_diagonal|].
      constructor; [|constructor]. cbn. intros Heq.
      apply NoDup_cons in Hnd as [Hnotin _]. apply Hnotin.
      rewrite <- Heq. by apply end_of_elem.
    + destruct (decide (fakes l (b ++ [l]) = 0)) as [Hz|Hnz].
      * apply (Hnoneg l). apply dwalk_real_walk. exists (b ++ [l]).
        split; [by apply fakes_zero|]. split; [|done]. by rewrite end_of_app.
      * pose proof (pos_weight_nonneg edges). rewrite total_abs_split in Hbound.
        assert (Hnr : ¬ real_walk l (b ++ [l]))
          by (intros Hr'; by apply real_walk_fakes in Hr').
        specialize (Hfake Hnr). lia.
Qed.

Lemma repeated_split (l : list nat) :
  ¬ NoDup l → ∃ a x b c, l = a ++ x :: b ++ x :: c.
Proof.
  induction l as [|y r IH]; intros H.
  - destruct H. constructor.
  - destruct (decide (y ∈ r)) as [Hin|Hnotin].
    + apply list_elem_of_split in Hin as (b & c & ->). by exists [], y, b, c.
    + destruct IH as (a & x & b & c & ->).
      { intros Hr. apply H. by constructor. }
      by exists (y :: a), x, b, c.
Qed.

(** Cutting the closed part [b ++ [x]] out of a walk. *)
Lemma splice_cost u p b x q :
  end_of u p = x →
  cost_of u (p ++ (b ++ [x]) ++ q)
  = (cost_of u (p ++ q) + cost_of x (b ++ [x]))%Z.
Proof.
  intros He. rewrite !cost_of_app, !end_of_app, He. cbn [end_of]. lia.
Qed.

Lemma splice_end u p b x q :
  end_of u p = x → end_of u (p ++ (b ++ [x]) ++ q) = end_of u (p ++ q).
Proof. intros He. rewrite !end_of_app, He. done. Qed.

Lemma splice_real u p b x q :
  end_of u p = x → real_walk u (p ++ (b ++ [x]) ++ q) → real_walk u (p ++ q).
Proof.
  intros He. rewrite !real_walk_app, !end_of_app, He. cbn [end_of].
  intros (? & ? & ?). done.
Qed.

Lemma reduce n0 : ∀ vs u,
  length vs ≤ n0 → in_range (u :: vs) →
  (end_of u vs = u → 0 ≤ cost_of u vs)%Z
  ∧ ∃ vs', NoDup (u :: vs') ∧ in_range (u :: vs')
           ∧ end_of u vs' = end_of u vs
           ∧ (cost_of u vs' ≤ cost_of u vs)%Z
           ∧ (real_walk u vs → real_walk u vs').
Proof.
  induction n0 as [|n0 IH]; intros vs u Hlen Hr.
  { destruct vs; [|cbn in Hlen; lia]. split; [done|].
    exists []. split; [by apply NoDup_singleton|]. done. }
  destruct (decide (vs = [])) as [->|Hne].
  { split; [done|]. exists []. split; [by apply NoDup_singleton|]. done. }
  destruct (exists_last Hne) as (ws & l & ->).
  rewrite length_app in Hlen. cbn in Hlen.
  assert (Hu : u < vertices) by (by apply Forall_cons in Hr as [? _]).
  assert (Hrw : in_range (u :: ws) ∧ l < vertices).
  { change (u :: ws ++ [l]) with ((u :: ws) ++ [l]) in Hr.
    apply in_range_app in Hr as [? Hl]. split; [done|].
    by apply Forall_cons in Hl as [? _]. }
  destruct Hrw as [Hrws Hl].
  assert (Hgen : ∀ p b x q,
            ws ++ [l] = p ++ (b ++ [x]) ++ q → 1 ≤ length q → end_of u p = x →
            (end_of u (ws ++ [l]) = u → 0 ≤ cost_of u (ws ++ [l]))%Z
            ∧ ∃ vs', NoDup (u :: vs') ∧ in_range (u :: vs')
                     ∧ end_of u vs' = end_of u (ws ++ [l])
                     ∧ (cost_of u vs' ≤ cost_of u (ws ++ [l]))%Z
                     ∧ (real_walk u (ws ++ [l]) → real_walk u vs')).
  { intros p b x q Heq Hq1 Hend. rewrite Heq in Hr |- *.
    assert (Hlen' : length (ws ++ [l]) = length (p ++ (b ++ [x]) ++ q))
      by (by rewrite Heq).
    rewrite !length_app in Hlen'. cbn in Hlen'.
    change (u :: p ++ (b ++ [x]) ++ q) with ((u :: p) ++ (b ++ [x]) ++ q) in Hr.
    apply in_range_app in Hr as [Hp [Hbx Hq]%in_range_app].
    assert (Hx : x < vertices).
    { apply in_range_app in Hbx as [_ Hx]. by apply Forall_cons in Hx as [? _]. }
    destruct (IH (b ++ [x]) x) as [Hcyc _].
    { rewrite length_app. cbn. lia. }
    { by constructor. }
    specialize (Hcyc ltac:(by rewrite end_of_app)).
    destruct (IH (p ++ q) u) as [Hclosed (vs' & Hnd & Hr' & He' & Hc' & Hreal')].
    { rewrite length_app. lia. }
    { change (u :: p ++ q) with ((u :: p) ++ q). by apply in_range_app. }
    rewrite splice_cost, splice_end by done. split.
    - intros Hcl. specialize (Hclosed Hcl). lia.
    - exists vs'. split; [done|]. split; [done|]. split; [done|].
      split; [lia|]. intros Hreal. apply Hreal'. by eapply splice_real. }
  destruct (decide (NoDup (u :: ws))) as [Hnd|Hdup].
  - destruct (decide (l ∈ u :: ws)) as [Hin|Hnotin].
    + apply list_elem_of_split in Hin as (a & b & Heq).
      destruct a as [|u' a']; cbn in Heq; injection Heq as Heq1 Heq2;
        [subst l b|subst u' ws].
      * (* a simple cycle *)
        pose proof (simple_cycle_nonneg _ _ Hrws Hnd) as Hnn.
        split; [done|]. exists []. split; [by apply NoDup_singleton|].
        split; [by repeat constructor|]. split; [by rewrite end_of_app|].
        split; [done|]. intros _. constructor.
      * (* a simple path followed by a simple cycle *)
        assert (Hul : u ≠ l).
        { intros ->. apply NoDup_cons in Hnd as [Hn _]. apply Hn.
          apply elem_of_app. right. left. }
        apply NoDup_cons in Hnd as [Hu' Hnd].
        apply NoDup_app in Hnd as (Hnda & Hdis & Hndb).
        assert (Hcyc : (0 ≤ cost_of l (b ++ [l]))%Z).
        { apply simple_cycle_nonneg; [|done].
          apply Forall_cons in Hrws as [_ Hrws].
          by apply in_range_app in Hrws as [_ ?]. }
        replace ((a' ++ l :: b) ++ [l]) with ((a' ++ [l]) ++ (b ++ [l]))
          by (by rewrite <- !app_assoc).
        rewrite !end_of_app. cbn [end_of].
        split; [intros Heq; by destruct Hul|].
        exists (a' ++ [l]).
        split; [|split; [|split; [|split]]].
        -- constructor.
           ++ intros Hin. apply Hu'. apply elem_of_app in Hin as [Hin|Hin].
              ** apply elem_of_app. by left.
              ** apply list_elem_of_singleton in Hin. by destruct Hul.
           ++ apply NoDup_app. split; [done|]. split; [|by apply NoDup_singleton].
              intros y Hy Hy'. apply list_elem_of_singleton in Hy' as ->.
              apply (Hdis l Hy). left.
        -- apply Forall_cons in Hrws as [_ Hrws].
           apply in_range_app in Hrws as [Ha _].
           constructor; [done|]. apply in_range_app. split; [done|].
           by repeat constructor.
        -- by rewrite end_of_app.
        -- rewrite (cost_of_app u (a' ++ [l])), end_of_app. cbn [end_of]. lia.
        -- intros Hreal. by apply real_walk_app in Hreal as [? _].
    + (* no vertex is repeated *)
      assert (Hnd' : NoDup (u :: ws ++ [l])).
      { change (u :: ws ++ [l]) with ((u :: ws) ++ [l]).
        apply NoDup_app. split; [done|]. split; [|by apply NoDup_singleton].
        intros y Hy Hy'. apply list_elem_of_singleton in Hy' as ->. done. }
      split.
      * rewrite end_of_app. cbn. intros ->. destruct Hnotin. left.
      * exists (ws ++ [l]). done.
  - apply repeated_split in Hdup as (a & x & b & c & Heq).
    destruct a as [|u' a']; cbn in Heq; injection Heq as Heq1 Heq2;
      [subst x ws|subst u' ws].
    + apply (Hgen [] b u (c ++ [l])); [|rewrite length_app; cbn; lia|done].
      cbn. by rewrite <- !app_assoc.
    + apply (Hgen (a' ++ [x]) b x (c ++ [l]));
        [|rewrite length_app; cbn; lia|by rewrite end_of_app].
      rewrite <- !app_assoc. cbn [app]. by rewrite <- !app_assoc.
Qed.

(** Closed walks of the completed graph are not negative. *)
Lemma closed_nonneg u vs :
  in_range (u :: vs) → end_of u vs = u → (0 ≤ cost_of u vs)%Z.
Proof. intros Hr. by apply (reduce (length vs) vs u). Qed.


Lemma simple_walk_bounds u vs :
  in_range (u :: vs) → NoDup (u :: vs) →
  (real_walk u vs → - neg_weight edges ≤ cost_of u vs ≤ pos_weight edges)%Z
  ∧ (¬ real_walk u vs → INF - neg_weight edges ≤ cost_of u vs)%Z.
Proof.
  intros Hr Hnd. apply walk_bounds; [done| |by apply NoDup_no_diagonal].
  destruct (decide (vs = [])) as [->|Hne]; [constructor|].
  destruct (exists_last Hne) as (ws & l & ->). rewrite sources_snoc.
  change (u :: ws ++ [l]) with ((u :: ws) ++ [l]) in Hnd.
  by apply NoDup_app in Hnd as (? & _).
Qed.

Lemma NoDup_length_le (l : list nat) :
  NoDup l → in_range l → length l ≤ vertices.
Proof.
  intros Hnd Hr.
  assert (Hsub : l ⊆+ seq 0 vertices).
  { apply NoDup_submseteq; [done|]. intros x Hx.
    unfold in_range in Hr. rewrite Forall_forall in Hr.
    apply elem_of_seq. specialize (Hr x Hx). lia. }
  apply submseteq_length in Hsub. by rewrite length_seq in Hsub.
Qed.


(** *** Bellman-Ford computes the shortest distances *)

Variable source : nat.
Hypothesis Hsource : source < vertices.

Local Open Scope Z_scope.

(** [a] is pointwise at least as good as [b]. *)
Definition le_dist (a b : list num) : Prop :=
  ∀ v d, b !! v = Some (Fin d) → ∃ d', a !! v = Some (Fin d') ∧ d' ≤ d.

Definition bf_sound (dist : list num) : Prop :=
  ∀ v d, dist !! v = Some (Fin d) →
    ∃ vs, real_walk source vs ∧ end_of source vs = v ∧ cost_of source vs = d.

Definition bf_upper (k : nat) (dist : list num) : Prop :=
  ∀ vs, real_walk source vs → (length vs ≤ k)%nat →
    ∃ d, dist !! end_of source vs = Some (Fin d) ∧ d ≤ cost_of source vs.

Definition settled (dist : list num) : Prop :=
  ∀ e, e ∈ edges → BellmanFord.relaxable dist e = false.

Lemma le_dist_refl a : le_dist a a.
Proof. intros v d H. exists d. split; [done|lia]. Qed.

Lemma le_dist_trans a b c : le_dist a b → le_dist b c → le_dist a c.
Proof.
  intros Hab Hbc v d Hc. destruct (Hbc v d Hc) as (d1 & H1 & ?).
  destruct (Hab v d1 H1) as (d2 & H2 & ?). exists d2. split; [done|lia].
Qed.

Lemma bf_upper_le k a b : le_dist a b → bf_upper k b → bf_upper k a.
Proof.
  intros Hab Hb vs Hr Hl. destruct (Hb vs Hr Hl) as (d & Hd & ?).
  destruct (Hab _ _ Hd) as (d' & Hd' & ?). exists d'. split; [done|lia].
Qed.

Lemma edge_in_range e :
  e ∈ edges → (from e < vertices)%nat ∧ (to e < vertices)%nat.
Proof.
  intros He. destruct Hsimple as [Hv _ _]. unfold valid_graph in Hv.
  rewrite Forall_forall in Hv. by apply Hv.
Qed.

Lemma relax_edge_spec st b e :
  e ∈ edges →
  length (BellmanFord.st_distances st) = vertices →
  bf_sound (BellmanFord.st_distances st) →
  ∃ st' b',
    BellmanFord.relax_edge (st, b) e = (st', b')
    ∧ length (BellmanFord.st_distances st') = vertices
    ∧ le_dist (BellmanFord.st_distances st') (BellmanFord.st_distances st)
    ∧ bf_sound (BellmanFord.st_distances st')
    ∧ (∀ du, BellmanFord.st_distances st !! from e = Some (Fin du) →
         ∃ dv, BellmanFord.st_distances st' !! to e = Some (Fin dv)
               ∧ dv ≤ du + weight e)
    ∧ (b' = false →
         b = false ∧ BellmanFord.st_distances st' = BellmanFord.st_distances st
         ∧ BellmanFord.relaxable (BellmanFord.st_distances st) e = false).
Proof.
  intros He Hlen Hsound. destruct (edge_in_range e He) as [Hf Ht].
  unfold BellmanFord.relax_edge.
  destruct (BellmanFord.relaxable _ e) eqn:Hrel.
  - eexists _, _. split; [reflexivity|]. cbn [BellmanFord.st_distances].
    unfold BellmanFord.relaxable in Hrel.
    destruct (BellmanFord.st_distances st !! from e) as [[du|]|] eqn:Hdu; [|done..].
    destruct (BellmanFord.st_distances st !! to e) as [dv|] eqn:Hdv; [|done].
    cbn [default from_option Datatypes.id num_add].
    assert (Htl : (to e < length (BellmanFord.st_distances st))%nat) by lia.
    split; [by rewrite length_insert|]. split; [|split; [|split; [|done]]].
    + intros v d Hv. destruct (decide (v = to e)) as [->|Hne].
      * rewrite list_lookup_insert_eq by done. rewrite Hdv in Hv. simplify_eq.
        cbn in Hrel. apply bool_decide_eq_true in Hrel.
        eexists. split; [done|lia].
      * rewrite list_lookup_insert_ne by done. exists d. split; [done|lia].
    + intros v d Hv. destruct (decide (v = to e)) as [->|Hne].
      * rewrite list_lookup_insert_eq in Hv by done. simplify_eq.
        destruct (Hsound _ _ Hdu) as (vs & Hr & Hend & Hc).
        exists (vs ++ [to e]). split; [|split].
        -- apply real_walk_app. split; [done|]. constructor; [|constructor].
           exists e. cbn. by rewrite Hend.
        -- by rewrite end_of_app.
        -- rewrite cost_of_app, Hend. cbn. rewrite cost_edge by done. lia.
      * rewrite list_lookup_insert_ne in Hv by done. by apply Hsound.
    + intros du' Hdu'. simplify_eq. exists (du' + weight e).
      rewrite list_lookup_insert_eq by done. split; [done|lia].
  - eexists _, _. split; [reflexivity|].
    split; [done|]. split; [apply le_dist_refl|]. split; [done|]. split; [|done].
    intros du Hdu. unfold BellmanFord.relaxable in Hrel. rewrite Hdu in Hrel.
    destruct (lookup_lt_is_Some_2 (BellmanFord.st_distances st) (to e)) as [dv Hdv];
      [lia|].
    rewrite Hdv in Hrel. destruct dv as [dv|]; [|done].
    cbn in Hrel. apply bool_decide_eq_false in Hrel.
    exists dv. split; [done|lia].
Qed.

Lemma pass_spec es : ∀ st b,
  (∀ e, e ∈ es → e ∈ edges) →
  length (BellmanFord.st_distances st) = vertices →
  bf_sound (BellmanFord.st_distances st) →
  ∃ st' b',
    foldl BellmanFord.relax_edge (st, b) es = (st', b')
    ∧ length (BellmanFord.st_distances st') = vertices
    ∧ le_dist (BellmanFord.st_distances st') (BellmanFord.st_distances st)
    ∧ bf_sound (BellmanFord.st_distances st')
    ∧ (∀ e du, e ∈ es →
         BellmanFord.st_distances st !! from e = Some (Fin du) →
         ∃ dv, BellmanFord.st_distances st' !! to e = Some (Fin dv)
               ∧ dv ≤ du + weight e)
    ∧ (b' = false →
         b = false ∧ BellmanFord.st_distances st' = BellmanFord.st_distances st
         ∧ ∀ e, e ∈ es →
             BellmanFord.relaxable (BellmanFord.st_distances st) e = false).
Proof.
  induction es as [|e es IH]; intros st b Hes Hlen Hsound.
  - exists st, b. cbn. split; [done|]. split; [done|].
    split; [apply le_dist_refl|]. split; [done|]. split.
    + intros e du He. by apply elem_of_nil in He.
    + intros ->. split; [done|]. split; [done|].
      intros e He. by apply elem_of_nil in He.
  - cbn [foldl].
    destruct (relax_edge_spec st b e) as (st1 & b1 & -> & Hlen1 & Hle1 & Hs1 & Hrel1 & Hno1);
      [apply Hes; left|done|done|].
    destruct (IH st1 b1) as (st' & b' & -> & Hlen' & Hle' & Hs' & Hrel' & Hno');
      [intros x Hx; apply Hes; by right|done|done|].
    exists st', b'. split; [done|]. split; [done|].
    split; [by eapply le_dist_trans|]. split; [done|]. split.
    + intros x du [->|Hx]%elem_of_cons Hdu.
      * destruct (Hrel1 du Hdu) as (dv & Hdv & ?).
        destruct (Hle' _ _ Hdv) as (dv' & Hdv' & ?). exists dv'. split; [done|lia].
      * destruct (Hle1 _ _ Hdu) as (du1 & Hdu1 & ?).
        destruct (Hrel' x du1 Hx Hdu1) as (dv & Hdv & ?). exists dv. split; [done|lia].
    + intros Hb'. destruct (Hno' Hb') as (-> & Heq' & Hall').
      destruct (Hno1 eq_refl) as (-> & Heq1 & Hr1).
      split; [done|]. split; [congruence|].
      intros x [->|Hx]%elem_of_cons; [done|]. rewrite <- Heq1. by apply Hall'.
Qed.

Lemma pass_loop_spec count : ∀ i st k,
  length (BellmanFord.st_distances st) = vertices →
  bf_sound (BellmanFord.st_distances st) →
  bf_upper 0 (BellmanFord.st_distances st) →
  bf_upper k (BellmanFord.st_distances st) →
  let st' := BellmanFord.pass_loop edges count i st in
  length (BellmanFord.st_distances st') = vertices
  ∧ bf_sound (BellmanFord.st_distances st')
  ∧ bf_upper 0 (BellmanFord.st_distances st')
  ∧ (bf_upper (k + count) (BellmanFord.st_distances st')
     ∨ settled (BellmanFord.st_distances st')).
Proof.
  induction count as [|count IH]; intros i st k Hlen Hsound H0 Hk; cbn zeta.
  - cbn [BellmanFord.pass_loop]. rewrite Nat.add_0_r. auto.
  - cbn [BellmanFord.pass_loop].
    set (st1 := BellmanFord.mkState _ _ _ _).
    destruct (pass_spec edges st1 false) as (st2 & b2 & -> & Hlen2 & Hle2 & Hs2 & Hrel2 & Hno2);
      [done|done|done|].
    cbn [st1 BellmanFord.st_distances] in *.
    destruct b2.
    + replace (k + S count)%nat with (S k + count)%nat by lia.
      apply IH; [done|done|by eapply bf_upper_le| ].
      intros vs Hr Hl.
      destruct (decide (length vs ≤ k)%nat) as [Hshort|Hlong].
      { by apply (bf_upper_le k _ _ Hle2 Hk). }
      destruct (decide (vs = [])) as [->|Hne]; [cbn in Hlong; lia|].
      destruct (exists_last Hne) as (ws & v & ->).
      rewrite length_app in Hl, Hlong. cbn in Hl, Hlong.
      apply real_walk_app in Hr as [Hr Hstep].
      apply Forall_cons in Hstep as [(e & He & Hf & Ht) _]. cbn in Hf, Ht.
      destruct (Hk ws Hr) as (du & Hdu & Hdule); [lia|].
      rewrite <- Hf in Hdu.
      destruct (Hrel2 e du He Hdu) as (dv & Hdv & Hdvle).
      rewrite end_of_app, cost_of_app. cbn [end_of cost_of].
      rewrite <- Ht. exists dv. split; [done|].
      rewrite <- Hf at 1. rewrite cost_edge by done. lia.
    + destruct (Hno2 eq_refl) as (_ & Heq & Hall).
      cbn [BellmanFord.st_distances]. rewrite Heq.
      split; [done|]. split; [done|]. split; [done|]. by right.
Qed.

(** The distances left by the relaxation passes. *)
Definition bf_final : list num :=
  BellmanFord.st_distances (BellmanFord.main_passes vertices edges source).

Lemma bf_final_spec :
  length bf_final = vertices
  ∧ bf_sound bf_final
  ∧ ∀ vs, real_walk source vs →
      ∃ d, bf_final !! end_of source vs = Some (Fin d) ∧ d ≤ cost_of source vs.
Proof.
  unfold bf_final, BellmanFord.main_passes.
  set (st0 := BellmanFord.mkState _ _ _ _).
  assert (Hlen0 : length (BellmanFord.st_distances st0) = vertices).
  { cbn. by rewrite length_insert, length_replicate. }
  assert (Hs0 : bf_sound (BellmanFord.st_distances st0)).
  { intros v d Hv. cbn in Hv. destruct (decide (v = source)) as [->|Hne].
    - rewrite list_lookup_insert_eq in Hv by (by rewrite length_replicate).
      simplify_eq. exists []. split; [constructor|done].
    - rewrite list_lookup_insert_ne in Hv by done.
      apply lookup_replicate in Hv as [? _]. done. }
  assert (Hu0 : bf_upper 0 (BellmanFord.st_distances st0)).
  { intros vs _ Hl. destruct vs; [|cbn in Hl; lia]. cbn.
    exists 0. rewrite list_lookup_insert_eq by (by rewrite length_replicate).
    split; [done|lia]. }
  destruct (pass_loop_spec (vertices - 1) 0 st0 0 Hlen0 Hs0 Hu0 Hu0)
    as (Hlen & Hsound & Hup0 & Hfin).
  set (dist := BellmanFord.st_distances (BellmanFord.pass_loop _ _ _ _)) in *.
  split; [done|]. split; [done|].
  destruct Hfin as [Hup|Hset].
  - (* all the passes were made *)
    intros vs Hr.
    assert (Hrange : in_range (source :: vs)) by (by apply real_walk_in_range).
    destruct (reduce (length vs) vs source) as [_ (vs' & Hnd & Hr' & He' & Hc' & Hreal')];
      [done|done|].
    destruct (Hup vs' (Hreal' Hr)) as (d & Hd & Hdle).
    { pose proof (NoDup_length_le _ Hnd Hr') as Hl. cbn in Hl. lia. }
    rewrite He' in Hd. exists d. split; [done|lia].
  - (* a pass relaxed nothing *)
    intros vs Hr. induction vs as [|v ws IH] using rev_ind.
    + apply (Hup0 []); [constructor|done].
    + apply real_walk_app in Hr as [Hr Hstep].
      apply Forall_cons in Hstep as [(e & He & Hf & Ht) _]. cbn in Hf, Ht.
      destruct (IH Hr) as (du & Hdu & Hdule).
      rewrite end_of_app, cost_of_app. cbn [end_of cost_of].
      specialize (Hset e He). unfold BellmanFord.relaxable in Hset.
      rewrite Hf, Hdu in Hset. destruct (edge_in_range e He) as [_ Htr].
      destruct (lookup_lt_is_Some_2 dist (to e)) as [dv Hdv]; [lia|].
      rewrite Ht in Hdv. rewrite Ht, Hdv in Hset.
      destruct dv as [dv|]; [|done].
      cbn in Hset. apply bool_decide_eq_false in Hset.
      exists dv. split; [done|].
      rewrite <- Hf, <- Ht, cost_edge by done. lia.
Qed.


Lemma bf_final_settled e : e ∈ edges → BellmanFord.relaxable bf_final e = false.
Proof.
  intros He. destruct bf_final_spec as (Hlen & Hsound & Hup).
  unfold BellmanFord.relaxable.
  destruct (bf_final !! from e) as [[a|]|] eqn:Ha; [|done..].
  destruct (Hsound _ _ Ha) as (vs & Hr & Hend & Hc).
  destruct (Hup (vs ++ [to e])) as (d & Hd & Hle).
  { apply real_walk_app. split; [done|]. constructor; [|constructor].
    exists e. cbn. by rewrite Hend. }
  rewrite end_of_app in Hd. cbn in Hd. rewrite Hd. cbn.
  apply bool_decide_eq_false. rewrite cost_of_app, Hend in Hle. cbn in Hle.
  rewrite cost_edge in Hle by done. lia.
Qed.

Lemma bf_last :
  ∃ bf, last (BellmanFord.bellmanFordAlgorithm vertices edges source) = Some bf
        ∧ BellmanFord.distances bf = bf_final
        ∧ BellmanFord.hasNegativeCycle bf = false.
Proof.
  unfold BellmanFord.bellmanFordAlgorithm. fold bf_final.
  destruct (find _ edges) as [e|] eqn:E.
  - apply BellmanFord.find_first in E as (l1 & l2 & Heq & He & _).
    rewrite bf_final_settled in He; [done|]. rewrite Heq.
    apply elem_of_app. right. left.
  - unfold push at 1. rewrite last_snoc. eexists. split; [done|]. done.
Qed.

(** *** Floyd-Warshall computes the shortest costs *)

Definition fw_sound (D : list (list Z)) : Prop :=
  ∀ a b x, (a < vertices)%nat → (b < vertices)%nat → mget D a b = Some x →
    ∃ vs, in_range vs ∧ end_of a vs = b ∧ cost_of a vs = x.

Definition le_mat (D' D : list (list Z)) : Prop :=
  ∀ a b x, (a < vertices)%nat → (b < vertices)%nat → mget D a b = Some x →
    ∃ x', mget D' a b = Some x' ∧ x' ≤ x.

Definition fw_good (D : list (list Z)) : Prop :=
  square vertices D
  ∧ (∀ a, (a < vertices)%nat → mget D a a = Some 0)
  ∧ fw_sound D.

(** What an iteration for the intermediate vertex [k] achieves for the cell
    [(i, j)], in terms of the matrix [D] it started from. *)
Definition through (k : nat) (D D' : list (list Z)) (i j : nat) : Prop :=
  i ≠ j → ∀ x y, mget D i k = Some x → mget D k j = Some y →
    ∃ z, mget D' i j = Some z ∧ z ≤ x + y.

Lemma le_mat_refl D : le_mat D D.
Proof. intros a b x _ _ H. exists x. split; [done|lia]. Qed.

Lemma le_mat_trans A B C : le_mat A B → le_mat B C → le_mat A C.
Proof.
  intros Hab Hbc a b x Ha Hb Hc. destruct (Hbc a b x Ha Hb Hc) as (y & Hy & ?).
  destruct (Hab a b y Ha Hb Hy) as (z & Hz & ?). exists z. split; [done|lia].
Qed.

Lemma through_le k D D1 D' i j :
  (i < vertices)%nat → (j < vertices)%nat → (k < vertices)%nat →
  le_mat D1 D → through k D1 D' i j → through k D D' i j.
Proof.
  intros Hi Hj Hk Hle Ht Hne x y Hx Hy.
  destruct (Hle _ _ _ Hi Hk Hx) as (x1 & Hx1 & ?).
  destruct (Hle _ _ _ Hk Hj Hy) as (y1 & Hy1 & ?).
  destruct (Ht Hne x1 y1 Hx1 Hy1) as (z & Hz & ?). exists z. split; [done|lia].
Qed.

Lemma through_le' k D D1 D' i j :
  (i < vertices)%nat → (j < vertices)%nat →
  le_mat D' D1 → through k D D1 i j → through k D D' i j.
Proof.
  intros Hi Hj Hle Ht Hne x y Hx Hy.
  destruct (Ht Hne x y Hx Hy) as (z & Hz & ?).
  destruct (Hle _ _ _ Hi Hj Hz) as (z' & Hz' & ?). exists z'. split; [done|lia].
Qed.

Lemma relax_cell_spec k i j st :
  (k < vertices)%nat → (i < vertices)%nat → (j < vertices)%nat →
  fw_good (st_distances st) →
  let D' := st_distances (relax_cell k i st j) in
  fw_good D' ∧ le_mat D' (st_distances st) ∧ through k (st_distances st) D' i j.
Proof.
  intros Hk Hi Hj (Hsq & Hdiag & Hsound). cbn zeta. unfold relax_cell.
  destruct (Hsq i k Hi Hk) as [dik Hik]. destruct (Hsq k j Hk Hj) as [dkj Hkj].
  destruct (Hsq i j Hi Hj) as [dij Hij]. rewrite Hik, Hkj, Hij.
  destruct (bool_decide (i ≠ j)) eqn:Hne; cbn [andb].
  2:{ apply bool_decide_eq_false in Hne.
      split; [done|]. split; [apply le_mat_refl|]. intros ?. done. }
  apply bool_decide_eq_true in Hne.
  destruct (bool_decide (dik + dkj < dij)) eqn:Hlt.
  2:{ apply bool_decide_eq_false in Hlt.
      split; [done|]. split; [apply le_mat_refl|].
      intros _ x y Hx Hy. simplify_eq. exists dij. split; [done|lia]. }
  apply bool_decide_eq_true in Hlt. cbn [st_distances].
  split; [split; [|split]|split].
  - by apply square_mset.
  - intros a Ha. rewrite mget_mset. rewrite decide_False; [by apply Hdiag|].
    intros (-> & -> & _). done.
  - intros a b x Ha Hb. rewrite mget_mset. case_decide as Hc.
    + destruct Hc as (-> & -> & _). intros [= <-].
      destruct (Hsound _ _ _ Hi Hk Hik) as (v1 & Hr1 & He1 & Hc1).
      destruct (Hsound _ _ _ Hk Hj Hkj) as (v2 & Hr2 & He2 & Hc2).
      exists (v1 ++ v2). split; [by apply in_range_app|].
      rewrite end_of_app, cost_of_app, He1. split; [done|lia].
    + by apply Hsound.
  - intros a b x Ha Hb Hx. rewrite mget_mset. case_decide as Hc.
    + destruct Hc as (-> & -> & _). simplify_eq. eexists. split; [done|lia].
    + exists x. split; [done|lia].
  - intros _ x y Hx Hy. simplify_eq. rewrite mget_mset.
    rewrite decide_True by (by rewrite Hij). eexists. split; [done|lia].
Qed.

Lemma row_spec k i js : ∀ st,
  (k < vertices)%nat → (i < vertices)%nat → in_range js →
  fw_good (st_distances st) →
  let D' := st_distances (foldl (relax_cell k i) st js) in
  fw_good D' ∧ le_mat D' (st_distances st)
  ∧ ∀ j, j ∈ js → through k (st_distances st) D' i j.
Proof.
  induction js as [|j js IH]; intros st Hk Hi Hjs Hgood; cbn zeta.
  - cbn. split; [done|]. split; [apply le_mat_refl|].
    intros j Hj. by apply elem_of_nil in Hj.
  - apply Forall_cons in Hjs as [Hj Hjs]. cbn [foldl].
    destruct (relax_cell_spec k i j st Hk Hi Hj Hgood) as (Hg1 & Hle1 & Ht1).
    destruct (IH _ Hk Hi Hjs Hg1) as (Hg' & Hle' & Ht').
    split; [done|]. split; [by eapply le_mat_trans|].
    intros j' [->|Hj']%elem_of_cons.
    + by eapply through_le'.
    + eapply through_le; [done| |done|exact Hle1|by apply Ht'].
      unfold in_range in Hjs. rewrite Forall_forall in Hjs. by apply Hjs.
Qed.

Lemma rows_spec k js rows : ∀ st,
  (k < vertices)%nat → in_range js → in_range rows →
  fw_good (st_distances st) →
  let D' := st_distances (foldl (λ st i, foldl (relax_cell k i) st js) st rows) in
  fw_good D' ∧ le_mat D' (st_distances st)
  ∧ ∀ i j, i ∈ rows → j ∈ js → through k (st_distances st) D' i j.
Proof.
  induction rows as [|i rows IH]; intros st Hk Hjs Hrows Hgood; cbn zeta.
  - cbn. split; [done|]. split; [apply le_mat_refl|].
    intros i j Hi. by apply elem_of_nil in Hi.
  - apply Forall_cons in Hrows as [Hi Hrows]. cbn [foldl].
    destruct (row_spec k i js st Hk Hi Hjs Hgood) as (Hg1 & Hle1 & Ht1).
    destruct (IH _ Hk Hjs Hrows Hg1) as (Hg' & Hle' & Ht').
    split; [done|]. split; [by eapply le_mat_trans|].
    assert (Hin : ∀ l x, in_range l → x ∈ l → (x < vertices)%nat).
    { intros l x Hl. unfold in_range in Hl. rewrite Forall_forall in Hl. apply Hl. }
    intros i' j [->|Hi']%elem_of_cons Hj.
    + eapply through_le'; [done|by apply (Hin js)|done|by apply Ht1].
    + eapply through_le;
        [by apply (Hin rows)|by apply (Hin js)|done|exact Hle1|by apply Ht'].
Qed.

Lemma in_range_seq : in_range (seq 0 vertices).
Proof. apply Forall_forall. intros x Hx%elem_of_seq. lia. Qed.

Lemma iteration_spec k st :
  (k < vertices)%nat → fw_good (st_distances st) →
  let D' := st_distances (iteration vertices st k) in
  fw_good D' ∧ le_mat D' (st_distances st)
  ∧ ∀ i j, (i < vertices)%nat → (j < vertices)%nat →
      through k (st_distances st) D' i j.
Proof.
  intros Hk Hgood. cbn zeta. unfold iteration.
  set (st1 := mkState _ _ _).
  destruct (rows_spec k (seq 0 vertices) (seq 0 vertices) st1 Hk
              in_range_seq in_range_seq Hgood) as (Hg & Hle & Ht).
  split; [done|]. split; [done|].
  intros i j Hi Hj. apply Ht; apply elem_of_seq; lia.
Qed.

(** After the iterations for the intermediate vertices below [K], an entry
    is at most the cost of any walk whose inner vertices are below [K]. *)
Definition fw_upper (K : nat) (D : list (list Z)) : Prop :=
  ∀ a b mids, (a < vertices)%nat → (b < vertices)%nat →
    Forall (λ m, (m < K)%nat) mids →
    ∃ x, mget D a b = Some x ∧ x ≤ cost_of a (mids ++ [b]).

Lemma below_in_range K l :
  (K ≤ vertices)%nat → Forall (λ m, (m < K)%nat) l → in_range l.
Proof. intros HK Hl. eapply Forall_impl; [exact Hl|]. intros x. cbn. lia. Qed.

Lemma below_drop K l :
  Forall (λ m, (m < S K)%nat) l → K ∉ l → Forall (λ m, (m < K)%nat) l.
Proof.
  rewrite !Forall_forall. intros Hl HK x Hx.
  specialize (Hl x Hx). assert (x ≠ K) by (intros ->; done). lia.
Qed.

Lemma leave_last K b rest :
  (K < vertices)%nat → (b < vertices)%nat →
  Forall (λ m, (m < S K)%nat) rest →
  ∃ m3, Forall (λ m, (m < K)%nat) m3
        ∧ cost_of K (m3 ++ [b]) ≤ cost_of K (rest ++ [b]).
Proof.
  intros HK Hb Hrest. destruct (decide (K ∈ rest)) as [Hin|Hnin].
  - apply list_elem_of_split_r in Hin as (l1 & m3 & -> & Hnin).
    apply Forall_app in Hrest as [Hl1 Hm3]. apply Forall_cons in Hm3 as [_ Hm3].
    exists m3. split; [by apply below_drop|].
    replace ((l1 ++ K :: m3) ++ [b]) with ((l1 ++ [K]) ++ (m3 ++ [b]))
      by (by rewrite <- !app_assoc).
    rewrite (cost_of_app K (l1 ++ [K])), end_of_app. cbn [end_of].
    assert (0 ≤ cost_of K (l1 ++ [K])); [|lia].
    apply closed_nonneg; [|by rewrite end_of_app].
    constructor; [done|]. apply in_range_app. split.
    + eapply (below_in_range (S K)); [lia|done].
    + by constructor.
  - exists rest. split; [by apply below_drop|lia].
Qed.

Lemma fw_upper_step K D D' :
  (K < vertices)%nat →
  fw_good D → fw_good D' → le_mat D' D →
  (∀ i j, (i < vertices)%nat → (j < vertices)%nat → through K D D' i j) →
  fw_upper K D → fw_upper (S K) D'.
Proof.
  intros HK Hg Hg' Hle Ht Hup a b mids Ha Hb Hmids.
  destruct (decide (a = b)) as [->|Hne].
  { exists 0. split; [by apply Hg'|].
    apply closed_nonneg; [|by rewrite end_of_app].
    constructor; [done|]. apply in_range_app. split.
    - eapply (below_in_range (S K)); [lia|done].
    - by constructor. }
  destruct (decide (K ∈ mids)) as [Hin|Hnin].
  - apply list_elem_of_split_l in Hin as (m1 & rest & -> & Hnin).
    apply Forall_app in Hmids as [Hm1 Hrest].
    apply Forall_cons in Hrest as [_ Hrest].
    destruct (leave_last K b rest HK Hb Hrest) as (m3 & Hm3 & Hcost).
    destruct (Hup a K m1 Ha HK (below_drop _ _ Hm1 Hnin)) as (x & Hx & Hxle).
    destruct (Hup K b m3 HK Hb Hm3) as (y & Hy & Hyle).
    destruct (Ht a b Ha Hb Hne x y Hx Hy) as (z & Hz & Hzle).
    exists z. split; [done|].
    replace ((m1 ++ K :: rest) ++ [b]) with ((m1 ++ [K]) ++ (rest ++ [b]))
      by (by rewrite <- !app_assoc).
    rewrite (cost_of_app a (m1 ++ [K])), end_of_app. cbn [end_of]. lia.
  - destruct (Hup a b mids Ha Hb (below_drop _ _ Hmids Hnin)) as (x & Hx & Hxle).
    destruct (Hle _ _ _ Ha Hb Hx) as (x' & Hx' & ?). exists x'. split; [done|lia].
Qed.

Lemma initial_good : fw_good (initial_distances vertices edges).
Proof.
  split; [apply initial_square|]. split.
  - intros a Ha. by rewrite initial_entry, cost_diag.
  - intros a b x Ha Hb. rewrite initial_entry by done. intros [= <-].
    exists [b]. split; [by constructor|]. split; [done|]. cbn. lia.
Qed.

Lemma iterations_spec K :
  (K ≤ vertices)%nat →
  let D := st_distances (foldl (iteration vertices)
                           (initial_state vertices edges) (seq 0 K)) in
  fw_good D ∧ fw_upper K D.
Proof.
  induction K as [|K IH]; intros HK; cbn zeta.
  - cbn [seq foldl initial_state st_distances]. split; [apply initial_good|].
    intros a b mids Ha Hb Hmids. destruct mids as [|m mids].
    + exists (cost a b). split; [by apply initial_entry|]. cbn. lia.
    + apply Forall_cons in Hmids as [? _]. lia.
  - replace (S K) with (K + 1)%nat by lia. rewrite seq_snoc, foldl_app.
    cbn [foldl]. destruct IH as [Hg Hup]; [lia|].
    destruct (iteration_spec K _ ltac:(lia) Hg) as (Hg' & Hle & Ht).
    split; [done|]. replace (K + 1)%nat with (S K) by lia.
    eapply fw_upper_step; [lia|exact Hg|exact Hg'|exact Hle|exact Ht|exact Hup].
Qed.

(** The matrix left by the main loop. *)
Definition fw_final : list (list Z) :=
  st_distances (final_state vertices edges).

Lemma fw_final_spec : fw_good fw_final ∧ fw_upper vertices fw_final.
Proof. apply (iterations_spec vertices). lia. Qed.

Lemma fw_last :
  ∃ fw, last (floydWarshallAlgorithm vertices edges) = Some fw
        ∧ distances fw = fw_final.
Proof.
  unfold floydWarshallAlgorithm, push. rewrite last_snoc. eexists. split; done.
Qed.


(** *** The two final tables, entry by entry *)

Lemma walk_to v vs :
  in_range (source :: vs) → end_of source vs = v → v ≠ source →
  ∃ mids, vs = mids ++ [v] ∧ Forall (λ m, (m < vertices)%nat) mids.
Proof.
  intros Hr He Hne. destruct (decide (vs = [])) as [->|Hnil]; [done|].
  destruct (exists_last Hnil) as (mids & x & ->).
  rewrite end_of_app in He. cbn in He. subst x.
  exists mids. split; [done|].
  apply Forall_cons in Hr as [_ Hr]. by apply in_range_app in Hr as [? _].
Qed.

Lemma fw_le_walk v vs :
  in_range (source :: vs) → end_of source vs = v →
  ∃ f, mget fw_final source v = Some f ∧ f ≤ cost_of source vs.
Proof.
  intros Hr He. destruct fw_final_spec as [(Hsq & Hdiag & Hsound) Hup].
  assert (Hv : (v < vertices)%nat) by (rewrite <- He; by apply end_of_in_range).
  destruct (decide (v = source)) as [->|Hne].
  - exists 0. split; [by apply Hdiag|]. by apply closed_nonneg.
  - destruct (walk_to v vs Hr He Hne) as (mids & -> & Hmids).
    by apply Hup.
Qed.

Lemma fw_ge_simple v f :
  (v < vertices)%nat → mget fw_final source v = Some f →
  ∃ vs, NoDup (source :: vs) ∧ in_range (source :: vs)
        ∧ end_of source vs = v ∧ cost_of source vs ≤ f.
Proof.
  intros Hv Hf. destruct fw_final_spec as [(Hsq & Hdiag & Hsound) Hup].
  destruct (Hsound _ _ _ Hsource Hv Hf) as (ws & Hr & He & Hc).
  destruct (reduce (length ws) ws source) as [_ (ws' & Hnd & Hr' & He' & Hc' & _)];
    [done|by constructor|].
  exists ws'. split; [done|]. split; [done|]. split; [congruence|lia].
Qed.

Lemma real_walk_dec u vs : real_walk u vs ∨ ¬ real_walk u vs.
Proof.
  destruct (decide (fakes u vs = 0%nat)) as [H|H].
  - left. by apply fakes_zero.
  - right. intros Hr. by apply real_walk_fakes in Hr.
Qed.

Lemma agreement_at v :
  (v < vertices)%nat →
  (reachable edges source v →
     ∃ d, bf_final !! v = Some (Fin d) ∧ mget fw_final source v = Some d
          ∧ dwalk edges source v d ∧ ∀ W, dwalk edges source v W → d ≤ W)
  ∧ (¬ reachable edges source v →
     bf_final !! v = Some Infinity
     ∧ ∃ x, mget fw_final source v = Some x
            ∧ INF - total_abs_weight edges ≤ x).
Proof.
  intros Hv. destruct bf_final_spec as (Hlen & Hbsound & Hbup).
  pose proof (total_abs_split edges) as Hsplit.
  pose proof (pos_weight_nonneg edges) as Hpos.
  pose proof (neg_weight_nonneg edges) as Hneg.
  split.
  - intros [W0 Hw0]. apply dwalk_real_walk in Hw0 as (vs0 & Hr0 & He0 & Hc0).
    destruct (Hbup vs0 Hr0) as (d & Hd & Hdle). rewrite He0 in Hd.
    assert (Hmin : ∀ vs, real_walk source vs → end_of source vs = v →
                     d ≤ cost_of source vs).
    { intros vs Hr He. destruct (Hbup vs Hr) as (d' & Hd' & ?).
      rewrite He, Hd in Hd'. simplify_eq. lia. }
    destruct (Hbsound _ _ Hd) as (vsd & Hrd & Hed & Hcd).
    exists d. split; [done|]. split; [|split].
    + destruct (fw_le_walk v vsd) as (f & Hf & Hfle);
        [by apply real_walk_in_range|done|].
      rewrite Hf. f_equal.
      destruct (fw_ge_simple v f Hv Hf) as (ws & Hnd & Hr & He & Hc).
      destruct (simple_walk_bounds source ws Hr Hnd) as [Hreal Hfake].
      destruct (real_walk_dec source ws) as [Hrw|Hnrw].
      * specialize (Hmin ws Hrw He). lia.
      * specialize (Hfake Hnrw).
        destruct (reduce (length vsd) vsd source)
          as [_ (vs' & Hnd' & Hr' & He' & Hc' & Hreal')];
          [done|by apply real_walk_in_range|].
        destruct (simple_walk_bounds source vs' Hr' Hnd') as [Hb _].
        specialize (Hb (Hreal' Hrd)).
        specialize (Hmin vs' (Hreal' Hrd) ltac:(congruence)). lia.
    + apply dwalk_real_walk. by exists vsd.
    + intros W Hw. apply dwalk_real_walk in Hw as (vs & Hr & He & <-).
      by apply Hmin.
  - intros Hun. split.
    + destruct (lookup_lt_is_Some_2 bf_final v) as [[d|] Hd]; [lia| |done].
      destruct Hun. exists d. apply dwalk_real_walk. by apply Hbsound.
    + destruct fw_final_spec as [(Hsq & _) _].
      destruct (Hsq source v Hsource Hv) as [f Hf]. exists f. split; [done|].
      destruct (fw_ge_simple v f Hv Hf) as (ws & Hnd & Hr & He & Hc).
      destruct (simple_walk_bounds source ws Hr Hnd) as [_ Hfake].
      assert (Hnrw : ¬ real_walk source ws).
      { intros Hrw. apply Hun. exists (cost_of source ws).
        apply dwalk_real_walk. by exists ws. }
      specialize (Hfake Hnrw). lia.
Qed.

End Costs.

(** C6, on the graphs of the input layer whose weights stay below the
    sentinel: for a digraph with its endpoints among the vertices, no edge
    from a vertex to itself, at most one edge per ordered pair, no negative
    cycle, and absolute weights summing to at most [INF] = 999, Bellman-Ford
    reports no negative cycle, both final tables have [vertices] entries, and
    for every vertex [v]: if [v] is reachable from [s], the final distances
    of Bellman-Ford and row [s] of the final matrix of Floyd-Warshall hold
    the same number at [v], the weight of a shortest walk from [s] to [v];
    if [v] is not reachable, Bellman-Ford holds [Infinity] there and
    Floyd-Warshall a number at least [INF] minus the sum of the absolute
    weights. *)
Theorem bellman_ford_matches_floyd_warshall vertices edges s :
  simple_digraph vertices edges →
  s < vertices →
  no_negative_cycle edges →
  (total_abs_weight edges ≤ INF)%Z →
  ∃ bf fw row,
    last (BellmanFord.bellmanFordAlgorithm vertices edges s) = Some bf
    ∧ last (floydWarshallAlgorithm vertices edges) = Some fw
    ∧ BellmanFord.hasNegativeCycle bf = false
    ∧ distances fw !! s = Some row
    ∧ length (BellmanFord.distances bf) = vertices
    ∧ length row = vertices
    ∧ ∀ v, v < vertices →
        (reachable edges s v →
           ∃ d, BellmanFord.distances bf !! v = Some (Fin d)
                ∧ row !! v = Some d
                ∧ dwalk edges s v d
                ∧ ∀ W, dwalk edges s v W → (d ≤ W)%Z)
        ∧ (¬ reachable edges s v →
           BellmanFord.distances bf !! v = Some Infinity
           ∧ ∃ x, row !! v = Some x
                  ∧ (INF - total_abs_weight edges ≤ x)%Z).
Proof.
  intros Hsimple Hs Hnoneg Hbound.
  destruct (bf_last vertices edges Hsimple Hnoneg Hbound s Hs) as (bf & Hbf & Hbd & Hflag).
  destruct (fw_last vertices edges) as (fw & Hfw & Hfd).
  destruct (final_shape vertices edges) as [Hrows Hcols].
  destruct (lookup_lt_is_Some_2 (fw_final vertices edges) s) as [row Hrow].
  { unfold fw_final. lia. }
  exists bf, fw, row. rewrite Hbd, Hfd.
  split; [done|]. split; [done|]. split; [done|]. split; [done|].
  split; [apply (bf_final_spec vertices edges Hsimple Hnoneg Hbound s Hs)|].
  split.
  { rewrite Forall_forall in Hcols. apply Hcols.
    by apply list_elem_of_lookup_2 in Hrow. }
  intros v Hv.
  pose proof (agreement_at vertices edges Hsimple Hnoneg Hbound s Hs v Hv) as Hat.
  unfold mget in Hat. rewrite Hrow in Hat. exact Hat.
Qed.


(** C6 witness: the default graph of the Bellman-Ford component, with its
    negative edge 2 -> 1; the distances from 0 serve as a potential. *)
Lemma bellman_ford_matches_floyd_warshall_witness :
  let edges := [mkEdge 0 1 4 "0-1"; mkEdge 0 2 2 "0-2"; mkEdge 1 3 3 "1-3";
                mkEdge 2 1 (-2) "2-1"; mkEdge 2 3 4 "2-3"; mkEdge 3 4 1 "3-4";
                mkEdge 1 4 6 "1-4"] in
  simple_digraph 5 edges
  ∧ no_negative_cycle edges
  ∧ (total_abs_weight edges ≤ INF)%Z
  ∧ ∃ bf fw row,
      last (BellmanFord.bellmanFordAlgorithm 5 edges 0) = Some bf
      ∧ last (floydWarshallAlgorithm 5 edges) = Some fw
      ∧ BellmanFord.hasNegativeCycle bf = false
      ∧ distances fw !! 0 = Some row
      ∧ length (BellmanFord.distances bf) = 5
      ∧ length row = 5
      ∧ ∀ v, v < 5 →
          (reachable edges 0 v →
             ∃ d, BellmanFord.distances bf !! v = Some (Fin d)
                  ∧ row !! v = Some d
                  ∧ dwalk edges 0 v d
                  ∧ ∀ W, dwalk edges 0 v W → (d ≤ W)%Z)
          ∧ (¬ reachable edges 0 v →
             BellmanFord.distances bf !! v = Some Infinity
             ∧ ∃ x, row !! v = Some x
                    ∧ (INF - total_abs_weight edges ≤ x)%Z).
Proof.
  intros edges.
  assert (Hsimple : simple_digraph 5 edges).
  { split.
    - repeat constructor; cbn; lia.
    - repeat constructor; cbn; lia.
    - apply (bool_decide_unpack _). vm_compute. exact I. }
  assert (Hnoneg : no_negative_cycle edges).
  { apply (potential_no_negative_cycle edges (λ v, nth v [0; 0; 2; 3; 4] 0)%Z).
    repeat constructor; cbn; lia. }
  assert (Hbound : (total_abs_weight edges ≤ INF)%Z).
  { vm_compute. discriminate. }
  split; [exact Hsimple|]. split; [exact Hnoneg|]. split; [exact Hbound|].
  apply (bellman_ford_matches_floyd_warshall 5 edges 0 Hsimple); [lia|done|done].
Defined.

(** C6 as stated fails as soon as a vertex cannot be reached from the
    source: with the single edge 1 -> 0 and the source 0, Bellman-Ford ends
    with [Infinity] for the vertex 1 and Floyd-Warshall with its sentinel
    999. *)
Lemma unreachable_vertex_counterexample :
  let edges := [mkEdge 1 0 1 "1-0"] in
  simple_digraph 2 edges
  ∧ no_negative_cycle edges
  ∧ ∃ bf fw row,
      last (BellmanFord.bellmanFordAlgorithm 2 edges 0) = Some bf
      ∧ last (floydWarshallAlgorithm 2 edges) = Some fw
      ∧ distances fw !! 0 = Some row
      ∧ BellmanFord.distances bf = [Fin 0; Infinity]
      ∧ row = [0; 999]%Z
      ∧ BellmanFord.distances bf ≠ Fin <$> row.
Proof.
  intros edges. split; [|split].
  - split.
    + repeat constructor; cbn; lia.
    + repeat constructor; cbn; lia.
    + apply (bool_decide_unpack _). vm_compute. exact I.
  - apply (potential_no_negative_cycle edges (λ _, 0%Z)).
    repeat constructor; cbn; lia.
  - eexists _, _, _. split; [vm_compute; reflexivity|].
    split; [vm_compute; reflexivity|]. split; [reflexivity|].
    split; [reflexivity|]. split; [reflexivity|]. discriminate.
Qed.

(** Where the bound on the weights fails the two tables differ even at
    reachable vertices: the walk 0 -> 1 -> 2 of weight 1200 is beaten by the
    sentinel 999 in the matrix. *)
Example weights_above_sentinel :
  let edges := [mkEdge 0 1 600 "0-1"; mkEdge 1 2 600 "1-2"] in
  ∃ bf fw,
    last (BellmanFord.bellmanFordAlgorithm 3 edges 0) = Some bf
    ∧ last (floydWarshallAlgorithm 3 edges) = Some fw
    ∧ BellmanFord.distances bf = [Fin 0; Fin 600; Fin 1200]
    ∧ distances fw !! 0 = Some [0; 600; 999]%Z.
Proof.
  eexists _, _. split; [vm_compute; reflexivity|].
  split; [vm_compute; reflexivity|]. split; reflexivity.
Qed.

(** Where two edges join the same ordered pair the matrix keeps the weight
    of the later one, Bellman-Ford the lighter one. *)
Example repeated_pair :
  let edges := [mkEdge 0 1 1 "0-1"; mkEdge 0 1 5 "0-1b"] in
  ∃ bf fw,
    last (BellmanFord.bellmanFordAlgorithm 2 edges 0) = Some bf
    ∧ last (floydWarshallAlgorithm 2 edges) = Some fw
    ∧ BellmanFord.distances bf = [Fin 0; Fin 1]
    ∧ distances fw !! 0 = Some [0; 5]%Z.
Proof.
  eexists _, _. split; [vm_compute; reflexivity|].
  split; [vm_compute; reflexivity|]. split; reflexivity.
Qed.

(** An edge from a vertex to itself overwrites the 0 on the diagonal of the
    matrix, and the main loop never writes the diagonal. *)
Example edge_to_itself :
  let edges := [mkEdge 0 0 5 "0-0"; mkEdge 0 1 1 "0-1"] in
  ∃ bf fw,
    last (BellmanFord.bellmanFordAlgorithm 2 edges 0) = Some bf
    ∧ last (floydWarshallAlgorithm 2 edges) = Some fw
    ∧ BellmanFord.distances bf = [Fin 0; Fin 1]
    ∧ distances fw !! 0 = Some [5; 1]%Z.
Proof.
  eexists _, _. split; [vm_compute; reflexivity|].
  split; [vm_compute; reflexivity|]. split; reflexivity.
Qed.

End Agreement.

(** ** Huffman coding (HuffmanVisualizer) *)

Module Huffman.

(** Every node the component builds is either a leaf made from an entry of
    the frequency table ([char] set, no children) or the merge of two nodes
    ([char: null], both children set); [id] is the number in [node-<id>]. *)
Inductive HuffmanNode :=
| leaf (char : jsstring) (freq : nat) (id : nat)
| merged (freq : nat) (left right : HuffmanNode) (id : nat).

Definition freq_of (node : HuffmanNode) : nat :=
  match node with
  | leaf _ f _ => f
  | merged f _ _ _ => f
  end.

Inductive Description :=
| Initialize
| Merge (leftFreq rightFreq mergedFreq : nat)
| Complete.

Record HuffmanStep := mkStep {
  step : nat;
  description : Description;
  nodes : list HuffmanNode;
  codes : option (gmap jsstring jsstring)
}.

(** The string iterator behind [for (const char of text)]: it walks the
    text by code points, so a high surrogate followed by a low surrogate
    comes out as one two-unit string. *)
Definition is_high (c : N) : bool := (0xD800 <=? c)%N && (c <=? 0xDBFF)%N.
Definition is_low (c : N) : bool := (0xDC00 <=? c)%N && (c <=? 0xDFFF)%N.

Fixpoint code_points (text : jsstring) : list jsstring :=
  match text with
  | [] => []
  | a :: rest =>
      match rest with
      | b :: rest' =>
          if is_high a && is_low b then [a; b] :: code_points rest'
          else [a] :: code_points rest
      | [] => [[a]]
      end
  end.

(** The object [freq], as its own properties in insertion order. *)
Abbreviation Freq := (list (jsstring * nat)) (only parsing).

(** [freq[char] = (freq[char] || 0) + 1] *)
Fixpoint bump (char : jsstring) (freq : Freq) : Freq :=
  match freq with
  | [] => [(char, 1)]
  | (c, n) :: rest =>
      if decide (c = char) then (c, n + 1) :: rest
      else (c, n) :: bump char rest
  end.

Definition calculateFrequencies (text : jsstring) : Freq :=
  foldl (λ freq char, bump char freq) [] (code_points text).

(** [array.sort((a, b) => key(a) - key(b))]; the sort is stable. *)
Fixpoint insert_by {A} (key : A → nat) (x : A) (l : list A) : list A :=
  match l with
  | [] => [x]
  | y :: rest =>
      if decide (key x < key y) then x :: l else y :: insert_by key x rest
  end.

Definition sort_by {A} (key : A → nat) (l : list A) : list A :=
  foldl (λ acc x, insert_by key x acc) [] l.

(** [Object.entries]: the keys that are array indices (here the one-digit
    strings) come first, in ascending order, then the other keys in
    insertion order. *)
Definition index_key (entry : jsstring * nat) : option nat :=
  match entry.1 with
  | [c] => if (48 <=? c)%N && (c <=? 57)%N then Some (N.to_nat c) else None
  | _ => None
  end.

Definition entries (freq : Freq) : Freq :=
  sort_by (λ e, default 0 (index_key e))
          (filter (λ e, is_Some (index_key e)) freq)
  ++ filter (λ e, ¬ is_Some (index_key e)) freq.

(** [generateHuffmanCodes(root, code, codes)] on a node; ["0"] is the code
    unit 48 and ["1"] is 49. *)
Fixpoint generateHuffmanCodes (root : HuffmanNode) (code : jsstring)
    (codes : gmap jsstring jsstring) : gmap jsstring jsstring :=
  match root with
  | leaf char _ _ => <[char := if code is [] then [48%N] else code]> codes
  | merged _ l r _ =>
      generateHuffmanCodes r (code ++ [49%N])
        (generateHuffmanCodes l (code ++ [48%N]) codes)
  end.

(** [while (queue.length > 1)], with fuel. *)
Fixpoint merge_loop (fuel : nat) (queue : list HuffmanNode)
    (nodeIdCounter : nat) (steps : list HuffmanStep)
    : option (list HuffmanNode * list HuffmanStep) :=
  match queue with
  | l :: r :: rest =>
      match fuel with
      | 0 => None
      | S fuel' =>
          let node := merged (freq_of l + freq_of r) l r nodeIdCounter in
          let queue := sort_by freq_of (rest ++ [node]) in
          let steps := push steps (λ c,
            mkStep c (Merge (freq_of l) (freq_of r) (freq_of node))
                   queue None) in
          merge_loop fuel' queue (nodeIdCounter + 1) steps
      end
  | _ => Some (queue, steps)
  end.

(** What [buildHuffmanTree] hands to the setters. *)
Record Output := mkOutput {
  frequencies : Freq;
  huffmanCodes : gmap jsstring jsstring;
  encodedText : jsstring;
  steps : list HuffmanStep
}.

(** [text.split('').map(char => huffmanCodes[char]).join('')]: the text is
    cut by code units, and [join] writes nothing for [undefined]. *)
Definition encode (huffmanCodes : gmap jsstring jsstring) (text : jsstring)
    : jsstring :=
  concat (map (λ char, default [] (huffmanCodes !! [char])) text).

Definition buildHuffmanTree (text : jsstring) : option Output :=
  let freq := calculateFrequencies text in
  let nodes := imap (λ index e, leaf e.1 e.2 index) (entries freq) in
  let steps := push [] (λ c, mkStep c Initialize nodes None) in
  let queue := sort_by freq_of nodes in
  '(queue, steps) ← merge_loop (length queue) queue (length nodes) steps;
  let huffmanCodes :=
    match head queue with
    | Some root => generateHuffmanCodes root [] ∅
    | None => ∅
    end in
  let encoded := encode huffmanCodes text in
  Some (mkOutput freq huffmanCodes encoded
          (push steps (λ c,
             mkStep c Complete (option_list (head queue)) (Some huffmanCodes)))).

(** The decoder of the round trip, following the words of the
    specification: the bit string is read from the left, and as soon as the
    bits read so far are the code of a character of the table, that
    character is written and reading starts afresh. *)
Definition char_of (table : gmap jsstring jsstring) (code : jsstring)
    : option jsstring :=
  fst <$> find (λ e, bool_decide (e.2 = code)) (map_to_list table).

Fixpoint decode_from (table : gmap jsstring jsstring) (cur bits : jsstring)
    : option jsstring :=
  match bits with
  | [] => if cur is [] then Some [] else None
  | b :: rest =>
      match char_of table (cur ++ [b]) with
      | Some char => (char ++.) <$> decode_from table [] rest
      | None => decode_from table (cur ++ [b]) rest
      end
  end.

Definition decode (table : gmap jsstring jsstring) (bits : jsstring)
    : option jsstring :=
  decode_from table [] bits.


(** *** Code points and code units *)

(** No high surrogate is followed by a low surrogate: every character of
    the text is in the Basic Multilingual Plane or a lone surrogate. *)
Definition no_surrogate_pair (text : jsstring) : Prop :=
  ∀ i a b, text !! i = Some a → text !! S i = Some b →
    is_high a && is_low b = false.

Lemma code_points_units text :
  no_surrogate_pair text → code_points text = (λ u, [u]) <$> text.
Proof.
  induction text as [|a rest IH]; intros Hno; [done|].
  assert (Hrest : no_surrogate_pair rest).
  { intros i x y Hx Hy. apply (Hno (S i) x y); done. }
  cbn [code_points]. destruct rest as [|b rest']; [done|].
  rewrite (Hno 0 a b) by done. cbn [fmap list_fmap]. f_equal.
  by apply IH.
Qed.

(** *** The frequency table *)

Lemma bump_keys char freq :
  (bump char freq).*1
  = if decide (char ∈ freq.*1) then freq.*1 else freq.*1 ++ [char].
Proof.
  induction freq as [|[c n] freq IH]; cbn [bump].
  - rewrite decide_False; [done|]. cbn. apply not_elem_of_nil.
  - destruct (decide (c = char)) as [->|Hc].
    + cbn. rewrite decide_True; [done|]. left.
    + rewrite !fmap_cons, IH. cbn [fst].
      destruct (decide (char ∈ freq.*1)) as [Hin|Hin].
      * rewrite decide_True; [done|]. by right.
      * rewrite decide_False; [done|]. intros [->|?]%elem_of_cons; done.
Qed.

Lemma fold_bump_keys chars : ∀ freq,
  NoDup freq.*1 →
  let freq' := foldl (λ freq char, bump char freq) freq chars in
  NoDup freq'.*1 ∧ ∀ c, c ∈ freq'.*1 ↔ c ∈ freq.*1 ∨ c ∈ chars.
Proof.
  induction chars as [|char chars IH]; intros freq Hnd; cbn zeta.
  - cbn. split; [done|]. intros c. rewrite elem_of_nil. tauto.
  - cbn [foldl].
    assert (Hb : NoDup (bump char freq).*1
                 ∧ ∀ c, c ∈ (bump char freq).*1 ↔ c ∈ freq.*1 ∨ c = char).
    { rewrite bump_keys. case_decide as Hin.
      - split; [done|]. intros c. split; [tauto|]. intros [?| ->]; done.
      - split.
        + apply NoDup_app. split; [done|]. split; [|apply NoDup_singleton].
          intros x Hx ->%list_elem_of_singleton. done.
        + intros c. rewrite elem_of_app, list_elem_of_singleton. tauto. }
    destruct Hb as [Hnd' Hkeys]. destruct (IH _ Hnd') as [Hnd'' Hkeys''].
    split; [done|]. intros c. rewrite Hkeys'', Hkeys, elem_of_cons. tauto.
Qed.

Lemma calculateFrequencies_keys text :
  NoDup (calculateFrequencies text).*1
  ∧ ∀ c, c ∈ (calculateFrequencies text).*1 ↔ c ∈ code_points text.
Proof.
  destruct (fold_bump_keys (code_points text) []) as [Hnd Hkeys];
    [apply NoDup_nil_2|].
  split; [done|]. intros c. rewrite (Hkeys c). cbn. rewrite elem_of_nil. tauto.
Qed.

(** *** Sorting and [Object.entries] keep the elements *)

Lemma insert_by_perm {A} (key : A → nat) x l : insert_by key x l ≡ₚ x :: l.
Proof.
  induction l as [|y l IH]; cbn [insert_by]; [done|].
  case_decide; [done|]. rewrite IH. apply Permutation_swap.
Qed.

Lemma sort_by_perm {A} (key : A → nat) l : sort_by key l ≡ₚ l.
Proof.
  unfold sort_by.
  enough (∀ acc, foldl (λ acc x, insert_by key x acc) acc l ≡ₚ acc ++ l)
    as H by apply (H []).
  induction l as [|x l IH]; intros acc; cbn [foldl].
  - by rewrite app_nil_r.
  - rewrite IH, insert_by_perm. cbn. apply Permutation_middle.
Qed.

Lemma entries_perm freq : entries freq ≡ₚ freq.
Proof.
  unfold entries. rewrite sort_by_perm. apply filter_app_complement.
Qed.

(** *** The forest of nodes *)

Fixpoint leaves (node : HuffmanNode) : list jsstring :=
  match node with
  | leaf char _ _ => [char]
  | merged _ l r _ => leaves l ++ leaves r
  end.

Lemma leaves_imap (es : Freq) : ∀ f : nat → nat,
  imap (λ index e, leaf e.1 e.2 (f index)) es ≫= leaves = es.*1.
Proof.
  induction es as [|e es IH]; intros f; [done|].
  rewrite imap_cons, bind_cons. cbn [leaves app fmap list_fmap]. f_equal.
  apply (IH (f ∘ S)).
Qed.

Lemma merge_loop_spec fuel : ∀ queue counter steps,
  length queue ≤ fuel → queue ≠ [] →
  ∃ root steps',
    merge_loop fuel queue counter steps = Some ([root], steps')
    ∧ leaves root ≡ₚ queue ≫= leaves.
Proof.
  induction fuel as [|fuel IH]; intros queue counter steps Hlen Hne.
  - destruct queue; [done|]. cbn in Hlen. lia.
  - destruct queue as [|l [|r rest]]; [done| |].
    + exists l, steps. split; [done|]. cbn. by rewrite app_nil_r.
    + cbn [merge_loop].
      set (node := merged _ l r counter).
      destruct (IH (sort_by freq_of (rest ++ [node])) (counter + 1)
                  (push steps (λ c,
                     mkStep c (Merge (freq_of l) (freq_of r) (freq_of node))
                            (sort_by freq_of (rest ++ [node])) None)))
        as (root & steps' & Heq & Hperm).
      * rewrite sort_by_perm, length_app. cbn in *. lia.
      * intros Hnil. pose proof (sort_by_perm freq_of (rest ++ [node])) as Hp.
        rewrite Hnil in Hp. apply Permutation_nil_l in Hp.
        by destruct rest.
      * exists root, steps'. split; [done|]. rewrite Hperm, sort_by_perm.
        rewrite bind_app, bind_singleton, !bind_cons. cbn [node leaves].
        rewrite (comm (++) (rest ≫= leaves)). by rewrite <- app_assoc.
Qed.

(** *** The code table of a tree *)

(** The pairs written by [generateHuffmanCodes], in the order of the
    writes, before [code || "0"] is applied. *)
Fixpoint table (node : HuffmanNode) (code : jsstring)
    : list (jsstring * jsstring) :=
  match node with
  | leaf char _ _ => [(char, code)]
  | merged _ l r _ => table l (code ++ [48%N]) ++ table r (code ++ [49%N])
  end.

(** [code || "0"] *)
Definition or_zero (code : jsstring) : jsstring :=
  if code is [] then [48%N] else code.

Lemma generateHuffmanCodes_table node : ∀ code codes,
  generateHuffmanCodes node code codes
  = foldl (λ m e, <[e.1 := or_zero e.2]> m) codes (table node code).
Proof.
  induction node as [|f l IHl r IHr i]; intros code codes; cbn; [done|].
  by rewrite foldl_app, <- IHl, <- IHr.
Qed.

Lemma table_keys node : ∀ code, (table node code).*1 = leaves node.
Proof.
  induction node as [|f l IHl r IHr i]; intros code; cbn; [done|].
  by rewrite fmap_app, IHl, IHr.
Qed.

Lemma table_prefix node : ∀ code c p,
  (c, p) ∈ table node code → code `prefix_of` p.
Proof.
  induction node as [|f l IHl r IHr i]; intros code c p; cbn.
  - intros [= _ ->]%list_elem_of_singleton. done.
  - intros [H%IHl|H%IHr]%elem_of_app;
      (etrans; [|exact H]); by apply prefix_app_r.
Qed.

Lemma branches_apart (code p : jsstring) :
  code ++ [48%N] `prefix_of` p → code ++ [49%N] `prefix_of` p → False.
Proof.
  intros [k ->] [k' Heq]. rewrite <- !app_assoc in Heq.
  apply app_inv_head in Heq. done.
Qed.

Lemma table_prefix_free node : ∀ code c1 p1 c2 p2,
  (c1, p1) ∈ table node code → (c2, p2) ∈ table node code →
  p1 `prefix_of` p2 → c1 = c2 ∧ p1 = p2.
Proof.
  induction node as [|f l IHl r IHr i]; intros code c1 p1 c2 p2; cbn.
  - intros [= -> ->]%list_elem_of_singleton [= -> ->]%list_elem_of_singleton. done.
  - intros [H1|H1]%elem_of_app [H2|H2]%elem_of_app Hpre.
    + by eapply IHl.
    + exfalso. apply (branches_apart code p2).
      * etrans; [by eapply table_prefix|done].
      * by eapply table_prefix.
    + exfalso. apply (branches_apart code p2).
      * by eapply table_prefix.
      * etrans; [by eapply table_prefix|done].
    + by eapply IHr.
Qed.

Lemma fold_insert_lookup (g : jsstring → jsstring)
    (es : list (jsstring * jsstring)) : ∀ (m : gmap jsstring jsstring) c q,
  NoDup es.*1 →
  foldl (λ m e, <[e.1 := g e.2]> m) m es !! c = Some q
  ↔ (∃ p, (c, p) ∈ es ∧ q = g p) ∨ ((c ∉ es.*1) ∧ m !! c = Some q).
Proof.
  induction es as [|[k p] es IH]; intros m c q Hnd; cbn [foldl].
  - split; [intros H; right; split; [apply not_elem_of_nil|done]|].
    intros [(p & Hp & _)|[_ H]]; [by apply elem_of_nil in Hp|done].
  - rewrite fmap_cons in Hnd. apply NoDup_cons in Hnd as [Hk Hnd].
    rewrite (IH _ c q Hnd). cbn [fst snd]. rewrite fmap_cons. cbn [fst].
    destruct (decide (c = k)) as [->|Hne].
    + rewrite lookup_insert_eq. split.
      * intros [(p' & Hp' & _)|[_ [= <-]]].
        -- destruct Hk. apply list_elem_of_fmap. by exists (k, p').
        -- left. exists p. split; [left|done].
      * intros [(p' & Hp' & ->)|[Hnot _]].
        -- apply elem_of_cons in Hp' as [[= ->]|Hp'].
           ++ right. done.
           ++ destruct Hk. apply list_elem_of_fmap. by exists (k, p').
        -- destruct Hnot. left.
    + rewrite lookup_insert_ne by done. split.
      * intros [(p' & Hp' & ->)|[Hnot Hm]].
        -- left. exists p'. split; [by right|done].
        -- right. split; [|done]. intros [?|?]%elem_of_cons; done.
      * intros [(p' & Hp' & ->)|[Hnot Hm]].
        -- apply elem_of_cons in Hp' as [[= -> ->]|Hp']; [done|].
           left. by exists p'.
        -- right. split; [|done]. intros ?. apply Hnot. by right.
Qed.

(** The code table of a tree whose leaves are distinct: it has an entry
    for every leaf, no entry is empty, and no entry is the start of another. *)
Lemma root_codes root :
  NoDup (leaves root) →
  let codes := generateHuffmanCodes root [] ∅ in
  (∀ c, c ∈ leaves root → is_Some (codes !! c))
  ∧ (∀ c q, codes !! c = Some q → q ≠ [])
  ∧ (∀ c1 q1 c2 q2, codes !! c1 = Some q1 → codes !! c2 = Some q2 →
       q1 `prefix_of` q2 → c1 = c2).
Proof.
  intros Hnd. cbn zeta. rewrite generateHuffmanCodes_table.
  assert (Hkeys : NoDup (table root []).*1) by (by rewrite table_keys).
  assert (Hlook : ∀ c q,
    foldl (λ m e, <[e.1 := or_zero e.2]> m) (∅ : gmap jsstring jsstring)
          (table root []) !! c = Some q
    ↔ ∃ p, (c, p) ∈ table root [] ∧ q = or_zero p).
  { intros c q. rewrite (fold_insert_lookup or_zero _ (∅ : gmap jsstring jsstring) c q Hkeys).
    rewrite lookup_empty. split; [intros [?|[_ ?]]; done|by left]. }
  split; [|split].
  - intros c Hc. rewrite <- (table_keys root []) in Hc.
    apply list_elem_of_fmap in Hc as ([c' p] & -> & Hcp).
    exists (or_zero p). apply Hlook. by exists p.
  - intros c q (p & _ & ->)%Hlook. by destruct p.
  - intros c1 q1 c2 q2 (p1 & H1 & ->)%Hlook (p2 & H2 & ->)%Hlook Hpre.
    destruct root as [char f i|f l r i].
    + cbn in H1, H2. apply list_elem_of_singleton in H1, H2. congruence.
    + assert (Hne : ∀ c p, (c, p) ∈ table (merged f l r i) [] → or_zero p = p).
      { intros c p Hp. cbn in Hp.
        apply elem_of_app in Hp as [Hp%table_prefix|Hp%table_prefix];
          destruct Hp as [k ->]; done. }
      rewrite (Hne _ _ H1), (Hne _ _ H2) in Hpre.
      by destruct (table_prefix_free _ _ _ _ _ _ H1 H2 Hpre).
Qed.

(** *** The decoder on a prefix-free table *)

Section Decoder.
Variable codes : gmap jsstring jsstring.
Hypothesis Hnonempty : ∀ c q, codes !! c = Some q → q ≠ [].
Hypothesis Hprefix : ∀ c1 q1 c2 q2,
  codes !! c1 = Some q1 → codes !! c2 = Some q2 → q1 `prefix_of` q2 → c1 = c2.

Lemma char_of_code c q : codes !! c = Some q → char_of codes q = Some c.
Proof.
  intros Hc. unfold char_of.
  destruct (find _ _) as [[c' q']|] eqn:E; cbn.
  - apply find_some in E as [Hin Hq]. apply bool_decide_eq_true in Hq.
    cbn in Hq. subst q'. apply list_elem_of_In, elem_of_map_to_list in Hin.
    f_equal. by apply (Hprefix c' q c q).
  - apply find_none with (x := (c, q)) in E.
    + apply bool_decide_eq_false in E. done.
    + apply list_elem_of_In, elem_of_map_to_list. done.
Qed.

Lemma char_of_proper_prefix c q p :
  codes !! c = Some q → p `prefix_of` q → p ≠ q → char_of codes p = None.
Proof.
  intros Hc Hpre Hne. unfold char_of.
  destruct (find _ _) as [[c' q']|] eqn:E; cbn; [|done].
  apply find_some in E as [Hin Hq]. apply bool_decide_eq_true in Hq.
  cbn in Hq. subst q'. apply list_elem_of_In, elem_of_map_to_list in Hin.
  assert (c' = c) as -> by (by apply (Hprefix c' p c q)). congruence.
Qed.

Lemma decode_from_code c q tail : codes !! c = Some q →
  ∀ rest cur, cur ++ rest = q → rest ≠ [] →
    decode_from codes cur (rest ++ tail)
    = (c ++.) <$> decode_from codes [] tail.
Proof.
  intros Hc. induction rest as [|b rest IH]; intros cur Hq Hne; [done|].
  cbn [app decode_from]. destruct rest as [|b' rest].
  - rewrite (char_of_code c) by (by rewrite <- Hq in Hc). done.
  - rewrite (char_of_proper_prefix c q).
    + apply IH; [by rewrite <- app_assoc|done].
    + done.
    + exists (b' :: rest). by rewrite <- app_assoc.
    + intros Heq. rewrite <- Hq in Heq.
      apply (f_equal length) in Heq. rewrite !length_app in Heq. cbn in Heq. lia.
Qed.

Lemma decode_encode text :
  (∀ u, u ∈ text → is_Some (codes !! [u])) →
  decode codes (encode codes text) = Some text.
Proof.
  unfold decode, encode. induction text as [|u text IH]; intros Hall; [done|].
  destruct (Hall u) as [q Hq]; [left|].
  cbn [map concat]. rewrite Hq. cbn [default from_option Datatypes.id].
  rewrite (decode_from_code [u] q _ Hq q []); [|done|by eapply Hnonempty].
  rewrite IH; [done|]. intros v Hv. apply Hall. by right.
Qed.
End Decoder.

(** The round trip holds on every non-empty text that the two ways of
    cutting the text agree on: the table built by [buildHuffmanTree] decodes
    the encoded text back into the text. *)
Theorem round_trip_without_surrogate_pairs (text : jsstring) :
  text ≠ [] → no_surrogate_pair text →
  ∃ out, buildHuffmanTree text = Some out
         ∧ decode (huffmanCodes out) (encodedText out) = Some text.
Proof.
  intros Hne Hno. unfold buildHuffmanTree.
  destruct (calculateFrequencies_keys text) as [Hnd Hkeys].
  set (freq := calculateFrequencies text) in *.
  set (nodes := imap _ (entries freq)).
  assert (Hleaves : nodes ≫= leaves ≡ₚ freq.*1).
  { unfold nodes. rewrite (leaves_imap (entries freq) (λ i, i)).
    by rewrite entries_perm. }
  assert (Hqueue : sort_by freq_of nodes ≠ []).
  { intros Hnil. pose proof (sort_by_perm freq_of nodes) as Hp.
    rewrite Hnil in Hp. apply Permutation_nil_l in Hp.
    assert (Hn : nodes = []) by done.
    rewrite Hn in Hleaves. cbn in Hleaves. apply Permutation_nil_l in Hleaves.
    assert (Hf : freq.*1 = []) by done.
    destruct text as [|u text]; [done|].
    assert (Hu : [u] ∈ freq.*1).
    { apply Hkeys. rewrite code_points_units by done. left. }
    rewrite Hf in Hu. by apply elem_of_nil in Hu. }
  destruct (merge_loop_spec (length (sort_by freq_of nodes))
              (sort_by freq_of nodes) (length nodes)
              (push [] (λ c, mkStep c Initialize nodes None)))
    as (root & steps' & -> & Hroot); [done|done|].
  cbn [mbind option_bind head]. eexists. split; [reflexivity|].
  cbn [huffmanCodes encodedText].
  rewrite sort_by_perm, Hleaves in Hroot.
  assert (Hndr : NoDup (leaves root)) by (by rewrite Hroot).
  destruct (root_codes root Hndr) as (Hall & Hnonempty & Hprefix).
  apply decode_encode; [done|done|].
  intros u Hu. apply Hall. rewrite Hroot. apply Hkeys.
  rewrite code_points_units by done. apply list_elem_of_fmap. by exists u.
Qed.

(** The witness of the round trip: the default input of the component. *)
Lemma round_trip_without_surrogate_pairs_witness :
  ∃ out, buildHuffmanTree (of_string "ABRACADABRA") = Some out
         ∧ decode (huffmanCodes out) (encodedText out)
           = Some (of_string "ABRACADABRA").
Proof.
  apply round_trip_without_surrogate_pairs; [done|].
  intros i a b Ha Hb.
  do 11 (destruct i as [|i]; [cbn in Ha, Hb; by simplify_eq|]).
  done.
Defined.

(** The single-distinct-character case: the tree is one leaf, and its code
    is "0". *)
Lemma surrogates_apart u : is_high u && is_low u = false.
Proof.
  unfold is_high, is_low. apply andb_false_iff.
  destruct (0xDC00 <=? u)%N eqn:E.
  - left. apply N.leb_le in E. apply andb_false_iff. right.
    apply N.leb_gt. lia.
  - right. done.
Qed.

Lemma frequencies_of_one_character u n :
  calculateFrequencies (replicate (S n) u) = [([u], S n)].
Proof.
  unfold calculateFrequencies. rewrite code_points_units.
  2:{ intros i a b [-> _]%lookup_replicate [-> _]%lookup_replicate.
      apply surrogates_apart. }
  rewrite fmap_replicate. cbn [replicate foldl bump].
  enough (∀ k m, foldl (λ freq char, bump char freq) [([u], m)]
                   (replicate k [u]) = [([u], m + k)]) as H
    by (rewrite H; f_equal; f_equal; lia).
  induction k as [|k IH]; intros m; cbn [replicate foldl bump].
  - by rewrite Nat.add_0_r.
  - rewrite decide_True by done. rewrite IH. do 2 f_equal. lia.
Qed.

Lemma entries_singleton e : entries [e] = [e].
Proof.
  unfold entries. rewrite !filter_cons, !filter_nil.
  destruct (decide (is_Some (index_key e))) as [H|H].
  - by rewrite decide_False by (intros Hn; by apply Hn).
  - by rewrite decide_True.
Qed.

Lemma single_character_code u n :
  ∃ out, buildHuffmanTree (replicate (S n) u) = Some out
         ∧ huffmanCodes out = {[ [u] := [48%N] ]}
         ∧ encodedText out = replicate (S n) 48%N.
Proof.
  unfold buildHuffmanTree.
  rewrite frequencies_of_one_character, entries_singleton.
  cbn [imap sort_by foldl insert_by length merge_loop mbind option_bind head
       fst snd generateHuffmanCodes].
  eexists. split; [reflexivity|]. cbn [huffmanCodes encodedText].
  split; [done|]. unfold encode.
  induction (S n) as [|k IH]; [done|].
  cbn [replicate map concat]. rewrite lookup_insert_eq. cbn. by rewrite IH.
Qed.

(** C2 on the text made of the one character U+1F600, the surrogate pair
    D83D DE00: the frequency table and the code table have the one key made
    of both code units, the encoding looks up each code unit on its own and
    finds nothing, so the encoded text is empty and no decoding of it gives
    the text back. *)
Theorem surrogate_pair_is_not_encoded :
  let text := [0xD83D; 0xDE00]%N in
  ∃ out, buildHuffmanTree text = Some out
         ∧ frequencies out = [(text, 1)]
         ∧ huffmanCodes out = {[ text := [48%N] ]}
         ∧ huffmanCodes out !! [0xD83D%N] = None
         ∧ huffmanCodes out !! [0xDE00%N] = None
         ∧ encodedText out = []
         ∧ decode (huffmanCodes out) (encodedText out) = Some []
         ∧ decode (huffmanCodes out) (encodedText out) ≠ Some text.
Proof.
  eexists. split; [vm_compute; reflexivity|].
  cbn [frequencies huffmanCodes encodedText].
  split; [reflexivity|]. split; [reflexivity|].
  split; [reflexivity|]. split; [reflexivity|].
  split; [reflexivity|]. split; [reflexivity|]. discriminate.
Qed.

(** The default input of the component. *)
Example default_input_codes :
  ∃ out, buildHuffmanTree (of_string "ABRACADABRA") = Some out
         ∧ huffmanCodes out !! of_string "A" = Some (of_string "0")
         ∧ huffmanCodes out !! of_string "B" = Some (of_string "110")
         ∧ huffmanCodes out !! of_string "R" = Some (of_string "111")
         ∧ huffmanCodes out !! of_string "C" = Some (of_string "100")
         ∧ huffmanCodes out !! of_string "D" = Some (of_string "101")
         ∧ encodedText out = of_string "01101110100010101101110".
Proof.
  eexists. split; [vm_compute; reflexivity|].
  cbn [huffmanCodes encodedText]. repeat split; vm_compute; reflexivity.
Qed.

End Huffman.

(** ** The cost of the Naive and KMP searches, and the failure function *)

Module SearchCost.

(** *** Naive search *)

Section NaiveCost.
Variables text pattern : jsstring.
Let n := length text.
Let m := length pattern.

(** The steps that stand for one comparison of characters. *)
Definition naive_comparison (s : Naive.NaiveStep) : bool :=
  match Naive.description s with
  | Naive.CharMatch _ _ _ | Naive.CharMismatch _ _ _ => true
  | _ => false
  end.

Definition naive_count (steps : list Naive.NaiveStep) : nat :=
  length (filter (λ s, naive_comparison s = true) steps).

Lemma naive_count_push steps mk :
  naive_count (push steps mk)
  = naive_count steps
    + (if naive_comparison (mk (length steps + 1)) then 1 else 0).
Proof.
  unfold naive_count, push. rewrite filter_app, length_app. f_equal.
  rewrite filter_cons, filter_nil.
  destruct (naive_comparison _); by cbn.
Qed.

Lemma compare_loop_cost fuel : ∀ i j found cmps steps,
  j + fuel = m →
  ∃ j' steps',
    Naive.compare_loop text pattern fuel i j found cmps steps
    = (j', cmps + (j' - j), steps')
    ∧ j ≤ j' ≤ m
    ∧ naive_count steps' = naive_count steps + (j' - j)
    ∧ length steps' = length steps + (j' - j).
Proof.
  induction fuel as [|fuel IH]; intros i j found cmps steps Hf;
    cbn [Naive.compare_loop].
  - exists j, steps. replace (j - j) with 0 by lia. rewrite !Nat.add_0_r.
    split; [done|]. split; [lia|done].
  - destruct (_ && _).
    + match goal with
      | |- context [Naive.compare_loop _ _ _ _ ?j1 ?f ?c ?s] =>
          destruct (IH i j1 f c s) as (j' & s' & -> & Hj & Hc & Hl); [lia|]
      end.
      exists j', s'. split; [f_equal; f_equal; lia|]. split; [lia|].
      rewrite Hc, Hl, naive_count_push. unfold push. rewrite length_app. cbn.
      split; lia.
    + exists j, steps. replace (j - j) with 0 by lia. rewrite !Nat.add_0_r.
      split; [done|]. split; [lia|done].
Qed.

Lemma window_body_cost i found cmps steps :
  ∃ found' cmps' steps',
    Naive.window_body text pattern i (found, cmps, steps) = (found', cmps', steps')
    ∧ cmps ≤ cmps' ≤ cmps + m
    ∧ naive_count steps' - naive_count steps = cmps' - cmps
    ∧ naive_count steps ≤ naive_count steps'
    ∧ length steps' ≤ length steps + m + 3.
Proof.
  unfold Naive.window_body. fold n m.
  set (steps1 := push steps _).
  destruct (compare_loop_cost m i 0 found cmps steps1)
    as (j & s1 & -> & Hj & Hc & Hl); [lia|].
  assert (Hc1 : naive_count steps1 = naive_count steps).
  { unfold steps1. rewrite naive_count_push. cbn. lia. }
  assert (Hl1 : length steps1 = length steps + 1).
  { unfold steps1, push. rewrite length_app. cbn. lia. }
  rewrite Nat.sub_0_r in *.
  case_bool_decide as E1; [|case_bool_decide as E2];
    case_bool_decide as E3; eexists _, _, _; (split; [reflexivity|]);
    rewrite ?naive_count_push; unfold push; rewrite ?length_app; cbn;
    repeat split; lia.
Qed.

Lemma window_loop_cost count : ∀ i found cmps steps,
  ∃ found' cmps' steps',
    Naive.window_loop text pattern count i (found, cmps, steps)
    = (found', cmps', steps')
    ∧ cmps ≤ cmps' ≤ cmps + count * m
    ∧ naive_count steps' - naive_count steps = cmps' - cmps
    ∧ naive_count steps ≤ naive_count steps'
    ∧ length steps' ≤ length steps + count * (m + 3).
Proof.
  induction count as [|count IH]; intros i found cmps steps;
    cbn [Naive.window_loop].
  - eexists _, _, _. split; [reflexivity|]. lia.
  - destruct (window_body_cost i found cmps steps)
      as (f1 & c1 & s1 & -> & Hc1 & Hn1 & Hm1 & Hl1).
    destruct (IH (i + 1) f1 c1 s1) as (f2 & c2 & s2 & -> & Hc2 & Hn2 & Hm2 & Hl2).
    eexists _, _, _. split; [reflexivity|]. nia.
Qed.
End NaiveCost.

(** The naive search makes at most [m] comparisons for each of its
    [n - m + 1] windows (none at all when the pattern is longer than the
    text): the [comparisons] counter of the last step is bounded so, it is
    the number of "match" and "mismatch" steps of the trace, and the trace
    has at most [(n - m + 1) * (m + 3) + 2] steps. *)
Theorem naive_comparisons_bound (text pattern : jsstring) :
  let n := length text in
  let m := length pattern in
  ∃ final,
    last (Naive.naiveSearch text pattern).1 = Some final
    ∧ Naive.comparisons final ≤ (n + 1 - m) * m
    ∧ Naive.comparisons final = naive_count (Naive.naiveSearch text pattern).1
    ∧ length (Naive.naiveSearch text pattern).1 ≤ (n + 1 - m) * (m + 3) + 2.
Proof.
  intros n m. unfold Naive.naiveSearch. fold n m.
  set (count := Z.to_nat _).
  assert (Hcount : count = n + 1 - m) by lia.
  set (steps0 := push [] _).
  destruct (window_loop_cost text pattern count 0 [] 0 steps0)
    as (f & c & s & -> & Hc & Hn & Hm & Hl).
  cbn [fst]. unfold push at 1. rewrite last_snoc. eexists. split; [done|].
  cbn [Naive.comparisons]. fold m in Hc, Hl. rewrite <- Hcount.
  split; [lia|]. rewrite naive_count_push. unfold push. rewrite length_app.
  cbn. change (naive_count steps0) with 0 in *. change (length steps0) with 1 in *.
  lia.
Qed.

(** *** The failure function *)

(** [k] is the length of a proper border of the first [q] units of [p]:
    they start and end with the same [k] units, [k < q]. *)
Definition proper_border (p : jsstring) (q k : nat) : Prop :=
  k < q ∧ take k p = drop (q - k) (take q p).

Lemma pmatch_border_iff (p : jsstring) q k :
  k ≤ q → q ≤ length p →
  KMP.pmatch p p k q ↔ take k p = drop (q - k) (take q p).
Proof.
  intros Hk Hq. unfold KMP.pmatch. split.
  - intros [_ H]. apply list_eq. intros j.
    destruct (decide (j < k)) as [Hj|Hj].
    + rewrite lookup_take_lt, lookup_drop, lookup_take_lt by lia. by apply H.
    + rewrite lookup_take_ge by lia. symmetry. apply lookup_ge_None.
      rewrite length_drop, length_take. lia.
  - intros E. split; [done|]. intros j Hj.
    assert (take k p !! j = drop (q - k) (take q p) !! j) as Hl by (by rewrite E).
    by rewrite lookup_take_lt, lookup_drop, lookup_take_lt in Hl by lia.
Qed.

(** [buildFailureFunction] returns an array as long as the pattern whose
    entry [j] is the length of the longest proper border of
    [pattern[0..j]]. *)
Theorem failure_function_is_longest_border (pattern : jsstring) :
  ∃ lps,
    KMP.buildFailureFunction pattern = Some lps
    ∧ length lps = length pattern
    ∧ ∀ j, j < length pattern →
        ∃ k, lps !! j = Some k
             ∧ proper_border pattern (j + 1) k
             ∧ ∀ k', proper_border pattern (j + 1) k' → k' ≤ k.
Proof.
  destruct (decide (length pattern = 0)) as [H0|H0].
  - exists []. unfold KMP.buildFailureFunction. rewrite H0. cbn.
    rewrite bool_decide_eq_false_2 by lia. split; [done|]. split; [done|].
    intros j Hj. lia.
  - destruct (KMP.buildFailureFunction_spec pattern) as (lps & -> & Hlen & Hok);
      [lia|].
    exists lps. split; [done|]. split; [done|]. intros j Hj.
    destruct (lookup_lt_is_Some_2 lps j) as [k Hk]; [lia|].
    exists k. split; [done|].
    destruct (Hok j Hj) as (Hlt & Hpm & Hmax).
    unfold KMP.lps_at in Hlt, Hpm, Hmax. rewrite Hk in Hlt, Hpm, Hmax.
    cbn in Hlt, Hpm, Hmax.
    split; [split; [done|]; apply pmatch_border_iff; [lia|lia|done]|].
    intros k' [Hk' Hb]. apply Hmax; [done|].
    apply pmatch_border_iff; [lia|lia|done].
Qed.

(** *** KMP *)

Section KMPCost.
Variables pattern text : jsstring.
Let n := length text.

(** The steps that stand for one comparison of characters. *)
Definition kmp_comparison (s : KMP.KMPStep) : bool :=
  match KMP.description s with
  | KMP.MatchFound _ _ | KMP.Mismatch _ _ _ => true
  | _ => false
  end.

Definition kmp_count (steps : list KMP.KMPStep) : nat :=
  length (filter (λ s, kmp_comparison s = true) steps).

Lemma kmp_count_push steps mk :
  kmp_count (push steps mk)
  = kmp_count steps + (if kmp_comparison (mk (length steps + 1)) then 1 else 0).
Proof.
  unfold kmp_count, push. rewrite filter_app, length_app. f_equal.
  rewrite filter_cons, filter_nil.
  destruct (kmp_comparison _); by cbn.
Qed.

Lemma search_loop_cost lps fuel : ∀ ti pi found steps found' steps',
  KMP.search_loop pattern text fuel lps ti pi found steps = Some (found', steps') →
  kmp_count steps' ≤ kmp_count steps + fuel
  ∧ length steps' ≤ length steps + 2 * fuel.
Proof.
  induction fuel as [|fuel IH]; intros ti pi found steps found' steps';
    cbn [KMP.search_loop]; case_bool_decide; try done.
  - intros [= <- <-]. lia.
  - repeat case_match;
      intros [Hc Hl]%IH;
      rewrite ?kmp_count_push in Hc; unfold push in Hl;
      rewrite ?length_app in Hl; cbn in Hc, Hl; lia.
  - intros [= <- <-]. lia.
Qed.
End KMPCost.

(** KMP is linear in the text: for a non-empty pattern the search returns,
    it has compared characters at most [2 n] times (the "match" and
    "mismatch" steps of the trace), and the trace has at most [4 n + 2]
    steps, whatever the pattern. *)
Theorem kmp_is_linear (pattern text : jsstring) :
  1 ≤ length pattern →
  ∃ lps steps found,
    KMP.kmpSearch pattern text = Some (lps, steps, found)
    ∧ kmp_count steps ≤ 2 * length text
    ∧ length steps ≤ 4 * length text + 2.
Proof.
  intros Hm.
  destruct (KMP.kmpSearch_found pattern text Hm) as (lps & rest & s & Hk & _).
  unfold KMP.kmpSearch in Hk |- *.
  destruct (KMP.buildFailureFunction pattern) as [lps'|]; [|done].
  cbn [mbind option_bind] in Hk |- *.
  destruct (KMP.search_loop _ _ _ _ _ _ _ _) as [[found steps]|] eqn:E; [|done].
  cbn [mbind option_bind]. eexists _, _, _. split; [reflexivity|].
  apply search_loop_cost in E as [Hc Hl].
  rewrite kmp_count_push in Hc |- *. unfold push in Hl |- *.
  rewrite length_app in Hl |- *.
  change (kmp_count []) with 0 in Hc. cbn in Hc, Hl |- *. lia.
Qed.

Lemma kmp_is_linear_witness :
  ∃ lps steps found,
    KMP.kmpSearch (of_string "ABABA") (of_string "ABABCABABA")
    = Some (lps, steps, found)
    ∧ kmp_count steps ≤ 2 * length (of_string "ABABCABABA")
    ∧ length steps ≤ 4 * length (of_string "ABABCABABA") + 2.
Proof. apply kmp_is_linear. cbn. lia. Defined.

End SearchCost.

(** ** Rabin-Karp: the search as a whole *)

Module RabinKarpTrace.
Import RabinKarp.
Local Open Scope Z_scope.

Section Trace.
Variables base prime : Z.
Hypothesis Hbase : 0 < base.
Hypothesis Hprime : 0 < prime.
Hypothesis Hexact : exact_range base prime.
Variables text pattern : jsstring.
Hypothesis Htext : code_units text.
Hypothesis Hpattern : code_units pattern.
Let n := length text.
Let m := length pattern.
Hypothesis Hm : (1 ≤ m)%nat.
Hypothesis Hmn : (m ≤ n)%nat.

(** [text.substring(i, i + m)] *)
Definition window (i : nat) : jsstring := substring text i (i + m).

(** The value [calculateHash] gives for a string of [m] units. *)
Definition hash_of (w : jsstring) : Z := horner base w 0 mod prime.

(** The window at [i] is the pattern. *)
Definition occ (i : nat) : Prop := take m (drop i text) = pattern.

(** What every step of the trace records. *)
Definition step_ok (s : RabinKarpStep) : Prop :=
  (windowStart s + m ≤ n)%nat
  ∧ currentWindow s = window (windowStart s)
  ∧ windowHash s = hash_of (currentWindow s)
  ∧ patternHash s = hash_of pattern
  ∧ 0 <= windowHash s < prime
  ∧ (isHashMatch s = true → windowHash s = patternHash s)
  ∧ (isExactMatch s = true → currentWindow s = pattern)
  ∧ (∀ i, description s = ExactMatch i →
       i = windowStart s ∧ currentWindow s = pattern ∧ isExactMatch s = true)
  ∧ (∀ i, description s = HashCollision i →
       i = windowStart s ∧ currentWindow s ≠ pattern
       ∧ windowHash s = patternHash s)
  ∧ ∃ k, (k = windowStart s ∨ k = S (windowStart s))
         ∧ matches s = filter occ (seq 0 k).

Lemma window_take i : window i = take m (drop i text).
Proof. unfold window, substring. f_equal. lia. Qed.

Lemma hash_of_range w : 0 <= hash_of w < prime.
Proof. apply Z.mod_pos_bound. lia. Qed.

Lemma calculateHash_window i :
  (i + m ≤ n)%nat → calculateHash base prime text m = Some (hash_of (window 0)) ∧
  calculateHash base prime (window i) m = Some (hash_of (window i)).
Proof.
  intros Hi. split.
  - unfold calculateHash. rewrite hash_loop_spec by (done || (fold n; lia)).
    by rewrite drop_0, window_take, drop_0.
  - unfold window at 1. rewrite window_hash by (done || (fold n; lia)).
    by rewrite window_take.
Qed.

Lemma calculateHash_pattern :
  calculateHash base prime pattern m = Some (hash_of pattern).
Proof.
  unfold calculateHash. rewrite hash_loop_spec by (done || (fold m; lia)).
  rewrite drop_0, take_ge by (fold m; lia). done.
Qed.

Lemma roll_step i oldChar newChar :
  (1 ≤ i)%nat → (i + m ≤ n)%nat →
  text !! (i - 1)%nat = Some oldChar →
  text !! (i + m - 1)%nat = Some newChar →
  calculateRollingHash base prime (hash_of (window (i - 1))) oldChar newChar
    (pow_loop base prime (m - 1) 1)
  = hash_of (window i).
Proof.
  intros Hi Hlen Hoc Hnc.
  set (h := calculateRollingHash _ _ _ _ _ _).
  rewrite <- (Z.mod_small h prime) by (by apply rolling_range).
  assert (Hunit : ∀ j c, text !! j = Some c → (c < 65536)%N).
  { intros j c Hc. unfold code_units in Htext. rewrite Forall_forall in Htext.
    apply Htext. by eapply list_elem_of_lookup_2. }
  unfold h. rewrite rolling_mod;
    [|done|done|done|apply hash_of_range|apply pow_loop_range; (done || lia)
     |by eapply Hunit|by eapply Hunit].
  unfold hash_of. rewrite !window_take.
  set (u := take (m - 1) (drop i text)).
  assert (E1 : take m (drop (i - 1) text) = oldChar :: u).
  { rewrite (drop_S _ _ _ Hoc). replace m with (S (m - 1)) at 1 by lia.
    cbn [take]. unfold u. do 3 f_equal. lia. }
  assert (E2 : take m (drop i text) = u ++ [newChar]).
  { replace m with ((m - 1) + 1)%nat at 1 by lia.
    rewrite <- take_take_drop. fold u. f_equal. rewrite drop_drop.
    rewrite (drop_S _ newChar); [done|]. rewrite <- Hnc. f_equal. lia. }
  rewrite E1, E2, horner_app.
  change (horner base [newChar] (horner base u 0))
    with (horner base u 0 * base + charToNum newChar).
  assert (Hu : length u = (m - 1)%nat).
  { unfold u. rewrite length_take, length_drop. fold n. lia. }
  set (bm := base ^ Z.of_nat (m - 1)).
  assert (E3 : horner base (oldChar :: u) 0
               = charToNum oldChar * bm + horner base u 0).
  { change (horner base (oldChar :: u) 0)
      with (horner base u (0 * base + charToNum oldChar)).
    rewrite horner_shift, Hu by done. fold bm. ring. }
  rewrite E3.
  pose proof (pow_loop_spec base prime Hbase Hprime Hexact (m - 1) 1
                ltac:(lia)) as Hpow.
  rewrite Z.mul_1_l in Hpow.
  apply mod_eq_ex in Hpow as [k1 Hk1]; [|done]. fold bm in Hk1.
  pose proof (Z.div_mod (charToNum oldChar * bm + horner base u 0) prime
                ltac:(lia)) as Hd.
  set (q := (_ / prime)) in Hd.
  apply (ex_mod_eq _ _ _ (- base * (charToNum oldChar * k1 + q))).
  rewrite Hk1. nia.
Qed.

Lemma occ_window i : occ i ↔ window i = pattern.
Proof. unfold occ. by rewrite window_take. Qed.

Lemma found_next i :
  filter occ (seq 0 (S i))
  = filter occ (seq 0 i) ++ (if decide (window i = pattern) then [i] else []).
Proof.
  replace (S i) with (i + 1)%nat by lia.
  rewrite seq_snoc, filter_app, filter_cons, filter_nil. cbn [Nat.add]. f_equal.
  destruct (decide (window i = pattern)) as [H|H].
  - rewrite decide_True; [done|]. by apply occ_window.
  - rewrite decide_False; [done|]. by rewrite occ_window.
Qed.

Lemma roll_body_spec i st :
  (1 ≤ i)%nat → (i + m ≤ n)%nat →
  ls_windowHash st = hash_of (window (i - 1)) →
  ls_found st = filter occ (seq 0 i) →
  Forall step_ok (ls_steps st) →
  ∃ st', roll_body base prime text pattern (hash_of pattern)
           (pow_loop base prime (m - 1) 1) i st = Some st'
         ∧ ls_windowHash st' = hash_of (window i)
         ∧ ls_found st' = filter occ (seq 0 (S i))
         ∧ Forall step_ok (ls_steps st').
Proof.
  intros Hi Hlen Hh Hf Hsteps. unfold roll_body. fold m.
  destruct (lookup_lt_is_Some_2 text (i - 1)) as [oc Hoc]; [fold n; lia|].
  destruct (lookup_lt_is_Some_2 text (i + m - 1)) as [nc Hnc]; [fold n; lia|].
  rewrite Hoc, Hnc. cbn [mbind option_bind].
  rewrite Hh, (roll_step i oc nc Hi Hlen Hoc Hnc). fold (window i).
  pose proof (hash_of_range (window i)) as Hrange.
  assert (Hroll : ∀ c, step_ok
    (mkStep c (RollingHash oc nc (hash_of (window i))) i (window i)
       (hash_of (window i)) (hash_of pattern)
       (bool_decide (hash_of (window i) = hash_of pattern)) false
       (ls_found st))).
  { intros c. unfold step_ok. cbn.
    split; [done|]. split; [done|]. split; [done|]. split; [done|].
    split; [done|]. split; [by intros ?%bool_decide_eq_true|].
    split; [done|]. split; [done|]. split; [done|].
    exists i. split; [by left|done]. }
  rewrite found_next.
  case_bool_decide as Hhash.
  - eexists. split; [reflexivity|]. cbn [ls_windowHash ls_found ls_steps].
    split; [done|]. split.
    { rewrite Hf. by destruct (decide (window i = pattern));
        [rewrite bool_decide_eq_true_2|rewrite bool_decide_eq_false_2, app_nil_r]. }
    unfold push. apply Forall_app. split.
    { apply Forall_app. split; [done|]. constructor; [apply Hroll|constructor]. }
    constructor; [|constructor]. unfold step_ok. cbn.
    split; [done|]. split; [done|]. split; [done|]. split; [done|].
    split; [done|]. split; [done|].
    split; [by intros ?%bool_decide_eq_true|].
    destruct (decide (window i = pattern)) as [Hw|Hw].
    + rewrite bool_decide_eq_true_2 by done.
      split; [by intros ? [= <-]|]. split; [done|].
      exists (S i). split; [by right|]. rewrite found_next, Hf.
      by rewrite decide_True.
    + rewrite bool_decide_eq_false_2 by done.
      split; [done|]. split; [by intros ? [= <-]|].
      exists i. split; [by left|done].
  - eexists. split; [reflexivity|]. cbn [ls_windowHash ls_found ls_steps].
    split; [done|]. split.
    { rewrite Hf. rewrite decide_False; [by rewrite app_nil_r|].
      intros Hw. apply Hhash. by rewrite Hw. }
    unfold push. apply Forall_app. split; [done|].
    constructor; [apply Hroll|constructor].
Qed.

Lemma roll_loop_spec count : ∀ i st,
  (1 ≤ i)%nat → (i + count = n - m + 1)%nat →
  ls_windowHash st = hash_of (window (i - 1)) →
  ls_found st = filter occ (seq 0 i) →
  Forall step_ok (ls_steps st) →
  ∃ st', roll_loop base prime text pattern (hash_of pattern)
           (pow_loop base prime (m - 1) 1) count i st = Some st'
         ∧ ls_windowHash st' = hash_of (window (n - m))
         ∧ ls_found st' = occurrences text pattern
         ∧ Forall step_ok (ls_steps st').
Proof.
  induction count as [|count IH]; intros i st Hi Hc Hh Hf Hsteps;
    cbn [roll_loop].
  - exists st. split; [done|]. replace (n - m)%nat with (i - 1)%nat by lia.
    split; [done|]. split; [|done]. rewrite Hf. unfold occurrences. fold n m.
    f_equal. f_equal. lia.
  - destruct (roll_body_spec i st Hi ltac:(lia) Hh Hf Hsteps)
      as (st1 & -> & Hh1 & Hf1 & Hs1).
    cbn [mbind option_bind]. apply IH; [lia|lia| |by rewrite Nat.add_1_r|done].
    rewrite Hh1. f_equal. f_equal. lia.
Qed.

(** The whole search: the state handed to the setters. *)
Lemma rabinKarpSearch_spec :
  ∃ out final,
    rabinKarpSearch base prime text pattern = Some out
    ∧ out_matches out = occurrences text pattern
    ∧ last (out_steps out) = Some final
    ∧ description final = SearchComplete (length (occurrences text pattern))
    ∧ matches final = occurrences text pattern
    ∧ Forall step_ok (out_steps out).
Proof.
  unfold rabinKarpSearch. fold n m.
  rewrite bool_decide_eq_false_2 by lia.
  rewrite calculateHash_pattern. cbn [mbind option_bind].
  destruct (calculateHash_window 0 ltac:(lia)) as [-> _].
  cbn [mbind option_bind]. fold (window 0).
  pose proof (hash_of_range (window 0)) as Hrange.
  set (init := push [] _).
  assert (Hinit : Forall step_ok init).
  { unfold init, push. cbn. constructor; [|constructor]. unfold step_ok. cbn.
    split; [lia|]. split; [done|]. split; [done|]. split; [done|].
    split; [done|]. split; [by intros ?%bool_decide_eq_true|].
    split; [done|]. split; [done|]. split; [done|].
    exists 0%nat. split; [by left|done]. }
  set (first := if bool_decide (hash_of (window 0) = hash_of pattern) then _ else _).
  assert (Hfirst : first.1 = filter occ (seq 0 1) ∧ Forall step_ok first.2).
  { unfold first. rewrite (found_next 0). cbn [seq filter list_filter app].
    case_bool_decide as Hhash; cbn [fst snd].
    - split.
      { by destruct (decide (window 0 = pattern));
          [rewrite bool_decide_eq_true_2|rewrite bool_decide_eq_false_2]. }
      unfold push. apply Forall_app. split; [done|].
      constructor; [|constructor]. unfold step_ok. cbn.
      split; [lia|]. split; [done|]. split; [done|]. split; [done|].
      split; [done|]. split; [done|].
      split; [by intros ?%bool_decide_eq_true|].
      destruct (decide (window 0 = pattern)) as [Hw|Hw].
      + rewrite bool_decide_eq_true_2 by done.
        split; [by intros ? [= <-]|]. split; [done|].
        exists 1%nat. split; [by right|]. rewrite (found_next 0).
        by rewrite decide_True.
      + rewrite bool_decide_eq_false_2 by done.
        split; [done|]. split; [by intros ? [= <-]|].
        exists 0%nat. split; [by left|done].
    - split; [|done]. rewrite decide_False; [done|].
      intros Hw. apply Hhash. by rewrite Hw. }
  destruct first as [found steps]. cbn [fst snd] in Hfirst.
  destruct Hfirst as [Hfound Hsteps].
  match goal with
  | |- context [roll_loop _ _ _ _ _ _ _ _ ?st0] =>
      destruct (roll_loop_spec (n - m) 1 st0)
        as (st & -> & Hh & Hf & Hs); [lia|lia|done|done|done|]
  end.
  cbn [mbind option_bind]. eexists _, _.
  split; [reflexivity|]. cbn [out_matches out_steps].
  split; [done|]. unfold push at 1. rewrite last_snoc.
  split; [reflexivity|]. cbn [description matches]. rewrite Hf.
  split; [done|]. split; [done|].
  unfold push. apply Forall_app. split; [done|].
  constructor; [|constructor]. unfold step_ok. cbn.
  assert (Hlast : substring text (n - m) n = window (n - m)).
  { unfold window. f_equal. lia. }
  split; [lia|]. split; [done|]. split; [by rewrite Hh, Hlast|]. split; [done|].
  split; [rewrite Hh; apply hash_of_range|]. split; [done|].
  split; [done|]. split; [done|]. split; [done|].
  exists (S (n - m)). split; [by right|]. unfold occurrences. fold n m.
  f_equal. f_equal. lia.
Qed.
End Trace.

(** For a text and a pattern of 16-bit code units, the pattern of length
    [1 <= m <= n], and positive [base] and [prime] in the range where the
    arithmetic of the search is exact, [rabinKarpSearch] hands to
    [setMatches] exactly the offsets at which the pattern occurs in the
    text, in ascending order; the last step of the trace is the "search
    complete" step and records the same list. *)
Theorem rabin_karp_reports_occurrences (base prime : Z) (text pattern : jsstring) :
  0 < base → 0 < prime → exact_range base prime →
  code_units text → code_units pattern →
  (1 ≤ length pattern)%nat → (length pattern ≤ length text)%nat →
  ∃ out final,
    rabinKarpSearch base prime text pattern = Some out
    ∧ out_matches out = occurrences text pattern
    ∧ last (out_steps out) = Some final
    ∧ description final = SearchComplete (length (occurrences text pattern))
    ∧ matches final = occurrences text pattern.
Proof.
  intros Hb Hp He Ht Hpat Hm Hmn.
  destruct (rabinKarpSearch_spec base prime Hb Hp He text pattern Ht Hpat Hm Hmn)
    as (out & final & H1 & H2 & H3 & H4 & H5 & _).
  by exists out, final.
Qed.

Lemma rabin_karp_reports_occurrences_witness :
  ∃ out final,
    rabinKarpSearch 256 101 (of_string "ABABCABABA") (of_string "ABABA") = Some out
    ∧ out_matches out = occurrences (of_string "ABABCABABA") (of_string "ABABA")
    ∧ last (out_steps out) = Some final
    ∧ description final
      = SearchComplete
          (length (occurrences (of_string "ABABCABABA") (of_string "ABABA")))
    ∧ matches final = occurrences (of_string "ABABCABABA") (of_string "ABABA").
Proof.
  apply (rabin_karp_reports_occurrences 256 101);
    [lia|lia|split; vm_compute; discriminate|repeat constructor
    |repeat constructor|cbn; lia|cbn; lia].
Defined.

(** Under the same conditions every step of the trace is consistent with the
    text: its window is [text.substring(windowStart, windowStart + m)], its
    [windowHash] is the Horner hash of that window modulo [prime], which is
    what [calculateHash] computes for it, and lies in [[0, prime)], a set
    [isHashMatch] means equal hashes, a set [isExactMatch] or an "exact
    match" step means the window is the pattern, a "hash collision" step
    means equal hashes of different strings, and [matches] lists the
    occurrences found so far. *)
Theorem rabin_karp_steps_are_consistent (base prime : Z) (text pattern : jsstring) :
  0 < base → 0 < prime → exact_range base prime →
  code_units text → code_units pattern →
  (1 ≤ length pattern)%nat → (length pattern ≤ length text)%nat →
  ∃ out,
    rabinKarpSearch base prime text pattern = Some out
    ∧ ∀ s, s ∈ out_steps out →
        step_ok base prime text pattern s
        ∧ calculateHash base prime (currentWindow s) (length pattern)
          = Some (windowHash s)
        ∧ calculateHash base prime pattern (length pattern) = Some (patternHash s).
Proof.
  intros Hb Hp He Ht Hpat Hm Hmn.
  destruct (rabinKarpSearch_spec base prime Hb Hp He text pattern Ht Hpat Hm Hmn)
    as (out & final & H1 & _ & _ & _ & _ & Hall).
  exists out. split; [done|]. intros s Hs.
  rewrite Forall_forall in Hall. pose proof (Hall s Hs) as Hok.
  split; [done|].
  destruct Hok as (Hlen & Hw & Hh & Hph & _).
  split.
  - rewrite Hw, Hh, Hw.
    by destruct (calculateHash_window base prime Hb Hp He text pattern Ht Hm Hmn
                   (windowStart s) Hlen) as [_ ->].
  - rewrite Hph. by apply (calculateHash_pattern base prime Hb Hp He text).
Qed.

Lemma rabin_karp_steps_are_consistent_witness :
  ∃ out,
    rabinKarpSearch 256 101 (of_string "ABABCABABA") (of_string "ABABA") = Some out
    ∧ ∀ s, s ∈ out_steps out →
        step_ok 256 101 (of_string "ABABCABABA") (of_string "ABABA") s
        ∧ calculateHash 256 101 (currentWindow s) 5 = Some (windowHash s)
        ∧ calculateHash 256 101 (of_string "ABABA") 5 = Some (patternHash s).
Proof.
  apply (rabin_karp_steps_are_consistent 256 101);
    [lia|lia|split; vm_compute; discriminate|repeat constructor
    |repeat constructor|cbn; lia|cbn; lia].
Defined.

End RabinKarpTrace.

(** ** Bellman-Ford on any graph: distances and negative cycles *)

Module BellmanFordPaths.
Import Agreement.

(** Walks as lists of edges: each edge starts where the one before ends. *)
Fixpoint chain (edges : list Edge) (s : nat) (es : list Edge) : Prop :=
  match es with
  | [] => True
  | e :: r => e ∈ edges ∧ from e = s ∧ chain edges (to e) r
  end.

Fixpoint chain_end (s : nat) (es : list Edge) : nat :=
  match es with
  | [] => s
  | e :: r => chain_end (to e) r
  end.

Definition chain_weight (es : list Edge) : Z :=
  foldr (λ e acc, weight e + acc)%Z 0%Z es.

(** The vertices a walk goes through, the first one included. *)
Definition visits (s : nat) (es : list Edge) : list nat := s :: map to es.

(** No closed walk through a vertex reachable from [s] has a negative
    weight. *)
Definition no_negative_cycle_from (edges : list Edge) (s : nat) : Prop :=
  ∀ v W, reachable edges s v → dwalk edges v v W → (0 ≤ W)%Z.

Lemma chain_app edges s a b :
  chain edges s (a ++ b) ↔ chain edges s a ∧ chain edges (chain_end s a) b.
Proof.
  revert s. induction a as [|e a IH]; intros s; cbn; [tauto|].
  rewrite IH. tauto.
Qed.

Lemma chain_end_app s a b : chain_end s (a ++ b) = chain_end (chain_end s a) b.
Proof. revert s. induction a as [|e a IH]; intros s; cbn; [done|]. apply IH. Qed.

Lemma chain_weight_app a b :
  chain_weight (a ++ b) = (chain_weight a + chain_weight b)%Z.
Proof.
  unfold chain_weight. induction a as [|e a IH]; cbn; [done|].
  fold (chain_weight a) in *. rewrite IH. lia.
Qed.

Lemma dwalk_chain edges s v W :
  dwalk edges s v W
  ↔ ∃ es, chain edges s es ∧ chain_end s es = v ∧ chain_weight es = W.
Proof.
  split.
  - induction 1 as [|v e W Hw (es & Hc & He & Hwt) Hin Hf].
    + by exists [].
    + exists (es ++ [e]). rewrite chain_app, chain_end_app, chain_weight_app.
      rewrite He, Hwt. cbn. split; [|split; [done|lia]].
      split; [done|]. by rewrite Hf.
  - intros (es & Hc & He & Hwt). revert v W Hc He Hwt.
    induction es as [|e es IH] using rev_ind; intros v W Hc He Hwt.
    + cbn in *. subst. constructor.
    + rewrite chain_app in Hc. rewrite chain_end_app in He.
      rewrite chain_weight_app in Hwt. cbn in *.
      destruct Hc as (Hc & Hin & Hf & _). subst v W.
      replace (chain_weight es + (weight e + 0))%Z
        with (chain_weight es + weight e)%Z by lia.
      apply dwalk_step with (v := from e); [|done|done].
      by apply IH.
Qed.

Lemma visits_length s es : length (visits s es) = S (length es).
Proof. unfold visits. cbn. by rewrite length_map. Qed.

Lemma visits_take s es i :
  i ≤ length es → visits s es !! i = Some (chain_end s (take i es)).
Proof.
  revert s i. induction es as [|e es IH]; intros s i Hi.
  - cbn in Hi. by replace i with 0 by lia.
  - destruct i as [|i]; [done|]. cbn in Hi. cbn [take chain_end].
    change (visits s (e :: es) !! S i) with (visits (to e) es !! i).
    apply IH. lia.
Qed.

Section Passes.
Variable vertices : nat.
Variable edges : list Edge.
Variable source : nat.
Hypothesis Hvalid : valid_graph vertices edges.
Hypothesis Hsource : source < vertices.

Local Open Scope Z_scope.

Lemma edge_range e :
  e ∈ edges → (from e < vertices)%nat ∧ (to e < vertices)%nat.
Proof.
  intros He. unfold valid_graph in Hvalid. rewrite Forall_forall in Hvalid.
  by apply Hvalid.
Qed.

Lemma visits_range s es :
  (s < vertices)%nat → chain edges s es →
  Forall (λ x, (x < vertices)%nat) (visits s es).
Proof.
  intros Hs Hc. unfold visits. constructor; [done|].
  revert s Hs Hc. induction es as [|e es IH]; intros s Hs Hc; cbn; [done|].
  destruct Hc as (He & _ & Hc). destruct (edge_range e He) as [_ Ht].
  constructor; [done|]. by apply (IH (to e)).
Qed.

(** [a] is pointwise at least as good as [b]. *)
Definition dist_le (a b : list num) : Prop :=
  ∀ v d, b !! v = Some (Fin d) → ∃ d', a !! v = Some (Fin d') ∧ d' ≤ d.

(** Every finite entry is the weight of a walk from the source. *)
Definition sound (dist : list num) : Prop :=
  ∀ v d, dist !! v = Some (Fin d) → dwalk edges source v d.

(** Every entry is at most the weight of any walk of at most [k] edges. *)
Definition upper (k : nat) (dist : list num) : Prop :=
  ∀ es, chain edges source es → (length es ≤ k)%nat →
    ∃ d, dist !! chain_end source es = Some (Fin d) ∧ d ≤ chain_weight es.

Definition upper_all (dist : list num) : Prop :=
  ∀ es, chain edges source es →
    ∃ d, dist !! chain_end source es = Some (Fin d) ∧ d ≤ chain_weight es.

Definition stable (dist : list num) : Prop :=
  ∀ e, e ∈ edges → BellmanFord.relaxable dist e = false.

Lemma dist_le_refl a : dist_le a a.
Proof. intros v d H. exists d. split; [done|lia]. Qed.

Lemma dist_le_trans a b c : dist_le a b → dist_le b c → dist_le a c.
Proof.
  intros Hab Hbc v d Hc. destruct (Hbc v d Hc) as (d1 & H1 & ?).
  destruct (Hab v d1 H1) as (d2 & H2 & ?). exists d2. split; [done|lia].
Qed.

Lemma upper_le k a b : dist_le a b → upper k b → upper k a.
Proof.
  intros Hab Hb es Hc Hl. destruct (Hb es Hc Hl) as (d & Hd & ?).
  destruct (Hab _ _ Hd) as (d' & Hd' & ?). exists d'. split; [done|lia].
Qed.

Lemma relax_edge_walks st b e :
  e ∈ edges →
  length (BellmanFord.st_distances st) = vertices →
  sound (BellmanFord.st_distances st) →
  ∃ st' b',
    BellmanFord.relax_edge (st, b) e = (st', b')
    ∧ length (BellmanFord.st_distances st') = vertices
    ∧ dist_le (BellmanFord.st_distances st') (BellmanFord.st_distances st)
    ∧ sound (BellmanFord.st_distances st')
    ∧ (∀ du, BellmanFord.st_distances st !! from e = Some (Fin du) →
         ∃ dv, BellmanFord.st_distances st' !! to e = Some (Fin dv)
               ∧ dv ≤ du + weight e)
    ∧ (b' = false →
         b = false ∧ BellmanFord.st_distances st' = BellmanFord.st_distances st
         ∧ BellmanFord.relaxable (BellmanFord.st_distances st) e = false).
Proof.
  intros He Hlen Hsound. destruct (edge_range e He) as [Hf Ht].
  unfold BellmanFord.relax_edge.
  destruct (BellmanFord.relaxable _ e) eqn:Hrel.
  - eexists _, _. split; [reflexivity|]. cbn [BellmanFord.st_distances].
    unfold BellmanFord.relaxable in Hrel.
    destruct (BellmanFord.st_distances st !! from e) as [[du|]|] eqn:Hdu; [|done..].
    destruct (BellmanFord.st_distances st !! to e) as [dv|] eqn:Hdv; [|done].
    cbn [default from_option Datatypes.id num_add].
    assert (Htl : (to e < length (BellmanFord.st_distances st))%nat) by lia.
    split; [by rewrite length_insert|]. split; [|split; [|split; [|done]]].
    + intros v d Hv. destruct (decide (v = to e)) as [->|Hne].
      * rewrite list_lookup_insert_eq by done. rewrite Hdv in Hv. simplify_eq.
        cbn in Hrel. apply bool_decide_eq_true in Hrel.
        eexists. split; [done|lia].
      * rewrite list_lookup_insert_ne by done. exists d. split; [done|lia].
    + intros v d Hv. destruct (decide (v = to e)) as [->|Hne].
      * rewrite list_lookup_insert_eq in Hv by done. simplify_eq.
        apply dwalk_step with (v := from e); [by apply Hsound|done|done].
      * rewrite list_lookup_insert_ne in Hv by done. by apply Hsound.
    + intros du' Hdu'. simplify_eq. exists (du' + weight e).
      rewrite list_lookup_insert_eq by done. split; [done|lia].
  - eexists _, _. split; [reflexivity|].
    split; [done|]. split; [apply dist_le_refl|]. split; [done|]. split; [|done].
    intros du Hdu. unfold BellmanFord.relaxable in Hrel. rewrite Hdu in Hrel.
    destruct (lookup_lt_is_Some_2 (BellmanFord.st_distances st) (to e)) as [dv Hdv];
      [lia|].
    rewrite Hdv in Hrel. destruct dv as [dv|]; [|done].
    cbn in Hrel. apply bool_decide_eq_false in Hrel.
    exists dv. split; [done|lia].
Qed.

Lemma pass_walks es : ∀ st b,
  (∀ e, e ∈ es → e ∈ edges) →
  length (BellmanFord.st_distances st) = vertices →
  sound (BellmanFord.st_distances st) →
  ∃ st' b',
    foldl BellmanFord.relax_edge (st, b) es = (st', b')
    ∧ length (BellmanFord.st_distances st') = vertices
    ∧ dist_le (BellmanFord.st_distances st') (BellmanFord.st_distances st)
    ∧ sound (BellmanFord.st_distances st')
    ∧ (∀ e du, e ∈ es →
         BellmanFord.st_distances st !! from e = Some (Fin du) →
         ∃ dv, BellmanFord.st_distances st' !! to e = Some (Fin dv)
               ∧ dv ≤ du + weight e)
    ∧ (b' = false →
         b = false ∧ BellmanFord.st_distances st' = BellmanFord.st_distances st
         ∧ ∀ e, e ∈ es →
             BellmanFord.relaxable (BellmanFord.st_distances st) e = false).
Proof.
  induction es as [|e es IH]; intros st b Hes Hlen Hsound.
  - exists st, b. cbn. split; [done|]. split; [done|].
    split; [apply dist_le_refl|]. split; [done|]. split.
    + intros e du He. by apply elem_of_nil in He.
    + intros ->. split; [done|]. split; [done|].
      intros e He. by apply elem_of_nil in He.
  - cbn [foldl].
    destruct (relax_edge_walks st b e)
      as (st1 & b1 & -> & Hlen1 & Hle1 & Hs1 & Hrel1 & Hno1);
      [apply Hes; left|done|done|].
    destruct (IH st1 b1) as (st' & b' & -> & Hlen' & Hle' & Hs' & Hrel' & Hno');
      [intros x Hx; apply Hes; by right|done|done|].
    exists st', b'. split; [done|]. split; [done|].
    split; [by eapply dist_le_trans|]. split; [done|]. split.
    + intros x du [->|Hx]%elem_of_cons Hdu.
      * destruct (Hrel1 du Hdu) as (dv & Hdv & ?).
        destruct (Hle' _ _ Hdv) as (dv' & Hdv' & ?). exists dv'. split; [done|lia].
      * destruct (Hle1 _ _ Hdu) as (du1 & Hdu1 & ?).
        destruct (Hrel' x du1 Hx Hdu1) as (dv & Hdv & ?). exists dv. split; [done|lia].
    + intros Hb'. destruct (Hno' Hb') as (-> & Heq' & Hall').
      destruct (Hno1 eq_refl) as (-> & Heq1 & Hr1).
      split; [done|]. split; [congruence|].
      intros x [->|Hx]%elem_of_cons; [done|]. rewrite <- Heq1. by apply Hall'.
Qed.

Lemma pass_loop_walks count : ∀ i st k,
  length (BellmanFord.st_distances st) = vertices →
  sound (BellmanFord.st_distances st) →
  upper k (BellmanFord.st_distances st) →
  let st' := BellmanFord.pass_loop edges count i st in
  length (BellmanFord.st_distances st') = vertices
  ∧ sound (BellmanFord.st_distances st')
  ∧ dist_le (BellmanFord.st_distances st') (BellmanFord.st_distances st)
  ∧ (upper (k + count) (BellmanFord.st_distances st')
     ∨ stable (BellmanFord.st_distances st')).
Proof.
  induction count as [|count IH]; intros i st k Hlen Hsound Hk; cbn zeta.
  - cbn [BellmanFord.pass_loop]. rewrite Nat.add_0_r.
    split; [done|]. split; [done|]. split; [apply dist_le_refl|by left].
  - cbn [BellmanFord.pass_loop].
    set (st1 := BellmanFord.mkState _ _ _ _).
    destruct (pass_walks edges st1 false)
      as (st2 & b2 & -> & Hlen2 & Hle2 & Hs2 & Hrel2 & Hno2); [done|done|done|].
    cbn [st1 BellmanFord.st_distances] in *.
    destruct b2.
    + replace (k + S count)%nat with (S k + count)%nat by lia.
      destruct (IH (i + 1)%nat st2 (S k)) as (H1 & H2 & H3 & H4); [done|done| |].
      { intros es Hc Hl.
        destruct (decide (length es ≤ k)%nat) as [Hshort|Hlong].
        { by apply (upper_le k _ _ Hle2 Hk). }
        destruct (decide (es = [])) as [->|Hne]; [cbn in Hlong; lia|].
        destruct (exists_last Hne) as (ws & e & ->).
        rewrite length_app in Hl, Hlong. cbn in Hl, Hlong.
        apply chain_app in Hc as [Hc (He & Hf & _)].
        destruct (Hk ws Hc) as (du & Hdu & Hdule); [lia|].
        rewrite <- Hf in Hdu.
        destruct (Hrel2 e du He Hdu) as (dv & Hdv & Hdvle).
        rewrite chain_end_app, chain_weight_app. cbn.
        exists dv. split; [done|]. lia. }
      split; [done|]. split; [done|]. split; [by eapply dist_le_trans|done].
    + destruct (Hno2 eq_refl) as (_ & Heq & Hall).
      cbn [BellmanFord.st_distances]. rewrite Heq.
      split; [done|]. split; [done|]. split; [apply dist_le_refl|by right].
Qed.

(** The distances left by the relaxation passes. *)
Definition final_distances : list num :=
  BellmanFord.st_distances (BellmanFord.main_passes vertices edges source).

Lemma final_distances_walks :
  length final_distances = vertices
  ∧ sound final_distances
  ∧ (∃ d, final_distances !! source = Some (Fin d) ∧ d ≤ 0)
  ∧ (upper (vertices - 1) final_distances ∨ stable final_distances).
Proof.
  unfold final_distances, BellmanFord.main_passes.
  set (st0 := BellmanFord.mkState _ _ _ _).
  assert (Hlen0 : length (BellmanFord.st_distances st0) = vertices).
  { cbn. by rewrite length_insert, length_replicate. }
  assert (Hsrc0 : BellmanFord.st_distances st0 !! source = Some (Fin 0)).
  { cbn. rewrite list_lookup_insert_eq; [done|]. by rewrite length_replicate. }
  assert (Hs0 : sound (BellmanFord.st_distances st0)).
  { intros v d Hv. cbn in Hv. destruct (decide (v = source)) as [->|Hne].
    - rewrite list_lookup_insert_eq in Hv by (by rewrite length_replicate).
      simplify_eq. constructor.
    - rewrite list_lookup_insert_ne in Hv by done.
      apply lookup_replicate in Hv as [? _]. done. }
  assert (Hu0 : upper 0 (BellmanFord.st_distances st0)).
  { intros es _ Hl. destruct es; [|cbn in Hl; lia]. cbn [chain_end chain_weight foldr].
    exists 0. split; [done|lia]. }
  destruct (pass_loop_walks (vertices - 1) 0 st0 0 Hlen0 Hs0 Hu0)
    as (Hlen & Hsound & Hle & Hfin).
  split; [done|]. split; [done|]. split; [|done].
  by apply Hle.
Qed.

(** A stable table bounds every walk. *)
Lemma stable_upper_all dist :
  length dist = vertices →
  (∃ d, dist !! source = Some (Fin d) ∧ d ≤ 0) →
  stable dist → upper_all dist.
Proof.
  intros Hlen Hsrc Hst es. induction es as [|e es IH] using rev_ind; intros Hc.
  - cbn. destruct Hsrc as (d & Hd & ?). exists d. split; [done|].
    unfold chain_weight. cbn. lia.
  - apply chain_app in Hc as [Hc (He & Hf & _)].
    destruct (IH Hc) as (du & Hdu & Hdule).
    rewrite chain_end_app, chain_weight_app. cbn.
    specialize (Hst e He). unfold BellmanFord.relaxable in Hst.
    rewrite Hf, Hdu in Hst. destruct (edge_range e He) as [_ Htr].
    destruct (lookup_lt_is_Some_2 dist (to e)) as [dv Hdv]; [lia|].
    rewrite Hdv in Hst. destruct dv as [dv|]; [|done].
    cbn in Hst. apply bool_decide_eq_false in Hst.
    exists dv. split; [done|lia].
Qed.

(** With no negative cycle in reach, a walk can be cut down to fewer than
    [vertices] edges without gaining weight. *)
Lemma shorten k : ∀ es,
  no_negative_cycle_from edges source →
  (length es ≤ k)%nat → chain edges source es →
  ∃ es', chain edges source es' ∧ (length es' ≤ vertices - 1)%nat
         ∧ chain_end source es' = chain_end source es
         ∧ chain_weight es' ≤ chain_weight es.
Proof.
  induction k as [k IH] using lt_wf_ind. intros es Hno Hk Hc.
  destruct (decide (length es ≤ vertices - 1)%nat) as [Hshort|Hlong].
  { exists es. split; [done|]. split; [done|]. split; [done|lia]. }
  assert (Hrep : ¬ NoDup (visits source es)).
  { intros Hnd. apply (NoDup_length_le vertices) in Hnd.
    - rewrite visits_length in Hnd. lia.
    - by apply visits_range. }
  apply repeated_split in Hrep as (a & x & b & c & Hsplit).
  set (i := length a). set (j := (length a + S (length b))%nat).
  assert (Hlen : (j ≤ length es)%nat).
  { pose proof (visits_length source es) as Hl. rewrite Hsplit in Hl.
    rewrite length_app in Hl. cbn in Hl. rewrite length_app in Hl. cbn in Hl.
    unfold j. lia. }
  assert (Hi : chain_end source (take i es) = x).
  { pose proof (visits_take source es i ltac:(unfold i, j in *; lia)) as Hv.
    rewrite Hsplit, (list_lookup_middle a _ x i eq_refl) in Hv. congruence. }
  assert (Hj : chain_end source (take j es) = x).
  { pose proof (visits_take source es j Hlen) as Hv.
    replace (a ++ x :: b ++ x :: c) with ((a ++ x :: b) ++ x :: c) in Hsplit
      by (by rewrite <- app_assoc).
    rewrite Hsplit, (list_lookup_middle (a ++ x :: b) c x j) in Hv; [congruence|].
    unfold j. rewrite length_app. cbn. lia. }
  assert (Hes : es = take i es ++ take (j - i) (drop i es) ++ drop j es).
  { rewrite <- (take_drop i es) at 1. f_equal.
    rewrite <- (take_drop (j - i) (drop i es)) at 1. f_equal.
    rewrite drop_drop. f_equal. unfold i, j. lia. }
  set (p := take i es) in *. set (cyc := take (j - i) (drop i es)) in *.
  set (q := drop j es) in *.
  assert (Htake : take j es = p ++ cyc).
  { rewrite Hes at 1. rewrite app_assoc, take_app_length'; [done|].
    unfold p, cyc. rewrite length_app, !length_take, length_drop.
    unfold i, j in *. lia. }
  rewrite Hes in Hc. apply chain_app in Hc as [Hp Hc].
  apply chain_app in Hc as [Hcyc Hq]. rewrite Hi in Hcyc, Hq.
  assert (Hcend : chain_end x cyc = x).
  { rewrite <- Hi at 1. rewrite <- chain_end_app, <- Htake. done. }
  rewrite Hcend in Hq.
  assert (Hcw : 0 ≤ chain_weight cyc).
  { apply (Hno x).
    - exists (chain_weight p). apply dwalk_chain. by exists p.
    - apply dwalk_chain. by exists cyc. }
  assert (Hcl : (1 ≤ length cyc)%nat).
  { unfold cyc. rewrite length_take, length_drop. unfold i, j in *. lia. }
  destruct (IH (length (p ++ q)) ltac:(rewrite Hes in Hk;
              rewrite !length_app in *; lia) (p ++ q) Hno ltac:(done))
    as (es' & Hc' & Hl' & He' & Hw').
  { apply chain_app. by rewrite Hi. }
  exists es'. split; [done|]. split; [done|].
  rewrite Hes, He', !chain_end_app, Hi, Hcend, !chain_weight_app.
  rewrite chain_weight_app in Hw'. split; [done|lia].
Qed.

Lemma no_cycle_upper_all :
  no_negative_cycle_from edges source → upper_all final_distances.
Proof.
  intros Hno. destruct final_distances_walks as (Hlen & Hsound & Hsrc & [Hup|Hst]).
  - intros es Hc.
    destruct (shorten (length es) es Hno ltac:(done) Hc)
      as (es' & Hc' & Hl' & He' & Hw').
    destruct (Hup es' Hc' Hl') as (d & Hd & Hdle).
    rewrite He' in Hd. exists d. split; [done|lia].
  - by apply stable_upper_all.
Qed.

Lemma upper_all_stable dist :
  sound dist → upper_all dist → stable dist.
Proof.
  intros Hsound Hup e He. unfold BellmanFord.relaxable.
  destruct (dist !! from e) as [[a|]|] eqn:Ha; [|done..].
  apply Hsound, dwalk_chain in Ha as (es & Hc & Hend & Hw).
  destruct (Hup (es ++ [e])) as (d & Hd & Hle).
  { apply chain_app. split; [done|]. cbn. by rewrite Hend. }
  rewrite chain_end_app in Hd. cbn in Hd. rewrite Hd. cbn.
  apply bool_decide_eq_false. rewrite chain_weight_app in Hle. cbn in Hle. lia.
Qed.

Lemma upper_all_no_cycle dist :
  sound dist → upper_all dist → no_negative_cycle_from edges source.
Proof.
  intros Hsound Hup v W [W0 Hreach] Hcyc.
  apply dwalk_chain in Hreach as (p & Hp & Hpe & Hpw).
  apply dwalk_chain in Hcyc as (c & Hc & Hce & Hcw).
  destruct (Hup p Hp) as (dv & Hdv & _). rewrite Hpe in Hdv.
  pose proof (Hsound _ _ Hdv) as Hw.
  apply dwalk_chain in Hw as (pv & Hpv & Hpve & Hpvw).
  destruct (Hup (pv ++ c)) as (d3 & Hd3 & Hd3le).
  { apply chain_app. by rewrite Hpve. }
  rewrite chain_end_app, Hpve, Hce, Hdv in Hd3. injection Hd3 as <-.
  rewrite chain_weight_app in Hd3le. lia.
Qed.
End Passes.


(** [d] is the least weight of a directed walk from [s] to [v], or
    [Infinity] when there is none. *)
Definition shortest_from (edges : list Edge) (s v : nat) (d : num) : Prop :=
  match d with
  | Fin d => dwalk edges s v d ∧ ∀ W, dwalk edges s v W → (d ≤ W)%Z
  | Infinity => ∀ W, ¬ dwalk edges s v W
  end.

Lemma find_all_false {A} (f : A → bool) (l : list A) :
  (∀ y, y ∈ l → f y = false) → find f l = None.
Proof.
  induction l as [|a l IH]; intros H; cbn; [done|].
  rewrite (H a) by left. apply IH. intros y Hy. apply H. by right.
Qed.

Lemma last_step vertices edges source :
  ∃ final,
    last (BellmanFord.bellmanFordAlgorithm vertices edges source) = Some final
    ∧ BellmanFord.distances final = final_distances vertices edges source
    ∧ (BellmanFord.hasNegativeCycle final = false
       ↔ stable edges (final_distances vertices edges source)).
Proof.
  unfold BellmanFord.bellmanFordAlgorithm. fold (final_distances vertices edges source).
  destruct (find _ edges) as [e|] eqn:E.
  - unfold push at 1. rewrite last_snoc. eexists. split; [done|]. split; [done|].
    cbn. split; [done|]. intros Hst.
    apply BellmanFord.find_first in E as (l1 & l2 & -> & He & _).
    rewrite Hst in He; [done|]. apply elem_of_app. right. left.
  - unfold push at 1. rewrite last_snoc. eexists. split; [done|]. split; [done|].
    cbn. split; [|done]. intros _ e He. by apply (BellmanFord.find_none_all _ _ E).
Qed.

(** On every graph whose edges join vertices, with any weights, parallel
    edges and loops, the trace of Bellman-Ford ends with the flag cleared
    exactly when no closed walk through a vertex reachable from the source
    has a negative weight. *)
Theorem bellman_ford_flag_is_exact (vertices : nat) (edges : list Edge)
    (source : nat) :
  valid_graph vertices edges → source < vertices →
  ∃ final,
    last (BellmanFord.bellmanFordAlgorithm vertices edges source) = Some final
    ∧ (BellmanFord.hasNegativeCycle final = false
       ↔ no_negative_cycle_from edges source)
    ∧ (BellmanFord.hasNegativeCycle final = true
       ↔ ¬ no_negative_cycle_from edges source).
Proof.
  intros Hvalid Hsrc.
  destruct (last_step vertices edges source) as (final & Hlast & _ & Hflag).
  destruct (final_distances_walks vertices edges source Hvalid Hsrc)
    as (Hlen & Hsound & Hs0 & _).
  assert (Hiff : BellmanFord.hasNegativeCycle final = false
                 ↔ no_negative_cycle_from edges source).
  { rewrite Hflag. split.
    - intros Hst. eapply upper_all_no_cycle; eauto.
      eapply stable_upper_all; eauto.
    - intros Hno. eapply upper_all_stable; eauto.
      eapply no_cycle_upper_all; eauto. }
  exists final. split; [done|]. split; [done|].
  rewrite <- Hiff. by destruct (BellmanFord.hasNegativeCycle final).
Qed.

Lemma bellman_ford_flag_is_exact_witness :
  let edges := [mkEdge 0 1 1 "0-1"; mkEdge 1 2 (-3) "1-2"; mkEdge 2 1 1 "2-1"] in
  ∃ final,
    last (BellmanFord.bellmanFordAlgorithm 3 edges 0) = Some final
    ∧ (BellmanFord.hasNegativeCycle final = false
       ↔ no_negative_cycle_from edges 0)
    ∧ (BellmanFord.hasNegativeCycle final = true
       ↔ ¬ no_negative_cycle_from edges 0).
Proof.
  intros edges. apply (bellman_ford_flag_is_exact 3 edges 0); [|lia].
  repeat constructor; cbn; lia.
Defined.

(** On such a graph, when the trace ends with the flag cleared, the final
    [distances] has one entry per vertex and each entry is the least weight
    of a directed walk from the source, [Infinity] marking the vertices that
    no walk reaches. *)
Theorem bellman_ford_distances_are_shortest (vertices : nat)
    (edges : list Edge) (source : nat) :
  valid_graph vertices edges → source < vertices →
  ∃ final,
    last (BellmanFord.bellmanFordAlgorithm vertices edges source) = Some final
    ∧ length (BellmanFord.distances final) = vertices
    ∧ (BellmanFord.hasNegativeCycle final = false →
       ∀ v, v < vertices →
         ∃ d, BellmanFord.distances final !! v = Some d
              ∧ shortest_from edges source v d).
Proof.
  intros Hvalid Hsrc.
  destruct (last_step vertices edges source) as (final & Hlast & Hd & Hflag).
  destruct (final_distances_walks vertices edges source Hvalid Hsrc)
    as (Hlen & Hsound & Hs0 & _).
  exists final. split; [done|]. rewrite Hd. split; [done|].
  intros Hst%Hflag v Hv.
  assert (Hup : upper_all edges source (final_distances vertices edges source))
    by (eapply stable_upper_all; eauto).
  destruct (lookup_lt_is_Some_2 (final_distances vertices edges source) v)
    as [d Hdv]; [lia|].
  exists d. split; [done|]. destruct d as [d|]; cbn.
  - split; [by apply Hsound|]. intros W (es & Hc & He & Hw)%dwalk_chain.
    destruct (Hup es Hc) as (d' & Hd' & Hle). rewrite He, Hdv in Hd'.
    injection Hd' as <-. lia.
  - intros W (es & Hc & He & Hw)%dwalk_chain.
    destruct (Hup es Hc) as (d' & Hd' & _). rewrite He, Hdv in Hd'. done.
Qed.

Lemma bellman_ford_distances_are_shortest_witness :
  let edges := [mkEdge 0 1 4 "0-1"; mkEdge 0 2 2 "0-2"; mkEdge 1 3 3 "1-3";
                mkEdge 2 1 (-2) "2-1"; mkEdge 2 3 4 "2-3"; mkEdge 3 4 1 "3-4";
                mkEdge 1 4 6 "1-4"] in
  ∃ final,
    last (BellmanFord.bellmanFordAlgorithm 5 edges 0) = Some final
    ∧ length (BellmanFord.distances final) = 5
    ∧ (BellmanFord.hasNegativeCycle final = false →
       ∀ v, v < 5 →
         ∃ d, BellmanFord.distances final !! v = Some d
              ∧ shortest_from edges 0 v d).
Proof.
  intros edges. apply (bellman_ford_distances_are_shortest 5 edges 0); [|lia].
  repeat constructor; cbn; lia.
Defined.

End BellmanFordPaths.

(** ** Forests of undirected edges

    The vocabulary shared by the two spanning-tree components: which
    vertices a list of edges joins, when a list of edges has no cycle, and
    when a forest has the least weight. *)

Module Forests.

(** The edge [e] joins [u] and [v], in one direction or the other. *)
Definition links (e : Edge) (u v : nat) : Prop :=
  (from e = u ∧ to e = v) ∨ (from e = v ∧ to e = u).

(** [x] and [z] are joined by a chain of edges of [es]. *)
Inductive connected (es : list Edge) : nat → nat → Prop :=
| conn_refl x : connected es x x
| conn_step x y z e :
    connected es x y → e ∈ es → links e y z → connected es x z.

(** No edge of the list closes a cycle with the edges before it. *)
Inductive forest : list Edge → Prop :=
| forest_nil : forest []
| forest_snoc es e :
    forest es → ¬ connected es (from e) (to e) → forest (es ++ [e]).

Definition total_weight (es : list Edge) : Z :=
  foldr (λ e acc, weight e + acc)%Z 0%Z es.

(** The edges of weight at most [t]. *)
Definition light (t : Z) (es : list Edge) : list Edge :=
  filter (λ e, (weight e ≤ t)%Z) es.

Fixpoint count (P : nat → bool) (l : list nat) : nat :=
  match l with
  | [] => 0
  | x :: r => (if P x then 1 else 0) + count P r
  end.

(** A representative of the component of [v]: the edges are taken one by
    one, each renaming the component of its [from] to that of its [to]. *)
Fixpoint rep (es : list Edge) (v : nat) : nat :=
  match es with
  | [] => v
  | e :: es' =>
      if decide (rep es' v = rep es' (from e)) then rep es' (to e) else rep es' v
  end.

(** The number of components that [es] leaves among the vertices below [n]. *)
Definition components (n : nat) (es : list Edge) : nat :=
  count (λ v, bool_decide (rep es v = v)) (seq 0 n).

(** The sum of the weights, each cut off at [t]. *)
Definition capped (t : Z) (es : list Edge) : Z :=
  foldr (λ e acc, Z.min (weight e) t + acc)%Z 0%Z es.

Lemma links_sym e u v : links e u v → links e v u.
Proof. unfold links. tauto. Qed.

Lemma connected_trans es x y z :
  connected es x y → connected es y z → connected es x z.
Proof.
  intros Hxy Hyz. induction Hyz as [|y w z e Hyw IH He Hl]; [done|].
  eapply conn_step; [by apply IH|done|done].
Qed.

Lemma connected_edge es e u v : e ∈ es → links e u v → connected es u v.
Proof. intros He Hl. eapply conn_step; [apply conn_refl|done|done]. Qed.

Lemma connected_sym es x y : connected es x y → connected es y x.
Proof.
  induction 1 as [|x y z e Hxy IH He Hl]; [apply conn_refl|].
  eapply connected_trans; [|exact IH].
  eapply connected_edge; [done|by apply links_sym].
Qed.

Lemma connected_mono es es' x y :
  (∀ e, e ∈ es → e ∈ es') → connected es x y → connected es' x y.
Proof.
  intros Hsub. induction 1 as [|x y z e Hxy IH He Hl]; [apply conn_refl|].
  eapply conn_step; [done|by apply Hsub|done].
Qed.

(** It is enough that every edge of [es] joins vertices that [es'] joins. *)
Lemma connected_through es es' x y :
  (∀ e, e ∈ es → connected es' (from e) (to e)) →
  connected es x y → connected es' x y.
Proof.
  intros Hsub. induction 1 as [|x y z e Hxy IH He Hl]; [apply conn_refl|].
  eapply connected_trans; [exact IH|].
  destruct Hl as [[<- <-]|[<- <-]]; [by apply Hsub|].
  by apply connected_sym, Hsub.
Qed.

Lemma connected_range n es x y :
  Forall (λ e, from e < n ∧ to e < n) es → connected es x y → x < n → y < n.
Proof.
  intros Hes. induction 1 as [|x y z e Hxy IH He Hl]; [done|]. intros Hx.
  rewrite Forall_forall in Hes. destruct (Hes e He) as [Hf Ht].
  destruct Hl as [[_ <-]|[<- _]]; done.
Qed.

Lemma total_weight_snoc es e :
  total_weight (es ++ [e]) = (total_weight es + weight e)%Z.
Proof.
  unfold total_weight. induction es as [|x es IH]; cbn; [lia|].
  fold (total_weight es) in *. rewrite IH. lia.
Qed.

Lemma light_mono t t' es e : (t ≤ t')%Z → e ∈ light t es → e ∈ light t' es.
Proof.
  unfold light. rewrite !list_elem_of_filter. intros Ht [Hw He]. split; [lia|done].
Qed.

Lemma light_elem t es e : e ∈ light t es → e ∈ es.
Proof. unfold light. rewrite list_elem_of_filter. tauto. Qed.

Lemma valid_light n t es :
  Forall (λ e, from e < n ∧ to e < n) es →
  Forall (λ e, from e < n ∧ to e < n) (light t es).
Proof.
  rewrite !Forall_forall. intros H e He%light_elem. by apply H.
Qed.

Lemma count_ext P Q l : (∀ x, x ∈ l → P x = Q x) → count P l = count Q l.
Proof.
  induction l as [|x l IH]; intros H; cbn; [done|].
  rewrite (H x) by left. f_equal. apply IH. intros y Hy. apply H. by right.
Qed.

Lemma count_remove P Q l r :
  NoDup l → r ∈ l → P r = true → Q r = false →
  (∀ x, x ∈ l → x ≠ r → Q x = P x) →
  count Q l + 1 = count P l.
Proof.
  induction l as [|x l IH]; intros Hnd Hr HP HQ Hrest.
  - by apply elem_of_nil in Hr.
  - apply NoDup_cons in Hnd as [Hx Hnd]. cbn.
    destruct (decide (x = r)) as [->|Hne].
    + rewrite HP, HQ. rewrite (count_ext Q P l); [lia|].
      intros y Hy. apply Hrest; [by right|]. intros ->. done.
    + apply elem_of_cons in Hr as [->|Hr]; [done|].
      rewrite (Hrest x) by (by left || done).
      rewrite <- (IH Hnd Hr HP HQ); [lia|].
      intros y Hy. apply Hrest. by right.
Qed.

Lemma count_one P l x y :
  count P l = 1 → x ∈ l → y ∈ l → P x = true → P y = true → x = y.
Proof.
  assert (Hpos : ∀ l z, z ∈ l → P z = true → 1 ≤ count P l).
  { clear. induction l as [|a l IH]; intros z Hz HP.
    - by apply elem_of_nil in Hz.
    - cbn. apply elem_of_cons in Hz as [->|Hz].
      + rewrite HP. lia.
      + specialize (IH z Hz HP). lia. }
  induction l as [|a l IH]; intros Hc Hx Hy HPx HPy.
  - by apply elem_of_nil in Hx.
  - cbn in Hc. apply elem_of_cons in Hx as [->|Hx];
      apply elem_of_cons in Hy as [->|Hy]; [done| | |].
    + rewrite HPx in Hc. pose proof (Hpos l y Hy HPy). lia.
    + rewrite HPy in Hc. pose proof (Hpos l x Hx HPx). lia.
    + destruct (P a); [pose proof (Hpos l x Hx HPx); lia|].
      by apply IH.
Qed.

Lemma count_filter (P : nat → Prop) `{∀ x, Decision (P x)} l :
  count (λ v, bool_decide (P v)) l = length (filter P l).
Proof.
  induction l as [|x l IH]; [done|].
  rewrite filter_cons. cbn [count].
  case_bool_decide; case_decide; try done; cbn [length]; by rewrite IH.
Qed.

(** *** Representatives *)

Lemma rep_connected es v : connected es v (rep es v).
Proof.
  induction es as [|e es IH] in v |- *; cbn; [apply conn_refl|].
  assert (Hm : ∀ x y, connected es x y → connected (e :: es) x y).
  { intros x y. apply connected_mono. intros k Hk. by right. }
  case_decide as Heq; [|apply Hm, IH].
  eapply connected_trans; [apply Hm, IH|]. rewrite Heq.
  eapply connected_trans; [apply connected_sym, Hm, IH|].
  eapply connected_trans; [|apply Hm, IH].
  apply (connected_edge _ e); [left|by left].
Qed.

Lemma rep_links es e y z : e ∈ es → links e y z → rep es y = rep es z.
Proof.
  induction es as [|k es IH]; intros He Hl; [by apply elem_of_nil in He|].
  cbn. apply elem_of_cons in He as [->|He].
  - destruct Hl as [[<- <-]|[<- <-]]; repeat case_decide; congruence.
  - by rewrite (IH He Hl).
Qed.

Lemma connected_rep es u v : connected es u v → rep es u = rep es v.
Proof.
  induction 1 as [|x y z e Hxy IH He Hl]; [done|].
  rewrite IH. by eapply rep_links.
Qed.

Lemma rep_iff es u v : rep es u = rep es v ↔ connected es u v.
Proof.
  split; [|apply connected_rep]. intros Heq.
  eapply connected_trans; [apply rep_connected|]. rewrite Heq.
  apply connected_sym, rep_connected.
Qed.

Lemma rep_idemp es v : rep es (rep es v) = rep es v.
Proof. symmetry. apply connected_rep, rep_connected. Qed.

Lemma rep_lt n es v :
  Forall (λ e, from e < n ∧ to e < n) es → v < n → rep es v < n.
Proof.
  intros Hes Hv. eapply connected_range; [done|apply rep_connected|done].
Qed.

#[global] Instance connected_dec es u v : Decision (connected es u v).
Proof.
  destruct (decide (rep es u = rep es v)) as [H|H]; [left|right]; by rewrite <- rep_iff.
Defined.

(** *** Counting components *)

Lemma components_nil n : components n [] = n.
Proof.
  unfold components. rewrite (count_ext _ (λ _, true)).
  - transitivity (length (seq 0 n)); [|apply length_seq].
    generalize (seq 0 n). intros l.
    induction l as [|x l IH]; cbn; [done|]. by rewrite IH.
  - intros x _. cbn. by rewrite bool_decide_eq_true_2.
Qed.

Lemma rep_cons_same e es v :
  rep es (from e) = rep es (to e) → rep (e :: es) v = rep es v.
Proof. intros Heq. cbn. case_decide; congruence. Qed.

Lemma components_cons_same n e es :
  rep es (from e) = rep es (to e) → components n (e :: es) = components n es.
Proof.
  intros Heq. unfold components. apply count_ext. intros x _.
  by rewrite rep_cons_same.
Qed.

Lemma components_cons_diff n e es :
  Forall (λ e, from e < n ∧ to e < n) es → from e < n →
  rep es (from e) ≠ rep es (to e) →
  components n (e :: es) + 1 = components n es.
Proof.
  intros Hes Hf Hne. unfold components.
  apply (count_remove _ _ _ (rep es (from e))).
  - apply NoDup_seq.
  - apply elem_of_seq. pose proof (rep_lt n es (from e) Hes Hf). lia.
  - apply bool_decide_eq_true_2, rep_idemp.
  - apply bool_decide_eq_false_2. cbn. rewrite rep_idemp.
    rewrite decide_True by done. congruence.
  - intros x _ Hx. cbn. apply bool_decide_ext.
    case_decide as Hxa; [|done]. split.
    + intros <-. rewrite rep_idemp in Hxa. congruence.
    + intros Hxx. congruence.
Qed.

Lemma connected_reverse es x y : connected (reverse es) x y ↔ connected es x y.
Proof.
  split; apply connected_mono; intros e He; by apply elem_of_reverse.
Qed.

(** A forest on [n] vertices with [k] edges leaves [n - k] components. *)
Lemma forest_components n es :
  forest es → Forall (λ e, from e < n ∧ to e < n) es →
  components n (reverse es) + length es = n.
Proof.
  induction 1 as [|es e Hfo IH Hnc]; intros Hes.
  - cbn. by rewrite components_nil.
  - apply Forall_app in Hes as [Hes He].
    apply Forall_singleton in He as [Hf Ht].
    rewrite reverse_snoc, length_app. cbn.
    pose proof (IH Hes) as Hn.
    assert (components n (e :: reverse es) + 1 = components n (reverse es)) as Hd;
      [|lia].
    apply components_cons_diff; [|done|].
    + by apply Forall_reverse.
    + intros Heq. apply Hnc.
      by apply (proj1 (connected_reverse es _ _)), (proj1 (rep_iff _ _ _)).
Qed.

(** Joining more does not give more components. *)
Lemma components_mono n es es' :
  Forall (λ e, from e < n ∧ to e < n) es →
  (∀ x y, connected es x y → connected es' x y) →
  components n es' ≤ components n es.
Proof.
  intros Hes Hsub. unfold components. rewrite !count_filter.
  set (R' := filter (λ v, rep es' v = v) (seq 0 n)).
  set (R := filter (λ v, rep es v = v) (seq 0 n)).
  rewrite <- (length_fmap (rep es) R').
  apply submseteq_length, NoDup_submseteq.
  - apply NoDup_fmap_2_strong; [|apply NoDup_filter, NoDup_seq].
    intros x y Hx Hy Heq.
    apply list_elem_of_filter in Hx as [Hx _].
    apply list_elem_of_filter in Hy as [Hy _].
    rewrite <- Hx, <- Hy. apply connected_rep, Hsub. by apply rep_iff.
  - intros r (x & -> & Hx)%list_elem_of_fmap.
    apply list_elem_of_filter in Hx as [_ Hx%elem_of_seq].
    apply list_elem_of_filter. split; [apply rep_idemp|].
    apply elem_of_seq. pose proof (rep_lt n es x Hes). lia.
Qed.

(** A forest inside what another forest joins has no more edges. *)
Lemma forest_length_le n F H :
  forest F → forest H →
  Forall (λ e, from e < n ∧ to e < n) F →
  Forall (λ e, from e < n ∧ to e < n) H →
  (∀ x y, connected F x y → connected H x y) →
  length F ≤ length H.
Proof.
  intros HF HH HvF HvH Hsub.
  pose proof (forest_components n F HF HvF).
  pose proof (forest_components n H HH HvH).
  pose proof (components_mono n (reverse F) (reverse H)) as Hm.
  enough (components n (reverse H) ≤ components n (reverse F)) by lia.
  apply Hm.
  - by apply Forall_reverse.
  - intros x y Hc. apply (proj2 (connected_reverse H _ _)), Hsub.
    by apply (proj1 (connected_reverse F _ _)).
Qed.

Lemma forest_filter (P : Edge → Prop) `{∀ e, Decision (P e)} es :
  forest es → forest (filter P es).
Proof.
  induction 1 as [|es e Hfo IH Hnc]; [constructor|].
  rewrite filter_app, filter_cons, filter_nil. case_decide.
  - apply forest_snoc; [done|]. intros Hc. apply Hnc.
    eapply connected_mono; [|exact Hc]. intros k Hk.
    apply list_elem_of_filter in Hk. tauto.
  - by rewrite app_nil_r.
Qed.

(** *** Weights *)

Lemma capped_succ t es :
  (capped (t + 1) es
   = capped t es + Z.of_nat (length es) - Z.of_nat (length (light t es)))%Z.
Proof.
  unfold capped, light. induction es as [|e es IH]; [done|].
  rewrite filter_cons. cbn [foldr length]. rewrite IH.
  case_decide; cbn [length]; lia.
Qed.

Lemma capped_low t es :
  Forall (λ e, (t ≤ weight e)%Z) es → capped t es = (t * Z.of_nat (length es))%Z.
Proof.
  unfold capped. induction 1 as [|e es He _ IH]; cbn [foldr length]; [lia|].
  rewrite IH. lia.
Qed.

Lemma capped_high t es :
  Forall (λ e, (weight e ≤ t)%Z) es → capped t es = total_weight es.
Proof.
  unfold capped, total_weight. induction 1 as [|e es He _ IH]; cbn [foldr]; [done|].
  rewrite IH. lia.
Qed.

Lemma weight_bounds (es : list Edge) :
  ∃ lo hi, (lo ≤ hi)%Z ∧ Forall (λ e, (lo ≤ weight e ≤ hi)%Z) es.
Proof.
  induction es as [|e es (lo & hi & Hle & IH)].
  - exists 0%Z, 0%Z. split; [lia|constructor].
  - exists (Z.min lo (weight e)), (Z.max hi (weight e)). split; [lia|].
    constructor; [lia|]. eapply Forall_impl; [exact IH|]. cbn. lia.
Qed.

(** Two lists of the same length: the one that has, below every bound, at
    least as many edges as the other weighs no more. *)
Lemma total_weight_le K T :
  length K = length T →
  (∀ t, length (light t T) ≤ length (light t K)) →
  (total_weight K ≤ total_weight T)%Z.
Proof.
  intros Hlen Hcnt.
  destruct (weight_bounds (K ++ T)) as (lo & hi & Hle & Hb).
  apply Forall_app in Hb as [HK HT].
  assert (Hk : ∀ k : nat, (capped (lo + Z.of_nat k) K ≤ capped (lo + Z.of_nat k) T)%Z).
  { induction k as [|k IH].
    - rewrite Z.add_0_r, !capped_low, Hlen; [lia| |].
      + eapply Forall_impl; [exact HT|]. cbn. lia.
      + eapply Forall_impl; [exact HK|]. cbn. lia.
    - replace (lo + Z.of_nat (S k))%Z with (lo + Z.of_nat k + 1)%Z by lia.
      rewrite !capped_succ. specialize (Hcnt (lo + Z.of_nat k)%Z). lia. }
  specialize (Hk (Z.to_nat (hi - lo))).
  replace (lo + Z.of_nat (Z.to_nat (hi - lo)))%Z with hi in Hk by lia.
  rewrite !capped_high in Hk; [done| |].
  - eapply Forall_impl; [exact HT|]. cbn. lia.
  - eapply Forall_impl; [exact HK|]. cbn. lia.
Qed.

(** The criterion: a forest [K] in which the ends of every edge of another
    forest [T] are joined by edges that weigh no more than it, and that
    joins nothing that [T] does not join, weighs no more than [T]. *)
Lemma light_forest_le n K T :
  forest K → forest T →
  Forall (λ e, from e < n ∧ to e < n) K →
  Forall (λ e, from e < n ∧ to e < n) T →
  (∀ e, e ∈ T → connected (light (weight e) K) (from e) (to e)) →
  (∀ e, e ∈ K → connected T (from e) (to e)) →
  (total_weight K ≤ total_weight T)%Z.
Proof.
  intros HK HT HvK HvT Hlight Hspan.
  apply total_weight_le.
  - apply Nat.le_antisymm.
    + apply (forest_length_le n); try done.
      intros x y. by apply connected_through.
    + apply (forest_length_le n); try done.
      intros x y. apply connected_through.
      intros e He. eapply connected_mono; [|by apply Hlight].
      intros k. apply light_elem.
  - intros t. apply (forest_length_le n).
    + by apply forest_filter.
    + by apply forest_filter.
    + by apply valid_light.
    + by apply valid_light.
    + intros x y. apply connected_through.
      intros e [Hw He]%list_elem_of_filter.
      eapply connected_mono; [|by apply Hlight].
      intros k. by apply light_mono.
Qed.

End Forests.

(** ** Dijkstra: the paths read off [previous] *)

Module DijkstraPaths.
Import Dijkstra.

(** [while (current !== null) { path.unshift(current);
     current = previous[current]; }]; a read outside [previous] gives
    [undefined], which is not [null], and the loop never ends. *)
Fixpoint path_loop (fuel : nat) (previous : list (option nat)) (current : nat)
    (path : list nat) : option (list nat) :=
  match fuel with
  | 0 => None
  | S fuel' =>
      let path := current :: path in
      match previous !! current with
      | Some (Some p) => path_loop fuel' previous p path
      | Some None => Some path
      | None => None
      end
  end.

(** [getShortestPaths], on the arrays it reads. *)
Definition getShortestPaths (vertices : nat) (distances : list num)
    (previous : list (option nat)) : option (gmap nat (list nat)) :=
  foldl (λ acc i,
           paths ← acc;
           match distances !! i with
           | Some Infinity => Some paths
           | _ =>
               path ← path_loop (S vertices) previous i [];
               Some (<[i := path]> paths)
           end)
        (Some ∅) (seq 0 vertices).

(** [route edges s p v W]: the vertices [p] go from [s] to [v] along edges
    of total weight [W]. *)
Inductive route (edges : list Edge) (s : nat) : list nat → nat → Z → Prop :=
| route_start : route edges s [s] s 0
| route_step p u v e W :
    route edges s p u W → e ∈ edges → Forests.links e u v →
    route edges s (p ++ [v]) v (W + weight e).

Lemma route_ends edges s p v W :
  route edges s p v W → head p = Some s ∧ last p = Some v.
Proof.
  induction 1 as [|p u v e W Hr [Hh Hl] He Hj]; [done|].
  split; [|by rewrite last_snoc].
  destruct p; [done|]. done.
Qed.

Lemma route_walk edges s p v W : route edges s p v W → walk edges s v W.
Proof.
  induction 1 as [|p u v e W Hr IH He Hj]; [constructor|].
  by apply walk_step with (v := u).
Qed.

Section Tree.
Variable vertices : nat.
Variable edges : list Edge.
Variable startVertex : nat.
Hypothesis Hvalid : valid_graph vertices edges.
Hypothesis Hsrc : startVertex < vertices.

(** The shape of [previous]: [order] lists the visited vertices in the
    order of their visits; the predecessor of a vertex was visited before
    it, and the distance of the vertex is that of its predecessor plus the
    weight of an edge joining them. *)
Record tree_inv (dist : list num) (vis : list bool) (prev : list (option nat))
    (order : list nat) : Prop := mkTree {
  ti_len_d : length dist = vertices;
  ti_len_v : length vis = vertices;
  ti_len_p : length prev = vertices;
  ti_nodup : NoDup order;
  ti_order : ∀ v, v ∈ order → vis !! v = Some true ∧ v < vertices;
  ti_root : ∀ v d, prev !! v = Some None → dist !! v = Some (Fin d) →
            v = startVertex ∧ d = 0%Z;
  ti_parent : ∀ v u, prev !! v = Some (Some u) →
    ∃ i e du, order !! i = Some u ∧ e ∈ edges ∧ Forests.links e u v
              ∧ dist !! u = Some (Fin du)
              ∧ dist !! v = Some (Fin (du + weight e))
              ∧ ∀ j, order !! j = Some v → i < j
}.

Definition good (a : arrays) : Prop := ∃ order, tree_inv a.1.1 a.1.2 a.2 order.

Lemma path_loop_spec dist vis prev order :
  tree_inv dist vis prev order →
  ∀ k v d path fuel,
    dist !! v = Some (Fin d) →
    (∀ u, prev !! v = Some (Some u) → ∃ i, order !! i = Some u ∧ i < k) →
    k < fuel →
    ∃ anc, path_loop fuel prev v path = Some (anc ++ path)
           ∧ route edges startVertex anc v d.
Proof.
  intros Hinv k. induction k as [k IH] using lt_wf_ind.
  intros v d path fuel Hd Hk Hfuel.
  destruct fuel as [|fuel]; [lia|]. cbn [path_loop].
  destruct (lookup_lt_is_Some_2 prev v) as [o Ho].
  { rewrite (ti_len_p _ _ _ _ Hinv), <- (ti_len_d _ _ _ _ Hinv).
    by apply lookup_lt_Some in Hd. }
  rewrite Ho. destruct o as [u|].
  - destruct (ti_parent _ _ _ _ Hinv v u Ho)
      as (i & e & du & Hi & He & Hj & Hdu & Hdv & Hlt).
    destruct (Hk u Ho) as (i' & Hi' & Hik).
    assert (i' = i) as -> by (eapply NoDup_lookup; [apply Hinv|done..]).
    destruct (IH i Hik u du (v :: path) fuel Hdu) as (anc & -> & Hr); [|lia|].
    { intros w Hw.
      destruct (ti_parent _ _ _ _ Hinv u w Hw) as (iw & _ & _ & Hiw & _ & _ & _ & _ & Hlw).
      exists iw. split; [done|]. by apply Hlw. }
    exists (anc ++ [v]). split; [by rewrite <- app_assoc|].
    rewrite Hd in Hdv. injection Hdv as ->.
    by apply route_step with (u := u).
  - destruct (ti_root _ _ _ _ Hinv v d Ho Hd) as [-> ->].
    exists [startVertex]. split; [done|]. constructor.
Qed.

Lemma order_length dist vis prev order :
  tree_inv dist vis prev order → length order ≤ vertices.
Proof.
  intros Hinv. apply Agreement.NoDup_length_le; [apply Hinv|].
  apply Forall_forall. intros x Hx. by apply (ti_order _ _ _ _ Hinv).
Qed.

Lemma getShortestPaths_spec dist vis prev order :
  tree_inv dist vis prev order →
  ∃ paths,
    getShortestPaths vertices dist prev = Some paths
    ∧ ∀ v, v < vertices →
        match dist !! v with
        | Some (Fin d) =>
            ∃ path, paths !! v = Some path ∧ route edges startVertex path v d
        | _ => paths !! v = None
        end.
Proof.
  intros Hinv. unfold getShortestPaths.
  match goal with
  | |- context [foldl ?f ?a _] => set (body := f); set (init := a)
  end.
  enough (∀ k, k ≤ vertices →
    ∃ paths : gmap nat (list nat),
      foldl body init (seq 0 k) = Some paths
      ∧ ∀ v,
          match dist !! v with
          | Some (Fin d) =>
              v < k → ∃ path, paths !! v = Some path
                              ∧ route edges startVertex path v d
          | _ => paths !! v = None
          end) as H.
  { destruct (H vertices) as (paths & -> & Hp); [done|]. exists paths.
    split; [done|]. intros v Hv. specialize (Hp v).
    destruct (dist !! v) as [[d|]|]; auto. }
  induction k as [|k IH]; intros Hk.
  - exists ∅. split; [done|]. intros v.
    destruct (dist !! v) as [[d|]|]; [lia|done..].
  - destruct IH as (paths & Hfold & Hp); [lia|].
    replace (S k) with (k + 1) by lia. rewrite seq_snoc, foldl_app, Hfold.
    cbn [foldl Nat.add]. unfold body at 1. cbn [mbind option_bind].
    destruct (lookup_lt_is_Some_2 dist k) as [dk Hdk].
    { rewrite (ti_len_d _ _ _ _ Hinv). lia. }
    rewrite Hdk. destruct dk as [d|].
    + destruct (path_loop_spec dist vis prev order Hinv (length order) k d []
                  (S vertices) Hdk) as (anc & -> & Hr).
      { intros u Hu.
        destruct (ti_parent _ _ _ _ Hinv k u Hu) as (i & _ & _ & Hi & _).
        exists i. split; [done|]. by apply lookup_lt_Some in Hi. }
      { pose proof (order_length _ _ _ _ Hinv). lia. }
      cbn [mbind option_bind]. rewrite app_nil_r. eexists. split; [done|].
      intros v. destruct (decide (v = k)) as [->|Hne].
      * rewrite Hdk. intros _. exists anc. by rewrite lookup_insert_eq.
      * rewrite lookup_insert_ne by done. specialize (Hp v).
        destruct (dist !! v) as [[dv|]|]; [|done..].
        intros Hv. apply Hp. lia.
    + exists paths. split; [done|]. intros v. specialize (Hp v).
      destruct (dist !! v) as [[dv|]|] eqn:Hdv; [|done..].
      intros Hv. apply Hp. assert (v ≠ k) by congruence. lia.
Qed.

(** Preservation by the two updates of the main loop. *)
Lemma tree_mark dist vis prev order u :
  tree_inv dist vis prev order → u < vertices → vis !! u = Some false →
  tree_inv dist (<[u := true]> vis) prev (order ++ [u]).
Proof.
  intros Hinv Hu Hvis.
  assert (Hnot : u ∉ order).
  { intros Hin. destruct (ti_order _ _ _ _ Hinv u Hin). congruence. }
  split; try apply Hinv.
  - rewrite length_insert. apply Hinv.
  - apply NoDup_app. split; [apply Hinv|]. split; [|apply NoDup_singleton].
    intros x Hx ->%list_elem_of_singleton. done.
  - intros v [Hv| ->%list_elem_of_singleton]%elem_of_app.
    + destruct (ti_order _ _ _ _ Hinv v Hv) as [Hv1 Hv2]. split; [|done].
      destruct (decide (v = u)) as [->|]; [congruence|].
      by rewrite list_lookup_insert_ne.
    + split; [|done]. rewrite list_lookup_insert_eq; [done|].
      by rewrite (ti_len_v _ _ _ _ Hinv).
  - intros v w Hp.
    destruct (ti_parent _ _ _ _ Hinv v w Hp)
      as (i & e & du & Hi & He & Hj & Hdu & Hdv & Hlt).
    exists i, e, du. split; [by apply lookup_app_l_Some|].
    repeat (split; [done|]). intros j Hjv.
    apply lookup_app_Some in Hjv as [Hjv|[Hlen _]]; [by apply Hlt|].
    apply lookup_lt_Some in Hi. lia.
Qed.

Lemma tree_relax order u st e' :
  tree_inv (st_distances st) (st_visited st) (st_previous st) order →
  u ∈ order → e' ∈ adj_spec edges u →
  let st' := relax_neighbor u st e' in
  st_visited st' = st_visited st
  ∧ tree_inv (st_distances st') (st_visited st) (st_previous st') order
  ∧ (st_steps st' = st_steps st
     ∨ ∃ s, st_steps st' = st_steps st ++ [s]
            ∧ arr_of_step s = arr_of_state st').
Proof.
  intros Hinv Hu He'. cbn zeta. unfold relax_neighbor.
  destruct st as [dist vis prev steps].
  cbn [st_distances st_visited st_previous st_steps] in *.
  destruct (vis !! to e') as [[|]|] eqn:Hvx; [by auto| |by auto].
  destruct (ti_order _ _ _ _ Hinv u Hu) as [Hvu Hun].
  destruct (num_lt _ _) eqn:Hlt; [|by auto].
  cbn [st_visited st_distances st_previous st_steps].
  split; [done|]. split; [|right; eexists; split; [reflexivity|done]].
  set (x := to e') in *.
  assert (Hxu : x ≠ u) by congruence.
  assert (Hxo : x ∉ order).
  { intros Hin. destruct (ti_order _ _ _ _ Hinv x Hin). congruence. }
  assert (Hxn : x < vertices).
  { apply lookup_lt_Some in Hvx. by rewrite (ti_len_v _ _ _ _ Hinv) in Hvx. }
  destruct (dist !! u) as [[du|]|] eqn:Hdu;
    cbn [default from_option Datatypes.id num_add] in *; [|done..].
  destruct (adj_spec_sound edges u e' He') as (Hfrom & e & He & Hw & Hends).
  apply list_elem_of_lookup in Hu as [iu Hiu].
  split; try apply Hinv.
  - rewrite length_insert. apply Hinv.
  - rewrite length_insert. apply Hinv.
  - intros v d Hpv Hdv. destruct (decide (v = x)) as [->|Hne].
    + rewrite list_lookup_insert_eq in Hpv; [done|].
      by rewrite (ti_len_p _ _ _ _ Hinv).
    + rewrite list_lookup_insert_ne in Hpv by done.
      rewrite list_lookup_insert_ne in Hdv by done.
      by apply (ti_root _ _ _ _ Hinv).
  - intros v w Hpv. destruct (decide (v = x)) as [->|Hne].
    + rewrite list_lookup_insert_eq in Hpv
        by (by rewrite (ti_len_p _ _ _ _ Hinv)).
      injection Hpv as <-. exists iu, e, du. split; [done|]. split; [done|].
      split. { unfold Forests.links. fold x in Hends. tauto. }
      rewrite list_lookup_insert_ne by done. split; [done|].
      rewrite list_lookup_insert_eq by (by rewrite (ti_len_d _ _ _ _ Hinv)).
      split; [by rewrite Hw|].
      intros j Hj. destruct Hxo. by eapply list_elem_of_lookup_2.
    + rewrite list_lookup_insert_ne in Hpv by done.
      destruct (ti_parent _ _ _ _ Hinv v w Hpv)
        as (i & e0 & dw & Hi & He0 & Hj0 & Hdw & Hdv & Hlt0).
      exists i, e0, dw.
      assert (w ≠ x).
      { intros ->. destruct Hxo. by eapply list_elem_of_lookup_2. }
      by rewrite !list_lookup_insert_ne.
Qed.

(** The steps pushed so far and the current arrays are all good. *)
Definition good_state (st : State) (order : list nat) : Prop :=
  tree_inv (st_distances st) (st_visited st) (st_previous st) order
  ∧ Forall (λ s, good (arr_of_step s)) (st_steps st).

Lemma relax_all_tree u l : ∀ st order,
  good_state st order → u ∈ order →
  (∀ e', e' ∈ l → e' ∈ adj_spec edges u) →
  good_state (foldl (relax_neighbor u) st l) order.
Proof.
  induction l as [|e' l IH]; intros st order Hg Hu Hl; cbn [foldl]; [done|].
  apply IH; [|done|intros x Hx; apply Hl; by right].
  destruct Hg as [Hinv Hsteps].
  destruct (tree_relax order u st e' Hinv Hu)
    as (Hv & Hinv' & Hst); [apply Hl; left|].
  split; [by rewrite Hv|].
  destruct Hst as [->|(s & -> & Hs)]; [done|].
  apply Forall_app. split; [done|]. constructor; [|constructor].
  exists order. rewrite Hs. cbn. by rewrite Hv.
Qed.

Lemma main_loop_tree count : ∀ st order,
  good_state st order →
  ∃ order', good_state (main_loop vertices edges count st) order'.
Proof.
  induction count as [|count IH]; intros st order Hg; cbn [main_loop];
    [by exists order|].
  pose proof (find_min_spec vertices (st_distances st) (st_visited st)) as Hmin.
  destruct (find_min _ _ _) as [u|]; [|by exists order].
  destruct Hmin as (Hu & Hvu & _). destruct Hg as [Hinv Hsteps].
  apply (IH _ (order ++ [u])). apply relax_all_tree.
  - split; cbn [st_distances st_visited st_previous st_steps].
    + by apply tree_mark.
    + unfold push. apply Forall_app. split; [apply Forall_app; split; [done|]|].
      * constructor; [|constructor]. by exists order.
      * constructor; [|constructor]. exists (order ++ [u]). cbn.
        by apply tree_mark.
  - apply elem_of_app. right. left.
  - rewrite build_adjList_lookup by done. done.
Qed.

Lemma initial_tree :
  good_state (initial_state vertices startVertex) [].
Proof.
  assert (Hinv : tree_inv (<[startVertex := Fin 0]> (replicate vertices Infinity))
                   (replicate vertices false) (replicate vertices None) []).
  { split.
    - by rewrite length_insert, length_replicate.
    - by rewrite length_replicate.
    - by rewrite length_replicate.
    - apply NoDup_nil_2.
    - intros v Hv. by apply elem_of_nil in Hv.
    - intros v d _ Hd. destruct (decide (v = startVertex)) as [->|Hne].
      + rewrite list_lookup_insert_eq in Hd by (by rewrite length_replicate).
        by injection Hd as <-.
      + rewrite list_lookup_insert_ne in Hd by done.
        by apply lookup_replicate in Hd as [? _].
    - intros v u Hp. by apply lookup_replicate in Hp as [? _]. }
  split; [done|]. cbn. constructor; [|constructor]. by exists [].
Qed.

Lemma trace_is_good :
  Forall (λ s, good (arr_of_step s)) (dijkstraAlgorithm vertices edges startVertex).
Proof.
  unfold dijkstraAlgorithm.
  destruct (main_loop_tree vertices _ _ initial_tree) as (order & Hinv & Hsteps).
  unfold push. apply Forall_app. split; [done|].
  constructor; [|constructor]. by exists order.
Qed.
End Tree.

(** At every step of a run on a graph whose edges join vertices (with any
    weights), [getShortestPaths] terminates on the recorded [distances] and
    [previous]; it has a path exactly for the vertices of finite distance,
    and the path of [v] goes from the source to [v] along edges of the
    graph whose weights add up to [distances[v]]. *)
Theorem dijkstra_paths_follow_edges (vertices : nat) (edges : list Edge)
    (startVertex : nat) (s : DijkstraStep) :
  valid_graph vertices edges → startVertex < vertices →
  s ∈ dijkstraAlgorithm vertices edges startVertex →
  ∃ paths,
    getShortestPaths vertices (distances s) (previous s) = Some paths
    ∧ ∀ v, v < vertices →
        match distances s !! v with
        | Some (Fin d) =>
            ∃ path, paths !! v = Some path
                    ∧ head path = Some startVertex ∧ last path = Some v
                    ∧ route edges startVertex path v d
        | _ => paths !! v = None
        end.
Proof.
  intros Hvalid Hsrc Hs.
  assert (Hall : Forall (λ s, good vertices edges startVertex (arr_of_step s))
            (dijkstraAlgorithm vertices edges startVertex))
    by (by apply trace_is_good).
  rewrite Forall_forall in Hall. destruct (Hall s Hs) as (order & Hinv).
  cbn in Hinv.
  destruct (getShortestPaths_spec vertices edges startVertex Hsrc
              (distances s) (visited s) (previous s) order Hinv)
    as (paths & Hp & Hv).
  exists paths. split; [done|]. intros v Hlt. specialize (Hv v Hlt).
  cbn in Hv. destruct (distances s !! v) as [[d|]|]; [|done..].
  destruct Hv as (path & Hpath & Hr). exists path.
  by destruct (route_ends _ _ _ _ _ Hr).
Qed.

Lemma dijkstra_paths_follow_edges_witness :
  ∃ s, last (dijkstraAlgorithm 6 default_edges 0) = Some s ∧
  ∃ paths,
    getShortestPaths 6 (distances s) (previous s) = Some paths
    ∧ ∀ v, v < 6 →
        match distances s !! v with
        | Some (Fin d) =>
            ∃ path, paths !! v = Some path
                    ∧ head path = Some 0 ∧ last path = Some v
                    ∧ route default_edges 0 path v d
        | _ => paths !! v = None
        end.
Proof.
  eexists. split; [vm_compute; reflexivity|].
  apply (dijkstra_paths_follow_edges 6 default_edges 0);
    [repeat constructor; cbn; lia|lia|].
  apply list_elem_of_lookup. exists 22. vm_compute. reflexivity.
Defined.


(** *** The order of the visits *)

(** The distance shown by a "select vertex" step. *)
Definition selected_distance (s : DijkstraStep) : option Z :=
  match description s with
  | SelectVertex _ (Some (Fin d)) => Some d
  | _ => None
  end.

Definition selected (steps : list DijkstraStep) : list Z :=
  omap selected_distance steps.

Lemma selected_push steps mk :
  selected (push steps mk)
  = selected steps ++ option_list (selected_distance (mk (length steps + 1))).
Proof.
  unfold selected, push. rewrite omap_app. cbn [omap list_omap].
  by destruct (selected_distance _).
Qed.

Section Order.
Variable vertices : nat.
Variable edges : list Edge.
Hypothesis Hnonneg : Forall (λ e, (0 ≤ weight e)%Z) edges.

Local Open Scope Z_scope.

(** Every distance selected so far is at most [M], every finite distance of
    an unvisited vertex at least [M], and the selected distances never
    decreased. *)
Definition order_inv (st : State) (M : Z) : Prop :=
  length (st_distances st) = vertices
  ∧ (∀ y dy, st_visited st !! y = Some false →
           st_distances st !! y = Some (Fin dy) → M ≤ dy)
  ∧ Forall (λ d, d ≤ M) (selected (st_steps st))
  ∧ StronglySorted Z.le (selected (st_steps st)).

Lemma relax_neighbor_order u du st e' :
  order_inv st du → st_distances st !! u = Some (Fin du) →
  st_visited st !! u = Some true →
  e' ∈ adj_spec edges u →
  order_inv (relax_neighbor u st e') du
  ∧ st_distances (relax_neighbor u st e') !! u = Some (Fin du)
  ∧ st_visited (relax_neighbor u st e') = st_visited st.
Proof.
  intros (Hlen & Hlow & Hsel & Hsorted) Hdu Hvu He'. unfold relax_neighbor.
  destruct (st_visited st !! to e') as [[|]|] eqn:Hvx; [done| |done].
  rewrite Hdu. cbn [default from_option Datatypes.id num_add].
  destruct (num_lt _ _); [|done].
  unfold order_inv. cbn [st_distances st_visited st_steps].
  assert (Hne : to e' ≠ u) by congruence.
  split; [|by rewrite list_lookup_insert_ne].
  assert (Hw : 0 ≤ weight e').
  { destruct (adj_spec_sound edges u e' He') as (_ & e & He & -> & _).
    rewrite Forall_forall in Hnonneg. by apply Hnonneg. }
  split; [by rewrite length_insert|].
  split; [|by rewrite selected_push, app_nil_r].
  intros y dy Hvy Hdy. destruct (decide (y = to e')) as [->|Hy].
  - apply list_lookup_insert_Some in Hdy as [(_ & Heq & _)|[? _]]; [|done].
    injection Heq as <-. lia.
  - rewrite list_lookup_insert_ne in Hdy by done. by apply (Hlow y).
Qed.

Lemma relax_all_order u du l : ∀ st,
  order_inv st du → st_distances st !! u = Some (Fin du) →
  st_visited st !! u = Some true →
  (∀ e', e' ∈ l → e' ∈ adj_spec edges u) →
  order_inv (foldl (relax_neighbor u) st l) du.
Proof.
  induction l as [|e' l IH]; intros st Hinv Hdu Hvu Hl; cbn [foldl]; [done|].
  destruct (relax_neighbor_order u du st e' Hinv Hdu Hvu) as (H1 & H2 & H3);
    [apply Hl; left|].
  apply IH; [done|done|by rewrite H3|intros x Hx; apply Hl; by right].
Qed.

Lemma main_loop_order count : ∀ st M,
  order_inv st M →
  ∃ M', order_inv (main_loop vertices edges count st) M'.
Proof.
  induction count as [|count IH]; intros st M Hinv; cbn [main_loop];
    [by exists M|].
  pose proof (find_min_spec vertices (st_distances st) (st_visited st)) as Hmin.
  destruct (find_min _ _ _) as [u|]; [|by exists M].
  destruct Hmin as (Hu & Hvu & du & Hdu & Hleast).
  destruct Hinv as (Hlen & Hlow & Hsel & Hsorted).
  assert (HM : M ≤ du) by (by apply (Hlow u)).
  apply (IH _ du). apply relax_all_order.
  - split; [done|]. split; [|split]; cbn [st_distances st_visited st_steps].
    + intros y dy Hvy Hdy. destruct (decide (y = u)) as [->|Hne].
      * rewrite list_lookup_insert_eq in Hvy; [done|]. by apply lookup_lt_Some in Hvu.
      * rewrite list_lookup_insert_ne in Hvy by done.
        apply (Hleast y); [|done..]. apply lookup_lt_Some in Hdy. lia.
    + rewrite !selected_push. cbn. rewrite Hdu. cbn. rewrite app_nil_r.
      apply Forall_app. split; [|by repeat constructor].
      eapply Forall_impl; [exact Hsel|]. cbn. intros; lia.
    + rewrite !selected_push. cbn. rewrite Hdu. cbn. rewrite app_nil_r.
      apply StronglySorted_app_2; [|done|by repeat constructor].
      intros x y Hx ->%list_elem_of_singleton.
      rewrite Forall_forall in Hsel. specialize (Hsel x Hx). cbn in Hsel. lia.
  - cbn. done.
  - cbn. rewrite list_lookup_insert_eq; [done|]. by apply lookup_lt_Some in Hvu.
  - rewrite build_adjList_lookup by done. done.
Qed.
End Order.

(** With non-negative weights the vertices are selected in the order of
    their distances: the distances shown by the successive "select vertex"
    steps of the trace never decrease. *)
Theorem dijkstra_selects_by_distance (vertices : nat) (edges : list Edge)
    (startVertex : nat) :
  valid_graph vertices edges →
  Forall (λ e, (0 ≤ weight e)%Z) edges →
  startVertex < vertices →
  StronglySorted Z.le (selected (dijkstraAlgorithm vertices edges startVertex)).
Proof.
  intros _ Hnonneg Hsrc. unfold dijkstraAlgorithm.
  destruct (main_loop_order vertices edges Hnonneg vertices
              (initial_state vertices startVertex) 0)
    as (M & _ & _ & _ & Hsorted).
  - split; [|split; [|split]]; cbn.
    + by rewrite length_insert, length_replicate.
    + intros y dy _ Hdy. destruct (decide (y = startVertex)) as [->|Hne].
      * rewrite list_lookup_insert_eq in Hdy by (by rewrite length_replicate).
        injection Hdy as <-. lia.
      * rewrite list_lookup_insert_ne in Hdy by done.
        by apply lookup_replicate in Hdy as [? _].
    + constructor.
    + constructor.
  - by rewrite selected_push, app_nil_r.
Qed.

Lemma dijkstra_selects_by_distance_witness :
  StronglySorted Z.le (selected (dijkstraAlgorithm 6 default_edges 0))
  ∧ selected (dijkstraAlgorithm 6 default_edges 0) = [0; 2; 3; 8; 10; 13]%Z.
Proof.
  split; [|vm_compute; reflexivity].
  apply (dijkstra_selects_by_distance 6 default_edges 0);
    [repeat constructor; cbn; lia|repeat constructor; cbn; lia|lia].
Defined.

End DijkstraPaths.

(** ** Kruskal: the accepted edges form a spanning forest *)

Module KruskalForest.
Import Kruskal Forests.

(** The number of roots of the union-find forest. *)
Definition is_root (parent : list nat) (x : nat) : bool :=
  bool_decide (parent !! x = Some x).

Definition roots (n : nat) (parent : list nat) : nat :=
  count (is_root parent) (seq 0 n).

(** *** Roots *)

Section Roots.
Variable n : nat.

Lemma root_exists parent rank M x :
  uf_inv n parent rank M → x < n → ∃ r, root_of parent x r ∧ r < n.
Proof.
  intros Hinv Hx.
  destruct (lookup_lt_is_Some_2 rank x) as [rx Hrx];
    [by rewrite (uf_len_r _ _ _ _ Hinv)|].
  destruct (find_spec n rank M (S M) parent x rx Hinv Hx Hrx)
    as (_ & r & _ & Hr & Hrn & _); [lia|].
  by exists r.
Qed.

Lemma is_root_iff parent x : is_root parent x = true ↔ root_of parent x x.
Proof.
  unfold is_root. rewrite bool_decide_eq_true. split.
  - apply root_self.
  - apply root_of_is_root.
Qed.

(** [find] on any vertex keeps the root of every vertex. *)
Lemma find_keeps parent rank M fuel x :
  uf_inv n parent rank M → x < n → M < fuel →
  ∃ parent' r,
    find fuel parent x = Some (parent', r)
    ∧ root_of parent x r ∧ r < n
    ∧ uf_inv n parent' rank M
    ∧ (∀ y ry, y < n → root_of parent' y ry ↔ root_of parent y ry)
    ∧ roots n parent' = roots n parent.
Proof.
  intros Hinv Hx Hfuel.
  destruct (lookup_lt_is_Some_2 rank x) as [rx Hrx];
    [by rewrite (uf_len_r _ _ _ _ Hinv)|].
  destruct (find_spec n rank M fuel parent x rx Hinv Hx Hrx)
    as (parent' & r & Hfind & Hr & Hrn & Hinv' & Hkeep); [lia|].
  assert (Hiff : ∀ y ry, y < n → root_of parent' y ry ↔ root_of parent y ry).
  { intros y ry Hy. split; [|apply Hkeep]. intros Hy'.
    destruct (root_exists parent rank M y Hinv Hy) as (r0 & Hr0 & _).
    by rewrite (root_of_fun _ _ _ _ Hy' (Hkeep _ _ Hr0)). }
  exists parent', r. repeat (split; [done|]).
  unfold roots. apply count_ext. intros y Hy%elem_of_seq.
  apply eq_true_iff_eq. rewrite !is_root_iff. apply Hiff. lia.
Qed.

Lemma find_root parent fuel x :
  parent !! x = Some x → find (S fuel) parent x = Some (parent, x).
Proof.
  intros Hx. cbn [find]. rewrite Hx. cbn [mbind option_bind].
  by rewrite bool_decide_eq_false_2 by (intros ?; done).
Qed.

(** Hanging the root [a] under the root [b]. *)
Lemma link_root parent a b :
  parent !! a = Some a → parent !! b = Some b → a ≠ b →
  ∀ z rz, root_of parent z rz →
    root_of (<[a := b]> parent) z (if decide (rz = a) then b else rz).
Proof.
  intros Ha Hb Hab z rz Hz.
  assert (Hla : a < length parent) by (by apply lookup_lt_Some in Ha).
  induction Hz as [z Hzz|z p r Hzp Hpz Hr IH].
  - destruct (decide (z = a)) as [->|Hne].
    + eapply root_up; [by rewrite list_lookup_insert_eq|done|].
      apply root_self. by rewrite list_lookup_insert_ne.
    + apply root_self. by rewrite list_lookup_insert_ne.
  - assert (z ≠ a) by congruence.
    eapply root_up; [by rewrite list_lookup_insert_ne|done|done].
Qed.

Lemma link_roots parent rank M a b :
  uf_inv n parent rank M →
  parent !! a = Some a → parent !! b = Some b → a ≠ b → a < n →
  roots n (<[a := b]> parent) + 1 = roots n parent.
Proof.
  intros Hinv Ha Hb Hab Han.
  assert (Hla : a < length parent) by (by apply lookup_lt_Some in Ha).
  unfold roots. apply (count_remove _ _ _ a).
  - apply NoDup_seq.
  - apply elem_of_seq. lia.
  - by apply bool_decide_eq_true.
  - apply bool_decide_eq_false. rewrite list_lookup_insert_eq by done. congruence.
  - intros x _ Hx. unfold is_root. by rewrite list_lookup_insert_ne.
Qed.

(** [union] on two different roots hangs one under the other. *)
Lemma union_links parent rank M fuel x y :
  uf_inv n parent rank M → x < n → y < n →
  parent !! x = Some x → parent !! y = Some y → x ≠ y → M < fuel →
  ∃ parent' rank' a b,
    union fuel parent rank x y = Some (parent', rank')
    ∧ uf_inv n parent' rank' (M + 1)
    ∧ parent' = <[a := b]> parent
    ∧ ((a = x ∧ b = y) ∨ (a = y ∧ b = x)).
Proof.
  intros Hinv Hx Hy Hpx Hpy Hxy Hfuel.
  destruct (union_spec n parent rank M fuel x y Hinv Hx Hy Hpx Hpy Hxy Hfuel)
    as (parent' & rank' & Hu & Hinv').
  exists parent', rank'. pose proof Hu as Hu0. unfold union in Hu.
  destruct fuel as [|fuel]; [lia|].
  rewrite (find_root parent fuel x Hpx) in Hu. cbn [mbind option_bind] in Hu.
  rewrite (find_root parent fuel y Hpy) in Hu. cbn [mbind option_bind] in Hu.
  destruct (rank !! x) as [rx|]; [|done]. destruct (rank !! y) as [ry|]; [|done].
  cbn [mbind option_bind] in Hu.
  repeat case_bool_decide; injection Hu as <- <-.
  - exists x, y. split; [done|]. split; [done|]. split; [done|]. by left.
  - exists y, x. split; [done|]. split; [done|]. split; [done|]. by right.
  - exists y, x. split; [done|]. split; [done|]. split; [done|]. by right.
Qed.
End Roots.


(** *** The invariant of the main loop *)

Section Forest.
Variable vertices : nat.
Variable edges : list Edge.

(** [seen] are the edges examined so far. *)
Record forest_inv (st : State) (seen : list Edge) : Prop := mkForest {
  fi_uf : uf_inv vertices (st_parent st) (st_rank st) (length (st_mstEdges st));
  fi_sub : sublist (st_mstEdges st) seen;
  fi_valid : Forall (λ e, from e < vertices ∧ to e < vertices) seen;
  fi_conn : ∀ x y, x < vertices → y < vertices →
    (∃ r, root_of (st_parent st) x r ∧ root_of (st_parent st) y r)
    ↔ connected (st_mstEdges st) x y;
  fi_roots : roots vertices (st_parent st) + length (st_mstEdges st) = vertices;
  fi_forest : forest (st_mstEdges st);
  fi_seen : ∀ e, e ∈ seen → connected (st_mstEdges st) (from e) (to e);
  fi_weight : st_totalWeight st = total_weight (st_mstEdges st);
  fi_light : ∀ e, e ∈ seen →
    connected (light (weight e) (st_mstEdges st)) (from e) (to e)
}.

Lemma sublist_elem (l k : list Edge) e : sublist l k → e ∈ l → e ∈ k.
Proof. intros Hs He. by eapply elem_of_sublist. Qed.

Lemma examine_forest edge st seen :
  forest_inv st seen → from edge < vertices → to edge < vertices →
  length (st_mstEdges st) < length edges + 1 →
  Forall (λ k, (weight k ≤ weight edge)%Z) seen →
  ∃ st',
    examine vertices edges edge st
    = Some (st', bool_decide (Z.of_nat (length (st_mstEdges st'))
                              ≠ Z.of_nat vertices - 1)%Z)
    ∧ forest_inv st' (seen ++ [edge])
    ∧ length (st_mstEdges st') ≤ length (st_mstEdges st) + 1.
Proof.
  intros Hinv Hf Ht Hfuel Hsorted. unfold examine.
  set (fuel := length edges + 1) in *.
  pose proof (fi_uf _ _ Hinv) as Huf.
  destruct (find_keeps vertices _ _ _ fuel (from edge) Huf Hf)
    as (parent1 & rootX & -> & HrX & HXn & Huf1 & Hiff1 & Hroots1); [lia|].
  cbn [mbind option_bind].
  destruct (find_keeps vertices _ _ _ fuel (to edge) Huf1 Ht)
    as (parent2 & rootY & -> & HrY & HYn & Huf2 & Hiff2 & Hroots2); [lia|].
  cbn [mbind option_bind].
  assert (Hiff : ∀ y ry, y < vertices →
            root_of parent2 y ry ↔ root_of (st_parent st) y ry).
  { intros y ry Hy. by rewrite Hiff2, Hiff1. }
  assert (HX2 : root_of parent2 (from edge) rootX) by (by apply Hiff).
  assert (HY2 : root_of parent2 (to edge) rootY) by (by apply Hiff2).
  assert (HY0 : root_of (st_parent st) (to edge) rootY) by (by apply Hiff1).
  assert (Hmst : Forall (λ e, from e < vertices ∧ to e < vertices) (st_mstEdges st)).
  { apply Forall_forall. intros e He.
    pose proof (fi_valid _ _ Hinv) as Hv. rewrite Forall_forall in Hv.
    apply Hv. eapply sublist_elem; [apply Hinv|done]. }
  case_bool_decide as Hne.
  - destruct (union_links vertices parent2 (st_rank st) _ fuel rootX rootY Huf2)
      as (parent3 & rank3 & a & b & -> & Huf3 & -> & Hab); [done|done| | |done|lia|].
    { by eapply root_of_is_root. }
    { by eapply root_of_is_root. }
    cbn [mbind option_bind]. eexists. split; [reflexivity|].
    cbn [st_mstEdges]. split; [|rewrite length_app; cbn; lia].
    assert (Hpa : parent2 !! a = Some a).
    { destruct Hab as [[-> _]|[-> _]]; by eapply root_of_is_root. }
    assert (Hpb : parent2 !! b = Some b).
    { destruct Hab as [[_ ->]|[_ ->]]; by eapply root_of_is_root. }
    assert (Hanb : a ≠ b) by (destruct Hab as [[-> ->]|[-> ->]]; done).
    assert (Han : a < vertices) by (destruct Hab as [[-> _]|[-> _]]; done).
    (* the root of a vertex after the link *)
    assert (Hnew : ∀ z, z < vertices →
              ∃ rz, root_of parent2 z rz
                    ∧ root_of (<[a := b]> parent2) z (if decide (rz = a) then b else rz)).
    { intros z Hz. destruct (root_exists vertices _ _ _ z Huf2 Hz) as (rz & Hrz & _).
      exists rz. split; [done|]. by apply link_root. }
    assert (Hends : (if decide (rootX = a) then b else rootX) = b
                    ∧ (if decide (rootY = a) then b else rootY) = b).
    { destruct Hab as [[-> ->]|[-> ->]]; split; repeat case_decide; congruence. }
    set (mst' := st_mstEdges st ++ [edge]).
    assert (Hmono : ∀ x y, connected (st_mstEdges st) x y → connected mst' x y).
    { intros x y. apply connected_mono. intros e He. apply elem_of_app. by left. }
    assert (Hedge : connected mst' (from edge) (to edge)).
    { apply (connected_edge _ edge); [|by left]. apply elem_of_app. right. left. }
    (* a vertex whose old root is one of the two is joined to [from edge] *)
    assert (Hjoin : ∀ z rz, z < vertices → root_of parent2 z rz →
              rz = rootX ∨ rz = rootY → connected mst' z (from edge)).
    { intros z rz Hz Hrz [->| ->].
      - apply Hmono, (fi_conn _ _ Hinv); [done|done|].
        exists rootX. split; [by apply Hiff|done].
      - eapply connected_trans; [|apply connected_sym, Hedge].
        apply Hmono, (fi_conn _ _ Hinv); [done|done|].
        exists rootY. split; [by apply Hiff|done]. }
    split; cbn [st_parent st_rank st_mstEdges st_totalWeight]; fold mst'.
    + unfold mst'. rewrite length_app. exact Huf3.
    + apply sublist_app; [apply Hinv|done].
    + apply Forall_app. split; [apply Hinv|]. by repeat constructor.
    + intros x y Hx Hy. split.
      * intros (r & Hxr & Hyr).
        destruct (Hnew x Hx) as (rx & Hrx & Hrx').
        destruct (Hnew y Hy) as (ry & Hry & Hry').
        pose proof (root_of_fun _ _ _ _ Hxr Hrx') as E1.
        pose proof (root_of_fun _ _ _ _ Hyr Hry') as E2.
        destruct (decide (rx = ry)) as [<-|Hdiff].
        { apply Hmono, (fi_conn _ _ Hinv); [done|done|].
          exists rx. split; by apply Hiff. }
        assert (Hin : (rx = rootX ∨ rx = rootY) ∧ (ry = rootX ∨ ry = rootY)).
        { subst r. repeat case_decide; destruct Hab as [[-> ->]|[-> ->]];
            subst; try congruence; auto. }
        destruct Hin as [Hinx Hiny].
        eapply connected_trans; [by eapply Hjoin|].
        apply connected_sym. by eapply Hjoin.
      * intros Hc. revert Hx. clear Hy.
        induction Hc as [x|x y z e Hxy IH He Hl]; intros Hx.
        { destruct (Hnew x Hx) as (rx & _ & Hrx). eauto. }
        destruct (IH Hx) as (r & Hxr & Hyr). exists r. split; [done|].
        assert (Hy : y < vertices).
        { eapply (connected_range vertices mst'); [|done|done].
          apply Forall_app. split; [done|]. by repeat constructor. }
        destruct (Hnew y Hy) as (ry & Hry & Hry').
        rewrite (root_of_fun _ _ _ _ Hyr Hry').
        apply elem_of_app in He as [He|He].
        2:{ apply list_elem_of_singleton in He as ->.
            destruct Hends as [EX EY].
            destruct Hl as [[<- <-]|[<- <-]].
            - rewrite (root_of_fun _ _ _ _ Hry HX2), EX.
              pose proof (link_root parent2 a b Hpa Hpb Hanb _ _ HY2) as H.
              by rewrite EY in H.
            - rewrite (root_of_fun _ _ _ _ Hry HY2), EY.
              pose proof (link_root parent2 a b Hpa Hpb Hanb _ _ HX2) as H.
              by rewrite EX in H. }
        assert (Hz : z < vertices).
        { rewrite Forall_forall in Hmst. destruct (Hmst e He).
          destruct Hl as [[_ <-]|[<- _]]; done. }
        destruct (proj2 (fi_conn _ _ Hinv y z Hy Hz)) as (r0 & Hy0 & Hz0).
        { by eapply connected_edge. }
        apply Hiff in Hy0; [|done]. apply Hiff in Hz0; [|done].
        rewrite (root_of_fun _ _ _ _ Hry Hy0). by apply link_root.
    + pose proof (link_roots vertices parent2 _ _ a b Huf2 Hpa Hpb Hanb Han).
      pose proof (fi_roots _ _ Hinv). unfold mst'. rewrite length_app. cbn. lia.
    + apply forest_snoc; [apply Hinv|]. intros Hc.
      apply (fi_conn _ _ Hinv) in Hc as (r & Hfr & Htr); [|done..].
      apply Hne. rewrite (root_of_fun _ _ _ _ HrX Hfr).
      by rewrite (root_of_fun _ _ _ _ HY0 Htr).
    + intros e [He| ->%list_elem_of_singleton]%elem_of_app; [|done].
      by apply Hmono, (fi_seen _ _ Hinv).
    + unfold mst'. rewrite total_weight_snoc. by rewrite (fi_weight _ _ Hinv).
    + intros e [He| ->%list_elem_of_singleton]%elem_of_app.
      * eapply connected_mono; [|by apply (fi_light _ _ Hinv)].
        intros k Hk. unfold light, mst'. rewrite filter_app.
        apply elem_of_app. by left.
      * apply (connected_edge _ edge); [|by left].
        apply list_elem_of_filter. split; [lia|].
        apply elem_of_app. right. left.
  - assert (rootX = rootY) as <-
      by (destruct (decide (rootX = rootY)); [done|contradiction]).
    cbn [mbind option_bind]. eexists. split; [reflexivity|].
    cbn [st_mstEdges]. split; [|lia].
    split; cbn [st_parent st_rank st_mstEdges st_totalWeight].
    + done.
    + apply sublist_inserts_r. apply Hinv.
    + apply Forall_app. split; [apply Hinv|]. by repeat constructor.
    + intros x y Hx Hy. rewrite <- (fi_conn _ _ Hinv) by done.
      split; intros (r & Hxr & Hyr); exists r; split; by apply Hiff.
    + rewrite Hroots2, Hroots1. apply Hinv.
    + apply Hinv.
    + intros e [He| ->%list_elem_of_singleton]%elem_of_app;
        [by apply (fi_seen _ _ Hinv)|].
      apply (fi_conn _ _ Hinv); [done|done|]. by exists rootX.
    + apply Hinv.
    + intros e [He| ->%list_elem_of_singleton]%elem_of_app;
        [by apply (fi_light _ _ Hinv)|].
      eapply (connected_mono (st_mstEdges st)).
      * intros k Hk. apply list_elem_of_filter. split; [|done].
        rewrite Forall_forall in Hsorted. apply Hsorted.
        eapply sublist_elem; [apply Hinv|done].
      * apply (fi_conn _ _ Hinv); [done|done|]. by exists rootX.
Qed.

Lemma edge_loop_forest l : ∀ st seen,
  forest_inv st seen →
  Forall (λ e, from e < vertices ∧ to e < vertices) l →
  length (st_mstEdges st) + length l ≤ length edges →
  StronglySorted by_weight (seen ++ l) →
  ∃ st' l1,
    edge_loop vertices edges l st = Some st'
    ∧ forest_inv st' (seen ++ l1)
    ∧ l1 `prefix_of` l
    ∧ (l1 = l ∨ (Z.of_nat (length (st_mstEdges st')) = Z.of_nat vertices - 1)%Z).
Proof.
  induction l as [|e l IH]; intros st seen Hinv Hl Hlen Hsorted.
  - exists st, []. rewrite app_nil_r. split; [done|]. split; [done|].
    split; [done|by left].
  - apply Forall_cons in Hl as [[Hf Ht] Hl]. cbn [length] in Hlen.
    destruct (examine_forest e st seen Hinv Hf Ht) as (st1 & Hex & Hinv1 & Hlen1);
      [lia| |].
    { apply Forall_forall. intros k Hk.
      apply (StronglySorted_app_1_elem_of by_weight seen (e :: l)); [done|done|left]. }
    cbn [edge_loop]. rewrite Hex. cbn [mbind option_bind].
    case_bool_decide as Hfull.
    + destruct (IH st1 (seen ++ [e]) Hinv1 Hl) as (st' & l1 & -> & Hinv' & Hpre & Hend);
        [lia|by rewrite <- app_assoc|].
      exists st', (e :: l1). split; [done|].
      split; [by rewrite cons_middle, app_assoc|].
      split; [by apply prefix_cons|].
      destruct Hend as [->|Hend]; auto.
    + exists st1, [e]. split; [done|]. split; [done|].
      split; [by apply prefix_cons, prefix_nil|]. right.
      destruct (decide (Z.of_nat (length (st_mstEdges st1)) = Z.of_nat vertices - 1)%Z);
        [done|contradiction].
Qed.

Lemma count_all n : count (is_root (seq 0 n)) (seq 0 n) = n.
Proof.
  enough (∀ l, (∀ x, x ∈ l → x < n) → count (is_root (seq 0 n)) l = length l) as H.
  { rewrite H; [by rewrite length_seq|]. intros x Hx%elem_of_seq. lia. }
  induction l as [|x l IH]; intros Hl; cbn; [done|].
  unfold is_root at 1. rewrite bool_decide_eq_true_2.
  - rewrite IH; [done|]. intros y Hy. apply Hl. by right.
  - apply lookup_seq. split; [done|]. apply Hl. left.
Qed.

Lemma initial_forest :
  forest_inv (mkState (seq 0 vertices) (replicate vertices 0) [] 0
                (push [] (λ c, mkStep c SortedEdges (sort_by_weight edges) None []
                                 (seq 0 vertices) false 0))) [].
Proof.
  split; cbn [st_parent st_rank st_mstEdges st_totalWeight].
  - split.
    + by rewrite length_seq.
    + by rewrite length_replicate.
    + intros x p Hx. apply lookup_seq in Hx as [-> Hx]. cbn. split; [done|]. done.
    + intros x rx Hx. apply lookup_replicate in Hx as [-> _]. cbn. lia.
  - done.
  - done.
  - intros x y Hx Hy. split.
    + intros (r & Hxr & Hyr).
      assert (Hself : ∀ z, z < vertices → root_of (seq 0 vertices) z z).
      { intros z Hz. apply root_self. by apply lookup_seq. }
      rewrite <- (root_of_fun _ _ _ _ (Hself x Hx) Hxr) in Hyr.
      rewrite (root_of_fun _ _ _ _ (Hself y Hy) Hyr). apply conn_refl.
    + intros Hc. assert (x = y) as <-.
      { induction Hc as [|x y z e _ _ He _]; [done|]. by apply elem_of_nil in He. }
      exists x. split; apply root_self; by apply lookup_seq.
  - cbn. unfold roots. rewrite count_all. lia.
  - constructor.
  - intros e He. by apply elem_of_nil in He.
  - done.
  - intros e He. by apply elem_of_nil in He.
Qed.
End Forest.

(** The state in which the loop over the sorted edges ends. *)
Lemma final_forest (vertices : nat) (edges : list Edge) :
  valid_graph vertices edges →
  ∃ st seen,
    edge_loop vertices edges (sort_by_weight edges)
      (mkState (seq 0 vertices) (replicate vertices 0) [] 0
         (push [] (λ c, mkStep c SortedEdges (sort_by_weight edges) None []
                          (seq 0 vertices) false 0))) = Some st
    ∧ forest_inv vertices st seen
    ∧ sublist (st_mstEdges st) (sort_by_weight edges)
    ∧ (∀ e, e ∈ st_mstEdges st → e ∈ edges)
    ∧ (∀ e, e ∈ edges →
         connected (light (weight e) (st_mstEdges st)) (from e) (to e)).
Proof.
  intros Hvalid.
  pose proof (sort_by_weight_perm edges) as Hperm.
  pose proof (sort_by_weight_sorted edges) as Hsort.
  assert (Hsorted : Forall (λ e, from e < vertices ∧ to e < vertices)
                      (sort_by_weight edges)) by (by rewrite Hperm).
  destruct (edge_loop_forest vertices edges (sort_by_weight edges) _ []
              (initial_forest vertices edges) Hsorted)
    as (st & l1 & Hrun & Hinv & Hpre & Hend).
  { cbn. by rewrite Hperm. }
  { done. }
  cbn [app] in Hinv. exists st, l1. split; [done|]. split; [done|].
  destruct Hpre as [rest Hrest].
  assert (Hsub : ∀ e, e ∈ st_mstEdges st → e ∈ edges).
  { intros e He. rewrite <- Hperm, Hrest.
    apply elem_of_app. left. eapply sublist_elem; [apply Hinv|done]. }
  split; [rewrite Hrest; apply sublist_inserts_r, Hinv|]. split; [done|].
  intros e He. rewrite <- Hperm, Hrest in He.
  apply elem_of_app in He as [He|He]; [by apply (fi_light _ _ _ Hinv)|].
  destruct Hend as [->|Hfull].
  { apply (f_equal length) in Hrest. rewrite length_app in Hrest.
    destruct rest; [by apply elem_of_nil in He|cbn in Hrest; lia]. }
  assert (He' : e ∈ edges).
  { rewrite <- Hperm, Hrest. apply elem_of_app. by right. }
  unfold valid_graph in Hvalid. rewrite Forall_forall in Hvalid.
  destruct (Hvalid e He') as [Hf Ht].
  pose proof (fi_roots _ _ _ Hinv) as Hroots.
  assert (H1 : roots vertices (st_parent st) = 1) by lia.
  destruct (root_exists vertices _ _ _ (from e) (fi_uf _ _ _ Hinv) Hf)
    as (rf & Hrf & Hrfn).
  destruct (root_exists vertices _ _ _ (to e) (fi_uf _ _ _ Hinv) Ht)
    as (rt & Hrt & Hrtn).
  eapply (connected_mono (st_mstEdges st)).
  - intros k Hk. apply list_elem_of_filter. split; [|done].
    rewrite Hrest in Hsort.
    apply (StronglySorted_app_1_elem_of by_weight l1 rest); [done| |done].
    eapply sublist_elem; [apply Hinv|done].
  - apply (fi_conn _ _ _ Hinv); [done|done|]. exists rf. split; [done|].
    replace rf with rt; [done|].
    apply (count_one (is_root (st_parent st)) (seq 0 vertices)); try done.
    + apply elem_of_seq. lia.
    + apply elem_of_seq. lia.
    + apply is_root_iff. apply root_self. by eapply root_of_is_root.
    + apply is_root_iff. apply root_self. by eapply root_of_is_root.
Qed.

(** On a graph whose edges join vertices, [kruskalMST] returns; the accepted
    edges of its last step are taken from the sorted list in its order,
    none of them closes a cycle with those accepted before, they join
    exactly the vertices that the edges of the graph join, [totalWeight] is
    the sum of their weights, and the recorded union-find forest has as
    many roots as accepted edges are missing from [vertices]. *)
Theorem kruskal_builds_spanning_forest (vertices : nat) (edges : list Edge) :
  valid_graph vertices edges →
  ∃ trace final,
    kruskalMST vertices edges = Some trace
    ∧ last trace = Some final
    ∧ sublist (mstEdges final) (sort_by_weight edges)
    ∧ forest (mstEdges final)
    ∧ (∀ x y, connected edges x y ↔ connected (mstEdges final) x y)
    ∧ totalWeight final = total_weight (mstEdges final)
    ∧ roots vertices (parent final) + length (mstEdges final) = vertices.
Proof.
  intros Hvalid. unfold kruskalMST.
  destruct (final_forest vertices edges Hvalid)
    as (st & seen & -> & Hinv & Hsorted & Hsub & Hlight).
  cbn [mbind option_bind]. eexists _, _. split; [reflexivity|].
  unfold push at 1. rewrite last_snoc. split; [reflexivity|].
  cbn [mstEdges totalWeight parent].
  split; [done|]. split; [apply Hinv|]. split; [|split; apply Hinv].
  intros x y. split; [|by apply connected_mono].
  apply connected_through. intros e He.
  eapply connected_mono; [|by apply Hlight]. intros k. apply light_elem.
Qed.

Lemma kruskal_builds_spanning_forest_witness :
  ∃ trace final,
    kruskalMST 6 default_edges = Some trace
    ∧ last trace = Some final
    ∧ sublist (mstEdges final) (sort_by_weight default_edges)
    ∧ forest (mstEdges final)
    ∧ (∀ x y, connected default_edges x y ↔ connected (mstEdges final) x y)
    ∧ totalWeight final = total_weight (mstEdges final)
    ∧ roots 6 (parent final) + length (mstEdges final) = 6.
Proof.
  apply (kruskal_builds_spanning_forest 6 default_edges).
  repeat constructor; cbn; lia.
Defined.

(** On a graph whose edges join vertices, the [totalWeight] that
    [kruskalMST] reports is the least possible: any cycle-free choice of
    edges of the graph that joins all the vertices the graph joins weighs
    at least as much. *)
Theorem kruskal_weight_is_minimum (vertices : nat) (edges : list Edge) :
  valid_graph vertices edges →
  ∃ trace final,
    kruskalMST vertices edges = Some trace
    ∧ last trace = Some final
    ∧ description final = Complete (totalWeight final)
    ∧ ∀ T, forest T →
           (∀ e, e ∈ T → e ∈ edges) →
           (∀ x y, connected edges x y → connected T x y) →
           (totalWeight final ≤ total_weight T)%Z.
Proof.
  intros Hvalid. unfold kruskalMST.
  destruct (final_forest vertices edges Hvalid)
    as (st & seen & -> & Hinv & Hsorted & Hsub & Hlight).
  cbn [mbind option_bind]. eexists _, _. split; [reflexivity|].
  unfold push at 1. rewrite last_snoc. split; [reflexivity|].
  cbn [mstEdges totalWeight description]. split; [done|].
  intros T HT HTsub HTspan.
  rewrite (fi_weight _ _ _ Hinv).
  unfold valid_graph in Hvalid. rewrite Forall_forall in Hvalid.
  apply (light_forest_le vertices); [apply Hinv|done| | | |].
  - apply Forall_forall. intros e He. by apply Hvalid, Hsub.
  - apply Forall_forall. intros e He. by apply Hvalid, HTsub.
  - intros e He. by apply Hlight, HTsub.
  - intros e He. apply HTspan. apply (connected_edge _ e); [by apply Hsub|by left].
Qed.

Lemma kruskal_weight_is_minimum_witness :
  ∃ trace final,
    kruskalMST 6 default_edges = Some trace
    ∧ last trace = Some final
    ∧ description final = Complete (totalWeight final)
    ∧ ∀ T, forest T →
           (∀ e, e ∈ T → e ∈ default_edges) →
           (∀ x y, connected default_edges x y → connected T x y) →
           (totalWeight final ≤ total_weight T)%Z.
Proof.
  apply (kruskal_weight_is_minimum 6 default_edges).
  repeat constructor; cbn; lia.
Defined.

End KruskalForest.

(** ** Prim (PrimVisualizer) *)

Module Prim.

Inductive Description :=
| Start (v : nat)
| FindMinimum (edge : Edge)
| AddVertex (v : nat) (edge : Edge)
| Complete (totalWeight : Z).

Record PrimStep := mkStep {
  step : nat;
  description : Description;
  visited : list bool;
  mstEdges : list Edge;
  currentVertex : option nat;
  minEdge : option Edge;
  totalWeight : Z;
  availableEdges : list Edge
}.

(** The mutable locals of [primMST]. *)
Record State := mkState {
  st_visited : list bool;
  st_mstEdges : list Edge;
  st_totalWeight : Z;
  st_steps : list PrimStep
}.

Section Algorithm.
Variable vertices : nat.
Variable edges : list Edge.
Variable startVertex : nat.

(** The adjacency list is built as in the Dijkstra component. *)
Let adjList := Dijkstra.build_adjList vertices edges.

(** [visited[v]] as a condition; [undefined] is falsy. *)
Definition is_visited (visited : list bool) (v : nat) : bool :=
  default false (visited !! v).

(** [getAvailableEdges]: the entries of the adjacency lists of the visited
    vertices that lead to an unvisited vertex, in the order of the scan,
    then sorted by weight (the sort is stable). *)
Definition getAvailableEdges (visited : list bool) : list Edge :=
  Kruskal.sort_by_weight
    (flat_map (λ i,
                 if is_visited visited i then
                   filter (λ edge, is_visited visited (to edge) = false)
                          (default [] (adjList !! i))
                 else [])
              (seq 0 vertices)).

(** [while (mstEdges.length < vertices - 1)], with fuel. *)
Fixpoint grow (fuel : nat) (st : State) : option State :=
  if bool_decide (Z.of_nat (length (st_mstEdges st)) < Z.of_nat vertices - 1)%Z
  then
    match fuel with
    | 0 => None
    | S fuel' =>
        let available := getAvailableEdges (st_visited st) in
        match available with
        | [] => Some st
        | minEdge :: _ =>
            let steps := push (st_steps st) (λ c,
              mkStep c (FindMinimum minEdge) (st_visited st) (st_mstEdges st)
                     None (Some minEdge) (st_totalWeight st) available) in
            let visited := <[to minEdge := true]> (st_visited st) in
            let mstEdges := st_mstEdges st ++ [minEdge] in
            let totalWeight := (st_totalWeight st + weight minEdge)%Z in
            let steps := push steps (λ c,
              mkStep c (AddVertex (to minEdge) minEdge) visited mstEdges
                     (Some (to minEdge)) None totalWeight
                     (getAvailableEdges visited)) in
            grow fuel' (mkState visited mstEdges totalWeight steps)
        end
    end
  else Some st.

(** [primMST]: the trace handed to [setSteps]. *)
Definition primMST : option (list PrimStep) :=
  let visited := <[startVertex := true]> (replicate vertices false) in
  let steps := push [] (λ c,
    mkStep c (Start startVertex) visited [] (Some startVertex) None 0
           (getAvailableEdges visited)) in
  st ← grow vertices (mkState visited [] 0 steps);
  Some (push (st_steps st) (λ c,
    mkStep c (Complete (st_totalWeight st)) (st_visited st) (st_mstEdges st)
           None None (st_totalWeight st) [])).
End Algorithm.

(** The default graph of the component. *)
Definition default_edges : list Edge := Dijkstra.default_edges.

(** An entry of the adjacency list: an edge of the graph, as given or
    reversed. *)
Definition entry (edges : list Edge) (e : Edge) : Prop :=
  ∃ e0, e0 ∈ edges ∧ (e = e0 ∨ e = Dijkstra.reversed e0).

(** An entry that leaves the visited vertices. *)
Definition crossing (edges : list Edge) (visited : list bool) (e : Edge) : Prop :=
  entry edges e
  ∧ is_visited visited (from e) = true ∧ is_visited visited (to e) = false.

(** What a step shows about the available edges. *)
Definition step_ok (edges : list Edge) (s : PrimStep) : Prop :=
  StronglySorted Kruskal.by_weight (availableEdges s)
  ∧ (∀ e, e ∈ availableEdges s ↔ crossing edges (visited s) e)
  ∧ match description s with
    | FindMinimum e =>
        minEdge s = Some e ∧ head (availableEdges s) = Some e
        ∧ ∀ e', crossing edges (visited s) e' → (weight e ≤ weight e')%Z
    | AddVertex v e =>
        currentVertex s = Some v ∧ to e = v ∧ last (mstEdges s) = Some e
        ∧ is_visited (visited s) v = true
    | _ => True
    end.

Import Forests.

Lemma adj_spec_elem edges u e :
  e ∈ Dijkstra.adj_spec edges u
  ↔ ∃ e0, e0 ∈ edges
          ∧ ((from e0 = u ∧ e = e0) ∨ (to e0 = u ∧ e = Dijkstra.reversed e0)).
Proof.
  unfold Dijkstra.adj_spec. rewrite list_elem_of_In, in_flat_map. split.
  - intros (e0 & He0%list_elem_of_In & Hin%list_elem_of_In). exists e0. split; [done|].
    apply elem_of_app in Hin as [Hin|Hin]; case_decide;
      try (by apply elem_of_nil in Hin);
      apply list_elem_of_singleton in Hin as ->; auto.
  - intros (e0 & He0 & Hor). exists e0. split; [by apply list_elem_of_In|].
    apply list_elem_of_In, elem_of_app.
    destruct Hor as [[Hf ->]|[Ht ->]]; [left|right];
      rewrite decide_True by done; left.
Qed.

Lemma is_visited_lt visited v : is_visited visited v = true → v < length visited.
Proof.
  unfold is_visited. intros H. apply lookup_lt_is_Some.
  destruct (visited !! v); [eauto|done].
Qed.

Lemma is_visited_insert visited b v :
  b < length visited →
  is_visited (<[b := true]> visited) v
  = if decide (v = b) then true else is_visited visited v.
Proof.
  intros Hb. unfold is_visited. case_decide as Hv.
  - subst v. by rewrite list_lookup_insert_eq.
  - by rewrite list_lookup_insert_ne.
Qed.

Section Proofs.
Variable vertices : nat.
Variable edges : list Edge.
Hypothesis Hvalid : valid_graph vertices edges.

Lemma entry_valid e : entry edges e → from e < vertices ∧ to e < vertices.
Proof.
  intros (e0 & He0 & Hor). unfold valid_graph in Hvalid.
  rewrite Forall_forall in Hvalid. destruct (Hvalid e0 He0).
  destruct Hor as [->| ->]; cbn; done.
Qed.

Lemma entry_connected e : entry edges e → connected edges (from e) (to e).
Proof.
  intros (e0 & He0 & Hor). apply (connected_edge _ e0); [done|].
  destruct Hor as [->| ->]; [by left|by right].
Qed.

Lemma available_iff visited e :
  e ∈ getAvailableEdges vertices edges visited ↔ crossing edges visited e.
Proof.
  unfold getAvailableEdges. rewrite (Kruskal.sort_by_weight_perm _).
  rewrite list_elem_of_In, in_flat_map. split.
  - intros (i & Hi%list_elem_of_In%elem_of_seq & Hin%list_elem_of_In).
    destruct (is_visited visited i) eqn:Hv; [|by apply elem_of_nil in Hin].
    apply list_elem_of_filter in Hin as [Hto Hin].
    rewrite Dijkstra.build_adjList_lookup in Hin by lia. cbn in Hin.
    apply adj_spec_elem in Hin as (e0 & He0 & Hor).
    assert (from e = i) as Hfe by (destruct Hor as [[? ->]|[? ->]]; done).
    split; [exists e0; split; [done|tauto]|]. by rewrite Hfe.
  - intros (Hen & Hf & Ht). destruct (entry_valid e Hen) as [Hfn _].
    exists (from e). split; [apply list_elem_of_In, elem_of_seq; lia|].
    rewrite Hf. apply list_elem_of_In, list_elem_of_filter. split; [done|].
    rewrite Dijkstra.build_adjList_lookup by done. cbn.
    apply adj_spec_elem. destruct Hen as (e0 & He0 & Hor). exists e0.
    split; [done|]. destruct Hor as [->| ->]; auto.
Qed.

Lemma available_sorted visited :
  StronglySorted Kruskal.by_weight (getAvailableEdges vertices edges visited).
Proof. apply Kruskal.sort_by_weight_sorted. Qed.

Lemma available_head visited f rest :
  getAvailableEdges vertices edges visited = f :: rest →
  crossing edges visited f
  ∧ ∀ e, crossing edges visited e → (weight f ≤ weight e)%Z.
Proof.
  intros Hav. split.
  - apply available_iff. rewrite Hav. left.
  - intros e He%available_iff. pose proof (available_sorted visited) as Hs.
    rewrite Hav in He, Hs. apply StronglySorted_inv in Hs as [_ Hall].
    apply elem_of_cons in He as [->|He]; [lia|].
    rewrite Forall_forall in Hall. by apply Hall.
Qed.
End Proofs.

Section Invariant.
Variable vertices : nat.
Variable edges : list Edge.
Variable startVertex : nat.
Hypothesis Hvalid : valid_graph vertices edges.
Hypothesis Hstart : startVertex < vertices.

Record prim_inv (st : State) : Prop := mkInv {
  pi_len : length (st_visited st) = vertices;
  pi_start : is_visited (st_visited st) startVertex = true;
  pi_conn : ∀ v, is_visited (st_visited st) v = true
                 ↔ connected (st_mstEdges st) startVertex v;
  pi_ends : ∀ e, e ∈ st_mstEdges st →
    is_visited (st_visited st) (from e) = true
    ∧ is_visited (st_visited st) (to e) = true;
  pi_forest : forest (st_mstEdges st);
  pi_edges : ∀ e, e ∈ st_mstEdges st → entry edges e;
  pi_weight : st_totalWeight st = total_weight (st_mstEdges st);
  pi_count : count (is_visited (st_visited st)) (seq 0 vertices)
             = length (st_mstEdges st) + 1;
  pi_inside : ∀ e, e ∈ edges →
    is_visited (st_visited st) (from e) = true →
    is_visited (st_visited st) (to e) = true →
    connected (light (weight e) (st_mstEdges st)) (from e) (to e);
  pi_cross : ∀ e1 e2,
    crossing edges (st_visited st) e1 → crossing edges (st_visited st) e2 →
    connected (light (Z.max (weight e1) (weight e2)) (st_mstEdges st))
              (from e1) (from e2);
  pi_steps : Forall (step_ok edges) (st_steps st)
}.

Lemma initial_inv :
  let visited := <[startVertex := true]> (replicate vertices false) in
  prim_inv (mkState visited [] 0
    (push [] (λ c, mkStep c (Start startVertex) visited [] (Some startVertex)
                     None 0 (getAvailableEdges vertices edges visited)))).
Proof.
  intros visited.
  assert (Hv : ∀ v, is_visited visited v = true ↔ v = startVertex).
  { intros v. unfold visited. rewrite is_visited_insert by (by rewrite length_replicate).
    case_decide; [done|]. unfold is_visited.
    destruct (replicate vertices false !! v) as [b|] eqn:Hb; cbn; [|done].
    apply lookup_replicate in Hb as [-> _]. done. }
  assert (Hnil : ∀ x y, connected [] x y → x = y).
  { induction 1 as [|x y z e _ _ He _]; [done|]. by apply elem_of_nil in He. }
  split; cbn [st_visited st_mstEdges st_totalWeight st_steps].
  - unfold visited. by rewrite length_insert, length_replicate.
  - by apply Hv.
  - intros v. rewrite Hv. split; [intros ->; apply conn_refl|].
    by intros ->%Hnil.
  - intros e He. by apply elem_of_nil in He.
  - constructor.
  - intros e He. by apply elem_of_nil in He.
  - done.
  - cbn. rewrite (count_ext _ (λ v, bool_decide (v = startVertex))).
    + rewrite count_filter.
      assert (filter (λ v, v = startVertex) (seq 0 vertices) ≡ₚ [startVertex]) as ->;
        [|done].
      apply NoDup_Permutation; [apply NoDup_filter, NoDup_seq|apply NoDup_singleton|].
      intros x. rewrite list_elem_of_filter, elem_of_seq, list_elem_of_singleton.
      split; [tauto|]. intros ->. split; [done|lia].
    + intros x _. destruct (is_visited visited x) eqn:E.
      * apply Hv in E. by rewrite bool_decide_eq_true_2.
      * rewrite bool_decide_eq_false_2; [done|]. intros Hx%Hv. congruence.
  - intros e He Hf%Hv Ht%Hv. rewrite Hf, Ht. apply conn_refl.
  - intros e1 e2 (_ & Hf1%Hv & _) (_ & Hf2%Hv & _). rewrite Hf1, Hf2. apply conn_refl.
  - unfold push. cbn. constructor; [|constructor].
    split; [by apply available_sorted|]. split; [|done]. cbn.
    intros e. by apply available_iff.
Qed.

Lemma crossing_insert visited b e :
  b < length visited →
  crossing edges (<[b := true]> visited) e →
  from e = b ∨ crossing edges visited e.
Proof.
  intros Hb (Hen & Hf & Ht). rewrite !is_visited_insert in Hf, Ht by done.
  destruct (decide (from e = b)); [by left|]. right.
  destruct (decide (to e = b)); [done|]. done.
Qed.

(** One turn of the loop. *)
Lemma add_vertex st f rest steps :
  prim_inv st →
  getAvailableEdges vertices edges (st_visited st) = f :: rest →
  Forall (step_ok edges) steps →
  prim_inv (mkState (<[to f := true]> (st_visited st)) (st_mstEdges st ++ [f])
                    (st_totalWeight st + weight f) steps).
Proof.
  intros Hinv Hav Hsteps.
  destruct (available_head vertices edges Hvalid _ _ _ Hav) as [Hcr Hmin].
  destruct Hcr as (Hen & Hff & Hft).
  destruct (entry_valid vertices edges Hvalid f Hen) as [Hfn Htn].
  pose proof (pi_len _ Hinv) as Hlen.
  assert (Hb : to f < length (st_visited st)) by lia.
  set (visited' := <[to f := true]> (st_visited st)).
  set (mst' := st_mstEdges st ++ [f]).
  assert (Hold : ∀ v, is_visited (st_visited st) v = true →
                      is_visited visited' v = true).
  { intros v Hv. unfold visited'. rewrite is_visited_insert by done.
    by case_decide. }
  assert (Hmono : ∀ t x y, connected (light t (st_mstEdges st)) x y →
                           connected (light t mst') x y).
  { intros t x y. apply connected_mono. intros k Hk.
    unfold light, mst'. rewrite filter_app. apply elem_of_app. by left. }
  assert (Hmono0 : ∀ x y, connected (st_mstEdges st) x y → connected mst' x y).
  { intros x y. apply connected_mono. intros k Hk. apply elem_of_app. by left. }
  assert (Hf_in : ∀ t, (weight f ≤ t)%Z → f ∈ light t mst').
  { intros t Ht. apply list_elem_of_filter. split; [done|].
    apply elem_of_app. right. left. }
  split; cbn [st_visited st_mstEdges st_totalWeight st_steps];
    fold visited'; fold mst'.
  - unfold visited'. by rewrite length_insert.
  - apply Hold, Hinv.
  - intros v. split.
    + unfold visited'. rewrite is_visited_insert by done. case_decide as Hv.
      * intros _. subst v. eapply conn_step; [|apply elem_of_app; right; left|by left].
        by apply Hmono0, (pi_conn _ Hinv).
      * intros Hvis. by apply Hmono0, (pi_conn _ Hinv).
    + enough (∀ x y, connected mst' x y → is_visited visited' x = true →
                       is_visited visited' y = true) as Hall.
      { intros Hc. apply (Hall _ _ Hc). apply Hold, Hinv. }
      clear v. induction 1 as [|x y z e Hxy IH He Hl]; [done|]. intros Hx.
      apply elem_of_app in He as [He| ->%list_elem_of_singleton].
      * apply Hold. destruct (pi_ends _ Hinv e He) as [H1 H2].
        destruct Hl as [[_ <-]|[<- _]]; done.
      * destruct Hl as [[_ <-]|[<- _]].
        -- unfold visited'. rewrite is_visited_insert by done. by rewrite decide_True.
        -- by apply Hold.
  - intros e [He| ->%list_elem_of_singleton]%elem_of_app.
    + destruct (pi_ends _ Hinv e He). split; by apply Hold.
    + split; [by apply Hold|]. unfold visited'.
      rewrite is_visited_insert by done. by rewrite decide_True.
  - apply forest_snoc; [apply Hinv|]. intros Hc.
    assert (is_visited (st_visited st) (to f) = true); [|congruence].
    apply (pi_conn _ Hinv). eapply connected_trans; [|exact Hc].
    by apply (pi_conn _ Hinv).
  - intros e [He| ->%list_elem_of_singleton]%elem_of_app; [by apply Hinv|done].
  - unfold mst'. rewrite total_weight_snoc. by rewrite (pi_weight _ Hinv).
  - unfold mst'. rewrite length_app. cbn [length].
    pose proof (pi_count _ Hinv) as Hold_count.
    pose proof (count_remove (is_visited visited') (is_visited (st_visited st))
                  (seq 0 vertices) (to f)) as Hc.
    rewrite <- Hc; [lia|apply NoDup_seq|apply elem_of_seq; lia| |done|].
    + unfold visited'. rewrite is_visited_insert by done. by rewrite decide_True.
    + intros x _ Hx. unfold visited'. rewrite is_visited_insert by done.
      by rewrite decide_False.
  - intros e He. unfold visited'. rewrite !is_visited_insert by done.
    destruct (decide (from e = to f)) as [Hfe|Hfe];
      destruct (decide (to e = to f)) as [Hte|Hte]; intros Hvf Hvt.
    + rewrite Hfe, Hte. apply conn_refl.
    + (* the reversed entry of [e] crossed *)
      assert (Hcr : crossing edges (st_visited st) (Dijkstra.reversed e)).
      { split; [exists e; auto|]. cbn. split; [done|]. by rewrite Hfe. }
      pose proof (Hmin _ Hcr) as Hw. cbn in Hw.
      pose proof (pi_cross _ Hinv _ _ Hcr (conj Hen (conj Hff Hft))) as Hc.
      cbn in Hc. rewrite Z.max_l in Hc by done.
      apply connected_sym. eapply connected_trans; [by apply Hmono|].
      rewrite Hfe. apply (connected_edge _ f); [by apply Hf_in|by left].
    + assert (Hcr : crossing edges (st_visited st) e).
      { split; [exists e; auto|]. split; [done|]. by rewrite Hte. }
      pose proof (Hmin _ Hcr) as Hw.
      pose proof (pi_cross _ Hinv _ _ Hcr (conj Hen (conj Hff Hft))) as Hc.
      rewrite Z.max_l in Hc by done.
      eapply connected_trans; [by apply Hmono|].
      rewrite Hte. apply (connected_edge _ f); [by apply Hf_in|by left].
    + by apply Hmono, (pi_inside _ Hinv).
  - intros e1 e2 Hc1 Hc2.
    assert (Hnew : ∀ e e', from e = to f → crossing edges (st_visited st) e' →
              connected (light (Z.max (weight e) (weight e')) mst') (from e) (from e')).
    { intros e e' Hfe Hcr'. rewrite Hfe.
      pose proof (Hmin _ Hcr') as Hw.
      pose proof (pi_cross _ Hinv _ _ (conj Hen (conj Hff Hft)) Hcr') as Hc.
      rewrite Z.max_r in Hc by done.
      eapply connected_trans.
      - apply connected_sym, (connected_edge _ f); [apply Hf_in; lia|by left].
      - eapply connected_mono; [|by apply Hmono].
        intros k. apply light_mono. lia. }
    apply crossing_insert in Hc1; [|done]. apply crossing_insert in Hc2; [|done].
    destruct Hc1 as [Hc1|Hc1], Hc2 as [Hc2|Hc2].
    + rewrite Hc1, Hc2. apply conn_refl.
    + by apply Hnew.
    + rewrite Z.max_comm. apply connected_sym. by apply Hnew.
    + by apply Hmono, (pi_cross _ Hinv).
  - done.
Qed.
End Invariant.

Lemma count_le_length P l : count P l ≤ length l.
Proof. induction l as [|x l IH]; cbn; [done|]. destruct (P x); lia. Qed.

Lemma count_full P l x : length l ≤ count P l → x ∈ l → P x = true.
Proof.
  induction l as [|a l IH]; intros Hc Hx; [by apply elem_of_nil in Hx|].
  cbn in Hc. pose proof (count_le_length P l).
  destruct (P a) eqn:Ha; [|lia].
  apply elem_of_cons in Hx as [->|Hx]; [done|]. apply IH; [lia|done].
Qed.

Section Loop.
Variable vertices : nat.
Variable edges : list Edge.
Variable startVertex : nat.
Hypothesis Hvalid : valid_graph vertices edges.
Hypothesis Hstart : startVertex < vertices.

Lemma grow_spec fuel : ∀ st,
  prim_inv vertices edges startVertex st →
  vertices ≤ fuel + length (st_mstEdges st) + 1 →
  ∃ st',
    grow vertices edges fuel st = Some st'
    ∧ prim_inv vertices edges startVertex st'
    ∧ ∀ e, ¬ crossing edges (st_visited st') e.
Proof.
  induction fuel as [|fuel IH]; intros st Hinv Hfuel.
  - exists st. rewrite (pi_len _ _ _ _ Hinv) || idtac.
    assert (Hfull : ¬ (Z.of_nat (length (st_mstEdges st)) < Z.of_nat vertices - 1)%Z)
      by lia.
    cbn [grow]. rewrite bool_decide_eq_false_2 by done.
    split; [done|]. split; [done|].
    intros e (Hen & _ & Ht).
    destruct (entry_valid vertices edges Hvalid e Hen) as [_ Htn].
    rewrite (count_full (is_visited (st_visited st)) (seq 0 vertices) (to e)) in Ht;
      [done| |apply elem_of_seq; lia].
    rewrite (pi_count _ _ _ _ Hinv), length_seq. lia.
  - cbn [grow]. case_bool_decide as Hcond.
    2:{ exists st. split; [done|]. split; [done|].
        intros e (Hen & _ & Ht).
        destruct (entry_valid vertices edges Hvalid e Hen) as [_ Htn].
        rewrite (count_full (is_visited (st_visited st)) (seq 0 vertices) (to e)) in Ht;
          [done| |apply elem_of_seq; lia].
        rewrite (pi_count _ _ _ _ Hinv), length_seq. lia. }
    destruct (getAvailableEdges vertices edges (st_visited st)) as [|f rest] eqn:Hav.
    + exists st. split; [done|]. split; [done|].
      intros e He%(available_iff vertices edges Hvalid). rewrite Hav in He.
      by apply elem_of_nil in He.
    + destruct (available_head vertices edges Hvalid _ _ _ Hav) as [Hcr Hmin].
      apply IH.
      * apply (add_vertex vertices edges startVertex Hvalid Hstart st f rest);
          [done|done|].
        assert (Hnew : prim_inv vertices edges startVertex
                  (mkState (<[to f := true]> (st_visited st)) (st_mstEdges st ++ [f])
                     (st_totalWeight st + weight f) [])).
        { by apply (add_vertex vertices edges startVertex Hvalid Hstart st f rest). }
        unfold push. apply Forall_app. split; [apply Forall_app; split|].
        -- apply Hinv.
        -- constructor; [|constructor]. split; [|split]; cbn.
           ++ rewrite <- Hav. by apply available_sorted.
           ++ intros e. rewrite <- Hav. by apply available_iff.
           ++ done.
        -- constructor; [|constructor]. split; [|split]; cbn.
           ++ by apply available_sorted.
           ++ intros e. by apply available_iff.
           ++ split; [done|]. split; [done|]. split; [apply last_snoc|].
              apply (pi_ends _ _ _ _ Hnew f). apply elem_of_app. right. left.
      * cbn [st_mstEdges]. rewrite length_app. cbn. lia.
Qed.

(** The state in which the loop ends. *)
Lemma final_state :
  let visited := <[startVertex := true]> (replicate vertices false) in
  ∃ st,
    grow vertices edges vertices
      (mkState visited [] 0
         (push [] (λ c, mkStep c (Start startVertex) visited [] (Some startVertex)
                          None 0 (getAvailableEdges vertices edges visited))))
    = Some st
    ∧ prim_inv vertices edges startVertex st
    ∧ (∀ v, is_visited (st_visited st) v = true ↔ connected edges startVertex v)
    ∧ ∀ e, ¬ crossing edges (st_visited st) e.
Proof.
  intros visited.
  destruct (grow_spec vertices _
              (initial_inv vertices edges startVertex Hvalid Hstart))
    as (st & Hrun & Hinv & Hnone); [cbn; lia|].
  exists st. split; [done|]. split; [done|]. split; [|done].
  intros v. split.
  - intros Hv%(pi_conn _ _ _ _ Hinv). eapply connected_through; [|exact Hv].
    intros e He. by apply entry_connected, (pi_edges _ _ _ _ Hinv).
  - enough (∀ x y, connected edges x y → is_visited (st_visited st) x = true →
                   is_visited (st_visited st) y = true) as Hall.
    { intros Hc. apply (Hall _ _ Hc), Hinv. }
    clear v. induction 1 as [|x y z e Hxy IH He Hl]; [done|]. intros Hx.
    specialize (IH Hx).
    destruct (is_visited (st_visited st) z) eqn:Hz; [done|]. exfalso.
    destruct Hl as [[<- <-]|[<- <-]].
    + apply (Hnone e). split; [exists e; auto|done].
    + apply (Hnone (Dijkstra.reversed e)). split; [exists e; auto|done].
Qed.
End Loop.

(** On a graph whose edges join vertices and with a start vertex of the
    graph, [primMST] returns. In its last step the accepted edges are
    entries of the adjacency list, none closes a cycle with those accepted
    before, the visited vertices are exactly the ones joined to the start
    vertex, in the graph as well as by the accepted edges, there is one
    visited vertex more than accepted edges, and [totalWeight] is the sum
    of the accepted weights. *)
Theorem prim_grows_spanning_tree (vertices : nat) (edges : list Edge)
    (startVertex : nat) :
  valid_graph vertices edges → startVertex < vertices →
  ∃ trace final,
    primMST vertices edges startVertex = Some trace
    ∧ last trace = Some final
    ∧ description final = Complete (totalWeight final)
    ∧ forest (mstEdges final)
    ∧ (∀ e, e ∈ mstEdges final → entry edges e)
    ∧ (∀ v, is_visited (visited final) v = true
            ↔ connected edges startVertex v)
    ∧ (∀ v, connected edges startVertex v
            ↔ connected (mstEdges final) startVertex v)
    ∧ count (is_visited (visited final)) (seq 0 vertices)
      = length (mstEdges final) + 1
    ∧ totalWeight final = total_weight (mstEdges final).
Proof.
  intros Hvalid Hstart. unfold primMST.
  destruct (final_state vertices edges startVertex Hvalid Hstart)
    as (st & -> & Hinv & Hvis & Hnone).
  cbn [mbind option_bind]. eexists _, _. split; [reflexivity|].
  unfold push at 1. rewrite last_snoc. split; [reflexivity|].
  cbn [description totalWeight mstEdges visited].
  split; [done|]. split; [apply Hinv|]. split; [apply Hinv|]. split; [done|].
  split; [|split; apply Hinv].
  intros v. rewrite <- Hvis. apply Hinv.
Qed.

Lemma prim_grows_spanning_tree_witness :
  ∃ trace final,
    primMST 6 default_edges 0 = Some trace
    ∧ last trace = Some final
    ∧ description final = Complete (totalWeight final)
    ∧ forest (mstEdges final)
    ∧ (∀ e, e ∈ mstEdges final → entry default_edges e)
    ∧ (∀ v, is_visited (visited final) v = true
            ↔ connected default_edges 0 v)
    ∧ (∀ v, connected default_edges 0 v
            ↔ connected (mstEdges final) 0 v)
    ∧ count (is_visited (visited final)) (seq 0 6)
      = length (mstEdges final) + 1
    ∧ totalWeight final = total_weight (mstEdges final).
Proof.
  apply (prim_grows_spanning_tree 6 default_edges 0); [|lia].
  repeat constructor; cbn; lia.
Defined.

(** Every step of the trace lists as available exactly the entries of the
    adjacency list that lead from a visited vertex to an unvisited one,
    sorted by weight; the edge of a "find minimum" step is the first of
    them and weighs no more than any of them, and the vertex of an "add
    vertex" step is the end of the last accepted edge. *)
Theorem prim_picks_lightest_crossing_edge (vertices : nat) (edges : list Edge)
    (startVertex : nat) :
  valid_graph vertices edges → startVertex < vertices →
  ∃ trace,
    primMST vertices edges startVertex = Some trace
    ∧ Forall (step_ok edges) trace.
Proof.
  intros Hvalid Hstart. unfold primMST.
  destruct (final_state vertices edges startVertex Hvalid Hstart)
    as (st & -> & Hinv & Hvis & Hnone).
  cbn [mbind option_bind]. eexists. split; [reflexivity|].
  unfold push at 1. apply Forall_app. split; [apply Hinv|].
  constructor; [|constructor]. split; [constructor|]. split; [|done]. cbn.
  intros e. split; [by intros ?%elem_of_nil|]. intros Hc. by apply Hnone in Hc.
Qed.

Lemma prim_picks_lightest_crossing_edge_witness :
  ∃ trace,
    primMST 6 default_edges 0 = Some trace
    ∧ Forall (step_ok default_edges) trace.
Proof.
  apply (prim_picks_lightest_crossing_edge 6 default_edges 0); [|lia].
  repeat constructor; cbn; lia.
Defined.

(** The [totalWeight] that [primMST] reports is the least possible for the
    part of the graph that the start vertex is joined to: a cycle-free
    choice of edges of that part which joins the start vertex to all of it
    weighs at least as much. *)
Theorem prim_weight_is_minimum (vertices : nat) (edges : list Edge)
    (startVertex : nat) :
  valid_graph vertices edges → startVertex < vertices →
  ∃ trace final,
    primMST vertices edges startVertex = Some trace
    ∧ last trace = Some final
    ∧ description final = Complete (totalWeight final)
    ∧ ∀ T, forest T →
           (∀ e, e ∈ T → e ∈ edges ∧ connected edges startVertex (from e)) →
           (∀ v, connected edges startVertex v → connected T startVertex v) →
           (totalWeight final ≤ total_weight T)%Z.
Proof.
  intros Hvalid Hstart. unfold primMST.
  destruct (final_state vertices edges startVertex Hvalid Hstart)
    as (st & -> & Hinv & Hvis & Hnone).
  cbn [mbind option_bind]. eexists _, _. split; [reflexivity|].
  unfold push at 1. rewrite last_snoc. split; [reflexivity|].
  cbn [description totalWeight]. split; [done|].
  intros T HT HTsub HTspan. rewrite (pi_weight _ _ _ _ Hinv).
  pose proof Hvalid as Hall. unfold valid_graph in Hall.
  rewrite Forall_forall in Hall.
  apply (light_forest_le vertices); [apply Hinv|done| | | |].
  - apply Forall_forall. intros e He.
    by apply (entry_valid vertices edges Hvalid), (pi_edges _ _ _ _ Hinv).
  - apply Forall_forall. intros e He. by apply Hall, HTsub.
  - intros e He. destruct (HTsub e He) as [Hin Hc].
    apply (pi_inside _ _ _ _ Hinv); [done|by apply Hvis|].
    apply Hvis. eapply conn_step; [exact Hc|exact Hin|by left].
  - intros e He. destruct (pi_ends _ _ _ _ Hinv e He) as [Hf Ht].
    apply Hvis, HTspan in Hf. apply Hvis, HTspan in Ht.
    eapply connected_trans; [apply connected_sym, Hf|exact Ht].
Qed.

Lemma prim_weight_is_minimum_witness :
  ∃ trace final,
    primMST 6 default_edges 0 = Some trace
    ∧ last trace = Some final
    ∧ description final = Complete (totalWeight final)
    ∧ ∀ T, forest T →
           (∀ e, e ∈ T → e ∈ default_edges ∧ connected default_edges 0 (from e)) →
           (∀ v, connected default_edges 0 v → connected T 0 v) →
           (totalWeight final ≤ total_weight T)%Z.
Proof.
  apply (prim_weight_is_minimum 6 default_edges 0); [|lia].
  repeat constructor; cbn; lia.
Defined.

End Prim.

(** ** Huffman: the code table *)

Module HuffmanCodes.
Import Huffman.

(** How often [c] comes in [l]. *)
Definition occurrences (c : jsstring) (l : list jsstring) : nat :=
  length (filter (λ x, x = c) l).









(** What [buildHuffmanTree] returns on a text that is not empty. *)
Lemma build_spec text :
  text ≠ [] →
  ∃ out root,
    buildHuffmanTree text = Some out
    ∧ frequencies out = calculateFrequencies text
    ∧ huffmanCodes out = generateHuffmanCodes root [] ∅
    ∧ encodedText out = encode (huffmanCodes out) text
    ∧ leaves root ≡ₚ (calculateFrequencies text).*1.
Proof.
  intros Hne. unfold buildHuffmanTree.
  destruct (calculateFrequencies_keys text) as [Hnd Hkeys].
  set (freq := calculateFrequencies text) in *.
  set (nodes := imap _ (entries freq)).
  assert (Hleaves : nodes ≫= leaves ≡ₚ freq.*1).
  { unfold nodes. rewrite (leaves_imap (entries freq) (λ i, i)).
    by rewrite entries_perm. }
  assert (Hqueue : sort_by freq_of nodes ≠ []).
  { intros Hnil. pose proof (sort_by_perm freq_of nodes) as Hp.
    rewrite Hnil in Hp. apply Permutation_nil_l in Hp.
    assert (Hn : nodes = []) by done.
    rewrite Hn in Hleaves. cbn in Hleaves. apply Permutation_nil_l in Hleaves.
    assert (Hf : freq.*1 = []) by done.
    destruct text as [|u text]; [done|].
    assert (Hu : ∃ c, c ∈ code_points (u :: text)).
    { cbn [code_points]. destruct text as [|b rest]; [exists [u]; left|].
      destruct (is_high u && is_low b); eexists; left. }
    destruct Hu as [c Hc]. apply Hkeys in Hc. rewrite Hf in Hc.
    by apply elem_of_nil in Hc. }
  destruct (merge_loop_spec (length (sort_by freq_of nodes))
              (sort_by freq_of nodes) (length nodes)
              (push [] (λ c, mkStep c Initialize nodes None)))
    as (root & steps' & -> & Hroot); [done|done|].
  cbn [mbind option_bind head]. eexists _, root. split; [reflexivity|].
  cbn [frequencies huffmanCodes encodedText].
  split; [done|]. split; [done|]. split; [done|].
  by rewrite Hroot, sort_by_perm.
Qed.



(** The encoded text determines the text: on a text without surrogate
    pairs, no other string of characters of the code table has the same
    encoding. *)
Theorem huffman_encoding_is_unambiguous (text : jsstring) :
  text ≠ [] → no_surrogate_pair text →
  ∃ out,
    buildHuffmanTree text = Some out
    ∧ ∀ other,
        (∀ u, u ∈ other → is_Some (huffmanCodes out !! [u])) →
        encode (huffmanCodes out) other = encodedText out →
        other = text.
Proof.
  intros Hne Hno.
  destruct (build_spec text Hne) as (out & root & Hout & Hfreq & Hcodes & Henc & Hroot).
  destruct (calculateFrequencies_keys text) as [Hnd Hkeys].
  assert (Hndr : NoDup (leaves root)) by (by rewrite Hroot).
  destruct (root_codes root Hndr) as (Hall & Hnonempty & Hprefix).
  exists out. split; [done|]. intros other Hother Hsame.
  rewrite Henc, Hcodes in Hsame. rewrite Hcodes in Hother.
  assert (Htext : ∀ u, u ∈ text → is_Some (generateHuffmanCodes root [] ∅ !! [u])).
  { intros u Hu. apply Hall. rewrite Hroot. apply Hkeys.
    rewrite code_points_units by done. apply list_elem_of_fmap. by exists u. }
  pose proof (decode_encode _ Hnonempty Hprefix other Hother) as H1.
  pose proof (decode_encode _ Hnonempty Hprefix text Htext) as H2.
  rewrite Hsame in H1. congruence.
Qed.

Lemma huffman_encoding_is_unambiguous_witness :
  ∃ out,
    buildHuffmanTree (of_string "ABRACADABRA") = Some out
    ∧ ∀ other,
        (∀ u, u ∈ other → is_Some (huffmanCodes out !! [u])) →
        encode (huffmanCodes out) other = encodedText out →
        other = of_string "ABRACADABRA".
Proof.
  apply huffman_encoding_is_unambiguous; [done|].
  intros i a b Ha Hb.
  do 11 (destruct i as [|i]; [cbn in Ha, Hb; by simplify_eq|]).
  done.
Defined.

End HuffmanCodes.
